(** * The schema-salad reference resolver ([ref_resolver.py]), embedded in Rocq

    The development follows the layout of the Python module:

    - [PyStr]: the [str] methods the module calls ([split], [find],
      [startswith], slicing, [join], [lower]);
    - [Urllib]: the functions of [urllib.parse] it imports ([urlsplit],
      [urlunsplit], [urljoin], [urldefrag]);
    - [PyObj]: the runtime values of a loaded YAML document.  Mappings and
      sequences are objects of a store and are named by their address, as
      [dict] and [list] are in Python: the resolver updates documents in
      place and the index keeps references to them;
    - [Salad]: the class [Loader], method by method;
    - the properties of the resolver.

    Strings are sequences of ASCII characters.  Floating point scalars are
    not part of the document model. *)

From Stdlib Require Import ZArith Ascii String List Lia Bool Sorted.
From stdpp Require Import base tactics option list strings.

Set Warnings "-register-all".
Local Open Scope Z_scope.
Local Open Scope nat_scope.

(* ===================================================================== *)
(** ** Python string methods *)
(* ===================================================================== *)

Module PyStr.

(** [c in s] for a one-character string [c]. *)
Fixpoint contains (c : ascii) (s : string) : bool :=
  match s with
  | EmptyString => false
  | String a r => if Ascii.eqb a c then true else contains c r
  end.

(** [s.find(c)], with [None] for Python's [-1]. *)
Fixpoint find (c : ascii) (s : string) : option nat :=
  match s with
  | EmptyString => None
  | String a r => if Ascii.eqb a c then Some 0 else S <$> find c r
  end.

(** [s.rfind(c)]. *)
Fixpoint rfind (c : ascii) (s : string) : option nat :=
  match s with
  | EmptyString => None
  | String a r =>
      match rfind c r with
      | Some i => Some (S i)
      | None => if Ascii.eqb a c then Some 0 else None
      end
  end.

(** [s[:n]] and [s[n:]]. *)
Fixpoint take (n : nat) (s : string) : string :=
  match n, s with
  | S n', String a r => String a (take n' r)
  | _, _ => EmptyString
  end.

Fixpoint drop (n : nat) (s : string) : string :=
  match n, s with
  | S n', String _ r => drop n' r
  | _, _ => s
  end.

(** [s.find(c, start)]. *)
Definition find_at (c : ascii) (s : string) (start : nat) : option nat :=
  (fun i => start + i) <$> find c (drop start s).

(** [s.split(c)]: never the empty list. *)
Fixpoint split (c : ascii) (s : string) : list string :=
  match s with
  | EmptyString => [EmptyString]
  | String a r =>
      if Ascii.eqb a c then EmptyString :: split c r
      else match split c r with
           | x :: xs => String a x :: xs
           | [] => [String a EmptyString]
           end
  end.

(** [s.split(c, 1)] as the pair (before, after); [(s, "")] without [c]. *)
Fixpoint split1 (c : ascii) (s : string) : string * string :=
  match s with
  | EmptyString => (EmptyString, EmptyString)
  | String a r =>
      if Ascii.eqb a c then (EmptyString, r)
      else let '(x, y) := split1 c r in (String a x, y)
  end.

(** [sep.join(l)]. *)
Fixpoint join (sep : string) (l : list string) : string :=
  match l with
  | [] => EmptyString
  | [x] => x
  | x :: r => x +:+ sep +:+ join sep r
  end.

(** [s.startswith(p)]. *)
Fixpoint startswith (p s : string) : bool :=
  match p, s with
  | EmptyString, _ => true
  | String a p', String b s' => Ascii.eqb a b && startswith p' s'
  | String _ _, EmptyString => false
  end.

Definition is_upper (a : ascii) : bool :=
  let n := nat_of_ascii a in (65 <=? n) && (n <=? 90).
Definition is_lower (a : ascii) : bool :=
  let n := nat_of_ascii a in (97 <=? n) && (n <=? 122).
Definition is_digit (a : ascii) : bool :=
  let n := nat_of_ascii a in (48 <=? n) && (n <=? 57).
Definition is_alpha (a : ascii) : bool := is_upper a || is_lower a.

Definition lower_char (a : ascii) : ascii :=
  if is_upper a then ascii_of_nat (nat_of_ascii a + 32) else a.

Fixpoint lower (s : string) : string :=
  match s with
  | EmptyString => EmptyString
  | String a r => String (lower_char a) (lower r)
  end.

Fixpoint forallb (p : ascii -> bool) (s : string) : bool :=
  match s with
  | EmptyString => true
  | String a r => p a && forallb p r
  end.

(** [s.lstrip(chars)] for a set of characters given as a predicate. *)
Fixpoint lstrip (p : ascii -> bool) (s : string) : string :=
  match s with
  | EmptyString => EmptyString
  | String a r => if p a then lstrip p r else s
  end.

(** Every occurrence of the characters of [p] removed
    ([s.replace(b, "")] for each [b]). *)
Fixpoint remove (p : ascii -> bool) (s : string) : string :=
  match s with
  | EmptyString => EmptyString
  | String a r => if p a then remove p r else String a (remove p r)
  end.

Definition nonempty (s : string) : bool :=
  match s with EmptyString => false | _ => true end.

(** [s in l] for a list of strings. *)
Definition mem (s : string) (l : list string) : bool :=
  existsb (String.eqb s) l.

End PyStr.

(* ===================================================================== *)
(** ** Exceptions and results *)
(* ===================================================================== *)

(** The text of a [ValidationException] is kept as a term: the messages of
    the module embed [id(loader)] and [repr]s, which carry no information
    here. *)
Inductive Msg : Type :=
  | MRefreshingContext
  | MReferenceNotFound (frg doc_url : string)
  | MMetadataMustBeDict
  | MNoMapPredicate (field key : string)
  | MIdentifierMustBeString (field : string)
  | MInField (file_base key : string) (inner : Msg)
  | MInPosition (file_base : string) (i : nat) (inner : Msg)
  | MSyntaxError
  | MUndefinedRefTried (field link : string) (tried : list string)
  | MUndefinedRef (field link : string)
  | MBadLinkType
  | MJoin (errors : list Msg)
  | MCheckingObject (docid : string) (inner : Msg)
  | MCheckingField (key : string) (inner : Msg)
  | MCheckingPosition (i : nat) (inner : Msg).

Inductive Exn : Type :=
  | ValidationException (m : Msg)
  | ValueError
  | RuntimeError
  | TypeError
  | AttributeError
  | KeyError
  | OtherError          (* an exception of a collaborator (YAML, RDF) *)
  | OutOfModel          (* behaviour this development does not describe *)
  | OutOfFuel.

Inductive Res (A : Type) : Type :=
  | Ok (a : A)
  | Raise (e : Exn).
Arguments Ok {A} a.
Arguments Raise {A} e.

Definition res_bind {A B} (r : Res A) (k : A -> Res B) : Res B :=
  match r with
  | Ok a => k a
  | Raise e => Raise e
  end.

#[global] Instance Res_ret : MRet Res := fun _ a => Ok a.
#[global] Instance Res_bind : MBind Res := fun _ _ k r => res_bind r k.

(* ===================================================================== *)
(** ** [urllib.parse] *)
(* ===================================================================== *)

Module Urllib.

Definition uses_relative : list string :=
  [""; "ftp"; "http"; "gopher"; "nntp"; "imap"; "wais"; "file"; "https";
   "shttp"; "mms"; "prospero"; "rtsp"; "rtspu"; "sftp"; "svn"; "svn+ssh";
   "ws"; "wss"].

Definition uses_netloc : list string :=
  [""; "ftp"; "http"; "gopher"; "nntp"; "telnet"; "imap"; "wais"; "file";
   "mms"; "https"; "shttp"; "snews"; "prospero"; "rtsp"; "rtspu"; "rsync";
   "svn"; "svn+ssh"; "sftp"; "nfs"; "git"; "git+ssh"; "ws"; "wss"].

Definition uses_params : list string :=
  [""; "ftp"; "hdl"; "prospero"; "http"; "imap"; "https"; "shttp"; "rtsp";
   "rtspu"; "sip"; "sips"; "mms"; "sftp"; "tel"].

Definition scheme_char (a : ascii) : bool :=
  PyStr.is_alpha a || PyStr.is_digit a
  || Ascii.eqb a "+" || Ascii.eqb a "-" || Ascii.eqb a ".".

(** [_WHATWG_C0_CONTROL_OR_SPACE]: the characters 0x00 to 0x20. *)
Definition c0_or_space (a : ascii) : bool := nat_of_ascii a <=? 32.

(** [_UNSAFE_URL_BYTES_TO_REMOVE]: tab, carriage return, line feed. *)
Definition unsafe_byte (a : ascii) : bool :=
  let n := nat_of_ascii a in (n =? 9) || (n =? 13) || (n =? 10).

Record SplitResult : Type := mkSplit {
  scheme : string;
  netloc : string;
  path : string;
  query : string;
  fragment : string
}.

(** [_splitnetloc(url, 2)]: the domain runs up to the first of [/?#]. *)
Definition _splitnetloc (url : string) (start : nat) : string * string :=
  let upd (c : ascii) (delim : nat) :=
    match PyStr.find_at c url start with
    | Some w => Nat.min delim w
    | None => delim
    end in
  let delim :=
    upd "#"%char (upd "?"%char (upd "/"%char (String.length url))) in
  (PyStr.drop start (PyStr.take delim url), PyStr.drop delim url).

(** [urlsplit(url)].  A netloc with one bracket but not the other raises
    [ValueError]; a netloc with both is checked by [ipaddress] in Python and
    is left undescribed. *)
Definition urlsplit (url0 : string) : Res SplitResult :=
  let url := PyStr.lstrip c0_or_space url0 in
  let url := PyStr.remove unsafe_byte url in
  let '(scheme, url) :=
    match PyStr.find ":" url, url with
    | Some (S i), String a0 _ =>
        if PyStr.is_alpha a0 && PyStr.forallb scheme_char (PyStr.take (S i) url)
        then (PyStr.lower (PyStr.take (S i) url), PyStr.drop (S (S i)) url)
        else (EmptyString, url)
    | _, _ => (EmptyString, url)
    end in
  let split_rest (netloc url : string) : SplitResult :=
    let '(url, fragment) :=
      if PyStr.contains "#" url then PyStr.split1 "#" url
      else (url, EmptyString) in
    let '(url, query) :=
      if PyStr.contains "?" url then PyStr.split1 "?" url
      else (url, EmptyString) in
    mkSplit scheme netloc url query fragment in
  if PyStr.startswith "//" url then
    let '(netloc, url) := _splitnetloc url 2 in
    match PyStr.contains "[" netloc, PyStr.contains "]" netloc with
    | false, false => Ok (split_rest netloc url)
    | true, true => Raise OutOfModel
    | _, _ => Raise ValueError
    end
  else Ok (split_rest EmptyString url).

(** [urlunsplit((scheme, netloc, url, query, fragment))]. *)
Definition urlunsplit (scheme netloc url query fragment : string) : string :=
  let url :=
    if PyStr.nonempty netloc
       || (PyStr.nonempty scheme && PyStr.mem scheme uses_netloc
           && negb (PyStr.startswith "//" url))
    then
      let url := if PyStr.nonempty url && negb (PyStr.startswith "/" url)
                 then "/" +:+ url else url in
      "//" +:+ netloc +:+ url
    else url in
  let url := if PyStr.nonempty scheme then scheme +:+ ":" +:+ url else url in
  let url := if PyStr.nonempty query then url +:+ "?" +:+ query else url in
  if PyStr.nonempty fragment then url +:+ "#" +:+ fragment else url.

(** [SplitResult.geturl()]. *)
Definition geturl (r : SplitResult) : string :=
  urlunsplit (scheme r) (netloc r) (path r) (query r) (fragment r).

(** [_splitparams(url)], called when [';' in url]. *)
Definition _splitparams (url : string) : string * string :=
  let cut (i : nat) := (PyStr.take i url, PyStr.drop (S i) url) in
  if PyStr.contains "/" url then
    match PyStr.rfind "/" url with
    | Some r =>
        match PyStr.find_at ";" url r with
        | Some i => cut i
        | None => (url, EmptyString)
        end
    | None => (url, EmptyString)
    end
  else
    match PyStr.find ";" url with
    | Some i => cut i
    | None => (url, EmptyString)
    end.

Record ParseResult : Type := mkParse {
  p_scheme : string;
  p_netloc : string;
  p_path : string;
  p_params : string;
  p_query : string;
  p_fragment : string
}.

(** [urlparse(url, scheme)]: the default scheme is used when [url] has
    none. *)
Definition urlparse (url default_scheme : string) : Res ParseResult :=
  res_bind (urlsplit url) (fun r =>
    let sch := if PyStr.nonempty (scheme r) then scheme r
               else PyStr.remove unsafe_byte
                      (PyStr.lstrip c0_or_space default_scheme) in
    let '(url, params) :=
      if PyStr.mem sch uses_params && PyStr.contains ";" (path r)
      then _splitparams (path r) else (path r, EmptyString) in
    Ok (mkParse sch (netloc r) url params (query r) (fragment r))).

Definition urlunparse (scheme netloc url params query fragment : string)
  : string :=
  let url := if PyStr.nonempty params then url +:+ ";" +:+ params else url in
  urlunsplit scheme netloc url query fragment.

(** [segments[1:-1] = filter(None, segments[1:-1])]. *)
Definition filter_middle (segments : list string) : list string :=
  match segments with
  | [] => []
  | x :: r =>
      match rev r with
      | [] => [x]
      | y :: m => x :: filter (fun s => PyStr.nonempty s = true) (rev m) ++ [y]
      end
  end.

(** The loop of [urljoin] over the segments: [..] pops (an empty stack is
     left alone), [.] is skipped. *)
Fixpoint resolve_segments (segments resolved_path : list string)
  : list string :=
  match segments with
  | [] => resolved_path
  | seg :: r =>
      if String.eqb seg ".." then resolve_segments r (removelast resolved_path)
      else if String.eqb seg "." then resolve_segments r resolved_path
      else resolve_segments r (resolved_path ++ [seg])
  end.

(** [urljoin(base, url)]. *)
Definition urljoin (base url : string) : Res string :=
  if negb (PyStr.nonempty base) then Ok url
  else if negb (PyStr.nonempty url) then Ok base
  else
    res_bind (urlparse base EmptyString) (fun b =>
    res_bind (urlparse url (p_scheme b)) (fun u =>
      let scheme := p_scheme u in
      if negb (String.eqb scheme (p_scheme b))
         || negb (PyStr.mem scheme uses_relative)
      then Ok url
      else if PyStr.mem scheme uses_netloc && PyStr.nonempty (p_netloc u)
      then Ok (urlunparse scheme (p_netloc u) (p_path u) (p_params u)
                 (p_query u) (p_fragment u))
      else
        let netloc := if PyStr.mem scheme uses_netloc then p_netloc b
                      else p_netloc u in
        if negb (PyStr.nonempty (p_path u))
           && negb (PyStr.nonempty (p_params u))
        then
          let query := if PyStr.nonempty (p_query u) then p_query u
                       else p_query b in
          Ok (urlunparse scheme netloc (p_path b) (p_params b) query
                (p_fragment u))
        else
          let base_parts := PyStr.split "/" (p_path b) in
          let base_parts :=
            if PyStr.nonempty (List.last base_parts EmptyString)
            then removelast base_parts else base_parts in
          let segments :=
            if PyStr.startswith "/" (p_path u)
            then PyStr.split "/" (p_path u)
            else filter_middle (base_parts ++ PyStr.split "/" (p_path u)) in
          let resolved_path := resolve_segments segments [] in
          let lastseg := List.last segments EmptyString in
          let resolved_path :=
            if String.eqb lastseg "." || String.eqb lastseg ".."
            then resolved_path ++ [EmptyString] else resolved_path in
          let joined := PyStr.join "/" resolved_path in
          Ok (urlunparse scheme netloc
                (if PyStr.nonempty joined then joined else "/")
                (p_params u) (p_query u) (p_fragment u)))).

(** [urldefrag(url)]: the URL without its fragment, and the fragment. *)
Definition urldefrag (url : string) : Res (string * string) :=
  if PyStr.contains "#" url then
    res_bind (urlparse url EmptyString) (fun u =>
      Ok (urlunparse (p_scheme u) (p_netloc u) (p_path u) (p_params u)
            (p_query u) EmptyString,
          p_fragment u))
  else Ok (url, EmptyString).

End Urllib.


(* ===================================================================== *)
(** ** Python values and the object store *)
(* ===================================================================== *)

Module PyObj.

(** *** Insertion-ordered dictionaries with string keys *)

Section Dict.
Context {V : Type}.

Fixpoint dict_get (k : string) (d : list (string * V)) : option V :=
  match d with
  | [] => None
  | (k', v) :: r => if String.eqb k k' then Some v else dict_get k r
  end.

Definition dict_has (k : string) (d : list (string * V)) : bool :=
  match dict_get k d with Some _ => true | None => false end.

(** [d[k] = v]: an existing key keeps its place, a new one goes last. *)
Fixpoint dict_set (k : string) (v : V) (d : list (string * V))
  : list (string * V) :=
  match d with
  | [] => [(k, v)]
  | (k', v') :: r =>
      if String.eqb k k' then (k, v) :: r else (k', v') :: dict_set k v r
  end.

(** [del d[k]]. *)
Fixpoint dict_del (k : string) (d : list (string * V))
  : list (string * V) :=
  match d with
  | [] => []
  | (k', v') :: r =>
      if String.eqb k k' then r else (k', v') :: dict_del k r
  end.

Definition dict_keys (d : list (string * V)) : list string := map fst d.

(** [d.update(e)]. *)
Definition dict_update (d e : list (string * V)) : list (string * V) :=
  fold_left (fun acc kv => dict_set (fst kv) (snd kv) acc) e d.
End Dict.

(** [s.add(x)] on a set kept in insertion order. *)
Definition set_add (x : string) (s : list string) : list string :=
  if PyStr.mem x s then s else s ++ [x].

(** *** Documents as trees

    What the YAML parser returns, and the shape of a [@context]. *)
Inductive Node : Type :=
  | NNone
  | NBool (b : bool)
  | NInt (z : Z)
  | NStr (s : string)
  | NList (l : list Node)
  | NDict (kvs : list (string * Node)).

(** *** Values and objects *)

Definition addr := nat.

Inductive Val : Type :=
  | VNone
  | VBool (b : bool)
  | VInt (z : Z)
  | VStr (s : string)
  | VRef (a : addr).

Inductive Obj : Type :=
  | ODict (kvs : list (string * Val))
  | OList (xs : list Val).

(** *** The collaborators: transports, file system, YAML parser *)

Inductive YamlResult : Type :=
  | YDoc (n : Node)
  | YParserError
  | YOtherError.

Record World : Type := mkWorld {
  (** [requests.get(url)] followed by [raise_for_status()]: the text, or
      [None] when either raises *)
  http_get : string -> option string;
  (** [open(path).read()], [None] for [OSError] or [IOError] *)
  file_read : string -> option string;
  (** [os.path.exists(path)] *)
  file_exists : string -> bool;
  (** [yaml.load(text, Loader=SafeLoader)] *)
  yaml_load : string -> YamlResult;
  (** [os.path.abspath('.')] *)
  cwd : string
}.

Inductive IOEvent : Type :=
  | HttpGet (url : string)
  | FileOpen (path : string).

(** *** The state

    The store of objects, the two dictionaries a loader shares with its
    sub-loaders (the normalizing index [idx] and the text [cache]), and the
    trace of the transport reads made so far. *)
Record State : Type := mkState {
  heap : list Obj;
  idx : list (string * Val);
  cache : list (string * string);
  io_log : list IOEvent
}.

(** Computations that read and update a state of type [S] and may raise;
    the state reached when an exception is raised is kept. *)
Definition SR (S A : Type) : Type := S -> Res A * S.

Definition ret {S A} (a : A) : SR S A := fun st => (Ok a, st).

Definition bind {S A B} (m : SR S A) (k : A -> SR S B) : SR S B :=
  fun st =>
    match m st with
    | (Ok a, st') => k a st'
    | (Raise e, st') => (Raise e, st')
    end.

Notation "x <- c1 ;; c2" := (bind c1 (fun x => c2))
  (at level 100, c1 at next level, right associativity, only parsing).
Notation "c1 ;;; c2" := (bind c1 (fun _ => c2))
  (at level 100, c2 at level 200, right associativity, only parsing).

Definition raise {S A} (e : Exn) : SR S A := fun st => (Raise e, st).

Definition lift {S A} (r : Res A) : SR S A := fun st => (r, st).

Definition get_state {S} : SR S S := fun st => (Ok st, st).

Definition modify {S} (f : S -> S) : SR S unit := fun st => (Ok tt, f st).

Abbreviation M := (SR State).

(** [try: m except ValidationException as v: h v]. *)
Definition try_validation {S A} (m : SR S A) (h : Msg -> SR S A)
  : SR S A :=
  fun st =>
    match m st with
    | (Raise (ValidationException v), st') => h v st'
    | r => r
    end.

(** [for x in l: body x], over a list fixed when the loop starts. *)
Fixpoint for_each {S A} (l : list A) (body : A -> SR S unit) : SR S unit :=
  match l with
  | [] => ret tt
  | x :: r => body x ;;; for_each r body
  end.

(** A loop that threads a value ([base_url], an accumulator). *)
Fixpoint fold_each {S A B} (l : list A) (acc : B)
    (body : B -> A -> SR S B) : SR S B :=
  match l with
  | [] => ret acc
  | x :: r => acc' <- body acc x ;; fold_each r acc' body
  end.

(** A list comprehension [[f x for x in l]]. *)
Fixpoint map_each {S A B} (l : list A) (f : A -> SR S B)
  : SR S (list B) :=
  match l with
  | [] => ret []
  | x :: r => y <- f x ;; ys <- map_each r f ;; ret (y :: ys)
  end.

(** *** Store operations *)

Definition alloc (o : Obj) : M Val :=
  fun st =>
    (Ok (VRef (length (heap st))),
     mkState (heap st ++ [o]) (idx st) (cache st) (io_log st)).

Definition load (a : addr) : M Obj :=
  fun st =>
    match heap st !! a with
    | Some o => (Ok o, st)
    | None => (Raise OutOfModel, st)
    end.

Definition store (a : addr) (o : Obj) : M unit :=
  fun st =>
    (Ok tt, mkState (<[a := o]> (heap st)) (idx st) (cache st) (io_log st)).

(** [isinstance(v, dict)], [isinstance(v, list)], [isinstance(v, str)]. *)
Definition is_dict (v : Val) : M bool :=
  match v with
  | VRef a => o <- load a ;;
              ret (match o with ODict _ => true | OList _ => false end)
  | _ => ret false
  end.

Definition is_list (v : Val) : M bool :=
  match v with
  | VRef a => o <- load a ;;
              ret (match o with OList _ => true | ODict _ => false end)
  | _ => ret false
  end.

Definition is_str (v : Val) : bool :=
  match v with VStr _ => true | _ => false end.

(** The items of a mapping and the elements of a sequence; any other value
    is a use the source does not make. *)
Definition items (d : Val) : M (list (string * Val)) :=
  match d with
  | VRef a => o <- load a ;;
              match o with
              | ODict kvs => ret kvs
              | OList _ => raise OutOfModel
              end
  | _ => raise OutOfModel
  end.

Definition elements (l : Val) : M (list Val) :=
  match l with
  | VRef a => o <- load a ;;
              match o with
              | OList xs => ret xs
              | ODict _ => raise OutOfModel
              end
  | _ => raise OutOfModel
  end.

(** [k in d], [d[k]], [d.get(k)], [d[k] = v], [del d[k]] on a mapping. *)
Definition contains (d : Val) (k : string) : M bool :=
  kvs <- items d ;; ret (dict_has k kvs).

Definition getitem (d : Val) (k : string) : M Val :=
  kvs <- items d ;;
  match dict_get k kvs with
  | Some v => ret v
  | None => raise KeyError
  end.

Definition get (d : Val) (k : string) : M (option Val) :=
  kvs <- items d ;; ret (dict_get k kvs).

Definition setitem (d : Val) (k : string) (v : Val) : M unit :=
  kvs <- items d ;;
  match d with
  | VRef a => store a (ODict (dict_set k v kvs))
  | _ => raise OutOfModel
  end.

Definition delitem (d : Val) (k : string) : M unit :=
  kvs <- items d ;;
  match d with
  | VRef a =>
      if dict_has k kvs then store a (ODict (dict_del k kvs))
      else raise KeyError
  | _ => raise OutOfModel
  end.

(** [l[i]], [l[i] = v], [len(l)], [del l[i]], [l.insert(i, v)] on a
    sequence. *)
Definition list_get (l : Val) (i : nat) : M Val :=
  xs <- elements l ;;
  match xs !! i with
  | Some v => ret v
  | None => raise OutOfModel
  end.

Definition list_set (l : Val) (i : nat) (v : Val) : M unit :=
  xs <- elements l ;;
  match l with
  | VRef a => store a (OList (<[i := v]> xs))
  | _ => raise OutOfModel
  end.

Definition list_len (l : Val) : M nat :=
  xs <- elements l ;; ret (length xs).

Definition list_del (l : Val) (i : nat) : M unit :=
  xs <- elements l ;;
  match l with
  | VRef a => store a (OList (take i xs ++ drop (S i) xs))
  | _ => raise OutOfModel
  end.

Definition list_insert (l : Val) (i : nat) (v : Val) : M unit :=
  xs <- elements l ;;
  match l with
  | VRef a => store a (OList (take i xs ++ v :: drop i xs))
  | _ => raise OutOfModel
  end.

(** Truth value of an object ([if ref:], [if obj:], [if mixin:]). *)
Definition truthy (v : Val) : M bool :=
  match v with
  | VNone => ret false
  | VBool b => ret b
  | VInt z => ret (negb (Z.eqb z 0))
  | VStr s => ret (PyStr.nonempty s)
  | VRef a =>
      o <- load a ;;
      ret (match o with
           | ODict [] | OList [] => false
           | _ => true
           end)
  end.

(** Truth value of a node of a context. *)
Definition node_truthy (n : Node) : bool :=
  match n with
  | NNone => false
  | NBool b => b
  | NInt z => negb (Z.eqb z 0)
  | NStr s => PyStr.nonempty s
  | NList l => match l with [] => false | _ => true end
  | NDict d => match d with [] => false | _ => true end
  end.

(** *** Equality of values ([==], as used by [in] on lists)

    Booleans are integers; mappings are compared key by key, sequences
    element by element; an object equals itself.  The recursion is bounded
    by [fuel]: on exhaustion the answer is [None]. *)
Definition scalar_eq (x y : Val) : bool :=
  match x, y with
  | VNone, VNone => true
  | VBool a, VBool b => Bool.eqb a b
  | VInt a, VInt b => Z.eqb a b
  | VBool a, VInt b | VInt b, VBool a => Z.eqb (if a then 1 else 0)%Z b
  | VStr a, VStr b => String.eqb a b
  | _, _ => false
  end.

Fixpoint py_eq (fuel : nat) (h : list Obj) (x y : Val) : option bool :=
  match fuel with
  | 0 => None
  | S f =>
      match x, y with
      | VRef a, VRef b =>
          if Nat.eqb a b then Some true
          else
            match h !! a, h !! b with
            | Some (ODict d1), Some (ODict d2) =>
                if negb (Nat.eqb (length d1) (length d2)) then Some false
                else
                  (fix go (l : list (string * Val)) : option bool :=
                     match l with
                     | [] => Some true
                     | (k, v) :: r =>
                         match dict_get k d2 with
                         | None => Some false
                         | Some v' =>
                             match py_eq f h v v' with
                             | Some true => go r
                             | other => other
                             end
                         end
                     end) d1
            | Some (OList l1), Some (OList l2) =>
                if negb (Nat.eqb (length l1) (length l2)) then Some false
                else
                  (fix go (l1 l2 : list Val) : option bool :=
                     match l1, l2 with
                     | v :: r1, v' :: r2 =>
                         match py_eq f h v v' with
                         | Some true => go r1 r2
                         | other => other
                         end
                     | _, _ => Some true
                     end) l1 l2
            | _, _ => Some false
            end
      | VRef _, _ | _, VRef _ => Some false
      | _, _ => Some (scalar_eq x y)
      end
  end.

(** [x == y] in the current store. *)
Definition eq_val (x y : Val) : M bool :=
  fun st =>
    match py_eq (S (length (heap st))) (heap st) x y with
    | Some b => (Ok b, st)
    | None => (Raise OutOfFuel, st)
    end.

(** [x in l] for a Python list [l]. *)
Fixpoint list_contains (x : Val) (l : list Val) : M bool :=
  match l with
  | [] => ret false
  | y :: r => b <- eq_val x y ;; if b then ret true else list_contains x r
  end.

(** *** Between trees and the store *)

(** A parsed document enters the store with one fresh object per mapping
    and per sequence; a key given twice keeps its last value. *)
Fixpoint alloc_node (n : Node) : M Val :=
  match n with
  | NNone => ret VNone
  | NBool b => ret (VBool b)
  | NInt z => ret (VInt z)
  | NStr s => ret (VStr s)
  | NList l =>
      xs <- (fix go (l : list Node) : M (list Val) :=
              match l with
              | [] => ret []
              | x :: r => v <- alloc_node x ;; vs <- go r ;; ret (v :: vs)
              end) l ;;
      alloc (OList xs)
  | NDict kvs =>
      d <- (fix go (l : list (string * Node)) (acc : list (string * Val))
             : M (list (string * Val)) :=
             match l with
             | [] => ret acc
             | (k, x) :: r => v <- alloc_node x ;; go r (dict_set k v acc)
             end) kvs [] ;;
      alloc (ODict d)
  end.

(** The tree below a value, read back from a store. *)
Fixpoint reify (fuel : nat) (h : list Obj) (v : Val) : option Node :=
  match fuel with
  | 0 => None
  | S f =>
      match v with
      | VNone => Some NNone
      | VBool b => Some (NBool b)
      | VInt z => Some (NInt z)
      | VStr s => Some (NStr s)
      | VRef a =>
          match h !! a with
          | Some (OList xs) =>
              NList <$> (fix go (l : list Val) : option (list Node) :=
                           match l with
                           | [] => Some []
                           | x :: r =>
                               n ← reify f h x; ns ← go r; Some (n :: ns)
                           end) xs
          | Some (ODict kvs) =>
              NDict <$> (fix go (l : list (string * Val))
                           : option (list (string * Node)) :=
                           match l with
                           | [] => Some []
                           | (k, x) :: r =>
                               n ← reify f h x; ns ← go r; Some ((k, n) :: ns)
                           end) kvs
          | None => None
          end
      end
  end.

(** [copy.deepcopy(v)]: one new object per object reached, shared objects
    stay shared ([memo] maps originals to copies). *)
Fixpoint deepcopy (fuel : nat) (memo : list (addr * addr)) (v : Val)
  : M (Val * list (addr * addr)) :=
  match fuel with
  | 0 => raise OutOfFuel
  | S f =>
      match v with
      | VRef a =>
          match List.find (fun p => Nat.eqb (fst p) a) memo with
          | Some (_, a') => ret (VRef a', memo)
          | None =>
              o <- load a ;;
              match o with
              | OList xs =>
                  y <- alloc (OList []) ;;
                  match y with
                  | VRef a' =>
                      memo <- fold_each xs ((a, a') :: memo) (fun memo x =>
                        r <- deepcopy f memo x ;;
                        let '(x', memo) := r in
                        ys <- elements y ;;
                        store a' (OList (ys ++ [x'])) ;;;
                        ret memo) ;;
                      ret (y, memo)
                  | _ => raise OutOfModel
                  end
              | ODict kvs =>
                  y <- alloc (ODict []) ;;
                  match y with
                  | VRef a' =>
                      memo <- fold_each kvs ((a, a') :: memo) (fun memo kv =>
                        r <- deepcopy f memo (snd kv) ;;
                        let '(x', memo) := r in
                        setitem y (fst kv) x' ;;;
                        ret memo) ;;
                      ret (y, memo)
                  | _ => raise OutOfModel
                  end
              end
          end
      | _ => ret (v, memo)
      end
  end.

End PyObj.

(* ===================================================================== *)
(** ** The loader *)
(* ===================================================================== *)

Module Salad.
Import PyObj.

(** *** The compiled context

    The attributes of a [Loader] that [add_context] fills.  Sets are kept
    in insertion order.  The types follow the annotations of [__init__]:
    scopes are integers, vocabulary entries and idmap subjects are strings.
    The RDF graph is empty and stays so (see [add_schemas]). *)
Record Loader : Type := mkLoader {
  ctx : list (string * Node);
  url_fields : list string;
  scoped_ref_fields : list (string * Z);
  vocab_fields : list string;
  identifiers : list string;
  identity_links : list string;
  standalone : list string;
  nolinkcheck : list string;
  vocab : list (string * string);
  rvocab : list (string * string);
  idmap : list (string * string);
  mapPredicate : list (string * string);
  type_dsl_fields : list string
}.

(** The attributes as [__init__] leaves them before it calls
    [add_context]. *)
Definition blank_loader : Loader :=
  mkLoader [] [] [] [] [] [] [] [] [] [] [] [] [].

Definition set_ctx (v : list (string * Node)) (l : Loader) : Loader :=
  mkLoader v (url_fields l) (scoped_ref_fields l) (vocab_fields l)
    (identifiers l) (identity_links l) (standalone l) (nolinkcheck l)
    (vocab l) (rvocab l) (idmap l) (mapPredicate l) (type_dsl_fields l).
Definition set_url_fields (v : list string) (l : Loader) : Loader :=
  mkLoader (ctx l) v (scoped_ref_fields l) (vocab_fields l)
    (identifiers l) (identity_links l) (standalone l) (nolinkcheck l)
    (vocab l) (rvocab l) (idmap l) (mapPredicate l) (type_dsl_fields l).
Definition set_scoped_ref_fields (v : list (string * Z)) (l : Loader)
  : Loader :=
  mkLoader (ctx l) (url_fields l) v (vocab_fields l)
    (identifiers l) (identity_links l) (standalone l) (nolinkcheck l)
    (vocab l) (rvocab l) (idmap l) (mapPredicate l) (type_dsl_fields l).
Definition set_vocab_fields (v : list string) (l : Loader) : Loader :=
  mkLoader (ctx l) (url_fields l) (scoped_ref_fields l) v
    (identifiers l) (identity_links l) (standalone l) (nolinkcheck l)
    (vocab l) (rvocab l) (idmap l) (mapPredicate l) (type_dsl_fields l).
Definition set_identifiers (v : list string) (l : Loader) : Loader :=
  mkLoader (ctx l) (url_fields l) (scoped_ref_fields l) (vocab_fields l)
    v (identity_links l) (standalone l) (nolinkcheck l)
    (vocab l) (rvocab l) (idmap l) (mapPredicate l) (type_dsl_fields l).
Definition set_identity_links (v : list string) (l : Loader) : Loader :=
  mkLoader (ctx l) (url_fields l) (scoped_ref_fields l) (vocab_fields l)
    (identifiers l) v (standalone l) (nolinkcheck l)
    (vocab l) (rvocab l) (idmap l) (mapPredicate l) (type_dsl_fields l).
Definition set_nolinkcheck (v : list string) (l : Loader) : Loader :=
  mkLoader (ctx l) (url_fields l) (scoped_ref_fields l) (vocab_fields l)
    (identifiers l) (identity_links l) (standalone l) v
    (vocab l) (rvocab l) (idmap l) (mapPredicate l) (type_dsl_fields l).
Definition set_vocab (v : list (string * string)) (l : Loader) : Loader :=
  mkLoader (ctx l) (url_fields l) (scoped_ref_fields l) (vocab_fields l)
    (identifiers l) (identity_links l) (standalone l) (nolinkcheck l)
    v (rvocab l) (idmap l) (mapPredicate l) (type_dsl_fields l).
Definition set_rvocab (v : list (string * string)) (l : Loader) : Loader :=
  mkLoader (ctx l) (url_fields l) (scoped_ref_fields l) (vocab_fields l)
    (identifiers l) (identity_links l) (standalone l) (nolinkcheck l)
    (vocab l) v (idmap l) (mapPredicate l) (type_dsl_fields l).
Definition set_idmap (v : list (string * string)) (l : Loader) : Loader :=
  mkLoader (ctx l) (url_fields l) (scoped_ref_fields l) (vocab_fields l)
    (identifiers l) (identity_links l) (standalone l) (nolinkcheck l)
    (vocab l) (rvocab l) v (mapPredicate l) (type_dsl_fields l).
Definition set_mapPredicate (v : list (string * string)) (l : Loader)
  : Loader :=
  mkLoader (ctx l) (url_fields l) (scoped_ref_fields l) (vocab_fields l)
    (identifiers l) (identity_links l) (standalone l) (nolinkcheck l)
    (vocab l) (rvocab l) (idmap l) v (type_dsl_fields l).
Definition set_type_dsl_fields (v : list string) (l : Loader) : Loader :=
  mkLoader (ctx l) (url_fields l) (scoped_ref_fields l) (vocab_fields l)
    (identifiers l) (identity_links l) (standalone l) (nolinkcheck l)
    (vocab l) (rvocab l) (idmap l) (mapPredicate l) v.

Definition nonempty_dict {V} (d : list (string * V)) : bool :=
  match d with [] => false | _ => true end.

(** *** [Loader.expand_url] (lines 115-150) *)
Definition expand_url (self : Loader) (url base_url : string)
    (scoped_id vocab_term : bool) (scoped_ref : option Z) : Res string :=
  if String.eqb url "@id" || String.eqb url "@type" then Ok url
  else if vocab_term && dict_has url (vocab self) then Ok url
  else
    let url :=
      if nonempty_dict (vocab self) && PyStr.contains ":" url then
        let prefix := List.hd EmptyString (PyStr.split ":" url) in
        match dict_get prefix (vocab self) with
        | Some v => v +:+ PyStr.drop (String.length prefix + 1) url
        | None => url
        end
      else url in
    res_bind (Urllib.urlsplit url) (fun split =>
    res_bind
      (if PyStr.nonempty (Urllib.scheme split)
          || PyStr.startswith "$(" url || PyStr.startswith "${" url
       then Ok url
       else if scoped_id && negb (PyStr.nonempty (Urllib.fragment split))
       then
         res_bind (Urllib.urlsplit base_url) (fun splitbase =>
           let frg :=
             if PyStr.nonempty (Urllib.fragment splitbase)
             then Urllib.fragment splitbase +:+ "/" +:+ Urllib.path split
             else Urllib.path split in
           let pt := if PyStr.nonempty (Urllib.path splitbase)
                     then Urllib.path splitbase else "/" in
           Ok (Urllib.urlunsplit (Urllib.scheme splitbase)
                 (Urllib.netloc splitbase) pt (Urllib.query splitbase) frg))
       else if bool_decide (is_Some scoped_ref)
               && negb (PyStr.nonempty (Urllib.fragment split))
       then Ok url
       else Urllib.urljoin base_url url)
      (fun url =>
         if vocab_term then
           match dict_get url (rvocab self) with
           | Some k => Ok k
           | None => Ok url
           end
         else Ok url)).

(** [expand_url] on a value that need not be a string: Python raises
    [TypeError] or [AttributeError] in the string operations. *)
Definition expand_url_val (self : Loader) (url : Val) (base_url : string)
    (scoped_id vocab_term : bool) (scoped_ref : option Z) : Res string :=
  match url with
  | VStr s => expand_url self s base_url scoped_id vocab_term scoped_ref
  | _ => Raise TypeError
  end.

(** *** [_copy_dict_without_key] (lines 772-778) *)
Definition _copy_dict_without_key {V} (from_dict : list (string * V))
    (filtered_key : string) : list (string * V) :=
  fold_left
    (fun new_dict kv =>
       if negb (String.eqb (fst kv) filtered_key)
       then dict_set (fst kv) (snd kv) new_dict else new_dict)
    from_dict [].

(** *** [Loader.add_context] (lines 194-249) *)

Definition node_is_dict (n : Node) : bool :=
  match n with NDict _ => true | _ => false end.

(** [value.get(k)] for a mapping [value]. *)
Definition node_get (k : string) (n : Node) : option Node :=
  match n with NDict d => dict_get k d | _ => None end.

Definition node_get_truthy (k : string) (n : Node) : bool :=
  match node_get k n with Some v => node_truthy v | None => false end.

Definition node_is (n : option Node) (s : string) : bool :=
  match n with Some (NStr s') => String.eqb s' s | _ => false end.

(** [scoped_ref_fields[key] = value["refScope"]] when the key is there. *)
Definition note_refScope (key : string) (value : Node)
  : SR Loader unit :=
  match node_get "refScope" value with
  | None => ret tt
  | Some (NInt d) =>
      modify (fun l =>
        set_scoped_ref_fields (dict_set key d (scoped_ref_fields l)) l)
  | Some _ => raise OutOfModel
  end.

(** The body of the loop over [self.ctx.items()]. *)
Definition add_context_item (kv : string * Node) : SR Loader unit :=
  let '(key, value) := kv in
  (if node_is (Some value) "@id" then
     modify (fun l => set_identifiers (set_add key (identifiers l)) l) ;;;
     modify (fun l => set_identity_links (set_add key (identity_links l)) l)
   else if node_is_dict value && node_is (node_get "@type" value) "@id" then
     modify (fun l => set_url_fields (set_add key (url_fields l)) l) ;;;
     note_refScope key value ;;;
     if node_get_truthy "identity" value
     then modify (fun l =>
            set_identity_links (set_add key (identity_links l)) l)
     else ret tt
   else if node_is_dict value && node_is (node_get "@type" value) "@vocab"
   then
     modify (fun l => set_url_fields (set_add key (url_fields l)) l) ;;;
     modify (fun l => set_vocab_fields (set_add key (vocab_fields l)) l) ;;;
     note_refScope key value ;;;
     if node_get_truthy "typeDSL" value
     then modify (fun l =>
            set_type_dsl_fields (set_add key (type_dsl_fields l)) l)
     else ret tt
   else ret tt) ;;;
  (if node_is_dict value && node_get_truthy "noLinkCheck" value
   then modify (fun l => set_nolinkcheck (set_add key (nolinkcheck l)) l)
   else ret tt) ;;;
  (if node_is_dict value && node_get_truthy "mapSubject" value then
     match node_get "mapSubject" value with
     | Some (NStr s) => modify (fun l => set_idmap (dict_set key s (idmap l)) l)
     | _ => raise OutOfModel
     end
   else ret tt) ;;;
  (if node_is_dict value && node_get_truthy "mapPredicate" value then
     match node_get "mapPredicate" value with
     | Some (NStr s) =>
         modify (fun l => set_mapPredicate (dict_set key s (mapPredicate l)) l)
     | _ => raise OutOfModel
     end
   else ret tt) ;;;
  match value with
  | NDict d =>
      match dict_get "@id" d with
      | Some (NStr s) => modify (fun l => set_vocab (dict_set key s (vocab l)) l)
      | Some _ => raise OutOfModel
      | None => ret tt
      end
  | NStr s => modify (fun l => set_vocab (dict_set key s (vocab l)) l)
  | _ => ret tt
  end.

Definition add_context (newcontext : list (string * Node))
  : SR Loader unit :=
  self <- get_state ;;
  if nonempty_dict (vocab self) then
    raise (ValidationException MRefreshingContext)
  else
    modify (fun l =>
      mkLoader
        (dict_update (ctx l) (_copy_dict_without_key newcontext "@context"))
        [] [] [] [] [] [] [] [] [] [] [] []) ;;;
    self <- get_state ;;
    for_each (ctx self) add_context_item ;;;
    self <- get_state ;;
    for_each (vocab self) (fun kv =>
      self <- get_state ;;
      u <- lift (expand_url self (snd kv) EmptyString false false None) ;;
      modify (fun l => set_rvocab (dict_set u (fst kv) (rvocab l)) l)).

(** [Loader(ctx)] (lines 75-113), for a loader made without a graph. *)
Definition new_loader (c : list (string * Node)) : Res Loader :=
  match add_context c blank_loader with
  | (Ok _, l) => Ok l
  | (Raise e, _) => Raise e
  end.

(** [SubLoader(loader)] (lines 64-67): a new loader compiled from the same
    [ctx]; the index and the cache are shared. *)
Definition SubLoader (loader : Loader) : Res Loader := new_loader (ctx loader).

(** *** The normalizing index ([NormDict], lines 30-46)

    Keys go through [urlsplit(url).geturl()]. *)
Definition normalize (url : string) : Res string :=
  res_bind (Urllib.urlsplit url) (fun r => Ok (Urllib.geturl r)).

Definition set_idx (i : list (string * Val)) (st : State) : State :=
  mkState (heap st) i (cache st) (io_log st).

Definition idx_contains (url : string) : M bool :=
  k <- lift (normalize url) ;;
  st <- get_state ;;
  ret (dict_has k (idx st)).

Definition idx_getitem (url : string) : M Val :=
  k <- lift (normalize url) ;;
  st <- get_state ;;
  match dict_get k (idx st) with
  | Some v => ret v
  | None => raise KeyError
  end.

Definition idx_setitem (url : string) (v : Val) : M unit :=
  k <- lift (normalize url) ;;
  modify (fun st => set_idx (dict_set k v (idx st)) st).

(** *** [Loader._normalize_fields] (lines 456-463)

    [for d in document] goes through the keys the mapping has when the
    loop starts, and the body renames keys of that very mapping.  The
    iterator of a [dict] (CPython 3.8 and later) does not accept this:
    when the number of keys has changed (the new name was a key already)
    it raises [RuntimeError] at its next step, and when a key was renamed
    (the new key put behind the others, the old one deleted) it raises
    [RuntimeError] once the keys of the start have been visited.  A table
    rebuilt by an insertion can make the iterator pass over a key before
    that; the visits are described for a table that is not rebuilt. *)
Definition _normalize_fields (document : Val) (loader : Loader) : M unit :=
  kvs <- items document ;;
  renamed <- fold_each (dict_keys kvs) false (fun renamed d =>
    cur <- items document ;;
    if negb (Nat.eqb (length cur) (length kvs)) then raise RuntimeError
    else
      d2 <- lift (expand_url loader d EmptyString false true None) ;;
      if negb (String.eqb d d2) then
        v <- getitem document d ;;
        setitem document d2 v ;;;
        delitem document d ;;;
        ret true
      else ret renamed) ;;
  if (renamed : bool) then raise RuntimeError else ret tt.

(** *** [Loader._resolve_idmap] (lines 357-382) *)

Fixpoint insert_sorted (k : string) (l : list string) : list string :=
  match l with
  | [] => [k]
  | x :: r => if String.leb k x then k :: l else x :: insert_sorted k r
  end.

(** [sorted(keys)]: strings in code point order. *)
Definition sorted (l : list string) : list string :=
  fold_right insert_sorted [] l.

(** The body of the loop over the sorted keys (lines 369-381): the entry
    for the key [k] is appended to [ls]. *)
Definition _resolve_idmap_entry (loader : Loader)
    (idmapField : string) (idmapFieldValue : Val) (ls : list Val)
    (k : string) : M (list Val) :=
  val <- getitem idmapFieldValue k ;;
  vd <- is_dict val ;;
  v <- (if negb vd then
          match dict_get idmapField (mapPredicate loader) with
          | Some p => alloc (ODict [(p, val)])
          | None =>
              raise (ValidationException (MNoMapPredicate idmapField k))
          end
        else ret val) ;;
  match dict_get idmapField (idmap loader) with
  | Some subject => setitem v subject (VStr k)
  | None => raise KeyError
  end ;;;
  ret (ls ++ [v]).

(** The body of the loop over [loader.idmap].  The list [ls] is an object
    of its own from the moment it is stored in the document. *)
Definition _resolve_idmap_field (document : Val) (loader : Loader)
    (idmapField : string) : M unit :=
    present <- contains document idmapField ;;
    if present then
      idmapFieldValue <- getitem document idmapField ;;
      isd <- is_dict idmapFieldValue ;;
      if isd then
        has_import <- contains idmapFieldValue "$import" ;;
        has_include <- contains idmapFieldValue "$include" ;;
        if negb has_import && negb has_include then
          kvs <- items idmapFieldValue ;;
          ls <- fold_each (sorted (dict_keys kvs)) []
                  (_resolve_idmap_entry loader idmapField idmapFieldValue) ;;
          l <- alloc (OList ls) ;;
          setitem document idmapField l
        else ret tt
      else ret tt
    else ret tt.

Definition _resolve_idmap (document : Val) (loader : Loader) : M unit :=
  for_each (dict_keys (idmap loader)) (_resolve_idmap_field document loader).

(** *** [Loader._type_dsl] (lines 384-401) *)

Definition LF : string := String (ascii_of_nat 10) EmptyString.

(** The longest prefix of characters other than [[] and [?], and the
    rest. *)
Fixpoint span_name (t : string) : string * string :=
  match t with
  | EmptyString => (EmptyString, EmptyString)
  | String a r =>
      if Ascii.eqb a "[" || Ascii.eqb a "?" then (EmptyString, t)
      else let '(x, y) := span_name r in (String a x, y)
  end.

(** [typeDSLregex.match(t)] for [^([^[?]+)(\[\])?(\?)?$]: group 1, and
    whether groups 2 and 3 took part.  [$] also matches before a final
    line feed. *)
Definition typeDSLregex_match (t : string) : option (string * bool * bool) :=
  let '(first, rest) := span_name t in
  if negb (PyStr.nonempty first) then None
  else if String.eqb rest "" then Some (first, false, false)
  else if String.eqb rest "[]" || String.eqb rest ("[]" +:+ LF)
  then Some (first, true, false)
  else if String.eqb rest "?" || String.eqb rest ("?" +:+ LF)
  then Some (first, false, true)
  else if String.eqb rest "[]?" || String.eqb rest ("[]?" +:+ LF)
  then Some (first, true, true)
  else None.

Definition _type_dsl (t : Val) : M Val :=
  match t with
  | VStr s =>
      match typeDSLregex_match s with
      | None => ret t
      | Some (first, g2, g3) =>
          second <- (if g2
                     then alloc (ODict [("type", VStr "array");
                                        ("items", VStr first)])
                     else ret (VStr first)) ;;
          if g3 then alloc (OList [VStr "null"; second]) else ret second
      end
  | _ => ret t
  end.

(** Modelled from the spec: [flatten], of the module [flatten] that the
    resolver imports; the spec has the list-valued field flattened one
    level.  The result is a new list. *)
Definition flatten (l : Val) : M Val :=
  xs <- elements l ;;
  ys <- map_each xs (fun x =>
          b <- is_list x ;; if b then elements x else ret [x]) ;;
  alloc (OList (concat ys)).

(** The loop that keeps the first occurrence of each item. *)
Definition uniq_items (l : list Val) : M (list Val) :=
  r <- fold_each l ([], []) (fun acc item =>
         let '(uniq, seen) := acc in
         b <- list_contains item seen ;;
         if negb b then ret (uniq ++ [item], seen ++ [item]) else ret acc) ;;
  ret (fst r).

(** *** [Loader._resolve_type_dsl] (lines 403-421)

    [_resolve_type_dsl_field] is the body of the loop over
    [loader.type_dsl_fields], in its two halves. *)
(** Lines 407-411: the DSL applied to a string, or to each element of a
    list. *)
Definition _type_dsl_datum (document : Val) (d : string) : M unit :=
  datum <- getitem document d ;;
  isl <- is_list datum ;;
  if is_str datum then
    v <- _type_dsl datum ;; setitem document d v
  else if (isl : bool) then
    xs <- elements datum ;;
    ys <- map_each xs _type_dsl ;;
    l <- alloc (OList ys) ;;
    setitem document d l
  else ret tt.

(** Lines 412-421: a list is flattened, then its items are kept at their
    first occurrence. *)
Definition _flatten_uniq (document : Val) (d : string) : M unit :=
  datum2 <- getitem document d ;;
  isl2 <- is_list datum2 ;;
  if (isl2 : bool) then
    fl <- flatten datum2 ;;
    setitem document d fl ;;;
    cur <- getitem document d ;;
    xs <- elements cur ;;
    uniq <- uniq_items xs ;;
    l <- alloc (OList uniq) ;;
    setitem document d l
  else ret tt.

Definition _resolve_type_dsl_field (document : Val) (d : string) : M unit :=
  present <- contains document d ;;
  if (present : bool) then
    _type_dsl_datum document d ;;;
    _flatten_uniq document d
  else ret tt.

Definition _resolve_type_dsl (document : Val) (loader : Loader) : M unit :=
  for_each (type_dsl_fields loader) (_resolve_type_dsl_field document).

(** *** [Loader._resolve_identifier] (lines 423-440)

    [_resolve_identifier_step] is the body of the loop over
    [loader.identifiers]; the loop threads [base_url]. *)
Definition _resolve_identifier_step (document : Val) (loader : Loader)
    (base_url identifer : string) : M string :=
    present <- contains document identifer ;;
    if present then
      v <- getitem document identifer ;;
      match v with
      | VStr s =>
          u <- lift (expand_url loader s base_url true false None) ;;
          setitem document identifer (VStr u) ;;;
          inidx <- idx_contains u ;;
          fresh <- (if negb inidx then ret true
                    else e <- idx_getitem u ;; ret (is_str e)) ;;
          (if (fresh : bool) then idx_setitem u document else ret tt) ;;;
          ret u
      | _ =>
          raise (ValidationException (MIdentifierMustBeString identifer))
      end
    else ret base_url.

Definition _resolve_identifier (document : Val) (loader : Loader)
    (base_url : string) : M string :=
  fold_each (identifiers loader) base_url
    (_resolve_identifier_step document loader).

(** *** [Loader._resolve_identity] (lines 442-454) *)
Definition _resolve_identity (document : Val) (loader : Loader)
    (base_url : string) : M unit :=
  for_each (identity_links loader) (fun identifer =>
    present <- contains document identifer ;;
    if present then
      l <- getitem document identifer ;;
      isl <- is_list l ;;
      if isl then
        len <- list_len l ;;
        for_each (seq 0 len) (fun n =>
          v <- list_get l n ;;
          match v with
          | VStr s =>
              u <- lift (expand_url loader s base_url true false None) ;;
              list_set l n (VStr u) ;;;
              inidx <- idx_contains u ;;
              if negb inidx then idx_setitem u (VStr u) else ret tt
          | _ => ret tt
          end)
      else ret tt
    else ret tt).

(** *** [Loader._resolve_uris] (lines 465-483)

    The scope is read from [self], the other tables from [loader], as in
    the source. *)
Definition _resolve_uris (self : Loader) (document : Val) (loader : Loader)
    (base_url : string) : M unit :=
  for_each (url_fields loader) (fun d =>
    present <- contains document d ;;
    if present then
      datum <- getitem document d ;;
      let expand (s : string) :=
        lift (S := State)
          (expand_url loader s base_url false
             (PyStr.mem d (vocab_fields loader))
             (dict_get d (scoped_ref_fields self))) in
      isl <- is_list datum ;;
      match datum with
      | VStr s => u <- expand s ;; setitem document d (VStr u)
      | _ =>
          if isl then
            xs <- elements datum ;;
            ys <- map_each xs (fun url =>
                    match url with
                    | VStr s => u <- expand s ;; ret (VStr u)
                    | _ => ret url
                    end) ;;
            l <- alloc (OList ys) ;;
            setitem document d l
          else ret tt
      end
    else ret tt).

Section Resolver.

Variable w : World.

(** *** [Loader.fetch_text] (lines 596-622) *)

Definition log_io (e : IOEvent) : M unit :=
  modify (fun st => mkState (heap st) (idx st) (cache st) (io_log st ++ [e])).

Definition fetch_text (url : string) : M string :=
  st <- get_state ;;
  match dict_get url (cache st) with
  | Some text => ret text
  | None =>
      split <- lift (Urllib.urlsplit url) ;;
      let scheme := Urllib.scheme split in
      let path := Urllib.path split in
      if PyStr.mem scheme ["http"; "https"] then
        log_io (HttpGet url) ;;;
        match http_get w url with
        | Some text => ret text
        | None => raise RuntimeError
        end
      else if String.eqb scheme "file" then
        log_io (FileOpen path) ;;;
        match file_read w path with
        | Some text => ret text
        | None => raise RuntimeError
        end
      else raise ValueError
  end.

(** *** [Loader.fetch] (lines 624-644) *)
Definition fetch (self : Loader) (url : string) (inject_ids : bool)
  : M Val :=
  inidx <- idx_contains url ;;
  if inidx then idx_getitem url
  else
    text <- fetch_text url ;;
    result <- match yaml_load w text with
              | YDoc n => alloc_node n
              | YParserError => raise (ValidationException MSyntaxError)
              | YOtherError => raise OtherError
              end ;;
    isd <- is_dict result ;;
    if isd && inject_ids
       && match identifiers self with [] => false | _ => true end
    then
      for_each (identifiers self) (fun identifier =>
        present <- contains result identifier ;;
        (if negb present then setitem result identifier (VStr url)
         else ret tt) ;;;
        v <- getitem result identifier ;;
        u <- lift (expand_url_val self v url false false None) ;;
        idx_setitem u result) ;;;
      ret result
    else
      idx_setitem url result ;;;
      ret result.

(** *** [Loader.check_file] (lines 646-651) *)
Definition check_file (fn : string) : M bool :=
  if PyStr.startswith "file://" fn then
    u <- lift (Urllib.urlsplit fn) ;;
    ret (file_exists w (Urllib.path u))
  else ret false.

(** *** [Loader.validate_scoped] (lines 655-677) *)

(** [while n > 0 and len(sp) > 0: sp.pop(); n -= 1]. *)
Fixpoint pop_n (n : nat) (sp : list string) : list string :=
  match n, sp with
  | S n', _ :: _ => pop_n n' (removelast sp)
  | _, _ => sp
  end.

(** The [while True] loop; [fuel] bounds the number of rounds. *)
Fixpoint scoped_loop (fuel : nat) (split : Urllib.SplitResult)
    (field link : string) (sp tried : list string) : M string :=
  match fuel with
  | 0 => raise OutOfFuel
  | S f =>
      let sp := sp ++ [link] in
      let url := Urllib.urlunsplit (Urllib.scheme split) (Urllib.netloc split)
                   (Urllib.path split) (Urllib.query split)
                   (PyStr.join "/" sp) in
      let tried := tried ++ [url] in
      b <- idx_contains url ;;
      if b then ret url
      else
        let sp := removelast sp in
        if Nat.eqb (length sp) 0 then
          raise (ValidationException (MUndefinedRefTried field link tried))
        else scoped_loop f split field link (removelast sp) tried
  end.

Definition validate_scoped (self : Loader) (field link docid : string)
  : M string :=
  split <- lift (Urllib.urlsplit docid) ;;
  let sp := PyStr.split "/" (Urllib.fragment split) in
  match dict_get field (scoped_ref_fields self) with
  | None => raise KeyError
  | Some n =>
      let sp := pop_n (Z.to_nat n) sp in
      scoped_loop (S (length sp)) split field link sp []
  end.

(** *** [Loader.getid] (lines 714-720) *)
Definition getid (self : Loader) (d : Val) : M (option string) :=
  isd <- is_dict d ;;
  if isd then
    kvs <- items d ;;
    ret ((fix go (ids : list string) : option string :=
            match ids with
            | [] => None
            | i :: r =>
                match dict_get i kvs with
                | Some (VStr s) => Some s
                | _ => go r
                end
            end) (identifiers self))
  else ret None.

(** *** [Loader.validate_link] (lines 679-712) and
        [Loader.validate_links] (lines 722-769) *)

Definition one_error (errors : list Msg) : Msg :=
  match errors with
  | [e] => e
  | _ => MJoin errors
  end.

Fixpoint validate_link (fuel : nat) (self : Loader) (field : string)
    (link : Val) (docid : string) {struct fuel} : M Val :=
  match fuel with
  | 0 => raise OutOfFuel
  | S f =>
      if PyStr.mem field (nolinkcheck self) then ret link
      else
        isl <- is_list link ;;
        isd <- is_dict link ;;
        match link with
        | VStr s =>
            let in_idx_or_rvocab : M bool :=
              in_idx <- idx_contains s ;;
              ret (in_idx || dict_has s (rvocab self)) in
            known <- (if PyStr.mem field (vocab_fields self) then
                        if dict_has s (vocab self) then ret true
                        else in_idx_or_rvocab
                      else in_idx_or_rvocab) ;;
            if negb known then
              if dict_has field (scoped_ref_fields self) then
                u <- validate_scoped self field s docid ;; ret (VStr u)
              else
                ok <- check_file s ;;
                if negb ok
                then raise (ValidationException (MUndefinedRef field s))
                else ret link
            else ret link
        | _ =>
            if isl then
              len <- list_len link ;;
              errors <- fold_each (seq 0 len) [] (fun errors n =>
                i <- list_get link n ;;
                try_validation
                  (v <- validate_link f self field i docid ;;
                   list_set link n v ;;;
                   ret errors)
                  (fun v => ret (errors ++ [v]))) ;;
              match errors with
              | [] => ret link
              | _ => raise (ValidationException (MJoin errors))
              end
            else if isd then
              validate_links f self link docid ;;; ret link
            else raise (ValidationException MBadLinkType)
        end
  end
with validate_links (fuel : nat) (self : Loader) (document : Val)
    (base_url : string) {struct fuel} : M Val :=
  match fuel with
  | 0 => raise OutOfFuel
  | S f =>
      id <- getid self document ;;
      let docid := match id with
                   | Some s => if PyStr.nonempty s then s else base_url
                   | None => base_url
                   end in
      isl <- is_list document ;;
      isd <- is_dict document ;;
      let finish (errors : list Msg) : M Val :=
        match errors with
        | [] => ret document
        | _ => raise (ValidationException (one_error errors))
        end in
      let on_error (key : string + nat) (val : Val) (errors : list Msg)
          (v : Msg) : M (list Msg) :=
        let skipped := match key with
                       | inl k => PyStr.mem k (nolinkcheck self)
                       | inr _ => false
                       end in
        if skipped then ret errors
        else
          docid2 <- getid self val ;;
          match docid2 with
          | Some s =>
              if PyStr.nonempty s
              then ret (errors ++ [MCheckingObject s v])
              else ret (errors ++ [match key with
                                   | inl k => MCheckingField k v
                                   | inr i => MCheckingPosition i v
                                   end])
          | None => ret (errors ++ [match key with
                                    | inl k => MCheckingField k v
                                    | inr i => MCheckingPosition i v
                                    end])
          end in
      if isl then
        len <- list_len document ;;
        errors <- fold_each (seq 0 len) [] (fun errors key =>
          val <- list_get document key ;;
          try_validation
            (v <- validate_links f self val docid ;;
             list_set document key v ;;;
             ret errors)
            (on_error (inr key) val errors)) ;;
        finish errors
      else if isd then
        errors <- try_validation
          (for_each (url_fields self) (fun d =>
             present <- contains document d ;;
             if present && negb (PyStr.mem d (identity_links self)) then
               link <- getitem document d ;;
               v <- validate_link f self d link docid ;;
               setitem document d v
             else ret tt) ;;;
           ret [])
          (fun v => ret [v]) ;;
        kvs <- items document ;;
        errors <- fold_each kvs errors (fun errors kv =>
          let '(key, val) := kv in
          try_validation
            (v <- validate_links f self val docid ;;
             setitem document key v ;;;
             ret errors)
            (on_error (inl key) val errors)) ;;
        finish errors
      else ret document
  end.

(** *** [Loader.add_namespaces] (lines 163-164)

    [self.vocab.update(ns)]; the entries of [ns] are strings. *)
Definition add_namespaces (self : Loader) (ns : Val) : M Loader :=
  kvs <- items ns ;;
  fold_each kvs self (fun self kv =>
    match snd kv with
    | VStr s => ret (set_vocab (dict_set (fst kv) s (vocab self)) self)
    | _ => raise OutOfModel
    end).

(** *** [Loader.add_schemas] (lines 166-192)

    The schemas are read through [rdflib].  Only the call that lists no
    schema is described: on the empty graph it changes nothing. *)
Definition add_schemas (ns : Val) : M unit :=
  isl <- is_list ns ;;
  if isl then
    xs <- elements ns ;;
    match xs with
    | [] => ret tt
    | _ => raise OutOfModel
    end
  else raise OutOfModel.

(** Modelled from the spec: [aslist], of the module [aslist] that the
    resolver imports, where it is applied to the list result of an import
    that is spliced in place: the items of that list. *)
Definition aslist (l : Val) : M (list Val) := elements l.

(** A new mapping with the items of [d] except [filtered_key]. *)
Definition copy_without_key (d : Val) (filtered_key : string) : M Val :=
  kvs <- items d ;;
  alloc (ODict (_copy_dict_without_key kvs filtered_key)).

(** The overlay of a mixin (lines 328-330):
    [doc = copy.deepcopy(doc); doc.update(mixin); del doc["$mixin"]].
    A fetched document that is not a mapping has no [update]. *)
Definition mixin_overlay (doc mixin : Val) : M Val :=
  st <- get_state ;;
  c <- deepcopy (S (length (heap st))) [] doc ;;
  let doc := fst c in
  isdoc <- is_dict doc ;;
  if (isdoc : bool) then
    over <- items mixin ;;
    for_each over (fun kv => setitem doc (fst kv) (snd kv)) ;;;
    delitem doc "$mixin" ;;;
    ret doc
  else raise AttributeError.

(** The end of [resolve_ref] (lines 347-354): a resolved mapping with a
    [$graph] is returned as its graph, the other items being the
    metadata. *)
Definition split_graph (resolved_obj metadata : Val) : M (Val * Val) :=
  isd <- is_dict resolved_obj ;;
  if (isd : bool) then
    has_graph <- contains resolved_obj "$graph" ;;
    if (has_graph : bool) then
      metadata <- copy_without_key resolved_obj "$graph" ;;
      g <- getitem resolved_obj "$graph" ;;
      ret (g, metadata)
    else ret (resolved_obj, metadata)
  else ret (resolved_obj, metadata).

(** [newctx = SubLoader(self)] unless one was made already. *)
Definition ensure_subloader (self : Loader) (newctx : option Loader)
  : M Loader :=
  match newctx with
  | Some l => ret l
  | None => lift (SubLoader self)
  end.

(** The string held by a directive such as [$base] or [$profile]. *)
Definition as_str (v : Val) : M string :=
  match v with
  | VStr s => ret s
  | _ => raise OutOfModel
  end.

(** *** [Loader.resolve_ref] (lines 257-354) and
        [Loader.resolve_all] (lines 486-594)

    [resolve_list] is the [while i < len(document)] loop of [resolve_all].
    Every call and every round of that loop takes one unit of [fuel].
    An absent [base_url] of [resolve_ref] is the empty string. *)
Fixpoint resolve_ref (fuel : nat) (self : Loader) (ref : Val)
    (base_url : string) (checklinks : bool) {struct fuel} : M (Val * Val) :=
  match fuel with
  | 0 => raise OutOfFuel
  | S f =>
      let base_url := if PyStr.nonempty base_url then base_url
                      else "file://" +:+ cwd w +:+ "/" in
      isd <- is_dict ref ;;
      (* If `ref` is a dict, look for special directives:
         ref, obj, inc, mixin *)
      r <- (if isd then
              let obj := ref in
              kvs <- items obj ;;
              if dict_has "$import" kvs then
                if Nat.eqb (length kvs) 1 then
                  ref <- getitem obj "$import" ;;
                  ret (ref, None, false, None)
                else raise ValueError
              else if dict_has "$include" kvs then
                if Nat.eqb (length kvs) 1 then
                  ref <- getitem obj "$include" ;;
                  ret (ref, None, true, None)
                else raise ValueError
              else if dict_has "$mixin" kvs then
                ref <- getitem obj "$mixin" ;;
                ret (ref, None, false, Some obj)
              else
                let ref := (fix go (ids : list string) : Val :=
                              match ids with
                              | [] => VNone
                              | identifier :: r =>
                                  match dict_get identifier kvs with
                                  | Some v => v
                                  | None => go r
                                  end
                              end) (identifiers self) in
                t <- truthy ref ;;
                if negb t then raise ValueError
                else ret (ref, Some obj, false, None)
            else ret (ref, None, false, None)) ;;
      let '(ref, obj, inc, mixin) := r in
      match ref with
      | VStr ref =>
          url <- lift (expand_url self ref base_url
                         (bool_decide (is_Some obj)) false None) ;;
          (* Has this reference been loaded already? *)
          in_idx <- idx_contains url ;;
          is_mixin <- match mixin with
                      | Some m => truthy m
                      | None => ret false
                      end ;;
          if in_idx && negb is_mixin then
            v <- idx_getitem url ;;
            metadata <- alloc (ODict []) ;;
            ret (v, metadata)
          else if (inc : bool) then
            (* "$include" directive means load raw text *)
            text <- fetch_text url ;;
            metadata <- alloc (ODict []) ;;
            ret (VStr text, metadata)
          else
            obj_true <- match obj with
                        | Some o => truthy o
                        | None => ret false
                        end ;;
            dd <- (if (obj_true : bool) then
                     match obj with
                     | Some o =>
                         for_each (identifiers self) (fun identifier =>
                           setitem o identifier (VStr url)) ;;;
                         ret (VNone, url)
                     | None => raise OutOfModel
                     end
                   else
                     (* Load structured document *)
                     df <- lift (Urllib.urldefrag url) ;;
                     let '(doc_url, frg) := df in
                     doc_in_idx <- idx_contains doc_url ;;
                     if doc_in_idx && negb is_mixin then
                       raise (ValidationException
                                (MReferenceNotFound frg doc_url))
                     else
                       doc <- fetch self doc_url (negb is_mixin) ;;
                       ret (doc, doc_url)) ;;
            let '(doc, doc_url) := dd in
            (* Recursively expand urls and resolve directives *)
            rr <- (if (is_mixin : bool) then
                     match mixin with
                     | Some m =>
                         doc <- mixin_overlay doc m ;;
                         res <- resolve_all f self doc base_url
                                  (Some doc_url) checklinks ;;
                         ret (res, None)
                     | None => raise OutOfModel
                     end
                   else
                     doc_true <- truthy doc ;;
                     let d := if (doc_true : bool) then doc
                              else match obj with
                                   | Some o => o
                                   | None => VNone
                                   end in
                     res <- resolve_all f self d doc_url None checklinks ;;
                     ret (res, Some url)) ;;
            let '((resolved_obj, metadata), url) := rr in
            (* Requested reference should be in the index now *)
            resolved_obj <- match url with
                            | Some url =>
                                in_idx <- idx_contains url ;;
                                if (in_idx : bool) then idx_getitem url
                                else raise RuntimeError
                            | None => ret resolved_obj
                            end ;;
            split_graph resolved_obj metadata
      | _ => raise ValueError
      end
  end

with resolve_all (fuel : nat) (self : Loader) (document : Val)
    (base_url : string) (file_base : option string) (checklinks : bool)
    {struct fuel} : M (Val * Val) :=
  match fuel with
  | 0 => raise OutOfFuel
  | S f =>
      let loader := self in
      metadata <- alloc (ODict []) ;;
      let file_base := match file_base with
                       | Some fb => fb
                       | None => base_url
                       end in
      isd <- is_dict document ;;
      isl <- is_list document ;;
      let rewrite_and_recurse : M (Val * Val) :=
        r <- (if (isd : bool) then
                (* Handle $base, $profile, $namespaces, $schemas, $graph *)
                has_base <- contains document "$base" ;;
                base_url <- (if (has_base : bool) then
                               v <- getitem document "$base" ;; as_str v
                             else ret base_url) ;;
                has_profile <- contains document "$profile" ;;
                newctx <- (if (has_profile : bool) then
                             nc <- ensure_subloader self None ;;
                             p <- getitem document "$profile" ;;
                             profile <- as_str p ;;
                             fetch self profile true ;;;
                             ns <- get document "$namespaces" ;;
                             nc <- match ns with
                                   | Some ns => add_namespaces nc ns
                                   | None => ret nc
                                   end ;;
                             sch <- get document "$schemas" ;;
                             match sch with
                             | Some sch => add_schemas sch
                             | None => ret tt
                             end ;;;
                             ret (Some nc)
                           else ret None) ;;
                has_ns <- contains document "$namespaces" ;;
                newctx <- (if (has_ns : bool) then
                             nc <- ensure_subloader self newctx ;;
                             ns <- getitem document "$namespaces" ;;
                             nc <- add_namespaces nc ns ;;
                             ret (Some nc)
                           else ret newctx) ;;
                has_sch <- contains document "$schemas" ;;
                newctx <- (if (has_sch : bool) then
                             nc <- ensure_subloader self newctx ;;
                             sch <- getitem document "$schemas" ;;
                             add_schemas sch ;;;
                             ret (Some nc)
                           else ret newctx) ;;
                let loader := match newctx with
                              | Some nc => nc
                              | None => loader
                              end in
                has_graph <- contains document "$graph" ;;
                if (has_graph : bool) then
                  metadata <- copy_without_key document "$graph" ;;
                  document <- getitem document "$graph" ;;
                  rm <- resolve_all f loader metadata base_url
                          (Some file_base) false ;;
                  let resolved_metadata := fst rm in
                  ismd <- is_dict resolved_metadata ;;
                  if (ismd : bool)
                  then ret (base_url, loader, document, resolved_metadata)
                  else raise (ValidationException MMetadataMustBeDict)
                else ret (base_url, loader, document, metadata)
              else ret (base_url, loader, document, metadata)) ;;
        let '(base_url, loader, document, metadata) := r in
        isd <- is_dict document ;;
        isl <- is_list document ;;
        (if (isd : bool) then
           _normalize_fields document loader ;;;
           _resolve_idmap document loader ;;;
           _resolve_type_dsl document loader ;;;
           base_url <- _resolve_identifier document loader base_url ;;
           _resolve_identity document loader base_url ;;;
           _resolve_uris self document loader base_url ;;;
           kvs <- items document ;;
           for_each kvs (fun kv =>
             try_validation
               (rv <- resolve_all f loader (snd kv) base_url
                        (Some file_base) false ;;
                setitem document (fst kv) (fst rv))
               (fun v => raise (ValidationException
                                  (MInField file_base (fst kv) v))))
         else if (isl : bool) then
           resolve_list f loader document base_url file_base 0 ;;;
           for_each (identity_links loader) (fun identifer =>
             present <- contains metadata identifer ;;
             if (present : bool) then
               v <- getitem metadata identifer ;;
               match v with
               | VStr s =>
                   u <- lift (expand_url loader s base_url true false None) ;;
                   setitem metadata identifer (VStr u) ;;;
                   idx_setitem u document
               | _ => ret tt
               end
             else ret tt)
         else ret tt) ;;;
        document <- (if checklinks
                     then validate_links fuel self document EmptyString
                     else ret document) ;;
        ret (document, metadata) in
      if (isd : bool) then
        (* Handle $import and $include *)
        kvs <- items document ;;
        if dict_has "$import" kvs || dict_has "$include" kvs then
          resolve_ref f self document file_base checklinks
        else if dict_has "$mixin" kvs then
          resolve_ref f self document base_url checklinks
        else rewrite_and_recurse
      else if (isl : bool) then rewrite_and_recurse
      else ret (document, metadata)
  end

with resolve_list (fuel : nat) (loader : Loader) (document : Val)
    (base_url file_base : string) (i : nat) {struct fuel} : M unit :=
  match fuel with
  | 0 => raise OutOfFuel
  | S f =>
      len <- list_len document ;;
      if i <? len then
        i' <- try_validation
                (val <- list_get document i ;;
                 isd <- is_dict val ;;
                 directive <- (if (isd : bool) then
                                 kvs <- items val ;;
                                 ret (dict_has "$import" kvs
                                      || dict_has "$mixin" kvs)
                               else ret false) ;;
                 if (directive : bool) then
                   r <- resolve_ref f loader val file_base false ;;
                   let l := fst r in
                   isl <- is_list l ;;
                   if (isl : bool) then
                     list_del document i ;;;
                     xs <- aslist l ;;
                     fold_each xs i (fun i item =>
                       list_insert document i item ;;; ret (S i))
                   else
                     list_set document i l ;;; ret (S i)
                 else
                   r <- resolve_all f loader val base_url
                          (Some file_base) false ;;
                   list_set document i (fst r) ;;; ret (S i))
                (fun v => raise (ValidationException
                                   (MInPosition file_base i v))) ;;
        resolve_list f loader document base_url file_base i'
      else ret tt
  end.

End Resolver.

End Salad.

(* ===================================================================== *)
(** ** Properties *)
(* ===================================================================== *)

Import PyObj Salad.

(** *** Facts about the string methods *)

Lemma contains_app_sep (c : ascii) (p s : string) :
  PyStr.contains c (p +:+ String c s) = true.
Proof.
  induction p as [|a p IH]; simpl.
  - by rewrite Ascii.eqb_refl.
  - destruct (Ascii.eqb a c); [done | exact IH].
Qed.

Lemma split_cons (c : ascii) (s : string) :
  exists x xs, PyStr.split c s = x :: xs.
Proof.
  destruct s as [|a s]; simpl; [by eauto |].
  destruct (Ascii.eqb a c); [by eauto |].
  destruct (PyStr.split c s); by eauto.
Qed.

(** The first field of [(p + c + s).split(c)] is [p] when [c] does not
    occur in [p]. *)
Lemma split_hd_app (c : ascii) (p s : string) :
  PyStr.contains c p = false ->
  List.hd EmptyString (PyStr.split c (p +:+ String c s)) = p.
Proof.
  induction p as [|a p IH]; simpl; intros Hc.
  - by rewrite Ascii.eqb_refl.
  - destruct (Ascii.eqb a c) eqn:E; [done |].
    specialize (IH Hc).
    destruct (split_cons c (p +:+ String c s)) as (x & xs & Hx).
    rewrite Hx in IH |- *. simpl in *. by subst.
Qed.

Lemma drop_app_sep (c : ascii) (p s : string) :
  PyStr.drop (String.length p + 1) (p +:+ String c s) = s.
Proof. induction p as [|a p IH]; simpl; [done | exact IH]. Qed.

Lemma nonempty_dict_has {V} (k : string) (d : list (string * V)) :
  dict_has k d = true -> nonempty_dict d = true.
Proof. by destruct d. Qed.

Lemma eqb_false_of_contains (c : ascii) (url t : string) :
  PyStr.contains c url = true -> PyStr.contains c t = false ->
  String.eqb url t = false.
Proof.
  intros Hu Ht. apply String.eqb_neq. intros ->. congruence.
Qed.

(** *** Loaders used in the examples *)

(** The context [{id: "@id"}]. *)
Definition loader_id : Loader :=
  mkLoader [("id", NStr "@id")] [] [] [] ["id"] ["id"] [] []
    [("id", "@id")] [("@id", "id")] [] [] [].

Lemma loader_id_built : new_loader [("id", NStr "@id")] = Ok loader_id.
Proof. reflexivity. Qed.

(** A context with the namespace prefix [cwl]. *)
Definition loader_cwl : Loader :=
  mkLoader [("cwl", NStr "https://w3id.org/cwl/cwl#")] [] [] [] [] [] [] []
    [("cwl", "https://w3id.org/cwl/cwl#")]
    [("https://w3id.org/cwl/cwl#", "cwl")] [] [] [].

Lemma loader_cwl_built :
  new_loader [("cwl", NStr "https://w3id.org/cwl/cwl#")] = Ok loader_cwl.
Proof. reflexivity. Qed.

(** *** C4: vocabulary prefix expansion *)

(** C4, as stated, fails: with the context [{id: "@id"}] the vocabulary
    maps [id] to [@id], and ["id:x"] expands to [@idx] resolved against the
    base, not to ["@id" + "x"]. *)
Lemma C4_counterexample :
  dict_get "id" (vocab loader_id) = Some "@id"
  /\ expand_url loader_id "id:x" "http://a/b" false false None
     = Ok "http://a/@idx"
  /\ expand_url loader_id "id:x" "http://a/b" false false None
     <> Ok ("@id" +:+ "x").
Proof. split; [reflexivity | split; [reflexivity | discriminate]]. Qed.

(** C4 (amended): for a string [p:s] whose prefix [p] (up to the first
    colon) is a key of the vocabulary, [expand_url] returns [vocab[p] + s]
    whenever that string has a URL scheme; this holds for every base and
    every [scoped_id] and [scoped_ref], with [vocab_term] unset. *)
Theorem C4_prefix_expansion (self : Loader) (p s v base : string)
    (scoped_id : bool) (scoped_ref : option Z) (sp : Urllib.SplitResult) :
  PyStr.contains ":" p = false ->
  dict_get p (vocab self) = Some v ->
  Urllib.urlsplit (v +:+ s) = Ok sp ->
  PyStr.nonempty (Urllib.scheme sp) = true ->
  expand_url self (p +:+ ":" +:+ s) base scoped_id false scoped_ref
  = Ok (v +:+ s).
Proof.
  intros Hp Hv Hsp Hscheme.
  change (":" +:+ s) with (String ":" s).
  pose proof (contains_app_sep ":" p s) as Hc.
  unfold expand_url.
  rewrite (eqb_false_of_contains ":" _ "@id" Hc eq_refl).
  rewrite (eqb_false_of_contains ":" _ "@type" Hc eq_refl).
  cbn [orb andb].
  assert (nonempty_dict (vocab self) = true) as ->.
  { apply (nonempty_dict_has p). unfold dict_has. by rewrite Hv. }
  rewrite Hc. cbn [andb].
  rewrite (split_hd_app ":" p s Hp), Hv, drop_app_sep.
  rewrite Hsp. cbn [res_bind]. rewrite Hscheme. reflexivity.
Qed.

Lemma C4_prefix_expansion_witness :
  expand_url loader_cwl ("cwl" +:+ ":" +:+ "Workflow") "file:///d/wf.cwl"
    true false (Some 1%Z)
  = Ok ("https://w3id.org/cwl/cwl#" +:+ "Workflow").
Proof.
  eapply (C4_prefix_expansion loader_cwl "cwl" "Workflow"
            "https://w3id.org/cwl/cwl#");
    vm_compute; reflexivity.
Defined.

(** *** C5: reserved tokens and expressions *)

(** [urlsplit] does not raise on a string that starts with a dollar sign:
    it has no scheme and no network location. *)
Lemma urlsplit_dollar (r : string) :
  exists sp, Urllib.urlsplit (String "$" r) = Ok sp.
Proof.
  unfold Urllib.urlsplit.
  change (PyStr.lstrip Urllib.c0_or_space (String "$" r)) with (String "$" r).
  change (PyStr.remove Urllib.unsafe_byte (String "$" r))
    with (String "$" (PyStr.remove Urllib.unsafe_byte r)).
  set (r' := PyStr.remove Urllib.unsafe_byte r).
  destruct (PyStr.find ":" (String "$" r')) as [[|i]|]; cbn; eauto.
Qed.

Lemma startswith_dollar (c : ascii) (url : string) :
  PyStr.startswith (String "$" (String c EmptyString)) url = true ->
  exists r, url = String "$" r.
Proof.
  destruct url as [|a r]; [discriminate |]. cbn [PyStr.startswith].
  destruct (Ascii.eqb "$" a) eqn:E; [|discriminate].
  apply Ascii.eqb_eq in E. subst. by eauto.
Qed.

(** A context whose vocabulary has a key that starts like an expression. *)
Definition loader_dollar : Loader :=
  mkLoader [("$(a", NStr "rel/")] [] [] [] [] [] [] []
    [("$(a", "rel/")] [("rel/", "$(a")] [] [] [].

Lemma loader_dollar_built :
  new_loader [("$(a", NStr "rel/")] = Ok loader_dollar.
Proof. reflexivity. Qed.

(** C5, as stated, fails: the vocabulary prefix is substituted before the
    test for [$(], so a string that begins with [$(] and whose prefix is a
    vocabulary key is rewritten and then resolved against the base. *)
Lemma C5_counterexample :
  PyStr.startswith "$(" "$(a:b" = true
  /\ expand_url loader_dollar "$(a:b" "http://h/d/doc" false false None
     = Ok "http://h/d/rel/b"
  /\ expand_url loader_dollar "$(a:b" "http://h/d/doc" false false None
     <> Ok "$(a:b".
Proof. split; [reflexivity | split; [reflexivity | discriminate]]. Qed.

(** C5 (amended): for every base and flag combination [expand_url] returns
    [@id] and [@type] unchanged; a string that begins with [$(] or [${] is
    returned unchanged, without resolution against the base, provided its
    prefix up to the first colon is not a vocabulary key and, when
    [vocab_term] is set, the string is not a key of the reverse
    vocabulary. *)
Theorem C5_reserved_passthrough (self : Loader) (url base : string)
    (scoped_id vocab_term : bool) (scoped_ref : option Z) :
  url = "@id" \/ url = "@type"
  \/ ((PyStr.startswith "$(" url = true \/ PyStr.startswith "${" url = true)
      /\ (PyStr.contains ":" url = true ->
          dict_get (List.hd EmptyString (PyStr.split ":" url)) (vocab self)
          = None)
      /\ (vocab_term = true -> dict_get url (rvocab self) = None)) ->
  expand_url self url base scoped_id vocab_term scoped_ref = Ok url.
Proof.
  intros [-> | [-> | (Hstart & Hvocab & Hrvocab)]]; [reflexivity.. |].
  unfold expand_url.
  destruct (String.eqb url "@id" || String.eqb url "@type"); [done |].
  destruct (vocab_term && dict_has url (vocab self)); [done |].
  assert ((if nonempty_dict (vocab self) && PyStr.contains ":" url
           then match dict_get (List.hd EmptyString (PyStr.split ":" url))
                        (vocab self) with
                | Some v =>
                    v +:+ PyStr.drop
                            (String.length
                               (List.hd EmptyString (PyStr.split ":" url)) + 1)
                            url
                | None => url
                end
           else url) = url) as ->.
  { destruct (nonempty_dict (vocab self)); [|done].
    destruct (PyStr.contains ":" url); [|done].
    cbn [andb]. by rewrite Hvocab. }
  assert (exists sp, Urllib.urlsplit url = Ok sp) as [sp ->].
  { destruct Hstart as [H | H]; apply startswith_dollar in H as [r ->];
      apply urlsplit_dollar. }
  cbn [res_bind].
  assert (PyStr.nonempty (Urllib.scheme sp)
          || PyStr.startswith "$(" url || PyStr.startswith "${" url = true)
    as ->.
  { destruct Hstart as [-> | ->]; by rewrite ?orb_true_r. }
  cbn [res_bind].
  destruct vocab_term; [|done].
  by rewrite Hrvocab.
Qed.

Lemma C5_reserved_passthrough_witness :
  expand_url loader_cwl "$(inputs.message)" "file:///d/wf.cwl"
    false true None
  = Ok "$(inputs.message)".
Proof.
  apply C5_reserved_passthrough.
  right; right. split; [left; reflexivity |].
  split; [discriminate | reflexivity].
Defined.

(** *** C9: the context is built once *)

Lemma add_context_populated (self : Loader)
    (newcontext : list (string * Node)) :
  vocab self <> [] ->
  add_context newcontext self
  = (Raise (ValidationException MRefreshingContext), self).
Proof.
  intros Hv. unfold add_context, bind, get_state.
  destruct (vocab self) as [|kv r] eqn:E; [done | reflexivity].
Qed.

(** C9: [add_context] on a loader whose vocabulary is populated raises the
    validation error "Refreshing context that already has stuff in it" and
    leaves every attribute of the loader as it was. *)
Theorem C9_context_rebuild_rejected (self : Loader)
    (newcontext : list (string * Node)) :
  vocab self <> [] ->
  add_context newcontext self
  = (Raise (ValidationException MRefreshingContext), self).
Proof.
  intros Hv. unfold add_context.
  unfold bind, get_state.
  destruct (vocab self) as [|kv r] eqn:E.
  - contradiction.
  - cbn [nonempty_dict]. unfold raise. reflexivity.
Qed.

Lemma C9_context_rebuild_rejected_witness :
  vocab loader_id <> []
  /\ add_context [("label", NStr "http://www.w3.org/2000/01/rdf-schema#label")]
       loader_id
     = (Raise (ValidationException MRefreshingContext), loader_id).
Proof.
  split; [discriminate |].
  apply (C9_context_rebuild_rejected loader_id). discriminate.
Defined.

(** However many times [add_context] is called again, the compiled context
    stays the one of the first call. *)
Lemma add_context_again (self : Loader) (cs : list (list (string * Node))) :
  vocab self <> [] ->
  fold_left (fun l c => snd (add_context c l)) cs self = self.
Proof.
  intros Hv. induction cs as [|c cs IH]; [done |].
  simpl. by rewrite add_context_populated.
Qed.

(** *** C10: [fetch_text] does not write the text cache *)

(** The state [st] after the transport reads [evs]. *)
Definition logged (st : State) (evs : list IOEvent) : State :=
  mkState (heap st) (idx st) (cache st) (io_log st ++ evs).

Lemma logged_logged (st : State) (e1 e2 : list IOEvent) :
  logged (logged st e1) e2 = logged st (e1 ++ e2).
Proof. unfold logged; simpl. by rewrite <- app_assoc. Qed.

(** What [requests.get] and [open] answer, as results of [fetch_text]. *)
Definition transport_result (o : option string) : Res string :=
  match o with
  | Some text => Ok text
  | None => Raise RuntimeError
  end.

Lemma fetch_text_cached (w : World) (url text : string) (st : State) :
  dict_get url (cache st) = Some text ->
  fetch_text w url st = (Ok text, st).
Proof. intros H. unfold fetch_text, bind, get_state. by rewrite H. Qed.

Lemma fetch_text_http (w : World) (url : string) (sp : Urllib.SplitResult)
    (st : State) :
  dict_get url (cache st) = None ->
  Urllib.urlsplit url = Ok sp ->
  PyStr.mem (Urllib.scheme sp) ["http"; "https"] = true ->
  fetch_text w url st
  = (transport_result (http_get w url), logged st [HttpGet url]).
Proof.
  intros Hc Hsp Hs. unfold fetch_text, bind, get_state, lift, log_io, modify.
  rewrite Hc, Hsp, Hs. by destruct (http_get w url).
Qed.

Lemma fetch_text_file (w : World) (url : string) (sp : Urllib.SplitResult)
    (st : State) :
  dict_get url (cache st) = None ->
  Urllib.urlsplit url = Ok sp ->
  Urllib.scheme sp = "file" ->
  fetch_text w url st
  = (transport_result (file_read w (Urllib.path sp)),
     logged st [FileOpen (Urllib.path sp)]).
Proof.
  intros Hc Hsp Hs. unfold fetch_text, bind, get_state, lift, log_io, modify.
  rewrite Hc, Hsp, Hs. cbn. by destruct (file_read w (Urllib.path sp)).
Qed.

Lemma fetch_text_frame (w : World) (url : string) (st : State) :
  exists evs, snd (fetch_text w url st) = logged st evs.
Proof.
  assert (st = logged st []) as Hst.
  { unfold logged. rewrite app_nil_r. by destruct st. }
  unfold fetch_text, bind, get_state, lift, log_io, modify.
  destruct (dict_get url (cache st)); [by exists [] |].
  destruct (Urllib.urlsplit url) as [sp|e]; [|by exists []].
  destruct (PyStr.mem (Urllib.scheme sp) ["http"; "https"]).
  { exists [HttpGet url]. by destruct (http_get w url). }
  destruct (String.eqb (Urllib.scheme sp) "file").
  { exists [FileOpen (Urllib.path sp)].
    by destruct (file_read w (Urllib.path sp)). }
  by exists [].
Qed.

(** C10: [fetch_text] returns the cached text when the URL is a key of the
    cache, without a transport read; it never changes the cache (nor the
    store, nor the index); on an uncached URL it performs the transport
    read of the scheme and returns what the transport gives, so that a
    second call on the same URL reads the transport again. *)
Theorem C10_fetch_text_never_writes_cache (w : World) (url : string)
    (st : State) :
  (cache (snd (fetch_text w url st)) = cache st
   /\ heap (snd (fetch_text w url st)) = heap st
   /\ idx (snd (fetch_text w url st)) = idx st)
  /\ (forall text, dict_get url (cache st) = Some text ->
        fetch_text w url st = (Ok text, st))
  /\ (dict_get url (cache st) = None ->
      forall sp, Urllib.urlsplit url = Ok sp ->
        (PyStr.mem (Urllib.scheme sp) ["http"; "https"] = true ->
           fetch_text w url st
           = (transport_result (http_get w url), logged st [HttpGet url])
           /\ fetch_text w url (logged st [HttpGet url])
              = (transport_result (http_get w url),
                 logged st [HttpGet url; HttpGet url]))
        /\ (Urllib.scheme sp = "file" ->
           fetch_text w url st
           = (transport_result (file_read w (Urllib.path sp)),
              logged st [FileOpen (Urllib.path sp)])
           /\ fetch_text w url (logged st [FileOpen (Urllib.path sp)])
              = (transport_result (file_read w (Urllib.path sp)),
                 logged st [FileOpen (Urllib.path sp);
                            FileOpen (Urllib.path sp)]))).
Proof.
  split; [|split].
  - destruct (fetch_text_frame w url st) as [evs ->]. done.
  - intros text. apply fetch_text_cached.
  - intros Hc sp Hsp. split; intros Hs.
    + split; [by eapply fetch_text_http |].
      erewrite fetch_text_http; [|exact Hc|exact Hsp|exact Hs].
      by rewrite logged_logged.
    + split; [by eapply fetch_text_file |].
      erewrite fetch_text_file; [|exact Hc|exact Hsp|exact Hs].
      by rewrite logged_logged.
Qed.

(** A world with one file, [/notes.txt], and no network. *)
Definition world_notes : World :=
  mkWorld (fun _ => None)
    (fun path => if String.eqb path "/notes.txt" then Some "hello" else None)
    (fun path => String.eqb path "/notes.txt")
    (fun _ => YOtherError)
    "/".

Definition empty_state : State := mkState [] [] [] [].

Lemma C10_fetch_text_never_writes_cache_witness :
  fetch_text world_notes "file:///notes.txt" empty_state
  = (Ok "hello", logged empty_state [FileOpen "/notes.txt"])
  /\ fetch_text world_notes "file:///notes.txt"
       (logged empty_state [FileOpen "/notes.txt"])
     = (Ok "hello",
        logged empty_state [FileOpen "/notes.txt"; FileOpen "/notes.txt"]).
Proof.
  pose proof (C10_fetch_text_never_writes_cache world_notes
                "file:///notes.txt" empty_state) as (_ & _ & H).
  specialize (H eq_refl _ eq_refl) as [_ H].
  exact (H eq_refl).
Defined.

(** *** C1: scoped reference search *)

(** The search in the words of the specification: the fragment of the
    document id is split on [/] and [depth] components are popped; the
    candidates are the remaining components with the link appended, then
    one level up at a time until no component is left. *)
Fixpoint walk_up (n : nat) (sp : list string) : list (list string) :=
  match n with
  | 0 => [sp]
  | S n' => sp :: walk_up n' (removelast sp)
  end.

Definition scoped_candidates (split : Urllib.SplitResult) (depth : Z)
    (link : string) : list string :=
  let parts := PyStr.split "/" (Urllib.fragment split) in
  let sp := firstn (length parts - Z.to_nat depth) parts in
  map (fun s =>
         Urllib.urlunsplit (Urllib.scheme split) (Urllib.netloc split)
           (Urllib.path split) (Urllib.query split)
           (PyStr.join "/" (s ++ [link])))
      (walk_up (length sp) sp).

(** The first candidate that is a key of the index; without one, the
    error that lists the candidates tried. *)
Fixpoint first_indexed (index : list (string * Val)) (field link : string)
    (cands tried : list string) : Res string :=
  match cands with
  | [] => Raise (ValidationException (MUndefinedRefTried field link tried))
  | u :: r =>
      match normalize u with
      | Raise e => Raise e
      | Ok k =>
          if dict_has k index then Ok u
          else first_indexed index field link r (tried ++ [u])
      end
  end.

Lemma removelast_length {A} (l : list A) :
  length (removelast l) = pred (length l).
Proof. rewrite removelast_firstn_len, length_take. lia. Qed.

Lemma pop_n_firstn (n : nat) (sp : list string) :
  pop_n n sp = firstn (length sp - n) sp.
Proof.
  revert sp. induction n as [|n IH]; intros sp.
  - rewrite Nat.sub_0_r, firstn_all. by destruct sp.
  - destruct sp as [|x sp]; [done |].
    cbn [pop_n]. rewrite IH, removelast_length.
    rewrite removelast_firstn_len, firstn_firstn.
    f_equal. simpl length. lia.
Qed.

Lemma idx_contains_run (url : string) (st : State) :
  idx_contains url st
  = (match normalize url with
     | Ok k => Ok (dict_has k (idx st))
     | Raise e => Raise e
     end, st).
Proof.
  unfold idx_contains, bind, lift, get_state, ret.
  by destruct (normalize url).
Qed.

Lemma scoped_loop_search (fuel : nat) (split : Urllib.SplitResult)
    (field link : string) (sp tried : list string) (st : State) :
  length sp < fuel ->
  scoped_loop fuel split field link sp tried st
  = (first_indexed (idx st) field link
       (map (fun s =>
               Urllib.urlunsplit (Urllib.scheme split) (Urllib.netloc split)
                 (Urllib.path split) (Urllib.query split)
                 (PyStr.join "/" (s ++ [link])))
            (walk_up (length sp) sp))
       tried, st).
Proof.
  revert sp tried. induction fuel as [|fuel IH]; intros sp tried Hf; [lia |].
  cbn [scoped_loop]. unfold bind at 1. rewrite idx_contains_run.
  rewrite removelast_last.
  destruct sp as [|x sp'] eqn:Esp.
  - cbn [length walk_up map first_indexed app].
    destruct (normalize _) as [k|e]; [|done].
    destruct (dict_has k (idx st)); [done |]. reflexivity.
  - rewrite <- Esp in *.
    assert (length sp = S (length sp')) as Hlen by (by subst).
    rewrite Hlen. cbn [walk_up map first_indexed].
    destruct (normalize _) as [k|e]; [|done].
    destruct (dict_has k (idx st)); [done |].
    assert (length (removelast sp) = length sp') as Hrl.
    { rewrite removelast_length. lia. }
    cbn [Nat.eqb]. rewrite IH by lia. by rewrite Hrl.
Qed.

Lemma validate_scoped_search (w : World) (self : Loader)
    (field link docid : string) (split : Urllib.SplitResult) (depth : Z)
    (st : State) :
  Urllib.urlsplit docid = Ok split ->
  dict_get field (scoped_ref_fields self) = Some depth ->
  validate_scoped self field link docid st
  = (first_indexed (idx st) field link
       (scoped_candidates split depth link) [], st).
Proof.
  intros Hsp Hd. unfold validate_scoped, bind at 1, lift.
  rewrite Hsp, Hd. rewrite scoped_loop_search by lia.
  unfold scoped_candidates. by rewrite pop_n_firstn.
Qed.

(** A context that declares [source] a reference with scope [depth]. *)
Definition loader_source (depth : Z) : Loader :=
  mkLoader
    [("source", NDict [("@type", NStr "@id"); ("refScope", NInt depth)])]
    ["source"] [("source", depth)] [] [] [] [] [] [] [] [] [] [].

Lemma loader_source_built (depth : Z) :
  new_loader
    [("source", NDict [("@type", NStr "@id"); ("refScope", NInt depth)])]
  = Ok (loader_source depth).
Proof. reflexivity. Qed.

(** A state whose index holds the node [file:///w#main/outA]. *)
Definition state_outA : State :=
  mkState [ODict [("id", VStr "file:///w#main/outA")]]
    [("file:///w#main/outA", VRef 0)] [] [].

(** C1, as stated, fails in its example: with [refScope=2] both components
    of the fragment [main/step1] are popped, the only URL tried is
    [file:///w#outA], and [validate_link] raises. *)
Lemma C1_counterexample :
  validate_link world_notes 2 (loader_source 2) "source" (VStr "outA")
    "file:///w#main/step1" state_outA
  = (Raise (ValidationException
              (MUndefinedRefTried "source" "outA" ["file:///w#outA"])),
     state_outA).
Proof. reflexivity. Qed.

Definition res_map {A B} (f : A -> B) (r : Res A) : Res B :=
  res_bind r (fun a => Ok (f a)).

(** C1 (amended): on a string link that is found neither in the
    vocabulary, nor in the index, nor in the reverse vocabulary, for a
    field with declared scope [depth], [validate_link] splits the fragment
    of the document id on [/], pops [depth] components, and returns the
    first URL of the index among: the remaining components with the link
    appended, then the same one level up, and so on until no component is
    left; without a match it raises with the list of the URLs tried.  The
    state is not changed.  (The witness is the example with [refScope=1];
    with [refScope=2] see the counterexample.) *)
Theorem C1_scoped_search (w : World) (fuel : nat) (self : Loader)
    (field link docid : string) (split : Urllib.SplitResult) (depth : Z)
    (k : string) (st : State) :
  PyStr.mem field (nolinkcheck self) = false ->
  (PyStr.mem field (vocab_fields self) = true ->
   dict_has link (vocab self) = false) ->
  normalize link = Ok k ->
  dict_has k (idx st) = false ->
  dict_has link (rvocab self) = false ->
  dict_get field (scoped_ref_fields self) = Some depth ->
  Urllib.urlsplit docid = Ok split ->
  validate_link w (S fuel) self field (VStr link) docid st
  = (res_map VStr
       (first_indexed (idx st) field link
          (scoped_candidates split depth link) []), st).
Proof.
  intros Hnl Hv Hk Hidx Hrv Hd Hsp.
  cbn [validate_link]. rewrite Hnl.
  unfold is_list, is_dict, bind at 1 2, ret at 1 2.
  assert ((if PyStr.mem field (vocab_fields self)
           then if dict_has link (vocab self) then ret true
                else in_idx <- idx_contains link ;;
                     ret (in_idx || dict_has link (rvocab self))
           else in_idx <- idx_contains link ;;
                ret (in_idx || dict_has link (rvocab self))) st
          = (Ok false, st)) as Hknown.
  { assert ((in_idx <- idx_contains link ;;
             ret (in_idx || dict_has link (rvocab self))) st
            = (Ok false, st)) as Hin.
    { unfold bind. rewrite idx_contains_run, Hk, Hidx, Hrv. reflexivity. }
    destruct (PyStr.mem field (vocab_fields self)); [|exact Hin].
    by rewrite Hv. }
  unfold bind at 1. rewrite Hknown. cbn [negb].
  unfold dict_has at 1. rewrite Hd.
  unfold bind. rewrite (validate_scoped_search w self field link docid split depth st Hsp Hd).
  unfold res_map.
  by destruct (first_indexed _ _ _ _ _).
Qed.

Lemma C1_scoped_search_witness :
  validate_link world_notes 2 (loader_source 1) "source" (VStr "outA")
    "file:///w#main/step1" state_outA
  = (Ok (VStr "file:///w#main/outA"), state_outA).
Proof.
  rewrite (C1_scoped_search world_notes 1 (loader_source 1) "source" "outA"
             "file:///w#main/step1"
             (Urllib.mkSplit "file" "" "/w" "" "main/step1") 1 "outA"
             state_outA);
    reflexivity.
Defined.

(** *** Running the store operations *)

Definition set_heap (h : list Obj) (st : State) : State :=
  mkState h (idx st) (cache st) (io_log st).

Lemma bind_eq {S A B} (m : SR S A) (k : A -> SR S B) (st : S) :
  bind m k st
  = match m st with
    | (Ok a, st') => k a st'
    | (Raise e, st') => (Raise e, st')
    end.
Proof. reflexivity. Qed.

Lemma bind_run {S A B} (m : SR S A) (k : A -> SR S B) (st st' : S) (a : A) :
  m st = (Ok a, st') -> bind m k st = k a st'.
Proof. intros H. by rewrite bind_eq, H. Qed.

Lemma bind_raise {S A B} (m : SR S A) (k : A -> SR S B) (st st' : S)
    (e : Exn) :
  m st = (Raise e, st') -> bind m k st = (Raise e, st').
Proof. intros H. by rewrite bind_eq, H. Qed.

Section Run.
Variable st : State.
Variable a : addr.

Lemma load_run (o : Obj) :
  heap st !! a = Some o -> load a st = (Ok o, st).
Proof. intros H. unfold load. by rewrite H. Qed.

Lemma is_dict_dict (kvs : list (string * Val)) :
  heap st !! a = Some (ODict kvs) -> is_dict (VRef a) st = (Ok true, st).
Proof. intros H. unfold is_dict. by rewrite (bind_run _ _ _ _ _ (load_run _ H)). Qed.

Lemma is_list_dict (kvs : list (string * Val)) :
  heap st !! a = Some (ODict kvs) -> is_list (VRef a) st = (Ok false, st).
Proof. intros H. unfold is_list. by rewrite (bind_run _ _ _ _ _ (load_run _ H)). Qed.

Lemma is_dict_list (xs : list Val) :
  heap st !! a = Some (OList xs) -> is_dict (VRef a) st = (Ok false, st).
Proof. intros H. unfold is_dict. by rewrite (bind_run _ _ _ _ _ (load_run _ H)). Qed.

Lemma is_list_list (xs : list Val) :
  heap st !! a = Some (OList xs) -> is_list (VRef a) st = (Ok true, st).
Proof. intros H. unfold is_list. by rewrite (bind_run _ _ _ _ _ (load_run _ H)). Qed.

Lemma items_run (kvs : list (string * Val)) :
  heap st !! a = Some (ODict kvs) -> items (VRef a) st = (Ok kvs, st).
Proof. intros H. unfold items. by rewrite (bind_run _ _ _ _ _ (load_run _ H)). Qed.

Lemma elements_run (xs : list Val) :
  heap st !! a = Some (OList xs) -> elements (VRef a) st = (Ok xs, st).
Proof. intros H. unfold elements. by rewrite (bind_run _ _ _ _ _ (load_run _ H)). Qed.

Lemma contains_run (kvs : list (string * Val)) (k : string) :
  heap st !! a = Some (ODict kvs) ->
  contains (VRef a) k st = (Ok (dict_has k kvs), st).
Proof. intros H. unfold contains. by rewrite (bind_run _ _ _ _ _ (items_run _ H)). Qed.

Lemma getitem_run (kvs : list (string * Val)) (k : string) (v : Val) :
  heap st !! a = Some (ODict kvs) -> dict_get k kvs = Some v ->
  getitem (VRef a) k st = (Ok v, st).
Proof.
  intros H Hk. unfold getitem.
  rewrite (bind_run _ _ _ _ _ (items_run _ H)). by rewrite Hk.
Qed.

Lemma get_run (kvs : list (string * Val)) (k : string) :
  heap st !! a = Some (ODict kvs) ->
  get (VRef a) k st = (Ok (dict_get k kvs), st).
Proof. intros H. unfold get. by rewrite (bind_run _ _ _ _ _ (items_run _ H)). Qed.

Lemma setitem_run (kvs : list (string * Val)) (k : string) (v : Val) :
  heap st !! a = Some (ODict kvs) ->
  setitem (VRef a) k v st
  = (Ok tt, set_heap (<[a := ODict (dict_set k v kvs)]> (heap st)) st).
Proof.
  intros H. unfold setitem.
  by rewrite (bind_run _ _ _ _ _ (items_run _ H)).
Qed.

Lemma delitem_run (kvs : list (string * Val)) (k : string) :
  heap st !! a = Some (ODict kvs) -> dict_has k kvs = true ->
  delitem (VRef a) k st
  = (Ok tt, set_heap (<[a := ODict (dict_del k kvs)]> (heap st)) st).
Proof.
  intros H Hk. unfold delitem.
  rewrite (bind_run _ _ _ _ _ (items_run _ H)). by rewrite Hk.
Qed.

Lemma truthy_dict (kvs : list (string * Val)) :
  heap st !! a = Some (ODict kvs) ->
  truthy (VRef a) st = (Ok (nonempty_dict kvs), st).
Proof.
  intros H. unfold truthy.
  rewrite (bind_run _ _ _ _ _ (load_run _ H)). by destruct kvs.
Qed.

End Run.

Lemma alloc_run (o : Obj) (st : State) :
  alloc o st = (Ok (VRef (length (heap st))), set_heap (heap st ++ [o]) st).
Proof. reflexivity. Qed.

(** *** Facts about dictionaries *)

Section DictFacts.
Context {V : Type}.
Implicit Types (d e : list (string * V)) (k : string) (v : V).

Lemma dict_get_set_eq k v d : dict_get k (dict_set k v d) = Some v.
Proof.
  induction d as [|[k' v'] d IH]; simpl.
  - by rewrite String.eqb_refl.
  - destruct (String.eqb k k') eqn:E; simpl; rewrite ?String.eqb_refl, ?E; done.
Qed.

Lemma dict_get_set_ne k k' v d :
  k <> k' -> dict_get k (dict_set k' v d) = dict_get k d.
Proof.
  intros Hne. induction d as [|[k2 v2] d IH]; simpl.
  - by apply String.eqb_neq in Hne as ->.
  - destruct (String.eqb k' k2) eqn:E; simpl.
    + apply String.eqb_eq in E as <-.
      by apply String.eqb_neq in Hne as ->.
    + by rewrite IH.
Qed.

Lemma dict_has_set k k' v d :
  dict_has k (dict_set k' v d) = String.eqb k k' || dict_has k d.
Proof.
  unfold dict_has. destruct (String.eqb_spec k k') as [->|Hne].
  - by rewrite dict_get_set_eq.
  - by rewrite dict_get_set_ne.
Qed.

Lemma dict_has_update k d e :
  dict_has k (dict_update d e) = dict_has k d || dict_has k e.
Proof.
  unfold dict_update. revert d.
  induction e as [|[k' v'] e IH]; intros d; simpl.
  - by rewrite orb_false_r.
  - rewrite IH, dict_has_set. unfold dict_has at 4. simpl.
    destruct (String.eqb k k'); simpl; [by rewrite orb_true_r | done].
Qed.

Lemma dict_get_del_ne k k' d :
  k <> k' -> dict_get k (dict_del k' d) = dict_get k d.
Proof.
  intros Hne. induction d as [|[k2 v2] d IH]; simpl; [done |].
  destruct (String.eqb k' k2) eqn:E; simpl.
  - apply String.eqb_eq in E as <-.
    by apply String.eqb_neq in Hne as ->.
  - by rewrite IH.
Qed.

End DictFacts.

(** [doc.update(mixin)], item by item, is [dict_update]. *)
Lemma update_loop (d : addr) (over dk : list (string * Val)) (st : State) :
  heap st !! d = Some (ODict dk) ->
  for_each over (fun kv => setitem (VRef d) (fst kv) (snd kv)) st
  = (Ok tt, set_heap (<[d := ODict (dict_update dk over)]> (heap st)) st).
Proof.
  revert dk st. induction over as [|[k v] over IH]; intros dk st Hd.
  - cbn. rewrite list_insert_id by done. by destruct st.
  - cbn [for_each fst snd].
    rewrite (bind_run _ _ _ _ _ (setitem_run _ _ _ _ _ Hd)).
    rewrite (IH (dict_set k v dk)).
    + unfold set_heap. cbn. by rewrite list_insert_insert_eq.
    + cbn. apply list_lookup_insert_eq. by eapply lookup_lt_Some.
Qed.

(** *** C8: directive exclusivity *)

(** The overlay, given the deep copy: the items of the mixin mapping are
    written over those of the copy and [$mixin] is removed.  Only the copy
    is updated. *)
Lemma mixin_overlay_spec (doc : Val) (a d : addr)
    (kvs dkvs : list (string * Val)) (memo : list (addr * addr))
    (st st' : State) :
  deepcopy (S (length (heap st))) [] doc st = (Ok (VRef d, memo), st') ->
  heap st' !! d = Some (ODict dkvs) ->
  heap st' !! a = Some (ODict kvs) ->
  d <> a ->
  dict_has "$mixin" kvs = true ->
  mixin_overlay doc (VRef a) st
  = (Ok (VRef d),
     set_heap
       (<[d := ODict (dict_del "$mixin" (dict_update dkvs kvs))]> (heap st'))
       st').
Proof.
  intros Hcopy Hd Ha Hne Hmix. unfold mixin_overlay.
  rewrite bind_eq. cbn [get_state].
  rewrite (bind_run _ _ _ _ _ Hcopy). cbn [fst].
  rewrite (bind_run _ _ _ _ _ (is_dict_dict _ _ _ Hd)).
  rewrite (bind_run _ _ _ _ _ (items_run _ _ _ Ha)).
  rewrite (bind_run _ _ _ _ _ (update_loop d kvs dkvs st' Hd)).
  assert (d < length (heap st')) as Hlt by (by eapply lookup_lt_Some).
  erewrite bind_run; cycle 1.
  { eapply delitem_run.
    - cbn. by apply list_lookup_insert_eq.
    - by rewrite dict_has_update, Hmix, orb_true_r. }
  unfold ret, set_heap. cbn. by rewrite list_insert_insert_eq.
Qed.

(** [resolve_ref] raises [ValueError] on every mapping in which
    [$import] or [$include] comes with another key, whatever that key is.
    A mapping with [$mixin] (and neither of the two) is accepted with its
    sibling keys: the target is fetched without identifier injection, the
    mapping is overlaid on a deep copy of it ([mixin_overlay]: siblings
    written over the copy, [$mixin] removed), and the overlay is what
    [resolve_all] resolves. *)
Lemma resolve_ref_directive_cases (w : World) (fuel : nat) (self : Loader)
    (a : addr) (kvs : list (string * Val)) (base : string)
    (checklinks : bool) (st : State) :
  heap st !! a = Some (ODict kvs) ->
  ((dict_has "$import" kvs = true \/ dict_has "$include" kvs = true) ->
   length kvs <> 1 ->
   resolve_ref w (S fuel) self (VRef a) base checklinks st
   = (Raise ValueError, st))
  /\ (dict_has "$import" kvs = false ->
      dict_has "$include" kvs = false ->
      forall (r url k doc_url frg k' : string),
        dict_get "$mixin" kvs = Some (VStr r) ->
        expand_url self r
          (if PyStr.nonempty base then base else "file://" +:+ cwd w +:+ "/")
          false false None = Ok url ->
        normalize url = Ok k ->
        Urllib.urldefrag url = Ok (doc_url, frg) ->
        normalize doc_url = Ok k' ->
        resolve_ref w (S fuel) self (VRef a) base checklinks st
        = (doc <- fetch w self doc_url false ;;
           overlay <- mixin_overlay doc (VRef a) ;;
           res <- resolve_all w fuel self overlay
                    (if PyStr.nonempty base then base
                     else "file://" +:+ cwd w +:+ "/")
                    (Some doc_url) checklinks ;;
           split_graph (fst res) (snd res)) st).
Proof.
  intros Ha. split.
  - intros Hdir Hlen.
    cbn [resolve_ref].
    rewrite (bind_run _ _ _ _ _ (is_dict_dict _ _ _ Ha)).
    rewrite bind_eq.
    rewrite (bind_run _ _ _ _ _ (items_run _ _ _ Ha)).
    apply Nat.eqb_neq in Hlen. rewrite Hlen.
    destruct (dict_has "$import" kvs); [reflexivity |].
    destruct Hdir as [Hdir | Hdir]; [discriminate |].
    rewrite Hdir. reflexivity.
  - intros Himp Hinc r url k doc_url frg k' Hmix Hurl Hk Hdefrag Hk'.
    assert (dict_has "$mixin" kvs = true) as Hhas.
    { unfold dict_has. by rewrite Hmix. }
    assert (nonempty_dict kvs = true) as Hne.
    { by apply (nonempty_dict_has "$mixin"). }
    cbn [resolve_ref].
    rewrite (bind_run _ _ _ _ _ (is_dict_dict _ _ _ Ha)).
    rewrite bind_eq.
    rewrite (bind_run _ _ _ _ _ (items_run _ _ _ Ha)).
    rewrite Himp, Hinc, Hhas.
    rewrite (bind_run _ _ _ _ _ (getitem_run _ _ _ _ _ Ha Hmix)).
    cbn [ret]. cbn [bool_decide decide_rel].
    replace (bool_decide (is_Some (@None Val))) with false
      by (symmetry; apply bool_decide_eq_false; by intros [? ?]).
    rewrite bind_eq. unfold lift at 1. rewrite Hurl.
    rewrite bind_eq, idx_contains_run, Hk.
    rewrite (bind_run _ _ _ _ _ (truthy_dict _ _ _ Ha)).
    rewrite Hne, andb_false_r.
    rewrite bind_eq. cbn [ret].
    rewrite bind_eq.
    unfold bind, lift. rewrite Hdefrag.
    rewrite idx_contains_run, Hk', andb_false_r.
    cbn [negb].
    destruct (fetch w self doc_url false st) as [[doc|e] st1]; [|done].
    unfold ret. cbv beta iota.
    destruct (mixin_overlay doc (VRef a) st1) as [[ov|e] st2]; [|done].
    destruct (resolve_all w fuel self ov _ (Some doc_url) checklinks st2)
      as [[[ro md]|e] st3]; [|done].
    reflexivity.
Qed.

(** The scenario of a mixin: [base.yaml] holds
    [{id: base, label: x, run: r}]. *)
Definition world_mixin : World :=
  mkWorld (fun _ => None)
    (fun path =>
       if String.eqb path "/dir/base.yaml" then Some "base" else None)
    (fun _ => false)
    (fun text =>
       if String.eqb text "base"
       then YDoc (NDict [("id", NStr "base"); ("label", NStr "x");
                         ("run", NStr "r")])
       else YParserError)
    "/dir".

(** The store holds [{$mixin: base.yaml, label: override}]. *)
Definition state_mixin : State :=
  mkState [ODict [("$mixin", VStr "base.yaml"); ("label", VStr "override")]]
    [] [] [].

(** The store holds [{$import: base.yaml, label: override}]. *)
Definition state_import : State :=
  mkState [ODict [("$import", VStr "base.yaml"); ("label", VStr "override")]]
    [] [] [].

(** *** C3: the index and the identifiers *)

Lemma idx_getitem_run (url k : string) (v : Val) (st : State) :
  normalize url = Ok k -> dict_get k (idx st) = Some v ->
  idx_getitem url st = (Ok v, st).
Proof.
  intros Hk Hv. unfold idx_getitem, bind, lift, get_state. by rewrite Hk, Hv.
Qed.

Lemma idx_setitem_run (url k : string) (v : Val) (st : State) :
  normalize url = Ok k ->
  idx_setitem url v st = (Ok tt, set_idx (dict_set k v (idx st)) st).
Proof. intros Hk. unfold idx_setitem, bind, lift, modify. by rewrite Hk. Qed.








(** *** C2: resolving twice *)


(** A context in which the prefix [p] stands for another prefix, and [u]
    is a reference field that is not link-checked. *)
Definition loader_chain : Loader :=
  mkLoader
    [("u", NDict [("@type", NStr "@id"); ("noLinkCheck", NBool true)]);
     ("p", NStr "q:"); ("q", NStr "http://x/")]
    ["u"] [] [] [] [] [] ["u"]
    [("p", "q:"); ("q", "http://x/")] [("http://x/", "q")] [] [] [].

Lemma loader_chain_built :
  new_loader
    [("u", NDict [("@type", NStr "@id"); ("noLinkCheck", NBool true)]);
     ("p", NStr "q:"); ("q", NStr "http://x/")]
  = Ok loader_chain.
Proof. reflexivity. Qed.

(** A context with the reference field [run], not link-checked. *)
Definition loader_run : Loader :=
  mkLoader
    [("run", NDict [("@type", NStr "@id"); ("noLinkCheck", NBool true)])]
    ["run"] [] [] [] [] [] ["run"] [] [] [] [] [].

Lemma loader_run_built :
  new_loader
    [("run", NDict [("@type", NStr "@id"); ("noLinkCheck", NBool true)])]
  = Ok loader_run.
Proof. reflexivity. Qed.



(** The base of [resolve_ref]: [base_url or 'file://%s/' % cwd]. *)
Definition default_base (w : World) (base : string) : string :=
  if PyStr.nonempty base then base else "file://" +:+ cwd w +:+ "/".







(** A world where [/dir/tool.yaml] holds [{label: x}]. *)
Definition world_tool : World :=
  mkWorld (fun _ => None)
    (fun path =>
       if String.eqb path "/dir/tool.yaml" then Some "tool" else None)
    (fun _ => false)
    (fun text =>
       if String.eqb text "tool" then YDoc (NDict [("label", NStr "x")])
       else YParserError)
    "/dir".

(** *** C6: the type DSL *)

(** A base name: not empty, without [[] and without [?]. *)
Definition base_name (t : string) : Prop :=
  PyStr.nonempty t = true
  /\ PyStr.contains "[" t = false /\ PyStr.contains "?" t = false.

Lemma append_nil_l (s : string) : EmptyString +:+ s = s.
Proof. reflexivity. Qed.

Lemma append_cons (a : ascii) (s t : string) :
  String a s +:+ t = String a (s +:+ t).
Proof. reflexivity. Qed.

Lemma append_nil_r (s : string) : s +:+ EmptyString = s.
Proof.
  induction s as [|a s IH]; [done |]. by rewrite append_cons, IH.
Qed.

Lemma span_name_app (t rest : string) :
  PyStr.contains "[" t = false -> PyStr.contains "?" t = false ->
  (rest = EmptyString
   \/ exists c r, rest = String c r
                  /\ (Ascii.eqb c "[" || Ascii.eqb c "?" = true)) ->
  span_name (t +:+ rest) = (t, rest).
Proof.
  intros Hb Hq Hrest. induction t as [|a t IH].
  - rewrite append_nil_l.
    destruct Hrest as [-> | (c & r & -> & Hc)]; [done |].
    cbn [span_name]. by rewrite Hc.
  - rewrite append_cons. cbn [span_name]. cbn [PyStr.contains] in Hb, Hq.
    destruct (Ascii.eqb a "["); [done |].
    destruct (Ascii.eqb a "?"); [done |].
    cbn [orb]. by rewrite IH.
Qed.

Lemma nonempty_span (t : string) :
  PyStr.nonempty t = true -> exists a r, t = String a r.
Proof. destruct t; [done | by eauto]. Qed.

(** The four shapes of a string that the expression matches. *)
Lemma typeDSLregex_match_shapes (t : string) :
  base_name t ->
  typeDSLregex_match t = Some (t, false, false)
  /\ typeDSLregex_match (t +:+ "[]") = Some (t, true, false)
  /\ typeDSLregex_match (t +:+ "?") = Some (t, false, true)
  /\ typeDSLregex_match (t +:+ "[]?") = Some (t, true, true).
Proof.
  intros (Hne & Hb & Hq). unfold typeDSLregex_match.
  repeat split.
  - rewrite <- (append_nil_r t) at 1.
    rewrite span_name_app by auto. by rewrite Hne.
  - rewrite span_name_app; [by rewrite Hne | done | done |].
    right. by exists "["%char, "]".
  - rewrite span_name_app; [by rewrite Hne | done | done |].
    right. by exists "?"%char, "".
  - rewrite span_name_app; [by rewrite Hne | done | done |].
    right. by exists "["%char, "]?".
Qed.

(** What [_type_dsl] makes of a match: [second] is the base name, or the
    array of it; with group 3 the value is the list of ["null"] and
    [second]. *)
Definition dsl_second (h : list Obj) (first : string) (g2 : bool) (v : Val)
  : Prop :=
  if g2 then
    exists b, v = VRef b
              /\ h !! b = Some (ODict [("type", VStr "array");
                                       ("items", VStr first)])
  else v = VStr first.

Definition dsl_shape (h : list Obj) (first : string) (g2 g3 : bool) (v : Val)
  : Prop :=
  if g3 then
    exists l second,
      v = VRef l /\ h !! l = Some (OList [VStr "null"; second])
      /\ dsl_second h first g2 second
  else dsl_second h first g2 v.

Definition dsl_result (h : list Obj) (x x' : Val) : Prop :=
  match x with
  | VStr s =>
      match typeDSLregex_match s with
      | Some (first, g2, g3) => dsl_shape h first g2 g3 x'
      | None => x' = x
      end
  | _ => x' = x
  end.

Lemma dsl_second_mono (h h' : list Obj) first g2 v :
  dsl_second h first g2 v -> dsl_second (h ++ h') first g2 v.
Proof.
  unfold dsl_second. destruct g2; [|done].
  intros (b & -> & Hb). exists b. split; [done |].
  rewrite lookup_app_l; [done | by eapply lookup_lt_Some].
Qed.

Lemma dsl_result_mono (h h' : list Obj) (x x' : Val) :
  dsl_result h x x' -> dsl_result (h ++ h') x x'.
Proof.
  unfold dsl_result, dsl_shape.
  destruct x as [| | |s|]; try done.
  destruct (typeDSLregex_match s) as [[[first g2] g3]|]; [|done].
  destruct g3; [|apply dsl_second_mono].
  intros (l & second & -> & Hl & Hs). exists l, second.
  split; [done |]. split; [|by apply dsl_second_mono].
  rewrite lookup_app_l; [done | by eapply lookup_lt_Some].
Qed.

(** [_type_dsl] never fails and only allocates. *)
Lemma type_dsl_run (x : Val) (st : State) :
  exists x' objs,
    _type_dsl x st = (Ok x', set_heap (heap st ++ objs) st)
    /\ dsl_result (heap st ++ objs) x x'
    /\ (is_str x = false -> x' = x /\ objs = []).
Proof.
  assert (set_heap (heap st ++ []) st = st) as Hst.
  { unfold set_heap. rewrite app_nil_r. by destruct st. }
  destruct x as [| | |s|];
    try (eexists; exists []; rewrite Hst; repeat split; done).
  unfold _type_dsl, dsl_result.
  destruct (typeDSLregex_match s) as [[[first g2] g3]|];
    [|exists (VStr s), []; rewrite Hst; repeat split; done].
  unfold dsl_shape, dsl_second.
  destruct g2, g3; rewrite ?bind_eq, ?alloc_run; cbn [ret].
  - eexists _, [_; _]. split; [|split; [|done]].
    + unfold set_heap; cbn. by rewrite <- app_assoc.
    + eexists _, _. split; [done |]. split.
      * rewrite length_app, (lookup_app_r (heap st)) by (cbn; lia).
        cbn [length]. by replace (length (heap st) + 1 - length (heap st))
          with 1 by lia.
      * eexists. split; [done |].
        rewrite (lookup_app_r (heap st)) by lia. by rewrite Nat.sub_diag.
  - eexists _, [_]. split; [done |]. split; [|done].
    eexists. split; [done |].
    rewrite (lookup_app_r (heap st)) by lia. by rewrite Nat.sub_diag.
  - eexists _, [_]. split; [done |]. split; [|done].
    eexists _, _. split; [done |]. split; [|done].
    rewrite (lookup_app_r (heap st)) by lia. by rewrite Nat.sub_diag.
  - exists (VStr first), []. rewrite Hst. by repeat split.
Qed.

Lemma set_heap_set_heap (h h' : list Obj) (st : State) :
  set_heap h' (set_heap h st) = set_heap h' st.
Proof. reflexivity. Qed.

Lemma map_each_type_dsl (xs : list Val) (st : State) :
  exists xs1 objs,
    map_each xs _type_dsl st = (Ok xs1, set_heap (heap st ++ objs) st)
    /\ Forall2 (dsl_result (heap st ++ objs)) xs xs1.
Proof.
  revert st. induction xs as [|x xs IH]; intros st.
  - exists [], []. split; [|constructor].
    cbn. unfold set_heap. rewrite app_nil_r. by destruct st.
  - destruct (type_dsl_run x st) as (x' & o1 & Hx & Hr & _).
    destruct (IH (set_heap (heap st ++ o1) st)) as (xs1 & o2 & Hxs & Hrs).
    exists (x' :: xs1), (o1 ++ o2). cbn [map_each].
    rewrite (bind_run _ _ _ _ _ Hx), (bind_run _ _ _ _ _ Hxs).
    cbn [ret heap set_heap] in *. rewrite <- app_assoc in *.
    split; [done |]. constructor; [|done].
    rewrite app_assoc. by apply dsl_result_mono.
Qed.

(** One level of flattening, on the values of a store. *)
Definition flatten_pure (h : list Obj) (xs : list Val) : list Val :=
  concat (map (fun x =>
                 match x with
                 | VRef b =>
                     match h !! b with
                     | Some (OList ys) => ys
                     | _ => [x]
                     end
                 | _ => [x]
                 end) xs).

(** Every reference of the list is an object of the store. *)
Definition all_valid (h : list Obj) (xs : list Val) : Prop :=
  Forall (fun x => match x with
                   | VRef b => is_Some (h !! b)
                   | _ => True
                   end) xs.

Lemma flatten_run (l : addr) (xs : list Val) (st : State) :
  heap st !! l = Some (OList xs) ->
  all_valid (heap st) xs ->
  flatten (VRef l) st
  = (Ok (VRef (length (heap st))),
     set_heap (heap st ++ [OList (flatten_pure (heap st) xs)]) st).
Proof.
  intros Hl Hvalid. unfold flatten.
  rewrite (bind_run _ _ _ _ _ (elements_run _ _ _ Hl)).
  assert (map_each xs (fun x => b <- is_list x ;;
                                if b then elements x else ret [x]) st
          = (Ok (map (fun x =>
                        match x with
                        | VRef b =>
                            match heap st !! b with
                            | Some (OList ys) => ys
                            | _ => [x]
                            end
                        | _ => [x]
                        end) xs), st)) as Hmap.
  { clear Hl. induction Hvalid as [|x xs Hx _ IH]; [done |].
    cbn [map_each map]. rewrite bind_eq.
    assert ((b <- is_list x ;; if b then elements x else ret [x]) st
            = (Ok match x with
                  | VRef b =>
                      match heap st !! b with
                      | Some (OList ys) => ys
                      | _ => [x]
                      end
                  | _ => [x]
                  end, st)) as ->.
    { destruct x as [| | | |b]; try done.
      destruct Hx as [[kvs|ys] Hb]; rewrite Hb.
      - by rewrite (bind_run _ _ _ _ _ (is_list_dict _ _ _ Hb)).
      - rewrite (bind_run _ _ _ _ _ (is_list_list _ _ _ Hb)).
        by apply elements_run. }
    by rewrite (bind_run _ _ _ _ _ IH). }
  rewrite (bind_run _ _ _ _ _ Hmap). apply alloc_run.
Qed.

(** The loop of [uniq_items] as a function: the items kept, given the
    items seen; [None] when a comparison runs out of fuel. *)
Fixpoint mem_opt (eq : Val -> Val -> option bool) (x : Val)
    (seen : list Val) : option bool :=
  match seen with
  | [] => Some false
  | y :: r =>
      match eq x y with
      | None => None
      | Some true => Some true
      | Some false => mem_opt eq x r
      end
  end.

Fixpoint dedup_seen (eq : Val -> Val -> option bool) (seen l : list Val)
  : option (list Val) :=
  match l with
  | [] => Some []
  | x :: r =>
      match mem_opt eq x seen with
      | None => None
      | Some true => dedup_seen eq seen r
      | Some false => cons x <$> dedup_seen eq (seen ++ [x]) r
      end
  end.

(** [==] in the store of [st]. *)
Definition eq_in (st : State) : Val -> Val -> option bool :=
  py_eq (S (length (heap st))) (heap st).

Lemma list_contains_run (x : Val) (seen : list Val) (st : State) :
  list_contains x seen st
  = (match mem_opt (eq_in st) x seen with
     | Some b => Ok b
     | None => Raise OutOfFuel
     end, st).
Proof.
  induction seen as [|y seen IH]; [done |].
  cbn [list_contains mem_opt]. rewrite bind_eq.
  unfold eq_val at 1, eq_in at 1.
  destruct (py_eq _ _ x y) as [[|]|]; try done.
Qed.

Lemma uniq_items_run (l : list Val) (st : State) :
  uniq_items l st
  = (match dedup_seen (eq_in st) [] l with
     | Some ys => Ok ys
     | None => Raise OutOfFuel
     end, st).
Proof.
  unfold uniq_items. rewrite bind_eq.
  assert (forall u,
            fold_each l (u, u)
              (fun acc item =>
                 let '(uniq, seen) := acc in
                 b <- list_contains item seen ;;
                 if negb b then ret (uniq ++ [item], seen ++ [item])
                 else ret acc) st
            = (match dedup_seen (eq_in st) u l with
               | Some ys => Ok (u ++ ys, u ++ ys)
               | None => Raise OutOfFuel
               end, st)) as H.
  { induction l as [|x l IH]; intros u.
    - cbn. by rewrite app_nil_r.
    - cbn [fold_each dedup_seen]. rewrite bind_eq, bind_eq.
      rewrite list_contains_run.
      destruct (mem_opt (eq_in st) x u) as [[|]|]; cbn [negb ret].
      + apply IH.
      + rewrite IH.
        destruct (dedup_seen (eq_in st) (u ++ [x]) l) as [ys|]; [|done].
        cbn. by rewrite <- app_assoc.
      + done. }
  rewrite (H []).
  by destruct (dedup_seen (eq_in st) [] l).
Qed.

Lemma dict_set_set {V} (k : string) (v v' : V) (d : list (string * V)) :
  dict_set k v' (dict_set k v d) = dict_set k v' d.
Proof.
  induction d as [|[k2 v2] d IH]; simpl.
  - by rewrite String.eqb_refl.
  - destruct (String.eqb k k2) eqn:E; simpl.
    + by rewrite String.eqb_refl.
    + by rewrite E, IH.
Qed.

Lemma set_heap_id (st : State) : set_heap (heap st) st = st.
Proof. by destruct st. Qed.

(** The first half of the loop body, by the kind of the field value. *)
Lemma type_dsl_datum_spec (a : addr) (kvs : list (string * Val))
    (d : string) (datum : Val) (st : State) :
  heap st !! a = Some (ODict kvs) ->
  dict_get d kvs = Some datum ->
  match datum with
  | VStr s =>
      exists x' objs,
        _type_dsl_datum (VRef a) d st
        = (Ok tt,
           set_heap (<[a := ODict (dict_set d x' kvs)]> (heap st ++ objs)) st)
        /\ dsl_result (heap st ++ objs) (VStr s) x'
  | VRef l =>
      match heap st !! l with
      | Some (OList xs) =>
          exists xs1 objs,
            _type_dsl_datum (VRef a) d st
            = (Ok tt,
               set_heap
                 (<[a := ODict (dict_set d
                                  (VRef (length (heap st ++ objs))) kvs)]>
                    (heap st ++ objs ++ [OList xs1])) st)
            /\ Forall2 (dsl_result (heap st ++ objs)) xs xs1
      | Some (ODict _) => _type_dsl_datum (VRef a) d st = (Ok tt, st)
      | None => True
      end
  | _ => _type_dsl_datum (VRef a) d st = (Ok tt, st)
  end.
Proof.
  intros Ha Hd. unfold _type_dsl_datum.
  rewrite (bind_run _ _ _ _ _ (getitem_run _ _ _ _ _ Ha Hd)).
  destruct datum as [| | |s|l]; try done.
  - unfold is_list. rewrite bind_eq. cbn [ret is_str].
    destruct (type_dsl_run (VStr s) st) as (x' & objs & Hx & Hr & _).
    exists x', objs. split; [|done].
    rewrite (bind_run _ _ _ _ _ Hx).
    erewrite setitem_run; [done |].
    cbn. rewrite lookup_app_l; [done | by eapply lookup_lt_Some].
  - destruct (heap st !! l) as [[kvs'|xs]|] eqn:Hl; [| |done].
    + by rewrite (bind_run _ _ _ _ _ (is_list_dict _ _ _ Hl)).
    + rewrite (bind_run _ _ _ _ _ (is_list_list _ _ _ Hl)). cbn [is_str].
      rewrite (bind_run _ _ _ _ _ (elements_run _ _ _ Hl)).
      destruct (map_each_type_dsl xs st) as (xs1 & objs & Hxs & Hrs).
      exists xs1, objs. split; [|done].
      rewrite (bind_run _ _ _ _ _ Hxs).
      rewrite (bind_run _ _ _ _ _ (alloc_run _ _)).
      erewrite setitem_run; cycle 1.
      { cbn. rewrite !lookup_app_l; [done | ..].
        - by eapply lookup_lt_Some.
        - rewrite length_app. apply lookup_lt_Some in Ha. lia. }
      cbn. by rewrite <- app_assoc.
Qed.

(** The second half: a list is replaced by a new list, flattened one level
    and with each item kept at its first occurrence; anything else is left
    alone. *)
Lemma flatten_uniq_spec (a : addr) (kvs : list (string * Val))
    (d : string) (datum : Val) (st : State) :
  heap st !! a = Some (ODict kvs) ->
  dict_get d kvs = Some datum ->
  match datum with
  | VRef l =>
      match heap st !! l with
      | Some (OList xs) =>
          all_valid (heap st) xs ->
          let flat := flatten_pure (heap st) xs in
          let l2 := length (heap st) in
          let st2 := set_heap (<[a := ODict (dict_set d (VRef l2) kvs)]>
                                 (heap st ++ [OList flat])) st in
          _flatten_uniq (VRef a) d st
          = match dedup_seen (eq_in st2) [] flat with
            | Some uniq =>
                (Ok tt,
                 set_heap (<[a := ODict (dict_set d (VRef (S l2)) kvs)]>
                             (heap st ++ [OList flat; OList uniq])) st)
            | None => (Raise OutOfFuel, st2)
            end
      | Some (ODict _) => _flatten_uniq (VRef a) d st = (Ok tt, st)
      | None => True
      end
  | _ => _flatten_uniq (VRef a) d st = (Ok tt, st)
  end.
Proof.
  intros Ha Hd. unfold _flatten_uniq.
  rewrite (bind_run _ _ _ _ _ (getitem_run _ _ _ _ _ Ha Hd)).
  destruct datum as [| | | |l]; try done.
  destruct (heap st !! l) as [[kvs'|xs]|] eqn:Hl; [| |done].
  { by rewrite (bind_run _ _ _ _ _ (is_list_dict _ _ _ Hl)). }
  intros Hvalid.
  set (flat := flatten_pure (heap st) xs).
  set (l2 := length (heap st)).
  set (st2 := set_heap (<[a := ODict (dict_set d (VRef l2) kvs)]>
                          (heap st ++ [OList flat])) st).
  assert (a < length (heap st)) as Hlt by (by eapply lookup_lt_Some).
  rewrite (bind_run _ _ _ _ _ (is_list_list _ _ _ Hl)).
  rewrite (bind_run _ _ _ _ _ (flatten_run _ _ _ Hl Hvalid)).
  fold flat l2.
  erewrite bind_run; cycle 1.
  { eapply setitem_run. cbn. rewrite lookup_app_l; [exact Ha | done]. }
  rewrite set_heap_set_heap. fold st2. cbn [heap set_heap].
  assert (heap st2 !! a = Some (ODict (dict_set d (VRef l2) kvs))) as Ha2.
  { cbn. apply list_lookup_insert_eq. rewrite length_app. lia. }
  rewrite (bind_run _ _ _ _ _
             (getitem_run _ _ _ _ _ Ha2 (dict_get_set_eq _ _ _))).
  assert (heap st2 !! l2 = Some (OList flat)) as Hl2.
  { cbn. rewrite list_lookup_insert_ne by (unfold l2; lia).
    rewrite lookup_app_r by (unfold l2; lia).
    unfold l2. by rewrite Nat.sub_diag. }
  rewrite (bind_run _ _ _ _ _ (elements_run _ _ _ Hl2)).
  rewrite bind_eq, uniq_items_run.
  destruct (dedup_seen (eq_in st2) [] flat) as [uniq|]; [|done].
  rewrite (bind_run _ _ _ _ _ (alloc_run _ _)).
  erewrite setitem_run; cycle 1.
  { cbn. rewrite lookup_app_l; [exact Ha2 |].
    rewrite length_insert, length_app. lia. }
  unfold set_heap. cbn.
  rewrite dict_set_set.
  rewrite length_insert, length_app. cbn [length].
  replace (length (heap st) + 1) with (S l2) by (unfold l2; lia).
  rewrite <- insert_app_l by (rewrite length_app; lia).
  rewrite list_insert_insert_eq.
  by rewrite <- app_assoc.
Qed.

(** A context that marks [type] as a vocabulary field with the type DSL. *)
Definition loader_type : Loader :=
  mkLoader [("type", NDict [("@type", NStr "@vocab"); ("typeDSL", NBool true)])]
    ["type"] [] ["type"] [] [] [] [] [] [] [] [] ["type"].

Lemma loader_type_built :
  new_loader
    [("type", NDict [("@type", NStr "@vocab"); ("typeDSL", NBool true)])]
  = Ok loader_type.
Proof. reflexivity. Qed.

(** The field [d] of a document after the type DSL, as a tree. *)
Definition type_dsl_of (self : Loader) (doc : Node) : option Node :=
  match (d <- alloc_node doc ;; _resolve_type_dsl d self ;;; ret d)
          empty_state with
  | (Ok d, st) => reify (length (heap st)) (heap st) d
  | (Raise _, _) => None
  end.

(** C6: the expression matches a base name [t] followed by an optional
    [[]] and an optional [?]; [_type_dsl] then gives [t], the mapping
    [{type: array, items: t}], or the list of ["null"] and one of these;
    it returns a non-string, and a string without a match, as it is, and
    allocates only.  For a field of [type_dsl_fields], a string value goes
    through [_type_dsl], a list value becomes the list of its elements
    through [_type_dsl]; a list-valued field is then replaced by a new
    list, flattened one level and with each item kept where it first
    occurs (items compared with [==]); other values are left alone. *)
Theorem C6_type_dsl_rewrite :
  (forall t, base_name t ->
     typeDSLregex_match t = Some (t, false, false)
     /\ typeDSLregex_match (t +:+ "[]") = Some (t, true, false)
     /\ typeDSLregex_match (t +:+ "?") = Some (t, false, true)
     /\ typeDSLregex_match (t +:+ "[]?") = Some (t, true, true))
  /\ (forall x st,
        exists x' objs,
          _type_dsl x st = (Ok x', set_heap (heap st ++ objs) st)
          /\ dsl_result (heap st ++ objs) x x'
          /\ (is_str x = false -> x' = x /\ objs = []))
  /\ (forall a kvs d datum st,
        heap st !! a = Some (ODict kvs) ->
        dict_get d kvs = Some datum ->
        match datum with
        | VStr s =>
            exists x' objs,
              _type_dsl_datum (VRef a) d st
              = (Ok tt,
                 set_heap (<[a := ODict (dict_set d x' kvs)]>
                             (heap st ++ objs)) st)
              /\ dsl_result (heap st ++ objs) (VStr s) x'
        | VRef l =>
            match heap st !! l with
            | Some (OList xs) =>
                exists xs1 objs,
                  _type_dsl_datum (VRef a) d st
                  = (Ok tt,
                     set_heap
                       (<[a := ODict (dict_set d
                                        (VRef (length (heap st ++ objs)))
                                        kvs)]>
                          (heap st ++ objs ++ [OList xs1])) st)
                  /\ Forall2 (dsl_result (heap st ++ objs)) xs xs1
            | Some (ODict _) => _type_dsl_datum (VRef a) d st = (Ok tt, st)
            | None => True
            end
        | _ => _type_dsl_datum (VRef a) d st = (Ok tt, st)
        end)
  /\ (forall a kvs d datum st,
        heap st !! a = Some (ODict kvs) ->
        dict_get d kvs = Some datum ->
        match datum with
        | VRef l =>
            match heap st !! l with
            | Some (OList xs) =>
                all_valid (heap st) xs ->
                let flat := flatten_pure (heap st) xs in
                let l2 := length (heap st) in
                let st2 :=
                  set_heap (<[a := ODict (dict_set d (VRef l2) kvs)]>
                              (heap st ++ [OList flat])) st in
                _flatten_uniq (VRef a) d st
                = match dedup_seen (eq_in st2) [] flat with
                  | Some uniq =>
                      (Ok tt,
                       set_heap
                         (<[a := ODict (dict_set d (VRef (S l2)) kvs)]>
                            (heap st ++ [OList flat; OList uniq])) st)
                  | None => (Raise OutOfFuel, st2)
                  end
            | Some (ODict _) => _flatten_uniq (VRef a) d st = (Ok tt, st)
            | None => True
            end
        | _ => _flatten_uniq (VRef a) d st = (Ok tt, st)
        end)
  /\ type_dsl_of loader_type (NDict [("type", NStr "File[]?")])
     = Some (NDict [("type",
                     NList [NStr "null";
                            NDict [("type", NStr "array");
                                   ("items", NStr "File")]])])
  /\ type_dsl_of loader_type (NDict [("type", NList [NStr "int"; NStr "int?"])])
     = Some (NDict [("type", NList [NStr "int"; NStr "null"])]).
Proof.
  split; [exact typeDSLregex_match_shapes |].
  split; [exact type_dsl_run |].
  split; [exact type_dsl_datum_spec |].
  split; [exact flatten_uniq_spec |].
  split; vm_compute; reflexivity.
Qed.

Lemma C6_type_dsl_rewrite_witness :
  base_name "File"
  /\ typeDSLregex_match ("File" +:+ "[]?") = Some ("File", true, true)
  /\ typeDSLregex_match ("int" +:+ "?") = Some ("int", false, true).
Proof.
  split; [by repeat split |].
  split.
  - apply (proj1 C6_type_dsl_rewrite "File"). by repeat split.
  - apply (proj1 C6_type_dsl_rewrite "int"). by repeat split.
Defined.

(** *** C7: idmap desugaring *)

(** [sorted] puts the keys in order and keeps them all. *)
Lemma insert_sorted_perm (k : string) (l : list string) :
  Permutation (insert_sorted k l) (k :: l).
Proof.
  induction l as [|x l IH]; [done |]. cbn [insert_sorted].
  destruct (String.leb k x); [done |].
  rewrite IH. apply perm_swap.
Qed.

Lemma sorted_perm (l : list string) : Permutation (sorted l) l.
Proof.
  induction l as [|x l IH]; [done |].
  cbn. rewrite insert_sorted_perm. by constructor.
Qed.

Lemma insert_sorted_Sorted (k : string) (l : list string) :
  Sorted (fun x y => String.leb x y = true) l ->
  Sorted (fun x y => String.leb x y = true) (insert_sorted k l).
Proof.
  induction l as [|x l IH]; intros Hs; cbn [insert_sorted].
  - by repeat constructor.
  - destruct (String.leb k x) eqn:E.
    + constructor; [done |]. by constructor.
    + apply Sorted_inv in Hs as [Hs Hhd].
      constructor; [by apply IH |].
      assert (String.leb x k = true) as Hxk.
      { destruct (String.leb_total k x) as [H|H]; congruence. }
      destruct l as [|y l]; cbn [insert_sorted].
      * by constructor.
      * destruct (String.leb k y); constructor; [done |].
        by apply HdRel_inv in Hhd.
Qed.

Lemma sorted_Sorted (l : list string) :
  Sorted (fun x y => String.leb x y = true) (sorted l).
Proof.
  induction l as [|x l IH]; [constructor |].
  by apply insert_sorted_Sorted.
Qed.

Definition is_dict_in (h : list Obj) (v : Val) : bool :=
  match v with
  | VRef b => match h !! b with Some (ODict _) => true | _ => false end
  | _ => false
  end.

Lemma is_dict_run (v : Val) (st : State) :
  match v with VRef b => is_Some (heap st !! b) | _ => True end ->
  is_dict v st = (Ok (is_dict_in (heap st) v), st).
Proof.
  destruct v as [| | | |b]; try done.
  intros [[kvs|xs] Hb]; cbn; rewrite Hb.
  - by eapply is_dict_dict.
  - by eapply is_dict_list.
Qed.

(** The entry made for the key [k] with value [val]: a mapping value is
    the entry itself, with the subject attribute set to [k]; any other
    value is lifted to the new mapping [{predicate: val}], with the
    subject attribute set to [k].  [h] is the store before, [h'] after. *)
Definition idmap_entry (h h' : list Obj) (subject : string)
    (predicate : option string) (k : string) (val v : Val) : Prop :=
  if is_dict_in h val then
    exists b bk,
      val = VRef b /\ h !! b = Some (ODict bk) /\ v = VRef b
      /\ h' !! b = Some (ODict (dict_set subject (VStr k) bk))
  else
    exists c pn,
      predicate = Some pn /\ v = VRef c /\ length h <= c
      /\ h' !! c = Some (ODict (dict_set subject (VStr k) [(pn, val)])).

Section Idmap.

Variable loader : Loader.
Variable st : State.
Variables (m : addr) (inner : list (string * Val)) (f subject : string).

Hypothesis Hsubj : dict_get f (idmap loader) = Some subject.

(** Every reference held by the inner mapping is an object of the store. *)
Hypothesis Hvalid :
  forall k b, dict_get k inner = Some (VRef b) -> is_Some (heap st !! b).

(** The mapping values of two keys are two objects, and none of them is
    the inner mapping itself. *)
Hypothesis Hinj :
  forall k1 k2 b,
    dict_get k1 inner = Some (VRef b) -> dict_get k2 inner = Some (VRef b) ->
    is_dict_in (heap st) (VRef b) = true -> k1 = k2.
Hypothesis Hm :
  forall k, dict_get k inner = Some (VRef m) ->
            is_dict_in (heap st) (VRef m) = false.

Definition entry_ok (k : string) : bool :=
  match dict_get k inner with
  | Some val =>
      is_dict_in (heap st) val
      || bool_decide (is_Some (dict_get f (mapPredicate loader)))
  | None => false
  end.

Definition entry_post (hf : list Obj) (k : string) (v : Val) : Prop :=
  exists val,
    dict_get k inner = Some val
    /\ idmap_entry (heap st) hf subject (dict_get f (mapPredicate loader))
         k val v.

Lemma idmap_loop (ks : list string) :
  forall (ls0 : list Val) (sti : State),
    NoDup ks ->
    (forall k, In k ks -> is_Some (dict_get k inner)) ->
    heap sti !! m = Some (ODict inner) ->
    length (heap st) <= length (heap sti) ->
    (forall k b o, In k ks -> dict_get k inner = Some (VRef b) ->
                   heap st !! b = Some o -> heap sti !! b = Some o) ->
    if forallb entry_ok ks then
      exists ls hf,
        fold_each ks ls0 (_resolve_idmap_entry loader f (VRef m)) sti
        = (Ok (ls0 ++ ls), set_heap hf sti)
        /\ Forall2 (entry_post hf) ks ls
        /\ length (heap sti) <= length hf
        /\ (forall x o,
              heap sti !! x = Some o ->
              (forall k, In k ks -> dict_get k inner = Some (VRef x) ->
                         is_dict_in (heap st) (VRef x) = false) ->
              hf !! x = Some o)
    else
      exists k stf,
        In k ks
        /\ fold_each ks ls0 (_resolve_idmap_entry loader f (VRef m)) sti
           = (Raise (ValidationException (MNoMapPredicate f k)), stf).
Proof.
  induction ks as [|k ks IH]; intros ls0 sti Hnd Hkeys Hmi Hlen Hintact.
  { cbn. exists [], (heap sti). rewrite app_nil_r, set_heap_id.
    repeat split; auto. }
  apply NoDup_cons in Hnd as [Hk Hnd].
  assert (~ In k ks) as Hk' by (by rewrite <- list_elem_of_In).
  destruct (Hkeys k (or_introl eq_refl)) as [val Hval].
  cbn [forallb fold_each]. unfold entry_ok at 1. rewrite Hval.
  assert (is_dict val sti = (Ok (is_dict_in (heap st) val), sti)) as Hisd.
  { destruct val as [| | | |b]; try done.
    destruct (Hvalid _ _ Hval) as [o Ho].
    pose proof (Hintact k b o (or_introl eq_refl) Hval Ho) as Ho'.
    rewrite is_dict_run by (by rewrite Ho').
    cbn. by rewrite Ho, Ho'. }
  assert (forall k', In k' ks -> is_Some (dict_get k' inner)) as Hkeys'.
  { intros k' Hin. apply Hkeys. by right. }
  assert (getitem (VRef m) k sti = (Ok val, sti)) as Hget
    by (by eapply getitem_run).
  destruct (is_dict_in (heap st) val) eqn:Hd; cbn [negb orb andb].
  - (* a mapping value *)
    destruct val as [| | | |b]; try done.
    cbn in Hd. destruct (heap st !! b) as [[bk|]|] eqn:Hb; try done.
    pose proof (Hintact k b _ (or_introl eq_refl) Hval Hb) as Hb'.
    set (st1 := set_heap (<[b := ODict (dict_set subject (VStr k) bk)]>
                            (heap sti)) sti).
    assert (_resolve_idmap_entry loader f (VRef m) ls0 k sti
            = (Ok (ls0 ++ [VRef b]), st1)) as Hstep.
    { unfold _resolve_idmap_entry.
      rewrite (bind_run _ _ _ _ _ Hget), (bind_run _ _ _ _ _ Hisd).
      cbn [negb]. rewrite bind_eq. cbn [ret]. rewrite Hsubj.
      by rewrite (bind_run _ _ _ _ _ (setitem_run _ _ _ _ _ Hb')). }
    assert (b <> m) as Hbm.
    { intros ->. specialize (Hm _ Hval). cbn in Hm. by rewrite Hb in Hm. }
    assert (b < length (heap sti)) as Hblt by (by eapply lookup_lt_Some).
    specialize (IH (ls0 ++ [VRef b]) st1 Hnd Hkeys').
    destruct (forallb entry_ok ks).
    + destruct IH as (ls & hf & Hrun & Hpost & Hlenf & Hframe).
      * cbn. by rewrite list_lookup_insert_ne.
      * cbn. by rewrite length_insert.
      * intros k' b' o Hin Hv' Ho. cbn.
        rewrite list_lookup_insert_ne;
          [by eapply Hintact; [right | |] |].
        intros ->. apply Hk'.
        rewrite (Hinj k k' b' Hval Hv'); [done |]. cbn. by rewrite Hb.
      * exists (VRef b :: ls), hf.
        rewrite (bind_run _ _ _ _ _ Hstep), Hrun.
        rewrite <- app_assoc. split; [done |].
        split; [|split].
        -- constructor; [|done]. exists (VRef b). split; [done |].
           unfold idmap_entry. cbn. rewrite Hb.
           exists b, bk. repeat split; try done.
           apply Hframe.
           ++ cbn. by apply list_lookup_insert_eq.
           ++ intros k' Hin Hv'. exfalso. apply Hk'.
              rewrite (Hinj k k' b Hval Hv'); [done |]. cbn. by rewrite Hb.
        -- cbn in Hlenf. by rewrite length_insert in Hlenf.
        -- intros x o Hx Hnot. apply Hframe.
           ++ cbn. rewrite list_lookup_insert_ne; [done |].
              intros <-. specialize (Hnot k (or_introl eq_refl) Hval).
              cbn in Hnot. by rewrite Hb in Hnot.
           ++ intros k' Hin. apply Hnot. by right.
    + destruct IH as (k' & stf & Hin & Hrun).
      * cbn. by rewrite list_lookup_insert_ne.
      * cbn. by rewrite length_insert.
      * intros k2 b' o Hin Hv' Ho. cbn.
        rewrite list_lookup_insert_ne;
          [by eapply Hintact; [right | |] |].
        intros ->. apply Hk'.
        rewrite (Hinj k k2 b' Hval Hv'); [done |]. cbn. by rewrite Hb.
      * exists k', stf. split; [by right |].
        by rewrite (bind_run _ _ _ _ _ Hstep).
  - (* any other value *)
    destruct (dict_get f (mapPredicate loader)) as [pn|] eqn:Hp.
    + assert (bool_decide (is_Some (Some pn)) = true) as ->
        by (apply bool_decide_eq_true; eauto).
      cbn [andb].
      set (c := length (heap sti)).
      set (st1 := set_heap
                    (<[c := ODict (dict_set subject (VStr k) [(pn, val)])]>
                       (heap sti ++ [ODict [(pn, val)]])) sti).
      assert (_resolve_idmap_entry loader f (VRef m) ls0 k sti
              = (Ok (ls0 ++ [VRef c]), st1)) as Hstep.
      { unfold _resolve_idmap_entry.
        rewrite (bind_run _ _ _ _ _ Hget), (bind_run _ _ _ _ _ Hisd).
        cbn [negb]. rewrite Hp.
        rewrite (bind_run _ _ _ _ _ (alloc_run _ _)), Hsubj.
        erewrite bind_run; cycle 1.
        { eapply setitem_run. cbn.
          rewrite lookup_app_r by lia. by rewrite Nat.sub_diag. }
        done. }
      assert (forall x o, heap sti !! x = Some o -> heap st1 !! x = Some o)
        as Hkeep.
      { intros x o Hx. cbn.
        assert (x < c) by (by eapply lookup_lt_Some).
        rewrite list_lookup_insert_ne by lia. by rewrite lookup_app_l. }
      assert (heap st1 !! c
              = Some (ODict (dict_set subject (VStr k) [(pn, val)]))) as Hc.
      { cbn. apply list_lookup_insert_eq. rewrite length_app. cbn.
        unfold c. lia. }
      assert (length (heap st1) = S c) as Hlen1.
      { cbn. rewrite length_insert, length_app. cbn. unfold c. lia. }
      specialize (IH (ls0 ++ [VRef c]) st1 Hnd Hkeys').
      destruct (forallb entry_ok ks).
      * destruct IH as (ls & hf & Hrun & Hpost & Hlenf & Hframe).
        -- by apply Hkeep.
        -- unfold c in Hlen1. lia.
        -- intros k' b' o Hin Hv' Ho. apply Hkeep. by eapply Hintact; [right | |].
        -- exists (VRef c :: ls), hf.
           rewrite (bind_run _ _ _ _ _ Hstep), Hrun.
           rewrite <- app_assoc. split; [done |].
           split; [|split].
           ++ constructor; [|done]. exists val. split; [done |].
              unfold idmap_entry. rewrite Hd.
              exists c, pn. repeat split; try done.
              apply Hframe; [done |].
              intros k' Hin Hv'. cbn.
              rewrite lookup_ge_None_2; [done | unfold c; lia].
           ++ unfold c in Hlen1. lia.
           ++ intros x o Hx Hnot. apply Hframe; [by apply Hkeep |].
              intros k' Hin. apply Hnot. by right.
      * destruct IH as (k' & stf & Hin & Hrun).
        -- by apply Hkeep.
        -- unfold c in Hlen1. lia.
        -- intros k2 b' o Hin Hv' Ho. apply Hkeep. by eapply Hintact; [right | |].
        -- exists k', stf. split; [by right |].
           by rewrite (bind_run _ _ _ _ _ Hstep).
    + assert (bool_decide (is_Some (@None string)) = false) as ->
        by (apply bool_decide_eq_false; by intros [? ?]).
      cbn [andb]. exists k, sti. split; [by left |].
      unfold _resolve_idmap_entry.
      rewrite bind_eq.
      rewrite (bind_run _ _ _ _ _ Hget), (bind_run _ _ _ _ _ Hisd).
      cbn [negb]. by rewrite Hp.
Qed.

End Idmap.

Lemma dict_get_in_keys {V} (k : string) (d : list (string * V)) :
  In k (dict_keys d) -> is_Some (dict_get k d).
Proof.
  induction d as [|[k' v] d IH]; [done |]. cbn.
  destruct (String.eqb_spec k k') as [->|Hne]; [by eauto |].
  intros [-> | Hin]; [done | by apply IH].
Qed.

(** A context in which [inputs] is an idmap field with subject [id] and
    predicate [type]. *)
Definition loader_inputs : Loader :=
  mkLoader
    [("id", NStr "@id");
     ("inputs", NDict [("@id", NStr "http://ex/inputs");
                       ("mapSubject", NStr "id");
                       ("mapPredicate", NStr "type")])]
    [] [] [] ["id"] ["id"] [] []
    [("id", "@id"); ("inputs", "http://ex/inputs")]
    [("@id", "id"); ("http://ex/inputs", "inputs")]
    [("inputs", "id")] [("inputs", "type")] [].

Lemma loader_inputs_built :
  new_loader
    [("id", NStr "@id");
     ("inputs", NDict [("@id", NStr "http://ex/inputs");
                       ("mapSubject", NStr "id");
                       ("mapPredicate", NStr "type")])]
  = Ok loader_inputs.
Proof. reflexivity. Qed.

(** The document [{inputs: {x: string, y: {type: int}}}] in the store. *)
Definition state_inputs : State :=
  mkState
    [ODict [("type", VStr "int")];
     ODict [("x", VStr "string"); ("y", VRef 0)];
     ODict [("inputs", VRef 1)]]
    [] [] [].

(** A document after the idmap rewriting, as a tree. *)
Definition idmap_of (self : Loader) (doc : Node) : option Node :=
  match (d <- alloc_node doc ;; _resolve_idmap d self ;;; ret d)
          empty_state with
  | (Ok d, st) => reify (length (heap st)) (heap st) d
  | (Raise _, _) => None
  end.

Lemma idmap_of_inputs :
  idmap_of loader_inputs
    (NDict [("inputs", NDict [("x", NStr "string");
                              ("y", NDict [("type", NStr "int")])])])
  = Some (NDict [("inputs",
                  NList [NDict [("type", NStr "string"); ("id", NStr "x")];
                         NDict [("type", NStr "int"); ("id", NStr "y")]])]).
Proof. reflexivity. Qed.

(* ===================================================================== *)
(** ** Further properties of the module *)
(* ===================================================================== *)

(** *** What a computation keeps *)

(** [keeps R m]: from every state, [m] ends (with a value or an exception)
    in a state related to the first by [R]. *)
Definition keeps {S A} (R : S -> S -> Prop) (m : SR S A) : Prop :=
  forall st, R st (snd (m st)).

Section Keeps.

Context {S : Type}.
Variable R : S -> S -> Prop.
Hypothesis R_refl : forall st, R st st.
Hypothesis R_trans : forall s1 s2 s3, R s1 s2 -> R s2 s3 -> R s1 s3.

Lemma keeps_ret {A} (a : A) : keeps R (ret (S := S) a).
Proof. intros st. apply R_refl. Qed.

Lemma keeps_raise {A} (e : Exn) : keeps R (raise (S := S) (A := A) e).
Proof. intros st. apply R_refl. Qed.

Lemma keeps_lift {A} (r : Res A) : keeps R (lift (S := S) r).
Proof. intros st. apply R_refl. Qed.

Lemma keeps_get_state : keeps R (get_state (S := S)).
Proof. intros st. apply R_refl. Qed.

Lemma keeps_bind {A B} (m : SR S A) (k : A -> SR S B) :
  keeps R m -> (forall a, keeps R (k a)) -> keeps R (bind m k).
Proof.
  intros Hm Hk st. unfold bind. specialize (Hm st).
  destruct (m st) as [[a|e] st1]; [|done].
  eapply R_trans; [exact Hm | apply Hk].
Qed.

Lemma keeps_try_validation {A} (m : SR S A) (h : Msg -> SR S A) :
  keeps R m -> (forall v, keeps R (h v)) -> keeps R (try_validation m h).
Proof.
  intros Hm Hh st. unfold try_validation. specialize (Hm st).
  destruct (m st) as [[a|[]] st1]; try done.
  eapply R_trans; [exact Hm | apply Hh].
Qed.

Lemma keeps_for_each {A} (l : list A) (body : A -> SR S unit) :
  (forall x, keeps R (body x)) -> keeps R (for_each l body).
Proof.
  intros Hb. induction l as [|x l IH]; [apply keeps_ret |].
  apply keeps_bind; [apply Hb | done].
Qed.

Lemma keeps_fold_each {A B} (l : list A) (body : B -> A -> SR S B) :
  (forall acc x, keeps R (body acc x)) ->
  forall acc, keeps R (fold_each l acc body).
Proof.
  intros Hb. induction l as [|x l IH]; intros acc; [apply keeps_ret |].
  apply keeps_bind; [apply Hb | done].
Qed.

Lemma keeps_map_each {A B} (l : list A) (f : A -> SR S B) :
  (forall x, keeps R (f x)) -> keeps R (map_each l f).
Proof.
  intros Hf. induction l as [|x l IH]; [apply keeps_ret |].
  apply keeps_bind; [apply Hf | intros y].
  apply keeps_bind; [done | intros ys; apply keeps_ret].
Qed.

Lemma keeps_modify (f : S -> S) :
  (forall st, R st (f st)) -> keeps R (modify f).
Proof. intros Hf st. apply Hf. Qed.

End Keeps.

Ltac keeps_intro :=
  lazymatch goal with
  | |- forall _, _ => intros ?; keeps_intro
  | _ => idtac
  end.

Ltac keeps_step :=
  lazymatch goal with
  | |- keeps _ (bind _ _) => apply keeps_bind
  | |- keeps _ (ret _) => apply keeps_ret
  | |- keeps _ (raise _) => apply keeps_raise
  | |- keeps _ (lift _) => apply keeps_lift
  | |- keeps _ get_state => apply keeps_get_state
  | |- keeps _ (for_each _ _) => apply keeps_for_each
  | |- keeps _ (fold_each _ _ _) => apply keeps_fold_each
  | |- keeps _ (map_each _ _) => apply keeps_map_each
  | |- keeps _ (try_validation _ _) => apply keeps_try_validation
  | |- keeps _ (if ?b then _ else _) => destruct b
  | |- keeps _ (match ?x with _ => _ end) => destruct x
  | |- keeps _ _ => solve [auto]
  end; try assumption; keeps_intro.

Ltac keeps_auto := repeat (first [ done | keeps_step ]).

Lemma Node_nested_ind (P : Node -> Prop) :
  P NNone -> (forall b, P (NBool b)) -> (forall z, P (NInt z)) ->
  (forall s, P (NStr s)) ->
  (forall l, Forall P l -> P (NList l)) ->
  (forall kvs, Forall (fun kv => P (snd kv)) kvs -> P (NDict kvs)) ->
  forall n, P n.
Proof.
  intros HN HB HZ HS HL HD. fix IH 1.
  intros [| b | z | s | l | kvs];
    [exact HN | apply HB | apply HZ | apply HS | |].
  - apply HL. induction l as [|x l IHl]; constructor; [apply IH | exact IHl].
  - apply HD.
    induction kvs as [|[k x] kvs IHk]; constructor; [apply IH | exact IHk].
Qed.

Section KeepsHeap.

Variable R : State -> State -> Prop.
Hypothesis R_refl : forall st, R st st.
Hypothesis R_trans : forall s1 s2 s3, R s1 s2 -> R s2 s3 -> R s1 s3.
Hypothesis R_heap : forall st h, R st (set_heap h st).

Lemma keeps_load a : keeps R (load a).
Proof. intros st. unfold load. destruct (heap st !! a); apply R_refl. Qed.

Lemma keeps_alloc o : keeps R (alloc o).
Proof. intros st. apply R_heap. Qed.

Lemma keeps_store a o : keeps R (store a o).
Proof. intros st. apply R_heap. Qed.

Local Hint Resolve keeps_load keeps_alloc keeps_store : core.

Lemma keeps_is_dict v : keeps R (is_dict v).
Proof. unfold is_dict. keeps_auto. Qed.

Lemma keeps_is_list v : keeps R (is_list v).
Proof. unfold is_list. keeps_auto. Qed.

Lemma keeps_items v : keeps R (items v).
Proof. unfold items. keeps_auto. Qed.

Lemma keeps_elements v : keeps R (elements v).
Proof. unfold elements. keeps_auto. Qed.

Local Hint Resolve keeps_is_dict keeps_is_list keeps_items keeps_elements
  : core.

Lemma keeps_contains d k : keeps R (contains d k).
Proof. unfold contains. keeps_auto. Qed.

Lemma keeps_getitem d k : keeps R (getitem d k).
Proof. unfold getitem. keeps_auto. Qed.

Lemma keeps_get d k : keeps R (get d k).
Proof. unfold get. keeps_auto. Qed.

Lemma keeps_setitem d k v : keeps R (setitem d k v).
Proof. unfold setitem. keeps_auto. Qed.

Lemma keeps_delitem d k : keeps R (delitem d k).
Proof. unfold delitem. keeps_auto. Qed.

Lemma keeps_list_get l i : keeps R (list_get l i).
Proof. unfold list_get. keeps_auto. Qed.

Lemma keeps_list_set l i v : keeps R (list_set l i v).
Proof. unfold list_set. keeps_auto. Qed.

Lemma keeps_list_len l : keeps R (list_len l).
Proof. unfold list_len. keeps_auto. Qed.

Lemma keeps_list_del l i : keeps R (list_del l i).
Proof. unfold list_del. keeps_auto. Qed.

Lemma keeps_list_insert l i v : keeps R (list_insert l i v).
Proof. unfold list_insert. keeps_auto. Qed.

Lemma keeps_truthy v : keeps R (truthy v).
Proof. unfold truthy. keeps_auto. Qed.

Lemma keeps_eq_val x y : keeps R (eq_val x y).
Proof.
  intros st. unfold eq_val.
  destruct (py_eq _ _ _ _); apply R_refl.
Qed.

Local Hint Resolve keeps_contains keeps_getitem keeps_get keeps_setitem
  keeps_delitem keeps_list_get keeps_list_set keeps_list_len keeps_list_del
  keeps_list_insert keeps_truthy keeps_eq_val : core.

Lemma keeps_list_contains x l : keeps R (list_contains x l).
Proof. induction l as [|y l IH]; cbn [list_contains]; keeps_auto. Qed.

Lemma keeps_idx_contains url : keeps R (idx_contains url).
Proof. unfold idx_contains. keeps_auto. Qed.

Lemma keeps_idx_getitem url : keeps R (idx_getitem url).
Proof. unfold idx_getitem. keeps_auto. Qed.

Local Hint Resolve keeps_list_contains keeps_idx_contains keeps_idx_getitem
  : core.

Lemma keeps_resolve_idmap document loader :
  keeps R (_resolve_idmap document loader).
Proof.
  unfold _resolve_idmap, _resolve_idmap_field, _resolve_idmap_entry.
  keeps_auto.
Qed.

Lemma keeps_type_dsl t : keeps R (_type_dsl t).
Proof. unfold _type_dsl. keeps_auto. Qed.

Local Hint Resolve keeps_type_dsl : core.

Lemma keeps_resolve_type_dsl document loader :
  keeps R (_resolve_type_dsl document loader).
Proof.
  unfold _resolve_type_dsl, _resolve_type_dsl_field, _type_dsl_datum,
    _flatten_uniq, flatten, uniq_items.
  keeps_auto.
Qed.

Lemma keeps_resolve_uris self document loader base_url :
  keeps R (_resolve_uris self document loader base_url).
Proof. unfold _resolve_uris. keeps_auto. Qed.

Lemma keeps_normalize_fields document loader :
  keeps R (_normalize_fields document loader).
Proof. unfold _normalize_fields. keeps_auto. Qed.

Section KeepsChecker.

Variable w : World.

Lemma keeps_check_file fn : keeps R (check_file w fn).
Proof. unfold check_file. keeps_auto. Qed.

Lemma keeps_scoped_loop fuel split field link :
  forall sp tried, keeps R (scoped_loop fuel split field link sp tried).
Proof.
  induction fuel as [|f IH]; intros sp tried; cbn [scoped_loop]; keeps_auto.
Qed.

Local Hint Resolve keeps_check_file keeps_scoped_loop : core.

Lemma keeps_validate_scoped self field link docid :
  keeps R (validate_scoped self field link docid).
Proof. unfold validate_scoped. keeps_auto. Qed.

Lemma keeps_getid self d : keeps R (getid self d).
Proof. unfold getid. keeps_auto. Qed.

Local Hint Resolve keeps_validate_scoped keeps_getid : core.

Lemma keeps_validate (fuel : nat) :
  (forall self field link docid,
     keeps R (validate_link w fuel self field link docid))
  /\ (forall self document base_url,
        keeps R (validate_links w fuel self document base_url)).
Proof.
  induction fuel as [|f [IHlink IHlinks]].
  - split; intros; apply keeps_raise; done.
  - split; intros.
    + cbn [validate_link]. keeps_auto.
    + cbn [validate_links]. keeps_auto.
Qed.

End KeepsChecker.

Local Hint Resolve keeps_resolve_idmap keeps_resolve_type_dsl
  keeps_resolve_uris keeps_normalize_fields : core.

Lemma keeps_alloc_node n : keeps R (alloc_node n).
Proof.
  induction n as [| | | |l IH|kvs IH] using Node_nested_ind;
    cbn [alloc_node]; keeps_auto.
  - induction IH as [|x l Hx _ IHl]; keeps_auto.
  - generalize (@nil (string * Val)).
    induction IH as [|[k x] kvs Hx _ IHk]; intros acc; keeps_auto.
Qed.

Lemma keeps_deepcopy fuel :
  forall memo v, keeps R (deepcopy fuel memo v).
Proof.
  induction fuel as [|f IH]; intros memo v; cbn [deepcopy]; keeps_auto.
Qed.

Local Hint Resolve keeps_alloc_node keeps_deepcopy : core.

Lemma keeps_mixin_overlay doc mixin : keeps R (mixin_overlay doc mixin).
Proof. unfold mixin_overlay. keeps_auto. Qed.

Lemma keeps_copy_without_key d key : keeps R (copy_without_key d key).
Proof. unfold copy_without_key. keeps_auto. Qed.

Local Hint Resolve keeps_mixin_overlay keeps_copy_without_key : core.

Lemma keeps_split_graph r m : keeps R (split_graph r m).
Proof. unfold split_graph. keeps_auto. Qed.

Lemma keeps_add_namespaces self ns : keeps R (add_namespaces self ns).
Proof. unfold add_namespaces. keeps_auto. Qed.

Lemma keeps_add_schemas ns : keeps R (add_schemas ns).
Proof. unfold add_schemas. keeps_auto. Qed.

Lemma keeps_ensure_subloader self newctx :
  keeps R (ensure_subloader self newctx).
Proof. unfold ensure_subloader. keeps_auto. Qed.

Lemma keeps_as_str v : keeps R (as_str v).
Proof. unfold as_str. keeps_auto. Qed.

Lemma keeps_aslist l : keeps R (aslist l).
Proof. unfold aslist. keeps_auto. Qed.

Local Hint Resolve keeps_split_graph keeps_add_namespaces keeps_add_schemas
  keeps_ensure_subloader keeps_as_str keeps_aslist : core.

Section KeepsResolver.

Variable w : World.
Hypothesis R_idx :
  forall st k v, R st (set_idx (dict_set k v (idx st)) st).
Hypothesis R_log : forall st evs, R st (logged st evs).

Lemma keeps_idx_setitem url v : keeps R (idx_setitem url v).
Proof.
  unfold idx_setitem. keeps_auto. intros st. apply R_idx.
Qed.

Lemma keeps_log_io e : keeps R (log_io e).
Proof. intros st. apply (R_log st [e]). Qed.

Local Hint Resolve keeps_idx_setitem keeps_log_io : core.

Lemma keeps_fetch_text url : keeps R (fetch_text w url).
Proof. unfold fetch_text. keeps_auto. Qed.

Local Hint Resolve keeps_fetch_text : core.

Lemma keeps_fetch self url inject_ids : keeps R (fetch w self url inject_ids).
Proof. unfold fetch. keeps_auto. Qed.

Lemma keeps_resolve_identifier document loader base_url :
  keeps R (_resolve_identifier document loader base_url).
Proof. unfold _resolve_identifier, _resolve_identifier_step. keeps_auto. Qed.

Lemma keeps_resolve_identity document loader base_url :
  keeps R (_resolve_identity document loader base_url).
Proof. unfold _resolve_identity. keeps_auto. Qed.

Local Hint Resolve keeps_fetch keeps_resolve_identifier
  keeps_resolve_identity : core.

Lemma keeps_resolve (fuel : nat) :
  (forall self ref base_url checklinks,
     keeps R (resolve_ref w fuel self ref base_url checklinks))
  /\ (forall self document base_url file_base checklinks,
        keeps R (resolve_all w fuel self document base_url file_base
                   checklinks))
  /\ (forall loader document base_url file_base i,
        keeps R (resolve_list w fuel loader document base_url file_base i)).
Proof.
  induction fuel as [|f (IHref & IHall & IHlist)].
  - repeat split; intros; by apply keeps_raise.
  - pose proof (keeps_validate w) as Hval.
    split; [|split]; intros.
    + cbn [resolve_ref]. keeps_auto.
    + cbn [resolve_all]. keeps_auto; apply Hval.
    + cbn [resolve_list]. keeps_auto.
Qed.

End KeepsResolver.

End KeepsHeap.

(** *** More facts about dictionaries *)

Section DictMore.
Context {V : Type}.
Implicit Types (d e : list (string * V)) (k : string) (v : V).

Lemma dict_has_keys k d : dict_has k d = true <-> k ∈ dict_keys d.
Proof.
  unfold dict_has. induction d as [|[k' v'] d IH]; cbn.
  - split; [done | by intros ?%elem_of_nil].
  - rewrite elem_of_cons. destruct (String.eqb_spec k k') as [->|Hne].
    + split; [by left | done].
    + rewrite IH. split; [by right | by intros [|]].
Qed.

Lemma dict_has_false_keys k d : dict_has k d = false <-> k ∉ dict_keys d.
Proof.
  rewrite <- dict_has_keys. by destruct (dict_has k d).
Qed.

Lemma dict_has_app k d e :
  dict_has k (d ++ e) = dict_has k d || dict_has k e.
Proof.
  unfold dict_has. induction d as [|[k' v'] d IH]; cbn; [done |].
  by destruct (String.eqb k k').
Qed.

(** A key that is not there goes last. *)
Lemma dict_set_fresh k v d :
  dict_has k d = false -> dict_set k v d = d ++ [(k, v)].
Proof.
  unfold dict_has. induction d as [|[k' v'] d IH]; cbn; [done |].
  destruct (String.eqb k k'); [done |]. intros H. by rewrite IH.
Qed.

Lemma dict_keys_set k v d :
  dict_keys (dict_set k v d)
  = if dict_has k d then dict_keys d else dict_keys d ++ [k].
Proof.
  unfold dict_has, dict_keys.
  induction d as [|[k' v'] d IH]; cbn; [done |].
  destruct (String.eqb_spec k k') as [->|Hne]; cbn; [done |].
  rewrite IH. by destruct (dict_get k d).
Qed.

Lemma dict_set_NoDup k v d :
  NoDup (dict_keys d) -> NoDup (dict_keys (dict_set k v d)).
Proof.
  intros Hnd. rewrite dict_keys_set.
  destruct (dict_has k d) eqn:Hk; [done |].
  apply NoDup_app. split; [done |]. split.
  - intros x Hx ->%list_elem_of_singleton.
    by apply dict_has_false_keys in Hk.
  - apply NoDup_singleton.
Qed.

(** An item of a dictionary is what its key looks up. *)
Lemma dict_get_item k v d :
  NoDup (dict_keys d) -> (k, v) ∈ d -> dict_get k d = Some v.
Proof.
  induction d as [|[k' v'] d IH]; cbn; [by intros _ ?%elem_of_nil |].
  intros [Hk' Hnd]%NoDup_cons [[= -> ->]|Hin]%elem_of_cons.
  - by rewrite String.eqb_refl.
  - destruct (String.eqb_spec k k') as [->|Hne]; [|by apply IH].
    destruct Hk'. apply list_elem_of_fmap. by exists (k', v).
Qed.

Lemma dict_get_elem k v d : dict_get k d = Some v -> (k, v) ∈ d.
Proof.
  induction d as [|[k' v'] d IH]; cbn; [done |].
  destruct (String.eqb_spec k k') as [->|Hne].
  - intros [= ->]. by left.
  - intros H. right. by apply IH.
Qed.

(** Writing the items of a dictionary one by one into an empty dictionary
    gives the dictionary. *)
Lemma dict_update_fresh d e :
  NoDup (dict_keys e) ->
  (forall k, k ∈ dict_keys e -> dict_has k d = false) ->
  dict_update d e = d ++ e.
Proof.
  unfold dict_update. revert d.
  induction e as [|[k v] e IH]; intros d Hnd Hd; cbn.
  - by rewrite app_nil_r.
  - apply NoDup_cons in Hnd as [Hk Hnd].
    rewrite dict_set_fresh by (apply Hd; by left).
    rewrite IH; [by rewrite <- app_assoc | done |].
    intros k' Hk'. rewrite dict_has_app, Hd by (by right).
    unfold dict_has. cbn.
    destruct (String.eqb_spec k' k) as [->|]; [done | done].
Qed.

Lemma dict_update_NoDup d e :
  NoDup (dict_keys d) -> NoDup (dict_keys (dict_update d e)).
Proof.
  unfold dict_update. revert d.
  induction e as [|[k v] e IH]; intros d Hnd; cbn; [done |].
  apply IH. by apply dict_set_NoDup.
Qed.

Lemma copy_loop (key : string) d acc :
  NoDup (dict_keys d) ->
  (forall k, k ∈ dict_keys d -> dict_has k acc = false) ->
  fold_left
    (fun new_dict kv =>
       if negb (String.eqb (fst kv) key)
       then dict_set (fst kv) (snd kv) new_dict else new_dict)
    d acc
  = acc ++ List.filter (fun kv => negb (String.eqb (fst kv) key)) d.
Proof.
  revert acc. induction d as [|[k v] d IH]; intros acc Hnd Hacc; cbn.
  - by rewrite app_nil_r.
  - apply NoDup_cons in Hnd as [Hk Hnd].
    destruct (String.eqb k key); cbn.
    + apply IH; [done |]. intros k' Hk'. apply Hacc. by right.
    + rewrite dict_set_fresh by (apply Hacc; by left).
      rewrite IH; [by rewrite <- app_assoc | done |].
      intros k' Hk'. rewrite dict_has_app, Hacc by (by right).
      unfold dict_has. cbn.
      destruct (String.eqb_spec k' k) as [->|]; [done | done].
Qed.

Lemma copy_loop_NoDup (key : string) d acc :
  NoDup (dict_keys acc) ->
  NoDup (dict_keys
    (fold_left
      (fun new_dict kv =>
         if negb (String.eqb (fst kv) key)
         then dict_set (fst kv) (snd kv) new_dict else new_dict)
      d acc)).
Proof.
  revert acc. induction d as [|[k v] d IH]; intros acc Hnd; cbn; [done |].
  apply IH. destruct (String.eqb k key); cbn; [done |].
  by apply dict_set_NoDup.
Qed.

Lemma copy_loop_has (key : string) d acc :
  dict_has key acc = false ->
  dict_has key
    (fold_left
      (fun new_dict kv =>
         if negb (String.eqb (fst kv) key)
         then dict_set (fst kv) (snd kv) new_dict else new_dict)
      d acc) = false.
Proof.
  revert acc. induction d as [|[k v] d IH]; intros acc Hacc; cbn; [done |].
  apply IH. destruct (String.eqb_spec k key) as [->|Hne]; cbn; [done |].
  rewrite dict_has_set, Hacc.
  destruct (String.eqb_spec key k) as [->|]; done.
Qed.

Lemma filter_keep_all (key : string) d :
  dict_has key d = false ->
  List.filter (fun kv => negb (String.eqb (fst kv) key)) d = d.
Proof.
  unfold dict_has. induction d as [|[k v] d IH]; cbn; [done |].
  rewrite (String.eqb_sym k key).
  destruct (String.eqb key k); [done |]. cbn. intros H. by rewrite IH.
Qed.

End DictMore.

(** X1: [_copy_dict_without_key] gives the items of the mapping other than
    the filtered key, in the order of the mapping. *)
Theorem copy_dict_without_key_items {V} (from_dict : list (string * V))
    (filtered_key : string) :
  NoDup (dict_keys from_dict) ->
  _copy_dict_without_key from_dict filtered_key
  = List.filter (fun kv => negb (String.eqb (fst kv) filtered_key)) from_dict.
Proof.
  intros Hnd. unfold _copy_dict_without_key.
  by rewrite copy_loop.
Qed.

Lemma copy_dict_without_key_items_witness :
  _copy_dict_without_key [("a", 1); ("@context", 2); ("b", 3)] "@context"
  = [("a", 1); ("b", 3)].
Proof.
  apply (copy_dict_without_key_items
           [("a", 1); ("@context", 2); ("b", 3)] "@context").
  by apply (bool_decide_unpack _).
Defined.

(** *** The tables of a compiled context *)

Lemma mem_elem (x : string) (l : list string) :
  PyStr.mem x l = true <-> x ∈ l.
Proof.
  unfold PyStr.mem. induction l as [|y l IH]; cbn.
  - split; [done | by intros ?%elem_of_nil].
  - rewrite elem_of_cons, orb_true_iff, IH, String.eqb_eq. done.
Qed.

Lemma elem_of_set_add (x k : string) (s : list string) :
  x ∈ set_add k s <-> x = k \/ x ∈ s.
Proof.
  unfold set_add. destruct (PyStr.mem k s) eqn:Hk.
  - apply mem_elem in Hk. split; [by right | by intros [->|]].
  - rewrite elem_of_app, list_elem_of_singleton. tauto.
Qed.

Lemma set_add_NoDup (k : string) (s : list string) :
  NoDup s -> NoDup (set_add k s).
Proof.
  intros Hnd. unfold set_add. destruct (PyStr.mem k s) eqn:Hk; [done |].
  apply NoDup_app. split; [done |]. split; [|apply NoDup_singleton].
  intros x Hx ->%list_elem_of_singleton.
  apply mem_elem in Hx. congruence.
Qed.

(** The loader on which [__init__] runs the loops of [add_context]: the
    context without [@context], and empty tables. *)
Definition start (c : list (string * Node)) : Loader :=
  mkLoader (dict_update [] (_copy_dict_without_key c "@context"))
    [] [] [] [] [] [] [] [] [] [] [] [].

(** The second loop of [add_context] (lines 248-249). *)
Definition add_rvocab (kv : string * string) : SR Loader unit :=
  self <- get_state ;;
  u <- lift (expand_url self (snd kv) EmptyString false false None) ;;
  modify (fun l => set_rvocab (dict_set u (fst kv) (rvocab l)) l).

(** A loader is compiled in two loops: one over the context, one over the
    vocabulary the first has collected. *)
Lemma new_loader_loops (c : list (string * Node)) (l : Loader) :
  new_loader c = Ok l ->
  exists l1,
    for_each (ctx (start c)) add_context_item (start c) = (Ok tt, l1)
    /\ for_each (vocab l1) add_rvocab l1 = (Ok tt, l).
Proof.
  unfold new_loader.
  change (add_context c blank_loader)
    with ((for_each (ctx (start c)) add_context_item ;;;
           self <- get_state ;; for_each (vocab self) add_rvocab) (start c)).
  rewrite bind_eq.
  destruct (for_each (ctx (start c)) add_context_item (start c))
    as [[[]|e] l1]; [|done].
  rewrite bind_eq. cbn [get_state].
  destruct (for_each (vocab l1) add_rvocab l1) as [[[]|e] l2] eqn:H2; [|done].
  intros [= <-]. by exists l1.
Qed.

(** What one item of the context keeps. *)
Definition impl (P : Loader -> Prop) (l l' : Loader) : Prop := P l -> P l'.

Lemma impl_refl P l : impl P l l.
Proof. by intros ?. Qed.

Lemma impl_trans P l1 l2 l3 : impl P l1 l2 -> impl P l2 l3 -> impl P l1 l3.
Proof. unfold impl. auto. Qed.

Lemma first_loop_keeps (P : Loader -> Prop) (items : list (string * Node))
    (l l1 : Loader) :
  (forall kv, keeps (impl P) (add_context_item kv)) ->
  P l -> for_each items add_context_item l = (Ok tt, l1) -> P l1.
Proof.
  intros Hitem Hl Hrun.
  pose proof (keeps_for_each (impl P) (impl_refl P) (impl_trans P)
                items add_context_item Hitem l) as H.
  rewrite Hrun in H. by apply H.
Qed.

(** The second loop changes [rvocab] and nothing else. *)
Definition same_but_rvocab (l l' : Loader) : Prop :=
  l' = set_rvocab (rvocab l') l.

Lemma add_rvocab_keeps kv : keeps same_but_rvocab (add_rvocab kv).
Proof.
  intros l. unfold add_rvocab, bind, get_state, lift, modify.
  destruct (expand_url _ _ _ _ _ _); cbn; by destruct l.
Qed.

Lemma same_but_rvocab_refl l : same_but_rvocab l l.
Proof. by destruct l. Qed.

Lemma same_but_rvocab_trans l1 l2 l3 :
  same_but_rvocab l1 l2 -> same_but_rvocab l2 l3 -> same_but_rvocab l1 l3.
Proof.
  unfold same_but_rvocab. intros H1 H2. rewrite H2, H1 at 1.
  by destruct l1.
Qed.

Lemma second_loop_keeps (items : list (string * string)) (l : Loader) :
  same_but_rvocab l (snd (for_each items add_rvocab l)).
Proof.
  apply (keeps_for_each same_but_rvocab same_but_rvocab_refl
           same_but_rvocab_trans).
  apply add_rvocab_keeps.
Qed.

(** The inclusions between the field tables. *)
Definition tables_ok (l : Loader) : Prop :=
  (forall k, k ∈ identifiers l -> k ∈ identity_links l)
  /\ (forall k, k ∈ vocab_fields l -> k ∈ url_fields l)
  /\ (forall k, k ∈ type_dsl_fields l -> k ∈ vocab_fields l)
  /\ (forall k, dict_has k (scoped_ref_fields l) = true -> k ∈ url_fields l).

Ltac tables_tac :=
  unfold impl, tables_ok in *; cbn in *;
  repeat split; intros ?;
  rewrite ?elem_of_set_add, ?dict_has_set, ?orb_true_iff, ?String.eqb_eq;
  intuition auto.

Ltac impl_step tac :=
  lazymatch goal with
  | |- keeps _ (bind _ _) => apply keeps_bind; [apply impl_trans | | intros ?]
  | |- keeps _ (ret _) => apply keeps_ret; apply impl_refl
  | |- keeps _ (raise _) => apply keeps_raise; apply impl_refl
  | |- keeps _ (modify _) => apply keeps_modify; intros ? ?; tac
  | |- keeps _ (if ?b then _ else _) => destruct b
  | |- keeps _ (match ?x with _ => _ end) => destruct x
  end.

Lemma add_context_item_tables kv : keeps (impl tables_ok) (add_context_item kv).
Proof.
  destruct kv as [key value]. unfold add_context_item.
  apply keeps_bind; [apply impl_trans | |].
  - intros l Hok.
    destruct (node_is (Some value) "@id"); [tables_tac |].
    destruct (node_is_dict value && node_is (node_get "@type" value) "@id").
    { unfold note_refScope, bind, modify, ret, raise. cbn.
      destruct (node_get "refScope" value) as [[]|];
        destruct (node_get_truthy "identity" value); tables_tac. }
    destruct (node_is_dict value && node_is (node_get "@type" value) "@vocab");
      [|tables_tac].
    unfold note_refScope, bind, modify, ret, raise. cbn.
    destruct (node_get "refScope" value) as [[]|];
      destruct (node_get_truthy "typeDSL" value); tables_tac.
  - intros _. repeat impl_step tables_tac.
Qed.

(** X2: in a compiled loader every identifier field is an identity link,
    every vocabulary field is a URL field, every field with the type DSL
    is a vocabulary field, and every field with a reference scope is a URL
    field. *)
Theorem compiled_tables_included (c : list (string * Node)) (l : Loader) :
  new_loader c = Ok l ->
  (forall k, k ∈ identifiers l -> k ∈ identity_links l)
  /\ (forall k, k ∈ vocab_fields l -> k ∈ url_fields l)
  /\ (forall k, k ∈ type_dsl_fields l -> k ∈ vocab_fields l)
  /\ (forall k, dict_has k (scoped_ref_fields l) = true -> k ∈ url_fields l).
Proof.
  intros (l1 & H1 & H2)%new_loader_loops.
  assert (tables_ok l1) as Hok1.
  { eapply first_loop_keeps; [apply add_context_item_tables | | exact H1].
    unfold tables_ok, start. cbn.
    repeat split; intros k; [by intros ?%elem_of_nil.. | done]. }
  pose proof (second_loop_keeps (vocab l1) l1) as Hsame.
  rewrite H2 in Hsame. cbn in Hsame. rewrite Hsame. exact Hok1.
Qed.

Lemma compiled_tables_included_witness :
  (forall k, k ∈ identifiers loader_inputs -> k ∈ identity_links loader_inputs)
  /\ (forall k, k ∈ vocab_fields loader_inputs -> k ∈ url_fields loader_inputs)
  /\ (forall k, k ∈ type_dsl_fields loader_inputs ->
                k ∈ vocab_fields loader_inputs)
  /\ (forall k, dict_has k (scoped_ref_fields loader_inputs) = true ->
                k ∈ url_fields loader_inputs).
Proof.
  apply (compiled_tables_included
           [("id", NStr "@id");
            ("inputs", NDict [("@id", NStr "http://ex/inputs");
                              ("mapSubject", NStr "id");
                              ("mapPredicate", NStr "type")])]
           loader_inputs).
  reflexivity.
Defined.

(** The first loop leaves [rvocab] empty and gives the vocabulary one entry
    per key. *)
Ltac fields_tac :=
  unfold impl; cbn -[dict_keys dict_set]; auto using dict_set_NoDup.

Lemma add_context_item_rvocab kv :
  keeps (impl (fun l => rvocab l = [])) (add_context_item kv).
Proof.
  destruct kv as [key value]. unfold add_context_item, note_refScope.
  repeat impl_step fields_tac.
Qed.

Lemma add_context_item_vocab kv :
  keeps (impl (fun l => NoDup (dict_keys (vocab l)))) (add_context_item kv).
Proof.
  destruct kv as [key value]. unfold add_context_item, note_refScope.
  repeat impl_step fields_tac.
Qed.

Lemma add_context_item_ctx c0 kv :
  keeps (impl (fun l => ctx l = c0)) (add_context_item kv).
Proof.
  destruct kv as [key value]. unfold add_context_item, note_refScope.
  repeat impl_step fields_tac.
Qed.

(** Without [vocab_term], [expand_url] reads the vocabulary only. *)
Lemma expand_url_set_rvocab (r : list (string * string)) (l : Loader)
    (url base : string) (scoped_id : bool) (scoped_ref : option Z) :
  expand_url (set_rvocab r l) url base scoped_id false scoped_ref
  = expand_url l url base scoped_id false scoped_ref.
Proof. reflexivity. Qed.

(** Every entry of [rvocab] is the expansion of a vocabulary entry. *)
Definition rvocab_sound (l : Loader) : Prop :=
  forall u k,
    dict_get u (rvocab l) = Some k ->
    exists v, dict_get k (vocab l) = Some v
              /\ expand_url l v EmptyString false false None = Ok u.

Lemma add_rvocab_run (kv : string * string) (l l' : Loader) :
  add_rvocab kv l = (Ok tt, l') ->
  exists u, expand_url l (snd kv) EmptyString false false None = Ok u
            /\ l' = set_rvocab (dict_set u (fst kv) (rvocab l)) l.
Proof.
  unfold add_rvocab, bind, get_state, lift, modify.
  destruct (expand_url _ _ _ _ _ _) as [u|]; [|done].
  intros [= <-]. by exists u.
Qed.

Lemma second_loop_sound (items : list (string * string)) :
  forall l l',
    (forall kv, kv ∈ items -> dict_get (fst kv) (vocab l) = Some (snd kv)) ->
    rvocab_sound l ->
    for_each items add_rvocab l = (Ok tt, l') ->
    rvocab_sound l'.
Proof.
  induction items as [|kv items IH]; intros l l' Hitems Hl; cbn [for_each].
  - by intros [= <-].
  - rewrite bind_eq.
    destruct (add_rvocab kv l) as [[[]|e] l2] eqn:Hstep; [|done].
    apply add_rvocab_run in Hstep as (u & Hu & ->).
    apply IH.
    + intros kv' Hin. apply Hitems. by right.
    + intros u' k'. cbn [rvocab set_rvocab vocab].
      destruct (String.eqb_spec u' u) as [->|Hne].
      * rewrite dict_get_set_eq. intros [= <-].
        exists (snd kv). split; [apply Hitems; by left |].
        by rewrite expand_url_set_rvocab.
      * rewrite dict_get_set_ne by done. intros Hk.
        destruct (Hl u' k' Hk) as (v & Hv & Hexp).
        exists v. by rewrite expand_url_set_rvocab.
Qed.

Lemma second_loop_complete (items : list (string * string)) :
  forall l l',
    for_each items add_rvocab l = (Ok tt, l') ->
    (forall u, dict_has u (rvocab l) = true -> dict_has u (rvocab l') = true)
    /\ forall kv, kv ∈ items ->
         exists u, expand_url l (snd kv) EmptyString false false None = Ok u
                   /\ dict_has u (rvocab l') = true.
Proof.
  induction items as [|kv items IH]; intros l l'; cbn [for_each].
  - intros [= <-]. split; [done | by intros kv ?%elem_of_nil].
  - rewrite bind_eq.
    destruct (add_rvocab kv l) as [[[]|e] l2] eqn:Hstep; [|done].
    apply add_rvocab_run in Hstep as (u & Hu & ->). intros Hrun.
    destruct (IH _ _ Hrun) as [Hmono Hall]. split.
    + intros u' Hu'. apply Hmono. cbn. rewrite dict_has_set, Hu'.
      by rewrite orb_true_r.
    + intros kv' [->|Hin]%elem_of_cons.
      * exists u. split; [done |]. apply Hmono. cbn.
        by rewrite dict_has_set, String.eqb_refl.
      * destruct (Hall kv' Hin) as (u' & Hu' & Hin').
        exists u'. by rewrite expand_url_set_rvocab in Hu'.
Qed.

(** X3: in a compiled loader [rvocab] is the vocabulary read backwards
    through [expand_url]: every entry [u -> k] of [rvocab] comes from a
    vocabulary entry [k -> v] with [expand_url(v, "") = u], and every
    vocabulary entry has its expansion among the keys of [rvocab]. *)
Theorem compiled_rvocab_inverse (c : list (string * Node)) (l : Loader) :
  new_loader c = Ok l ->
  (forall u k,
     dict_get u (rvocab l) = Some k ->
     exists v, dict_get k (vocab l) = Some v
               /\ expand_url l v EmptyString false false None = Ok u)
  /\ (forall k v,
        dict_get k (vocab l) = Some v ->
        exists u, expand_url l v EmptyString false false None = Ok u
                  /\ dict_has u (rvocab l) = true).
Proof.
  intros (l1 & H1 & H2)%new_loader_loops.
  assert (rvocab l1 = []) as Hr1.
  { eapply (first_loop_keeps (fun l => rvocab l = []));
      [apply add_context_item_rvocab | | exact H1]. done. }
  assert (NoDup (dict_keys (vocab l1))) as Hnd.
  { eapply (first_loop_keeps (fun l => NoDup (dict_keys (vocab l))));
      [apply add_context_item_vocab | | exact H1]. cbn. constructor. }
  pose proof (second_loop_keeps (vocab l1) l1) as Hsame.
  rewrite H2 in Hsame. cbn in Hsame.
  assert (vocab l = vocab l1) as Hv by (by rewrite Hsame).
  assert (forall v, expand_url l v EmptyString false false None
                    = expand_url l1 v EmptyString false false None) as Hexp.
  { intros v. rewrite Hsame. apply expand_url_set_rvocab. }
  split.
  - intros u k Hk.
    assert (rvocab_sound l) as Hs.
    { eapply second_loop_sound; [| |exact H2].
      - intros [k' v'] Hin. by apply dict_get_item.
      - intros u' k'. by rewrite Hr1. }
    exact (Hs u k Hk).
  - intros k v Hkv. rewrite Hv in Hkv.
    destruct (second_loop_complete _ _ _ H2) as [_ Hall].
    destruct (Hall (k, v) (dict_get_elem _ _ _ Hkv)) as (u & Hu & Hin).
    exists u. by rewrite Hexp.
Qed.

Lemma compiled_rvocab_inverse_witness :
  (forall u k,
     dict_get u (rvocab loader_inputs) = Some k ->
     exists v, dict_get k (vocab loader_inputs) = Some v
               /\ expand_url loader_inputs v EmptyString false false None
                  = Ok u)
  /\ (forall k v,
        dict_get k (vocab loader_inputs) = Some v ->
        exists u, expand_url loader_inputs v EmptyString false false None
                  = Ok u
                  /\ dict_has u (rvocab loader_inputs) = true).
Proof.
  apply (compiled_rvocab_inverse
           [("id", NStr "@id");
            ("inputs", NDict [("@id", NStr "http://ex/inputs");
                              ("mapSubject", NStr "id");
                              ("mapPredicate", NStr "type")])]
           loader_inputs).
  reflexivity.
Defined.

(** The context a loader is compiled from has no [@context] and one item
    per key; compiling it again starts from the same loader. *)
Lemma start_ctx (c : list (string * Node)) : start (ctx (start c)) = start c.
Proof.
  unfold start at 1 3. f_equal. cbn [ctx start].
  set (c0 := dict_update [] (_copy_dict_without_key c "@context")).
  assert (NoDup (dict_keys c0)) as Hnd.
  { apply dict_update_NoDup. constructor. }
  assert (dict_has "@context" c0 = false) as Hno.
  { unfold c0. rewrite dict_has_update. cbn.
    unfold _copy_dict_without_key. by apply copy_loop_has. }
  unfold _copy_dict_without_key. rewrite copy_loop; [|done|done].
  cbn [app]. rewrite filter_keep_all by done.
  by rewrite dict_update_fresh.
Qed.

Lemma new_loader_start (c c' : list (string * Node)) :
  start c = start c' -> new_loader c = new_loader c'.
Proof.
  intros H. unfold new_loader.
  change (add_context c blank_loader)
    with ((for_each (ctx (start c)) add_context_item ;;;
           self <- get_state ;; for_each (vocab self) add_rvocab) (start c)).
  change (add_context c' blank_loader)
    with ((for_each (ctx (start c')) add_context_item ;;;
           self <- get_state ;; for_each (vocab self) add_rvocab) (start c')).
  by rewrite H.
Qed.

(** X4: [SubLoader] of a compiled loader compiles, and to the same tables:
    a sub-loader starts as a copy of the loader it is made from. *)
Theorem SubLoader_same_tables (c : list (string * Node)) (l : Loader) :
  new_loader c = Ok l -> SubLoader l = Ok l.
Proof.
  intros Hl. unfold SubLoader.
  destruct (new_loader_loops c l Hl) as (l1 & H1 & H2).
  assert (ctx l1 = ctx (start c)) as Hc1.
  { eapply (first_loop_keeps (fun l => ctx l = ctx (start c)));
      [apply add_context_item_ctx | | exact H1]. done. }
  pose proof (second_loop_keeps (vocab l1) l1) as Hsame.
  rewrite H2 in Hsame. cbn in Hsame.
  assert (ctx l = ctx (start c)) as Hc by (by rewrite Hsame).
  rewrite <- Hl. apply new_loader_start.
  rewrite Hc. apply start_ctx.
Qed.

Lemma SubLoader_same_tables_witness : SubLoader loader_inputs = Ok loader_inputs.
Proof.
  apply (SubLoader_same_tables
           [("id", NStr "@id");
            ("inputs", NDict [("@id", NStr "http://ex/inputs");
                              ("mapSubject", NStr "id");
                              ("mapPredicate", NStr "type")])]).
  reflexivity.
Defined.

(** *** The index *)

(** X5: the index is keyed by the normal form of a URL.  An entry stored
    under [url] is found, and read back, under every URL with the same
    normal form; the entries under other normal forms are as they were;
    reading a key that is not there raises [KeyError]. *)
Theorem index_round_trip (url url' k : string) (v : Val) (st : State) :
  normalize url = Ok k ->
  normalize url' = Ok k ->
  let st' := set_idx (dict_set k v (idx st)) st in
  idx_setitem url v st = (Ok tt, st')
  /\ idx_contains url' st' = (Ok true, st')
  /\ idx_getitem url' st' = (Ok v, st')
  /\ (forall url2 k2,
        normalize url2 = Ok k2 -> k2 <> k ->
        idx_contains url2 st' = (Ok (dict_has k2 (idx st)), st')
        /\ fst (idx_getitem url2 st') = fst (idx_getitem url2 st))
  /\ (dict_has k (idx st) = false ->
      idx_getitem url' st = (Raise KeyError, st)).
Proof.
  intros Hk Hk' st'.
  split; [by apply idx_setitem_run |].
  split.
  { rewrite idx_contains_run, Hk'. cbn. unfold dict_has.
    by rewrite dict_get_set_eq. }
  split.
  { eapply idx_getitem_run; [exact Hk' |]. cbn. apply dict_get_set_eq. }
  split.
  - intros url2 k2 Hk2 Hne. split.
    + rewrite idx_contains_run, Hk2. cbn. unfold dict_has.
      by rewrite dict_get_set_ne.
    + unfold idx_getitem, bind, lift, get_state. rewrite Hk2. cbn.
      rewrite dict_get_set_ne by done.
      by destruct (dict_get k2 (idx st)).
  - unfold dict_has, idx_getitem, bind, lift, get_state. rewrite Hk'.
    by destruct (dict_get k (idx st)).
Qed.

Lemma index_round_trip_witness :
  let st' := set_idx (dict_set "http://a/b" (VInt 1) (idx empty_state))
               empty_state in
  idx_setitem "HTTP://a/b#" (VInt 1) empty_state = (Ok tt, st')
  /\ idx_contains "http://a/b" st' = (Ok true, st')
  /\ idx_getitem "http://a/b" st' = (Ok (VInt 1), st')
  /\ (forall url2 k2,
        normalize url2 = Ok k2 -> k2 <> "http://a/b" ->
        idx_contains url2 st' = (Ok (dict_has k2 (idx empty_state)), st')
        /\ fst (idx_getitem url2 st') = fst (idx_getitem url2 empty_state))
  /\ (dict_has "http://a/b" (idx empty_state) = false ->
      idx_getitem "http://a/b" empty_state = (Raise KeyError, empty_state)).
Proof.
  apply (index_round_trip "HTTP://a/b#" "http://a/b" "http://a/b" (VInt 1)
           empty_state); reflexivity.
Defined.

(** *** [fetch] *)

(** Relations between the state before and the state after. *)
Definition same_idx (st st' : State) : Prop := idx st' = idx st.

Lemma same_idx_refl st : same_idx st st.
Proof. done. Qed.

Lemma same_idx_trans s1 s2 s3 : same_idx s1 s2 -> same_idx s2 s3 -> same_idx s1 s3.
Proof. unfold same_idx. congruence. Qed.

Lemma same_idx_heap st h : same_idx st (set_heap h st).
Proof. done. Qed.

Lemma same_idx_log st evs : same_idx st (logged st evs).
Proof. done. Qed.

Definition unchanged (st st' : State) : Prop := st' = st.

Lemma unchanged_refl st : unchanged st st.
Proof. done. Qed.

Lemma unchanged_trans s1 s2 s3 :
  unchanged s1 s2 -> unchanged s2 s3 -> unchanged s1 s3.
Proof. unfold unchanged. congruence. Qed.

(** X6: [fetch] without identifier injection ([inject_ids] unset, or a
    loader without identifiers) registers what it has loaded under the
    URL: a second [fetch] of the URL returns the same object and leaves the
    state, transport trace included, as it is.  A [fetch] that fails
    leaves the index as it was. *)
Theorem fetch_registers (w : World) (self : Loader) (url k : string)
    (inject_ids : bool) (st : State) :
  normalize url = Ok k ->
  dict_has k (idx st) = false ->
  inject_ids = false \/ identifiers self = [] ->
  match fetch w self url inject_ids st with
  | (Ok v, st') =>
      dict_get k (idx st') = Some v
      /\ forall inject_ids', fetch w self url inject_ids' st' = (Ok v, st')
  | (Raise _, st') => idx st' = idx st
  end.
Proof.
  intros Hk Hnew Hinj. unfold fetch.
  rewrite bind_eq, idx_contains_run, Hk, Hnew. cbn match. rewrite bind_eq.
  pose proof (keeps_fetch_text same_idx same_idx_refl same_idx_trans w
                same_idx_log url st) as Ht.
  destruct (fetch_text w url st) as [[text|e] st1]; [|exact Ht].
  cbn in Ht. rewrite bind_eq.
  assert (forall n, same_idx st1 (snd (alloc_node n st1))) as Hn.
  { intros n. apply (keeps_alloc_node same_idx same_idx_refl same_idx_trans
                       same_idx_heap). }
  destruct (yaml_load w text) as [n| |];
    [|unfold raise; exact Ht|unfold raise; exact Ht].
  specialize (Hn n).
  destruct (alloc_node n st1) as [[result|e] st2];
    [|unfold same_idx in *; cbn in *; congruence].
  cbn in Hn. rewrite bind_eq.
  pose proof (keeps_is_dict unchanged unchanged_refl unchanged_trans result st2)
    as Hd.
  destruct (is_dict result st2) as [[isd|e] st3]; unfold unchanged in Hd;
    cbn in Hd; subst st3;
    [|unfold same_idx in *; congruence].
  assert (isd && inject_ids
          && match identifiers self with [] => false | _ => true end = false)
    as ->.
  { destruct Hinj as [-> | ->]; by rewrite ?andb_false_r. }
  rewrite bind_eq, (idx_setitem_run _ _ _ _ Hk). cbn [ret].
  split; [cbn; apply dict_get_set_eq |].
  intros inject_ids'.
  rewrite bind_eq, idx_contains_run, Hk. cbn [idx set_idx].
  unfold dict_has. rewrite dict_get_set_eq.
  eapply idx_getitem_run; [exact Hk |]. cbn. apply dict_get_set_eq.
Qed.

(** *** The link check *)

(** The state that has the index [index] and nothing else. *)
Definition index_only (index : list (string * Val)) : State :=
  mkState [] index [] [].

(** A computation that reads the index, and nothing else of the state,
    and leaves the state as it is. *)
Definition reads_index {A} (m : M A) : Prop :=
  forall st, m st = (fst (m (index_only (idx st))), st).

Lemma reads_ret {A} (a : A) : reads_index (ret a).
Proof. done. Qed.

Lemma reads_raise {A} (e : Exn) : reads_index (raise (A := A) e).
Proof. done. Qed.

Lemma reads_lift {A} (r : Res A) : reads_index (lift r).
Proof. done. Qed.

Lemma reads_bind {A B} (m : M A) (k : A -> M B) :
  reads_index m -> (forall a, reads_index (k a)) -> reads_index (bind m k).
Proof.
  intros Hm Hk st. unfold bind.
  pose proof (Hm st) as H1. pose proof (Hm (index_only (idx st))) as H2.
  change (idx (index_only (idx st))) with (idx st) in H2.
  rewrite H1. clear H1.
  destruct (m (index_only (idx st))) as [r s0]. cbn [fst] in *.
  injection H2 as ->.
  destruct r as [a|e]; [|done].
  rewrite (Hk a st). done.
Qed.

Lemma reads_idx_contains url : reads_index (idx_contains url).
Proof. intros st. by rewrite !idx_contains_run. Qed.

Ltac reads_step :=
  lazymatch goal with
  | |- reads_index (bind _ _) => apply reads_bind; [|intros ?]
  | |- reads_index (ret _) => apply reads_ret
  | |- reads_index (raise _) => apply reads_raise
  | |- reads_index (lift _) => apply reads_lift
  | |- reads_index (idx_contains _) => apply reads_idx_contains
  | |- reads_index (if ?b then _ else _) => destruct b
  | |- reads_index (match ?x with _ => _ end) => destruct x
  | |- reads_index _ => solve [auto]
  end.

Lemma reads_check_file w fn : reads_index (check_file w fn).
Proof. unfold check_file. repeat reads_step. Qed.

Lemma reads_scoped_loop fuel split field link :
  forall sp tried, reads_index (scoped_loop fuel split field link sp tried).
Proof.
  induction fuel as [|f IH]; intros sp tried; cbn [scoped_loop];
    repeat reads_step.
Qed.

Lemma reads_validate_scoped self field link docid :
  reads_index (validate_scoped self field link docid).
Proof.
  unfold validate_scoped. pose proof reads_scoped_loop. repeat reads_step.
Qed.

(** What the check answers for a string link, given the index. *)
Definition link_verdict (w : World) (self : Loader) (field docid : string)
    (index : list (string * Val)) (s : string) : Res Val :=
  fst (validate_link w 1 self field (VStr s) docid (index_only index)).

Lemma validate_link_str (w : World) (f : nat) (self : Loader)
    (field s docid : string) (st : State) :
  validate_link w (S f) self field (VStr s) docid st
  = (link_verdict w self field docid (idx st) s, st).
Proof.
  unfold link_verdict.
  assert (reads_index (validate_link w (S f) self field (VStr s) docid)) as H.
  { pose proof reads_check_file. pose proof reads_validate_scoped.
    cbn [validate_link is_list is_dict]. repeat reads_step. }
  rewrite (H st). done.
Qed.

(** X7: the check of a string link never changes the state.  In a field
    without reference scope the link comes back as it is or the check
    raises; a link that is a key of the index or of [rvocab] (or, in a
    vocabulary field, of the vocabulary) passes; a link that is none of
    these and does not start with [file://] raises the undefined
    reference error. *)
Theorem validate_link_string (w : World) (f : nat) (self : Loader)
    (field s docid k : string) (st : State) :
  PyStr.mem field (nolinkcheck self) = false ->
  normalize s = Ok k ->
  snd (validate_link w (S f) self field (VStr s) docid st) = st
  /\ (dict_has field (scoped_ref_fields self) = false ->
      forall v, fst (validate_link w (S f) self field (VStr s) docid st) = Ok v ->
                v = VStr s)
  /\ (dict_has k (idx st) || dict_has s (rvocab self)
      || PyStr.mem field (vocab_fields self) && dict_has s (vocab self) = true ->
      validate_link w (S f) self field (VStr s) docid st = (Ok (VStr s), st))
  /\ (dict_has k (idx st) || dict_has s (rvocab self)
      || PyStr.mem field (vocab_fields self) && dict_has s (vocab self) = false ->
      dict_has field (scoped_ref_fields self) = false ->
      PyStr.startswith "file://" s = false ->
      validate_link w (S f) self field (VStr s) docid st
      = (Raise (ValidationException (MUndefinedRef field s)), st)).
Proof.
  intros Hno Hk.
  split; [by rewrite validate_link_str |].
  assert (forall known : bool,
            dict_has k (idx st) || dict_has s (rvocab self)
            || PyStr.mem field (vocab_fields self) && dict_has s (vocab self)
            = known ->
            (known <- (if PyStr.mem field (vocab_fields self) then
                         if dict_has s (vocab self) then ret true
                         else in_idx <- idx_contains s ;;
                              ret (in_idx || dict_has s (rvocab self))
                       else in_idx <- idx_contains s ;;
                            ret (in_idx || dict_has s (rvocab self))) ;;
             ret known) st = (Ok known, st)) as Hknown.
  { intros known <-.
    destruct (PyStr.mem field (vocab_fields self));
      [destruct (dict_has s (vocab self))|];
      rewrite ?bind_eq, ?idx_contains_run, ?Hk; cbn;
      rewrite ?orb_true_r, ?orb_false_r; done. }
  assert (forall known : bool,
            dict_has k (idx st) || dict_has s (rvocab self)
            || PyStr.mem field (vocab_fields self) && dict_has s (vocab self)
            = known ->
            validate_link w (S f) self field (VStr s) docid st
            = (if negb known then
                 if dict_has field (scoped_ref_fields self) then
                   u <- validate_scoped self field s docid ;; ret (VStr u)
                 else
                   ok <- check_file w s ;;
                   if negb ok
                   then raise (ValidationException (MUndefinedRef field s))
                   else ret (VStr s)
               else ret (VStr s)) st) as Hrun.
  { intros known Hkn. specialize (Hknown known Hkn).
    cbn [validate_link is_list is_dict]. rewrite Hno.
    rewrite bind_eq. cbn [ret]. rewrite bind_eq. cbn [ret].
    rewrite bind_eq. revert Hknown. rewrite bind_eq.
    match goal with
    | |- (let (r, st') := ?m in _) = _ -> _ => destruct m as [[kn|e] st1]
    end; cbn [ret]; [|done].
    by intros [= -> ->]. }
  split; [|split].
  - intros Hsc v.
    rewrite (Hrun _ eq_refl), Hsc.
    destruct (negb _); [|by intros [= <-]].
    rewrite bind_eq.
    destruct (check_file w s st) as [[[]|e] st1]; cbn; [| |done].
    + by intros [= <-].
    + done.
  - intros Hkn. by rewrite (Hrun true Hkn).
  - intros Hkn Hsc Hfile. rewrite (Hrun false Hkn), Hsc. cbn [negb].
    unfold check_file. by rewrite Hfile.
Qed.

Lemma list_get_run (a : addr) (xs : list Val) (i : nat) (v : Val)
    (st : State) :
  heap st !! a = Some (OList xs) -> xs !! i = Some v ->
  list_get (VRef a) i st = (Ok v, st).
Proof.
  intros Ha Hi. unfold list_get.
  rewrite (bind_run _ _ _ _ _ (elements_run _ _ _ Ha)). by rewrite Hi.
Qed.

Lemma list_set_run (a : addr) (xs : list Val) (i : nat) (v : Val)
    (st : State) :
  heap st !! a = Some (OList xs) ->
  list_set (VRef a) i v st
  = (Ok tt, set_heap (<[a := OList (<[i := v]> xs)]> (heap st)) st).
Proof.
  intros Ha. unfold list_set.
  by rewrite (bind_run _ _ _ _ _ (elements_run _ _ _ Ha)).
Qed.

Lemma list_len_run (a : addr) (xs : list Val) (st : State) :
  heap st !! a = Some (OList xs) ->
  list_len (VRef a) st = (Ok (length xs), st).
Proof.
  intros Ha. unfold list_len.
  by rewrite (bind_run _ _ _ _ _ (elements_run _ _ _ Ha)).
Qed.

(** What the check of a list does with the answer for an element: an
    element that passes is replaced by the answer, one that fails stays and
    its error is kept. *)
Definition passed (x : Val) (r : Res Val) : Val :=
  match r with Ok v => v | Raise _ => x end.

Definition failure (r : Res Val) : option Msg :=
  match r with Raise (ValidationException v) => Some v | _ => None end.

Definition settled (r : Res Val) : Prop :=
  match r with
  | Ok _ | Raise (ValidationException _) => True
  | Raise _ => False
  end.

Section LinkList.

Variables (w : World) (f : nat) (self : Loader) (field docid : string).
Variables (a : addr) (st : State).

Let verdict := link_verdict w self field docid (idx st).

Let body := fun (errors : list Msg) (n : nat) =>
  i <- list_get (VRef a) n ;;
  try_validation
    (v <- validate_link w (S f) self field i docid ;;
     list_set (VRef a) n v ;;;
     ret errors)
    (fun v => ret (errors ++ [v])).

Lemma link_list_loop (ss : list string) :
  forall (pre : list Val) (errs : list Msg) (h : list Obj),
    h !! a = Some (OList (pre ++ map VStr ss)) ->
    Forall settled (map verdict ss) ->
    fold_each (seq (length pre) (length ss)) errs body (set_heap h st)
    = (Ok (errs ++ omap failure (map verdict ss)),
       set_heap
         (<[a := OList (pre ++ zip_with passed (map VStr ss)
                                  (map verdict ss))]> h) st).
Proof.
  induction ss as [|s ss IH]; intros pre errs h Ha Hset.
  - cbn. rewrite !app_nil_r in *. by rewrite list_insert_id.
  - cbn [length seq fold_each map] in *.
    apply Forall_cons in Hset as [Hs Hset].
    rewrite bind_eq. unfold body at 1.
    erewrite bind_run; cycle 1.
    { eapply list_get_run; [exact Ha |].
      rewrite lookup_app_r by done. by rewrite Nat.sub_diag. }
    unfold try_validation. rewrite bind_eq, validate_link_str.
    cbn [idx set_heap]. fold verdict.
    assert (a < length h) as Halt by (by eapply lookup_lt_Some).
    destruct (verdict s) as [v|[]] eqn:Hv; try done.
    + erewrite bind_run; [|by eapply list_set_run].
      cbn [ret heap set_heap]. rewrite set_heap_set_heap.
      replace (<[length pre := v]> (pre ++ VStr s :: map VStr ss))
        with ((pre ++ [v]) ++ map VStr ss); cycle 1.
      { rewrite insert_app_r_alt by done. rewrite Nat.sub_diag. cbn.
        by rewrite <- app_assoc. }
      specialize (IH (pre ++ [v]) errs
                    (<[a := OList ((pre ++ [v]) ++ map VStr ss)]> h)).
      rewrite length_app in IH. cbn [length] in IH.
      rewrite Nat.add_1_r in IH. rewrite IH; [| |done].
      * cbn [omap zip_with failure passed].
        rewrite list_insert_insert_eq. by rewrite <- app_assoc.
      * by apply list_lookup_insert_eq.
    + cbn [ret].
      specialize (IH (pre ++ [VStr s]) (errs ++ [m]) h).
      rewrite length_app in IH. cbn [length] in IH.
      rewrite Nat.add_1_r in IH. rewrite IH; [| |done].
      * cbn [omap zip_with failure passed].
        by rewrite <- !app_assoc.
      * by rewrite <- app_assoc.
Qed.

End LinkList.

(** X8: the check of a list of string links goes through all of them: an
    element that passes is replaced in place by what the check returned for
    it, an element that fails is left, and the errors of all the failing
    elements are raised together, in the order of the list. *)
Theorem validate_link_list (w : World) (f : nat) (self : Loader)
    (field docid : string) (a : addr) (ss : list string) (st : State) :
  PyStr.mem field (nolinkcheck self) = false ->
  heap st !! a = Some (OList (map VStr ss)) ->
  Forall settled (map (link_verdict w self field docid (idx st)) ss) ->
  validate_link w (S (S f)) self field (VRef a) docid st
  = (match omap failure (map (link_verdict w self field docid (idx st)) ss)
     with
     | [] => Ok (VRef a)
     | errors => Raise (ValidationException (MJoin errors))
     end,
     set_heap
       (<[a := OList (zip_with passed (map VStr ss)
                        (map (link_verdict w self field docid (idx st)) ss))]>
          (heap st)) st).
Proof.
  intros Hno Ha Hset.
  remember (S f) as g eqn:Hg. cbn [validate_link]. subst g. rewrite Hno.
  rewrite (bind_run _ _ _ _ _ (is_list_list _ _ _ Ha)).
  rewrite (bind_run _ _ _ _ _ (is_dict_list _ _ _ Ha)).
  rewrite (bind_run _ _ _ _ _ (list_len_run _ _ _ Ha)).
  rewrite length_map.
  pose proof (link_list_loop w f self field docid a st ss [] []
                (heap st) Ha Hset) as Hloop.
  cbn [length app] in Hloop. rewrite set_heap_id in Hloop.
  rewrite (bind_run _ _ _ _ _ Hloop).
  by destruct (omap failure _).
Qed.

(** *** What the passes leave alone *)

(** The index, the cache and the transport trace are as they were. *)
Definition only_store (st st' : State) : Prop :=
  idx st' = idx st /\ cache st' = cache st /\ io_log st' = io_log st.

Lemma only_store_refl st : only_store st st.
Proof. done. Qed.

Lemma only_store_trans s1 s2 s3 :
  only_store s1 s2 -> only_store s2 s3 -> only_store s1 s3.
Proof. unfold only_store. intros (? & ? & ?) (? & ? & ?). split_and!; congruence. Qed.

Lemma only_store_heap st h : only_store st (set_heap h st).
Proof. done. Qed.

(** X9: the link check reads the index and the file system and writes
    links back into the document; it never changes the index or the cache
    and never reads a document through the transport. *)
Theorem link_check_only_store (w : World) (fuel : nat) (self : Loader)
    (v : Val) (field docid : string) (st : State) :
  only_store st (snd (validate_links w fuel self v docid st))
  /\ only_store st (snd (validate_link w fuel self field v docid st)).
Proof.
  destruct (keeps_validate only_store only_store_refl only_store_trans
              only_store_heap w fuel) as [Hlink Hlinks].
  split; [apply Hlinks | apply Hlink].
Qed.

(** X10: the rewriting passes for idmaps, for the type DSL and for URL
    fields work on the document only: the index, the cache and the
    transport trace are as they were, whether the pass returns or
    raises. *)
Theorem rewrites_only_store (self loader : Loader) (document : Val)
    (base_url : string) (st : State) :
  only_store st (snd (_resolve_idmap document loader st))
  /\ only_store st (snd (_resolve_type_dsl document loader st))
  /\ only_store st (snd (_resolve_uris self document loader base_url st)).
Proof.
  split_and!.
  - apply (keeps_resolve_idmap only_store only_store_refl only_store_trans
             only_store_heap).
  - apply (keeps_resolve_type_dsl only_store only_store_refl only_store_trans
             only_store_heap).
  - apply (keeps_resolve_uris only_store only_store_refl only_store_trans
             only_store_heap).
Qed.

(** The cache is as it was. *)
Definition same_cache (st st' : State) : Prop := cache st' = cache st.

Lemma same_cache_trans s1 s2 s3 :
  same_cache s1 s2 -> same_cache s2 s3 -> same_cache s1 s3.
Proof. unfold same_cache. congruence. Qed.

(** X11: nothing in the resolver writes the cache: [fetch], [resolve_ref]
    and [resolve_all] end with the cache they started with, so a text that
    was not in the cache when the loader was made is read through the
    transport each time it is fetched. *)
Theorem resolver_never_writes_cache (w : World) (fuel : nat) (self : Loader)
    (v : Val) (url base_url : string) (file_base : option string)
    (inject_ids checklinks : bool) (st : State) :
  cache (snd (fetch w self url inject_ids st)) = cache st
  /\ cache (snd (resolve_ref w fuel self v base_url checklinks st)) = cache st
  /\ cache (snd (resolve_all w fuel self v base_url file_base checklinks st))
     = cache st.
Proof.
  assert (forall st, same_cache st st) as Hrefl by done.
  assert (forall st h, same_cache st (set_heap h st)) as Hheap by done.
  assert (forall st k x, same_cache st (set_idx (dict_set k x (idx st)) st))
    as Hidx by done.
  assert (forall st evs, same_cache st (logged st evs)) as Hlog by done.
  destruct (keeps_resolve same_cache Hrefl same_cache_trans Hheap w Hidx Hlog
              fuel) as (Href & Hall & _).
  split_and!.
  - apply (keeps_fetch same_cache Hrefl same_cache_trans Hheap w Hidx Hlog).
  - apply Href.
  - apply Hall.
Qed.

(** The keys of the index are still keys. *)
Definition keys_kept (st st' : State) : Prop :=
  forall k, dict_has k (idx st) = true -> dict_has k (idx st') = true.

Lemma keys_kept_trans s1 s2 s3 :
  keys_kept s1 s2 -> keys_kept s2 s3 -> keys_kept s1 s3.
Proof. unfold keys_kept. auto. Qed.

(** X12: the index only grows: a URL that is a key of the index when
    [fetch], [resolve_ref] or [resolve_all] starts is a key when it ends,
    with a value or with an exception. *)
Theorem resolver_keeps_index_keys (w : World) (fuel : nat) (self : Loader)
    (v : Val) (url base_url : string) (file_base : option string)
    (inject_ids checklinks : bool) (st : State) :
  keys_kept st (snd (fetch w self url inject_ids st))
  /\ keys_kept st (snd (resolve_ref w fuel self v base_url checklinks st))
  /\ keys_kept st
       (snd (resolve_all w fuel self v base_url file_base checklinks st)).
Proof.
  assert (forall st, keys_kept st st) as Hrefl by (by intros ? ? ?).
  assert (forall st h, keys_kept st (set_heap h st)) as Hheap
    by (by intros ? ? ? ?).
  assert (forall st k x, keys_kept st (set_idx (dict_set k x (idx st)) st))
    as Hidx.
  { intros st0 k0 x k1 Hk1. cbn. by rewrite dict_has_set, Hk1, orb_true_r. }
  assert (forall st evs, keys_kept st (logged st evs)) as Hlog
    by (by intros ? ? ? ?).
  destruct (keeps_resolve keys_kept Hrefl keys_kept_trans Hheap w Hidx Hlog
              fuel) as (Href & Hall & _).
  split_and!.
  - apply (keeps_fetch keys_kept Hrefl keys_kept_trans Hheap w Hidx Hlog).
  - apply Href.
  - apply Hall.
Qed.

(** *** The objects a copy leaves alone *)

(** The objects at the addresses below [n] are as they were (from a state
    that has them). *)
Definition below_kept (n : nat) (st st' : State) : Prop :=
  n <= length (heap st) ->
  n <= length (heap st')
  /\ forall x, x < n -> heap st' !! x = heap st !! x.

Lemma below_kept_refl n st : below_kept n st st.
Proof. by intros ?. Qed.

Lemma below_kept_trans n s1 s2 s3 :
  below_kept n s1 s2 -> below_kept n s2 s3 -> below_kept n s1 s3.
Proof.
  intros H1 H2 Hn. destruct (H1 Hn) as [Hn2 Hx2].
  destruct (H2 Hn2) as [Hn3 Hx3]. split; [done |].
  intros x Hx. by rewrite Hx3, Hx2.
Qed.

Lemma below_kept_alloc n o : keeps (below_kept n) (alloc o).
Proof.
  intros st Hn. cbn. rewrite length_app. split; [lia |].
  intros x Hx. apply lookup_app_l. lia.
Qed.

Lemma below_kept_store n a o : n <= a -> keeps (below_kept n) (store a o).
Proof.
  intros Ha st Hn. cbn. rewrite length_insert. split; [done |].
  intros x Hx. apply list_lookup_insert_ne. lia.
Qed.

Lemma below_kept_setitem n a k v :
  n <= a -> keeps (below_kept n) (setitem (VRef a) k v).
Proof.
  intros Ha. unfold setitem.
  apply keeps_bind; [apply below_kept_trans | | intros kvs].
  - apply keeps_items; [apply below_kept_refl | apply below_kept_trans].
  - by apply below_kept_store.
Qed.

Lemma below_kept_delitem n a k :
  n <= a -> keeps (below_kept n) (delitem (VRef a) k).
Proof.
  intros Ha. unfold delitem.
  apply keeps_bind; [apply below_kept_trans | | intros kvs].
  - apply keeps_items; [apply below_kept_refl | apply below_kept_trans].
  - destruct (dict_has k kvs); [by apply below_kept_store |].
    apply keeps_raise, below_kept_refl.
Qed.

(** A step that allocates and goes on with the new address. *)
Lemma below_kept_alloc_bind {B} n o (k : Val -> M B) :
  (forall a, n <= a -> keeps (below_kept n) (k (VRef a))) ->
  keeps (below_kept n) (bind (alloc o) k).
Proof.
  intros Hk st Hn. rewrite (bind_run _ _ _ _ _ (alloc_run _ _)).
  assert (n <= length (heap (set_heap (heap st ++ [o]) st))) as Hn1.
  { cbn. rewrite length_app. lia. }
  destruct (Hk (length (heap st)) Hn _ Hn1) as [Hn2 Hx2].
  split; [done |]. intros x Hx. rewrite Hx2 by done.
  cbn. apply lookup_app_l. lia.
Qed.

Lemma deepcopy_below (n fuel : nat) :
  forall memo v, keeps (below_kept n) (deepcopy fuel memo v).
Proof.
  pose proof (below_kept_refl n) as Hrefl.
  pose proof (below_kept_trans n) as Htrans.
  induction fuel as [|f IH]; intros memo v; cbn [deepcopy];
    [by apply keeps_raise |].
  destruct v as [| | | |a]; try (by apply keeps_ret).
  destruct (List.find (fun p => Nat.eqb (fst p) a) memo) as [[? a']|];
    [by apply keeps_ret |].
  apply keeps_bind; [done | by apply keeps_load | intros [kvs|xs]].
  - apply below_kept_alloc_bind. intros a' Ha'.
    apply keeps_bind; [done | | intros ?; by apply keeps_ret].
    apply keeps_fold_each; [done | done |]. intros memo' kv.
    apply keeps_bind; [done | apply IH | intros [x' memo2]].
    apply keeps_bind; [done | by apply below_kept_setitem |].
    intros ?. by apply keeps_ret.
  - apply below_kept_alloc_bind. intros a' Ha'.
    apply keeps_bind; [done | | intros ?; by apply keeps_ret].
    apply keeps_fold_each; [done | done |]. intros memo' x.
    apply keeps_bind; [done | apply IH | intros [x' memo2]].
    apply keeps_bind; [done | by apply keeps_elements | intros ys].
    apply keeps_bind; [done | by apply below_kept_store |].
    intros ?. by apply keeps_ret.
Qed.

(** The copy of an object is an object that was not there. *)
Lemma deepcopy_fresh (fuel : nat) (a : addr) (st st' : State) (v : Val)
    (memo : list (addr * addr)) :
  deepcopy fuel [] (VRef a) st = (Ok (v, memo), st') ->
  exists a', v = VRef a' /\ length (heap st) <= a'.
Proof.
  destruct fuel as [|f]; [done |]. cbn [deepcopy List.find].
  rewrite bind_eq. unfold load.
  destruct (heap st !! a) as [[kvs|xs]|]; [| |done].
  - rewrite (bind_run _ _ _ _ _ (alloc_run _ _)). rewrite bind_eq.
    destruct (fold_each _ _ _ _) as [[m|e] st1]; [|done].
    intros [= <- <- <-]. by eexists.
  - rewrite (bind_run _ _ _ _ _ (alloc_run _ _)). rewrite bind_eq.
    destruct (fold_each _ _ _ _) as [[m|e] st1]; [|done].
    intros [= <- <- <-]. by eexists.
Qed.

(** X13: the overlay of a mixin is built on a copy: every object that was
    there before, the fetched document and the mixin mapping among them,
    is as it was afterwards, and so are the index, the cache and the
    transport trace. *)
Theorem mixin_overlay_leaves_objects (doc mixin : Val) (st : State) :
  let st' := snd (mixin_overlay doc mixin st) in
  length (heap st) <= length (heap st')
  /\ (forall x, x < length (heap st) -> heap st' !! x = heap st !! x)
  /\ idx st' = idx st /\ cache st' = cache st /\ io_log st' = io_log st.
Proof.
  intros st'.
  assert (only_store st st') as Honly.
  { apply (keeps_mixin_overlay only_store only_store_refl only_store_trans
             only_store_heap). }
  assert (below_kept (length (heap st)) st st') as Hkept.
  { set (n := length (heap st)).
    pose proof (below_kept_refl n) as Hrefl.
    pose proof (below_kept_trans n) as Htrans.
    subst st'. unfold mixin_overlay. rewrite bind_eq. cbn [get_state].
    fold n. rewrite bind_eq.
    pose proof (deepcopy_below n (S n) [] doc st) as Hcopy.
    destruct (deepcopy (S n) [] doc st) as [[[c memo]|e] st1] eqn:Hc;
      [|exact Hcopy].
    eapply below_kept_trans; [exact Hcopy |]. cbn [fst snd].
    destruct doc as [| | | |a];
      try (cbn in Hc; injection Hc as <- <- <-; by intros ?).
    apply deepcopy_fresh in Hc as (a' & -> & Ha').
    change (below_kept n st1
              (snd ((isdoc <- is_dict (VRef a') ;;
                     if (isdoc : bool) then
                       over <- items mixin ;;
                       for_each over
                         (fun kv => setitem (VRef a') (fst kv) (snd kv)) ;;;
                       delitem (VRef a') "$mixin" ;;;
                       ret (VRef a')
                     else raise AttributeError) st1))).
    apply keeps_bind; [done | by apply keeps_is_dict | intros [|]];
      [|by apply keeps_raise].
    apply keeps_bind; [done | by apply keeps_items | intros over].
    apply keeps_bind; [done | | intros ?].
    - apply keeps_for_each; [done | done |]. intros kv.
      by apply below_kept_setitem.
    - apply keeps_bind; [done | by apply below_kept_delitem | intros ?].
      by apply keeps_ret. }
  destruct (Hkept (le_n _)) as [Hlen Hx].
  destruct Honly as (? & ? & ?). done.
Qed.

(** *** References that [resolve_ref] rejects *)

(** The value of the first identifier field a mapping has, as [resolve_ref]
    looks it up (lines 288-292). *)
Definition first_identifier (kvs : list (string * Val))
  : list string -> Val :=
  fix go (ids : list string) : Val :=
    match ids with
    | [] => VNone
    | identifier :: r =>
        match dict_get identifier kvs with
        | Some v => v
        | None => go r
        end
    end.

(** A value that is not an object and is not a non-empty string. *)
Definition no_reference (v : Val) : bool :=
  match v with
  | VNone => true
  | VBool b => negb b
  | VInt z => Z.eqb z 0
  | VStr s => negb (PyStr.nonempty s)
  | VRef _ => false
  end.

(** X14: [resolve_ref] raises [ValueError] and changes nothing when it is
    given a scalar that is not a string, a sequence, or a mapping without
    directive whose first identifier field is missing, empty or a scalar
    that is not a string. *)
Theorem resolve_ref_rejects (w : World) (fuel : nat) (self : Loader)
    (base_url : string) (checklinks : bool) (st : State) :
  (forall ref,
     match ref with VStr _ | VRef _ => False | _ => True end ->
     resolve_ref w (S fuel) self ref base_url checklinks st
     = (Raise ValueError, st))
  /\ (forall a xs,
        heap st !! a = Some (OList xs) ->
        resolve_ref w (S fuel) self (VRef a) base_url checklinks st
        = (Raise ValueError, st))
  /\ (forall a kvs,
        heap st !! a = Some (ODict kvs) ->
        dict_has "$import" kvs = false ->
        dict_has "$include" kvs = false ->
        dict_has "$mixin" kvs = false ->
        match first_identifier kvs (identifiers self) with
        | VStr s => s = EmptyString
        | VRef _ => False
        | _ => True
        end ->
        resolve_ref w (S fuel) self (VRef a) base_url checklinks st
        = (Raise ValueError, st)).
Proof.
  split_and!.
  - intros [| | | |]; try done.
  - intros a xs Ha. cbn [resolve_ref].
    by rewrite (bind_run _ _ _ _ _ (is_dict_list _ _ _ Ha)).
  - intros a kvs Ha Himp Hinc Hmix Hid. cbn [resolve_ref].
    rewrite (bind_run _ _ _ _ _ (is_dict_dict _ _ _ Ha)).
    rewrite bind_eq, (bind_run _ _ _ _ _ (items_run _ _ _ Ha)).
    rewrite Himp, Hinc, Hmix.
    change ((fix go (ids : list string) : Val :=
               match ids with
               | [] => VNone
               | identifier :: r =>
                   match dict_get identifier kvs with
                   | Some v => v
                   | None => go r
                   end
               end) (identifiers self))
      with (first_identifier kvs (identifiers self)).
    destruct (first_identifier kvs (identifiers self)) as [|[]|z|s|];
      try done.
    + destruct (Z.eqb_spec z 0) as [->|Hz]; [done |].
      cbn. apply Z.eqb_neq in Hz. by rewrite Hz.
    + by subst s.
Qed.

(** *** [$include] and references into loaded files *)

(** X15: an [$include] returns the text of the target, as a string and
    with an empty metadata mapping; the text is not parsed and the index
    is as it was, so the same include reads the target again. *)
Theorem include_returns_text (w : World) (fuel : nat) (self : Loader)
    (a : addr) (r url k base_url : string) (checklinks : bool) (st : State) :
  heap st !! a = Some (ODict [("$include", VStr r)]) ->
  expand_url self r
    (if PyStr.nonempty base_url then base_url
     else "file://" +:+ cwd w +:+ "/") false false None = Ok url ->
  normalize url = Ok k ->
  dict_has k (idx st) = false ->
  match fetch_text w url st with
  | (Ok text, st1) =>
      resolve_ref w (S fuel) self (VRef a) base_url checklinks st
      = (Ok (VStr text, VRef (length (heap st))),
         set_heap (heap st ++ [ODict []]) st1)
      /\ idx st1 = idx st
  | (Raise e, st1) =>
      resolve_ref w (S fuel) self (VRef a) base_url checklinks st
      = (Raise e, st1)
  end.
Proof.
  intros Ha Hurl Hk Hnew.
  assert (resolve_ref w (S fuel) self (VRef a) base_url checklinks st
          = (text <- fetch_text w url ;;
             metadata <- alloc (ODict []) ;;
             ret (VStr text, metadata)) st) as ->.
  { cbn [resolve_ref].
    rewrite (bind_run _ _ _ _ _ (is_dict_dict _ _ _ Ha)).
    rewrite bind_eq, (bind_run _ _ _ _ _ (items_run _ _ _ Ha)).
    change (dict_has "$import" [("$include", VStr r)]) with false.
    change (dict_has "$include" [("$include", VStr r)]) with true.
    cbn [length Nat.eqb].
    rewrite (bind_run _ _ _ _ _
               (getitem_run _ _ _ "$include" (VStr r) Ha eq_refl)).
    cbn [ret]. change (bool_decide (is_Some (@None Val))) with false.
    rewrite Hurl. rewrite bind_eq. cbn [lift].
    rewrite bind_eq, idx_contains_run, Hk, Hnew. cbn [ret andb].
    rewrite bind_eq. cbn [ret]. done. }
  pose proof (fetch_text_frame w url st) as [evs Hevs].
  rewrite bind_eq.
  destruct (fetch_text w url st) as [[text|e] st1]; [|done].
  cbn in Hevs. subst st1. by rewrite (bind_run _ _ _ _ _ (alloc_run _ _)).
Qed.

(** X16: a reference into a file that is in the index, to a URL that is
    not, raises the validation error for a reference that is not found;
    nothing is fetched and nothing is changed. *)
Theorem reference_not_found (w : World) (fuel : nat) (self : Loader)
    (r url k doc_url frg k' base_url : string) (checklinks : bool)
    (st : State) :
  expand_url self r
    (if PyStr.nonempty base_url then base_url
     else "file://" +:+ cwd w +:+ "/") false false None = Ok url ->
  normalize url = Ok k ->
  dict_has k (idx st) = false ->
  Urllib.urldefrag url = Ok (doc_url, frg) ->
  normalize doc_url = Ok k' ->
  dict_has k' (idx st) = true ->
  resolve_ref w (S fuel) self (VStr r) base_url checklinks st
  = (Raise (ValidationException (MReferenceNotFound frg doc_url)), st).
Proof.
  intros Hurl Hk Hnew Hdefrag Hk' Hdoc.
  cbn [resolve_ref is_dict].
  rewrite bind_eq. cbn [ret]. rewrite bind_eq. cbn [ret].
  change (bool_decide (is_Some (@None Val))) with false.
  rewrite Hurl. rewrite bind_eq. cbn [lift].
  rewrite bind_eq, idx_contains_run, Hk, Hnew. cbn [ret andb].
  rewrite bind_eq. cbn [ret].
  rewrite bind_eq. cbn [ret].
  rewrite bind_eq, bind_eq, Hdefrag. cbn [lift].
  by rewrite bind_eq, idx_contains_run, Hk', Hdoc.
Qed.

(** *** Idmap fields that are left alone *)

(** A value of an idmap field that the rewriter skips: anything but a
    mapping, and a mapping with [$import] or [$include]. *)
Definition idmap_skips (h : list Obj) (v : Val) : bool :=
  match v with
  | VRef b =>
      match h !! b with
      | Some (ODict d) => dict_has "$import" d || dict_has "$include" d
      | Some (OList _) => true
      | None => false
      end
  | _ => true
  end.

Lemma resolve_idmap_field_skips (loader : Loader) (a : addr)
    (kvs : list (string * Val)) (f : string) (st : State) :
  heap st !! a = Some (ODict kvs) ->
  (forall v, dict_get f kvs = Some v -> idmap_skips (heap st) v = true) ->
  _resolve_idmap_field (VRef a) loader f st = (Ok tt, st).
Proof.
  intros Ha Hskip. unfold _resolve_idmap_field.
  rewrite (bind_run _ _ _ _ _ (contains_run _ _ _ _ Ha)).
  unfold dict_has. destruct (dict_get f kvs) as [v|] eqn:Hf; [|done].
  rewrite (bind_run _ _ _ _ _ (getitem_run _ _ _ _ _ Ha Hf)).
  specialize (Hskip v eq_refl).
  destruct v as [| | | |b]; try done.
  cbn in Hskip. destruct (heap st !! b) as [[d|xs]|] eqn:Hb; [| |done].
  - rewrite (bind_run _ _ _ _ _ (is_dict_dict _ _ _ Hb)).
    rewrite (bind_run _ _ _ _ _ (contains_run _ _ _ _ Hb)).
    rewrite (bind_run _ _ _ _ _ (contains_run _ _ _ _ Hb)).
    by destruct (dict_has "$import" d), (dict_has "$include" d).
  - by rewrite (bind_run _ _ _ _ _ (is_dict_list _ _ _ Hb)).
Qed.

(** X17: [_resolve_idmap] changes nothing in a document none of whose
    idmap fields holds a mapping to desugar (a field that is absent, holds
    a scalar or a list, or holds a mapping with [$import] or [$include]);
    so a document it has rewritten is left as it is by a second run. *)
Theorem resolve_idmap_skips (loader : Loader) (a : addr)
    (kvs : list (string * Val)) (st : State) :
  heap st !! a = Some (ODict kvs) ->
  (forall f v, f ∈ dict_keys (idmap loader) -> dict_get f kvs = Some v ->
               idmap_skips (heap st) v = true) ->
  _resolve_idmap (VRef a) loader st = (Ok tt, st).
Proof.
  intros Ha. unfold _resolve_idmap.
  induction (dict_keys (idmap loader)) as [|f fs IH]; intros Hskip; [done |].
  cbn [for_each].
  rewrite (bind_run _ _ _ _ _
             (resolve_idmap_field_skips loader a kvs f st Ha
                (fun v => Hskip f v (list_elem_of_here _ _)))).
  apply IH. intros f' v Hf'. apply Hskip. by right.
Qed.

(** *** Absolute URLs *)

(** X18: a URL that has a scheme, and whose part before the first colon
    is not a key of the vocabulary, is returned by [expand_url] as it is,
    for every base and every [scoped_id] and [scoped_ref] ([vocab_term]
    unset): expanding an expanded URL of this kind changes nothing. *)
Theorem expand_url_absolute (self : Loader) (url base : string)
    (scoped_id : bool) (scoped_ref : option Z) (sp : Urllib.SplitResult) :
  Urllib.urlsplit url = Ok sp ->
  PyStr.nonempty (Urllib.scheme sp) = true ->
  dict_has (List.hd EmptyString (PyStr.split ":" url)) (vocab self) = false ->
  expand_url self url base scoped_id false scoped_ref = Ok url.
Proof.
  intros Hsp Hscheme Hprefix. unfold expand_url.
  destruct (String.eqb url "@id" || String.eqb url "@type"); [done |].
  cbn [andb].
  assert ((if nonempty_dict (vocab self) && PyStr.contains ":" url
           then match dict_get (List.hd EmptyString (PyStr.split ":" url))
                        (vocab self) with
                | Some v =>
                    v +:+ PyStr.drop
                            (String.length
                               (List.hd EmptyString (PyStr.split ":" url)) + 1)
                            url
                | None => url
                end
           else url) = url) as ->.
  { unfold dict_has in Hprefix.
    destruct (dict_get _ (vocab self)); [done |].
    by destruct (_ && _). }
  rewrite Hsp. cbn [res_bind]. by rewrite Hscheme.
Qed.

Lemma expand_url_absolute_witness :
  expand_url loader_cwl "http://x/s" "file:///d/wf.cwl" true false (Some 1%Z)
  = Ok "http://x/s".
Proof.
  eapply (expand_url_absolute loader_cwl "http://x/s"); vm_compute; reflexivity.
Defined.

(** *** [$namespaces] *)

Lemma dict_get_update {V} (k : string) (d e : list (string * V)) :
  NoDup (dict_keys e) ->
  dict_get k (dict_update d e)
  = match dict_get k e with Some v => Some v | None => dict_get k d end.
Proof.
  unfold dict_update. revert d.
  induction e as [|[k' v'] e IH]; intros d Hnd; cbn; [done |].
  apply NoDup_cons in Hnd as [Hk' Hnd]. rewrite IH by done.
  destruct (String.eqb_spec k k') as [->|Hne].
  - apply dict_has_false_keys in Hk'. unfold dict_has in Hk'.
    cbn [fst] in Hk'.
    destruct (dict_get k' e); [done |]. apply dict_get_set_eq.
  - destruct (dict_get k e); [done |]. by apply dict_get_set_ne.
Qed.

(** The entries of a namespace mapping, when they are all strings. *)
Fixpoint string_items (kvs : list (string * Val))
  : option (list (string * string)) :=
  match kvs with
  | [] => Some []
  | (k, VStr s) :: r => cons (k, s) <$> string_items r
  | _ => None
  end.

Lemma string_items_keys kvs ns :
  string_items kvs = Some ns -> dict_keys ns = dict_keys kvs.
Proof.
  revert ns. induction kvs as [|[k [| | |s|]] kvs IH]; intros ns; cbn;
    try done.
  - by intros [= <-].
  - destruct (string_items kvs) as [r|]; [|done].
    intros [= <-]. cbn. f_equal. by apply IH.
Qed.

Lemma string_items_get kvs ns k s :
  string_items kvs = Some ns ->
  dict_get k kvs = Some (VStr s) -> dict_get k ns = Some s.
Proof.
  revert ns. induction kvs as [|[k' [| | |s'|]] kvs IH]; intros ns; cbn;
    try done.
  destruct (string_items kvs) as [r|]; [|done].
  intros [= <-]. cbn. destruct (String.eqb k k'); [by intros [= ->] |].
  by apply IH.
Qed.

Lemma add_namespaces_loop (kvs : list (string * Val))
    (ns : list (string * string)) (st : State) :
  string_items kvs = Some ns ->
  forall self,
    fold_each kvs self (fun self kv =>
      match snd kv with
      | VStr s => ret (set_vocab (dict_set (fst kv) s (vocab self)) self)
      | _ => raise OutOfModel
      end) st
    = (Ok (set_vocab (dict_update (vocab self) ns) self), st).
Proof.
  revert ns. induction kvs as [|[k v] kvs IH]; intros ns Hns self.
  - cbn in Hns. injection Hns as <-. cbn. by destruct self.
  - cbn [string_items] in Hns. destruct v as [| | |s|]; try done.
    destruct (string_items kvs) as [r|]; [|done].
    cbn in Hns. injection Hns as <-.
    cbn [fold_each]. rewrite bind_eq. cbn [snd fst ret].
    rewrite (IH r eq_refl). cbn. by destruct self.
Qed.

(** X19: [add_namespaces] updates the vocabulary with the entries of the
    namespace mapping and changes no other table ([rvocab] stays as
    compiled) and nothing of the state; a name with a namespace prefix then
    expands to the namespace followed by the rest of the name, when that
    has a URL scheme. *)
Theorem add_namespaces_vocab (self : Loader) (n : addr)
    (kvs : list (string * Val)) (ns : list (string * string)) (st : State) :
  heap st !! n = Some (ODict kvs) ->
  NoDup (dict_keys kvs) ->
  string_items kvs = Some ns ->
  exists l,
    add_namespaces self (VRef n) st = (Ok l, st)
    /\ l = set_vocab (dict_update (vocab self) ns) self
    /\ (forall k, dict_get k (vocab l)
                  = match dict_get k ns with
                    | Some v => Some v
                    | None => dict_get k (vocab self)
                    end)
    /\ forall p v s base scoped_id scoped_ref sp,
         dict_get p kvs = Some (VStr v) ->
         PyStr.contains ":" p = false ->
         Urllib.urlsplit (v +:+ s) = Ok sp ->
         PyStr.nonempty (Urllib.scheme sp) = true ->
         expand_url l (p +:+ ":" +:+ s) base scoped_id false scoped_ref
         = Ok (v +:+ s).
Proof.
  intros Hn Hnd Hns.
  assert (NoDup (dict_keys ns)) as Hnd'.
  { by rewrite (string_items_keys _ _ Hns). }
  exists (set_vocab (dict_update (vocab self) ns) self).
  split.
  { unfold add_namespaces.
    rewrite (bind_run _ _ _ _ _ (items_run _ _ _ Hn)).
    by apply add_namespaces_loop. }
  split; [done |].
  split.
  { intros k. cbn [vocab set_vocab]. by apply dict_get_update. }
  intros p v s base scoped_id scoped_ref sp Hp Hc Hsp Hscheme.
  assert (dict_get p (vocab (set_vocab (dict_update (vocab self) ns) self))
          = Some v) as Hv.
  { cbn [vocab set_vocab]. rewrite dict_get_update by done.
    by rewrite (string_items_get _ _ _ _ Hns Hp). }
  change (":" +:+ s) with (String ":" s).
  pose proof (contains_app_sep ":" p s) as Hcs.
  unfold expand_url.
  rewrite (eqb_false_of_contains ":" _ "@id" Hcs eq_refl).
  rewrite (eqb_false_of_contains ":" _ "@type" Hcs eq_refl).
  cbn [orb andb].
  assert (nonempty_dict
            (vocab (set_vocab (dict_update (vocab self) ns) self)) = true)
    as ->.
  { apply (nonempty_dict_has p). unfold dict_has. by rewrite Hv. }
  rewrite Hcs. cbn [andb].
  rewrite (split_hd_app ":" p s Hc), Hv, drop_app_sep.
  rewrite Hsp. cbn [res_bind]. by rewrite Hscheme.
Qed.

(** *** [_resolve_uris] *)

Section ResolveUris.

Variables (self loader : Loader) (base_url : string).
Variables (a : addr) (kvs : list (string * Val)) (st : State).

(** The expansion of the string [s] held by the URL field [d]. *)
Definition expand_field (d s : string) : Res string :=
  expand_url loader s base_url false (PyStr.mem d (vocab_fields loader))
    (dict_get d (scoped_ref_fields self)).

(** The expansion of an element of a list held by [d]. *)
Definition expand_elem (d : string) (x : Val) : Res Val :=
  match x with
  | VStr s => res_map VStr (expand_field d s)
  | _ => Ok x
  end.

(** The value [v] of the URL field [d] can be rewritten: its strings
    expand, and it is there if it is an object. *)
Definition uris_ok (d : string) (v : Val) : Prop :=
  match v with
  | VStr s => exists u, expand_field d s = Ok u
  | VRef b =>
      match heap st !! b with
      | Some (OList xs) => Forall (fun x => exists y, expand_elem d x = Ok y) xs
      | Some (ODict _) => True
      | None => False
      end
  | _ => True
  end.

(** What the URL field [d] holds afterwards, in the store [hf], when it
    held [v]. *)
Definition uris_post (hf : list Obj) (d : string) (v v' : Val) : Prop :=
  match v with
  | VStr s => exists u, expand_field d s = Ok u /\ v' = VStr u
  | VRef b =>
      match heap st !! b with
      | Some (OList xs) =>
          exists l ys,
            v' = VRef l /\ length (heap st) <= l
            /\ hf !! l = Some (OList ys)
            /\ Forall2 (fun x y => expand_elem d x = Ok y) xs ys
      | _ => v' = v
      end
  | _ => v' = v
  end.

(** The body of the loop over [loader.url_fields]. *)
Definition uris_field (d : string) : M unit :=
  present <- contains (VRef a) d ;;
  if present then
    datum <- getitem (VRef a) d ;;
    isl <- is_list datum ;;
    match datum with
    | VStr s => u <- lift (expand_field d s) ;; setitem (VRef a) d (VStr u)
    | _ =>
        if isl then
          xs <- elements datum ;;
          ys <- map_each xs (fun url =>
                  match url with
                  | VStr s => u <- lift (expand_field d s) ;; ret (VStr u)
                  | _ => ret url
                  end) ;;
          l <- alloc (OList ys) ;;
          setitem (VRef a) d l
        else ret tt
    end
  else ret tt.

Lemma resolve_uris_loop :
  _resolve_uris self (VRef a) loader base_url
  = for_each (url_fields loader) uris_field.
Proof. reflexivity. Qed.

Lemma map_each_expand (d : string) (xs : list Val) (s0 : State) :
  Forall (fun x => exists y, expand_elem d x = Ok y) xs ->
  exists ys,
    map_each xs (fun url =>
      match url with
      | VStr s => u <- lift (expand_field d s) ;; ret (VStr u)
      | _ => ret url
      end) s0 = (Ok ys, s0)
    /\ Forall2 (fun x y => expand_elem d x = Ok y) xs ys.
Proof.
  induction 1 as [|x xs [y Hy] _ (ys & Hrun & Hys)]; [by exists [] |].
  exists (y :: ys). cbn [map_each]. split; [|by constructor].
  rewrite bind_eq.
  assert (match x with
          | VStr s => u <- lift (expand_field d s) ;; ret (VStr u)
          | _ => ret x
          end s0 = (Ok y, s0)) as ->.
  { destruct x as [| | |s|]; cbn in Hy; try (by injection Hy as <-).
    unfold res_map in Hy. rewrite bind_eq. cbn [lift].
    destruct (expand_field d s); [|done]. by injection Hy as <-. }
  by rewrite bind_eq, Hrun.
Qed.

Hypothesis Ha : heap st !! a = Some (ODict kvs).

Lemma uris_fields (ds : list string) :
  forall (h : list Obj) (kc : list (string * Val)),
    NoDup ds ->
    h !! a = Some (ODict kc) ->
    length (heap st) <= length h ->
    (forall x o, heap st !! x = Some o -> x <> a -> h !! x = Some o) ->
    (forall d, d ∈ ds -> dict_get d kc = dict_get d kvs) ->
    (forall d v, d ∈ ds -> dict_get d kvs = Some v -> uris_ok d v) ->
    exists hf kf,
      for_each ds uris_field (set_heap h st) = (Ok tt, set_heap hf st)
      /\ hf !! a = Some (ODict kf)
      /\ length h <= length hf
      /\ (forall x o, h !! x = Some o -> x <> a -> hf !! x = Some o)
      /\ dict_keys kf = dict_keys kc
      /\ (forall k, k ∉ ds -> dict_get k kf = dict_get k kc)
      /\ (forall d v, d ∈ ds -> dict_get d kvs = Some v ->
            exists v', dict_get d kf = Some v' /\ uris_post hf d v v').
Proof.
  induction ds as [|d ds IH]; intros h kc Hnd Hh Hlen Hframe Hsame Hok.
  { exists h, kc. split_and!; try done. by intros d v ?%elem_of_nil. }
  apply NoDup_cons in Hnd as [Hd Hnd].
  cbn [for_each]. rewrite bind_eq.
  assert (a < length h) as Halt by (by eapply lookup_lt_Some).
  (* one field *)
  assert (exists h1 k1,
            uris_field d (set_heap h st) = (Ok tt, set_heap h1 st)
            /\ h1 !! a = Some (ODict k1)
            /\ length h <= length h1
            /\ (forall x o, h !! x = Some o -> x <> a -> h1 !! x = Some o)
            /\ dict_keys k1 = dict_keys kc
            /\ (forall k, k <> d -> dict_get k k1 = dict_get k kc)
            /\ (forall v, dict_get d kvs = Some v ->
                  exists v', dict_get d k1 = Some v'
                             /\ forall hf,
                                  (forall x o, h1 !! x = Some o -> x <> a ->
                                               hf !! x = Some o) ->
                                  uris_post hf d v v'))
    as (h1 & k1 & Hrun & Hh1 & Hlen1 & Hframe1 & Hkeys1 & Hother1 & Hpost1).
  { assert (heap (set_heap h st) !! a = Some (ODict kc)) as Hh' by done.
    unfold uris_field.
    rewrite (bind_run _ _ _ _ _ (contains_run _ _ _ _ Hh')).
    unfold dict_has. rewrite (Hsame d) by (by left).
    specialize (Hok d). 
    destruct (dict_get d kvs) as [v|] eqn:Hv; cycle 1.
    { exists h, kc. split_and!; try done. }
    specialize (Hok v (list_elem_of_here _ _) eq_refl).
    assert (dict_get d kc = Some v) as Hvc by (rewrite Hsame; [done | by left]).
    rewrite (bind_run _ _ _ _ _ (getitem_run _ _ _ _ _ Hh' Hvc)).
    assert (dict_keys (dict_set d v kc) = dict_keys kc) as Hks.
    { rewrite dict_keys_set. unfold dict_has. by rewrite Hvc. }
    destruct v as [| | |s|b].
    1-3: exists h, kc; rewrite bind_eq; cbn [is_list ret];
         split_and!; try done; intros ? [= <-]; by eexists.
    - destruct Hok as [u Hu].
      rewrite bind_eq. cbn [is_list ret]. rewrite bind_eq, Hu. cbn [lift].
      erewrite setitem_run by exact Hh'. cbn [heap set_heap].
      exists (<[a := ODict (dict_set d (VStr u) kc)]> h),
        (dict_set d (VStr u) kc).
      rewrite set_heap_set_heap.
      split_and!; try done.
      + by apply list_lookup_insert_eq.
      + by rewrite length_insert.
      + intros x o Hx Hxa. by rewrite list_lookup_insert_ne.
      + rewrite dict_keys_set. unfold dict_has. by rewrite Hvc.
      + intros k Hk. by apply dict_get_set_ne.
      + intros ? [= <-]. exists (VStr u). split; [apply dict_get_set_eq |].
        intros hf _. by exists u.
    - cbn in Hok.
      destruct (decide (b = a)) as [->|Hba].
      { rewrite (bind_run _ _ _ _ _ (is_list_dict _ _ _ Hh')).
        exists h, kc. split_and!; try done.
        intros ? [= <-]. exists (VRef a). split; [done |].
        intros hf _. cbn. by rewrite Ha. }
      destruct (heap st !! b) as [[kb|xs]|] eqn:Hb; [| |done].
      + assert (heap (set_heap h st) !! b = Some (ODict kb)) as Hbh
          by (by apply Hframe).
        rewrite (bind_run _ _ _ _ _ (is_list_dict _ _ _ Hbh)).
        exists h, kc. split_and!; try done.
        intros ? [= <-]. exists (VRef b). split; [done |].
        intros hf _. cbn. by rewrite Hb.
      + assert (heap (set_heap h st) !! b = Some (OList xs)) as Hbh
          by (by apply Hframe).
        rewrite (bind_run _ _ _ _ _ (is_list_list _ _ _ Hbh)).
        rewrite (bind_run _ _ _ _ _ (elements_run _ _ _ Hbh)).
        destruct (map_each_expand d xs (set_heap h st) Hok)
          as (ys & Hmap & Hys).
        rewrite (bind_run _ _ _ _ _ Hmap).
        rewrite (bind_run _ _ _ _ _ (alloc_run _ _)).
        cbn [heap set_heap]. rewrite set_heap_set_heap.
        erewrite setitem_run; cycle 1.
        { cbn. by rewrite lookup_app_l. }
        cbn [heap set_heap]. rewrite set_heap_set_heap.
        exists (<[a := ODict (dict_set d (VRef (length h)) kc)]>
                  (h ++ [OList ys])),
          (dict_set d (VRef (length h)) kc).
        split_and!; try done.
        * apply list_lookup_insert_eq. rewrite length_app. lia.
        * rewrite length_insert, length_app. lia.
        * intros x o Hx Hxa. rewrite list_lookup_insert_ne by done.
          rewrite lookup_app_l; [done | by eapply lookup_lt_Some].
        * rewrite dict_keys_set. unfold dict_has. by rewrite Hvc.
        * intros k Hk. by apply dict_get_set_ne.
        * intros ? [= <-]. exists (VRef (length h)).
          split; [apply dict_get_set_eq |].
          intros hf Hhf. cbn. rewrite Hb.
          exists (length h), ys. split_and!; try done.
          apply Hhf; [|lia].
          rewrite list_lookup_insert_ne by lia.
          rewrite lookup_app_r by lia. by rewrite Nat.sub_diag. }
  rewrite Hrun.
  destruct (IH h1 k1 Hnd Hh1) as (hf & kf & Hrunf & Hhf & Hlenf & Hframef
                                  & Hkeysf & Hotherf & Hpostf).
  - lia.
  - intros x o Hx Hxa. apply Hframe1; [|done]. by apply Hframe.
  - intros d' Hd'. rewrite Hother1; [apply Hsame; by right |].
    intros ->. done.
  - intros d' v Hd'. apply Hok. by right.
  - exists hf, kf. split_and!; try done.
    + lia.
    + intros x o Hx Hxa. apply Hframef; [|done]. by apply Hframe1.
    + congruence.
    + intros k Hk. rewrite Hotherf, Hother1; [done | |].
      * intros ->. apply Hk. by left.
      * intros Hin. apply Hk. by right.
    + intros d' v [->|Hin]%elem_of_cons Hv.
      * destruct (Hpost1 v Hv) as (v' & Hv' & Hp).
        exists v'. split; [by rewrite Hotherf | by apply Hp].
      * by apply Hpostf.
Qed.

End ResolveUris.

(** X20: [_resolve_uris] rewrites the URL fields of a mapping and nothing
    else.  A URL field that holds a string holds its expansion afterwards;
    one that holds a list holds a new list, of the expansions of the
    strings of the old one and of its other elements as they are; a URL
    field with another value and every field that is not a URL field are
    as they were, and so is every other object, the old lists included.
    (The strings are taken to expand without error.) *)
Theorem resolve_uris_fields (self loader : Loader) (base_url : string)
    (a : addr) (kvs : list (string * Val)) (st : State) :
  heap st !! a = Some (ODict kvs) ->
  NoDup (url_fields loader) ->
  (forall d v, d ∈ url_fields loader -> dict_get d kvs = Some v ->
               uris_ok self loader base_url st d v) ->
  exists hf kvs',
    _resolve_uris self (VRef a) loader base_url st = (Ok tt, set_heap hf st)
    /\ hf !! a = Some (ODict kvs')
    /\ dict_keys kvs' = dict_keys kvs
    /\ (forall k, k ∉ url_fields loader -> dict_get k kvs' = dict_get k kvs)
    /\ (forall d v, d ∈ url_fields loader -> dict_get d kvs = Some v ->
          exists v', dict_get d kvs' = Some v'
                     /\ uris_post self loader base_url st hf d v v')
    /\ (forall x o, heap st !! x = Some o -> x <> a -> hf !! x = Some o).
Proof.
  intros Ha Hnd Hok.
  rewrite resolve_uris_loop.
  destruct (uris_fields self loader base_url a kvs st Ha (url_fields loader)
              (heap st) kvs Hnd Ha (le_n _) (fun _ _ H _ => H)
              (fun _ _ => eq_refl) Hok)
    as (hf & kf & Hrun & Hhf & _ & Hframe & Hkeys & Hother & Hpost).
  rewrite set_heap_id in Hrun.
  exists hf, kf. by split_and!.
Qed.

Lemma resolve_uris_fields_witness :
  exists hf kvs',
    _resolve_uris loader_run (VRef 0) loader_run "file:///d/wf.cwl"
      (mkState [ODict [("run", VStr "tool.cwl"); ("label", VStr "x")]]
         [] [] [])
    = (Ok tt,
       set_heap hf
         (mkState [ODict [("run", VStr "tool.cwl"); ("label", VStr "x")]]
            [] [] []))
    /\ hf !! 0 = Some (ODict kvs')
    /\ dict_get "run" kvs' = Some (VStr "file:///d/tool.cwl")
    /\ dict_get "label" kvs' = Some (VStr "x").
Proof.
  destruct (resolve_uris_fields loader_run loader_run "file:///d/wf.cwl" 0
              [("run", VStr "tool.cwl"); ("label", VStr "x")]
              (mkState [ODict [("run", VStr "tool.cwl"); ("label", VStr "x")]]
                 [] [] []))
    as (hf & kvs' & Hrun & Hhf & _ & Hother & Hpost & _).
  - reflexivity.
  - by apply (bool_decide_unpack _).
  - intros d v [->|[]%elem_of_nil]%elem_of_cons [= <-].
    by exists "file:///d/tool.cwl".
  - exists hf, kvs'. split_and!; [done | done | |].
    + destruct (Hpost "run" (VStr "tool.cwl")) as (v' & Hv' & u & Hu & ->);
        [by left | done |].
      rewrite Hv'. vm_compute in Hu. by injection Hu as <-.
    + rewrite Hother; [done |].
      by intros [[=]|[]%elem_of_nil]%elem_of_cons.
Defined.

(** *** [_resolve_identity] *)

(** Every entry of the first index is an entry of the second. *)
Definition entries_kept (i i' : list (string * Val)) : Prop :=
  forall k v, dict_get k i = Some v -> dict_get k i' = Some v.

Lemma entries_kept_has i i' k :
  entries_kept i i' -> dict_has k i = true -> dict_has k i' = true.
Proof.
  unfold dict_has. intros Hkept.
  destruct (dict_get k i) as [v|] eqn:Hv; [|done].
  by rewrite (Hkept k v Hv).
Qed.

Section ResolveIdentity.

Variables (loader : Loader) (base_url : string).
Variables (a : addr) (kvs : list (string * Val)) (st : State).

(** The state with the store [h] and the index [i]. *)
Definition with_store (h : list Obj) (i : list (string * Val)) : State :=
  mkState h i (cache st) (io_log st).

(** The expansion of an element of an identity list. *)
Definition identity_elem (x : Val) : Res Val :=
  match x with
  | VStr s => res_map VStr (expand_url loader s base_url true false None)
  | _ => Ok x
  end.

(** The element expands, to a URL that has a normal form. *)
Definition identity_ok (x : Val) : Prop :=
  match x with
  | VStr s => exists u k,
      expand_url loader s base_url true false None = Ok u
      /\ normalize u = Ok k
  | _ => True
  end.

(** A string is a key of the index [i]. *)
Definition registered (i : list (string * Val)) (y : Val) : Prop :=
  match y with
  | VStr u => exists k, normalize u = Ok k /\ dict_has k i = true
  | _ => True
  end.

Lemma registered_kept i i' y :
  entries_kept i i' -> registered i y -> registered i' y.
Proof.
  intros Hkept. destruct y as [| | |u|]; try done.
  intros (k & Hk & Hin). exists k. split; [done |].
  by eapply entries_kept_has.
Qed.

(** The body of the loop over the elements (lines 449-454). *)
Definition identity_step (l : Val) (n : nat) : M unit :=
  v <- list_get l n ;;
  match v with
  | VStr s =>
      u <- lift (expand_url loader s base_url true false None) ;;
      list_set l n (VStr u) ;;;
      inidx <- idx_contains u ;;
      if negb inidx then idx_setitem u (VStr u) else ret tt
  | _ => ret tt
  end.

(** The body of the loop over [loader.identity_links]. *)
Definition identity_field (identifer : string) : M unit :=
  present <- contains (VRef a) identifer ;;
  if present then
    l <- getitem (VRef a) identifer ;;
    isl <- is_list l ;;
    if isl then
      len <- list_len l ;;
      for_each (seq 0 len) (identity_step l)
    else ret tt
  else ret tt.

Lemma resolve_identity_loop :
  _resolve_identity (VRef a) loader base_url
  = for_each (identity_links loader) identity_field.
Proof. reflexivity. Qed.

Lemma identity_elems (l : addr) (suf : list Val) :
  forall (pre : list Val) (h : list Obj) (i : list (string * Val)),
    h !! l = Some (OList (pre ++ suf)) ->
    Forall identity_ok suf ->
    exists ys i',
      for_each (seq (length pre) (length suf)) (identity_step (VRef l))
        (with_store h i)
      = (Ok tt, with_store (<[l := OList (pre ++ ys)]> h) i')
      /\ Forall2 (fun x y => identity_elem x = Ok y) suf ys
      /\ entries_kept i i'
      /\ Forall (registered i') ys.
Proof.
  induction suf as [|x suf IH]; intros pre h i Hl Hok.
  { exists [], i. cbn. rewrite list_insert_id by done.
    split_and!; [done | constructor | by intros ? ? | constructor]. }
  apply Forall_cons in Hok as [Hx Hok].
  assert (l < length h) as Hlt by (by eapply lookup_lt_Some).
  assert (heap (with_store h i) !! l = Some (OList (pre ++ x :: suf)))
    as Hl' by done.
  cbn [length seq for_each]. rewrite bind_eq. unfold identity_step at 1.
  erewrite bind_run; cycle 1.
  { eapply list_get_run; [exact Hl' |].
    rewrite lookup_app_r by done. by rewrite Nat.sub_diag. }
  assert (forall y h1 i1,
            h1 !! l = Some (OList ((pre ++ [y]) ++ suf)) ->
            (<[l := OList ((pre ++ [y]) ++ suf)]> h = h1) ->
            entries_kept i i1 -> registered i1 y ->
            identity_elem x = Ok y ->
            exists ys i',
              for_each (seq (S (length pre)) (length suf))
                (identity_step (VRef l)) (with_store h1 i1)
              = (Ok tt, with_store (<[l := OList (pre ++ ys)]> h) i')
              /\ Forall2 (fun x y => identity_elem x = Ok y) (x :: suf) ys
              /\ entries_kept i i' /\ Forall (registered i') ys) as Hnext.
  { intros y h1 i1 Hl1 Hh1 Hkept1 Hreg Hy.
    destruct (IH (pre ++ [y]) h1 i1 Hl1 Hok)
      as (ys & i' & Hrun & Hys & Hkept & Hregs).
    rewrite length_app in Hrun. cbn [length] in Hrun.
    rewrite Nat.add_1_r in Hrun.
    exists (y :: ys), i'. split_and!.
    - rewrite Hrun. subst h1. rewrite list_insert_insert_eq.
      by rewrite <- app_assoc.
    - by constructor.
    - intros k v Hv. by apply Hkept, Hkept1.
    - constructor; [by eapply registered_kept | done]. }
  destruct x as [| | |s|b].
  1-3,5: cbn [ret];
    match goal with
    | |- context [identity_elem ?x :: _] => idtac
    | |- context [Forall2 _ (?x :: _)] => eapply (Hnext x h i)
    end;
    [by rewrite <- app_assoc
    |rewrite <- app_assoc; by apply list_insert_id
    |by intros ? ? | done | done].
  destruct Hx as (u & k & Hu & Hk).
  rewrite Hu. rewrite bind_eq. cbn [lift].
  erewrite bind_run; [|by eapply list_set_run].
  cbn [heap with_store].
  replace (<[length pre := VStr u]> (pre ++ VStr s :: suf))
    with ((pre ++ [VStr u]) ++ suf); cycle 1.
  { rewrite insert_app_r_alt by done. rewrite Nat.sub_diag. cbn.
    by rewrite <- app_assoc. }
  rewrite bind_eq, idx_contains_run, Hk. cbn [idx set_heap with_store].
  destruct (dict_has k i) eqn:Hin; cbn [negb].
  - eapply (Hnext (VStr u) _ i);
      [by apply list_lookup_insert_eq | done | by intros ? ?
      |cbn; by exists k | cbn; unfold res_map; by rewrite Hu].
  - rewrite (idx_setitem_run _ _ _ _ Hk).
    eapply (Hnext (VStr u) _ (dict_set k (VStr u) i));
      [by apply list_lookup_insert_eq | done | |
      |cbn; unfold res_map; by rewrite Hu].
    + intros k' v Hv. rewrite dict_get_set_ne; [done |].
      intros ->. unfold dict_has in Hin. by rewrite Hv in Hin.
    + exists k. split; [done |]. by rewrite dict_has_set, String.eqb_refl.
Qed.

(** The value of an identity field can be rewritten: if it is an object it
    is there, and if it is a list its elements expand. *)
Definition identity_field_ok (v : Val) : Prop :=
  match v with
  | VRef b =>
      match heap st !! b with
      | Some (OList xs) => Forall identity_ok xs
      | Some (ODict _) => True
      | None => False
      end
  | _ => True
  end.

(** [x] is a list held by one of the fields [ds]. *)
Definition holds_list (ds : list string) (x : addr) : Prop :=
  exists d xs,
    d ∈ ds /\ dict_get d kvs = Some (VRef x)
    /\ heap st !! x = Some (OList xs).

Lemma identity_fields (ds : list string) :
  forall (h : list Obj) (i : list (string * Val)),
    NoDup ds ->
    length h = length (heap st) ->
    h !! a = Some (ODict kvs) ->
    (forall d b, d ∈ ds -> dict_get d kvs = Some (VRef b) ->
                 h !! b = heap st !! b) ->
    (forall d v, d ∈ ds -> dict_get d kvs = Some v -> identity_field_ok v) ->
    (forall d1 d2 b xs,
       d1 ∈ ds -> d2 ∈ ds ->
       dict_get d1 kvs = Some (VRef b) -> dict_get d2 kvs = Some (VRef b) ->
       heap st !! b = Some (OList xs) -> d1 = d2) ->
    exists hf i',
      for_each ds identity_field (with_store h i) = (Ok tt, with_store hf i')
      /\ length hf = length h
      /\ (forall x, ~ holds_list ds x -> hf !! x = h !! x)
      /\ (forall d b xs,
            d ∈ ds -> dict_get d kvs = Some (VRef b) ->
            heap st !! b = Some (OList xs) ->
            exists ys,
              hf !! b = Some (OList ys)
              /\ Forall2 (fun x y => identity_elem x = Ok y) xs ys
              /\ Forall (registered i') ys)
      /\ entries_kept i i'.
Proof.
  induction ds as [|d ds IH]; intros h i Hnd Hlen Hh Hsame Hok Hinj.
  { exists h, i.
    split_and!;
      [done | done | done | by intros d b xs ?%elem_of_nil | by intros ? ?]. }
  apply NoDup_cons in Hnd as [Hd Hnd].
  assert (heap (with_store h i) !! a = Some (ODict kvs)) as Hh' by done.
  assert (forall h1 i1,
            length h1 = length h ->
            h1 !! a = Some (ODict kvs) ->
            (forall d' b, d' ∈ ds -> dict_get d' kvs = Some (VRef b) ->
                          h1 !! b = heap st !! b) ->
            exists hf i',
              for_each ds identity_field (with_store h1 i1)
              = (Ok tt, with_store hf i')
              /\ length hf = length h
              /\ (forall x, ~ holds_list ds x -> hf !! x = h1 !! x)
              /\ (forall d' b xs,
                    d' ∈ ds -> dict_get d' kvs = Some (VRef b) ->
                    heap st !! b = Some (OList xs) ->
                    exists ys,
                      hf !! b = Some (OList ys)
                      /\ Forall2 (fun x y => identity_elem x = Ok y) xs ys
                      /\ Forall (registered i') ys)
              /\ entries_kept i1 i') as Hrest.
  { intros h1 i1 Hlen1 Hh1 Hsame1.
    destruct (IH h1 i1 Hnd) as (hf & i' & ? & Hlenf & ? & ? & ?);
      [congruence | done | done | | |].
    - intros d' v Hd'. apply Hok. by right.
    - intros d1 d2 b xs H1 H2. apply Hinj; by right.
    - exists hf, i'. split_and!; try done. congruence. }
  assert (identity_field d (with_store h i) = (Ok tt, with_store h i) ->
          (forall b xs, dict_get d kvs = Some (VRef b) ->
                        heap st !! b = Some (OList xs) -> False) ->
          exists hf i',
            for_each (d :: ds) identity_field (with_store h i)
            = (Ok tt, with_store hf i')
            /\ length hf = length h
            /\ (forall x, ~ holds_list (d :: ds) x -> hf !! x = h !! x)
            /\ (forall d' b xs,
                  d' ∈ d :: ds -> dict_get d' kvs = Some (VRef b) ->
                  heap st !! b = Some (OList xs) ->
                  exists ys,
                    hf !! b = Some (OList ys)
                    /\ Forall2 (fun x y => identity_elem x = Ok y) xs ys
                    /\ Forall (registered i') ys)
            /\ entries_kept i i') as Hskip.
  { intros Hrun Hnot.
    destruct (Hrest h i eq_refl Hh) as (hf & i' & Hf & Hlenf & Hframe & Hpost
                                       & Hkept).
    { intros d' b Hd'. apply (Hsame d'). by right. }
    exists hf, i'. cbn [for_each]. rewrite (bind_run _ _ _ _ _ Hrun).
    split_and!; try done.
    - intros x Hx. apply Hframe. intros (d' & xs & Hd' & Hv & Hl).
      apply Hx. exists d', xs. split_and!; [by right | done | done].
    - intros d' b xs [->|Hd']%elem_of_cons Hv Hl; [|by eapply Hpost].
      destruct (Hnot b xs Hv Hl). }
  unfold identity_field in Hskip at 1.
  rewrite (bind_run _ _ _ _ _ (contains_run _ _ _ _ Hh')) in Hskip.
  unfold dict_has in Hskip.
  destruct (dict_get d kvs) as [v|] eqn:Hv; [|by apply Hskip].
  rewrite (bind_run _ _ _ _ _ (getitem_run _ _ _ _ _ Hh' Hv)) in Hskip.
  pose proof (Hok d v (list_elem_of_here _ _) Hv) as Hokv.
  destruct v as [| | | |b]; try (by apply Hskip).
  cbn in Hokv.
  pose proof (Hsame d b (list_elem_of_here _ _) Hv) as Hb.
  destruct (heap st !! b) as [[kb|xs]|] eqn:Hbst; [| |done].
  { assert (heap (with_store h i) !! b = Some (ODict kb)) as Hb' by done.
    rewrite (bind_run _ _ _ _ _ (is_list_dict _ _ _ Hb')) in Hskip.
    apply Hskip; [done | intros ? ? [= <-]; congruence]. }
  clear Hskip.
  assert (b <> a) as Hba by (intros ->; congruence).
  assert (heap (with_store h i) !! b = Some (OList xs)) as Hb' by done.
  destruct (identity_elems b xs [] h i Hb Hokv)
    as (ys & i1 & Hrun & Hys & Hkept1 & Hreg1).
  cbn [length app] in Hrun.
  assert (identity_field d (with_store h i)
          = (Ok tt, with_store (<[b := OList ys]> h) i1)) as Hfield.
  { unfold identity_field.
    rewrite (bind_run _ _ _ _ _ (contains_run _ _ _ _ Hh')).
    unfold dict_has. rewrite Hv.
    rewrite (bind_run _ _ _ _ _ (getitem_run _ _ _ _ _ Hh' Hv)).
    rewrite (bind_run _ _ _ _ _ (is_list_list _ _ _ Hb')).
    by rewrite (bind_run _ _ _ _ _ (list_len_run _ _ _ Hb')). }
  assert (forall d', d' ∈ ds -> dict_get d' kvs <> Some (VRef b)) as Hfree.
  { intros d' Hd' Hv'.
    assert (d' = d) as -> by (eapply Hinj; [by right | by left | done..]).
    done. }
  destruct (Hrest (<[b := OList ys]> h) i1)
    as (hf & i' & Hf & Hlenf & Hframe & Hpost & Hkept).
  { by rewrite length_insert. }
  { by rewrite list_lookup_insert_ne. }
  { intros d' b' Hd' Hv'. rewrite list_lookup_insert_ne.
    - apply (Hsame d'); [by right | done].
    - intros ->. by apply (Hfree d'). }
  exists hf, i'. cbn [for_each]. rewrite (bind_run _ _ _ _ _ Hfield).
  split_and!; try done.
  - intros x Hx. rewrite Hframe.
    + apply list_lookup_insert_ne. intros ->. apply Hx.
      exists d, xs. split_and!; [by left | done | done].
    + intros (d' & xs' & Hd' & Hv' & Hl'). apply Hx.
      exists d', xs'. split_and!; [by right | done | done].
  - intros d' b' xs' [->|Hd']%elem_of_cons Hv' Hl'; [|by eapply Hpost].
    assert (b' = b) as -> by congruence.
    assert (xs' = xs) as -> by congruence.
    exists ys. split_and!; [|done|].
    + rewrite Hframe.
      * apply list_lookup_insert_eq. by eapply lookup_lt_Some.
      * intros (d' & xs' & Hd' & Hv'' & _). by apply (Hfree d').
    + eapply Forall_impl; [exact Hreg1 |].
      intros y. by apply registered_kept.
  - intros k v Hk. by apply Hkept, Hkept1.
Qed.

End ResolveIdentity.

(** X21: [_resolve_identity] expands the strings of the lists held by the
    identity fields in place: the list object stays, each of its strings is
    replaced by its expansion as a scoped identifier, its other elements
    stay, and every string of it is a key of the index afterwards.  An
    entry the index had is never replaced.  The mapping and every object
    that is not such a list are as they were.  (The lists of two identity
    fields are taken to be two objects, and the strings to expand without
    error.) *)
Theorem resolve_identity_lists (loader : Loader) (base_url : string)
    (a : addr) (kvs : list (string * Val)) (st : State) :
  heap st !! a = Some (ODict kvs) ->
  NoDup (identity_links loader) ->
  (forall d v, d ∈ identity_links loader -> dict_get d kvs = Some v ->
               identity_field_ok loader base_url st v) ->
  (forall d1 d2 b xs,
     d1 ∈ identity_links loader -> d2 ∈ identity_links loader ->
     dict_get d1 kvs = Some (VRef b) -> dict_get d2 kvs = Some (VRef b) ->
     heap st !! b = Some (OList xs) -> d1 = d2) ->
  exists hf i',
    _resolve_identity (VRef a) loader base_url st
    = (Ok tt, with_store st hf i')
    /\ length hf = length (heap st)
    /\ (forall x, ~ holds_list kvs st (identity_links loader) x ->
                  hf !! x = heap st !! x)
    /\ (forall d b xs,
          d ∈ identity_links loader -> dict_get d kvs = Some (VRef b) ->
          heap st !! b = Some (OList xs) ->
          exists ys,
            hf !! b = Some (OList ys)
            /\ Forall2 (fun x y => identity_elem loader base_url x = Ok y)
                 xs ys
            /\ Forall (registered i') ys)
    /\ entries_kept (idx st) i'.
Proof.
  intros Ha Hnd Hok Hinj.
  rewrite resolve_identity_loop.
  destruct (identity_fields loader base_url a kvs st
              (identity_links loader) (heap st) (idx st) Hnd eq_refl Ha
              (fun _ _ _ _ => eq_refl) Hok Hinj)
    as (hf & i' & Hrun & Hlen & Hframe & Hpost & Hkept).
  exists hf, i'. split_and!; try done.
  rewrite <- Hrun. by destruct st.
Qed.

(** A context with the identity field [symbols]. *)
Definition loader_symbols : Loader :=
  mkLoader
    [("symbols", NDict [("@type", NStr "@id"); ("identity", NBool true)])]
    ["symbols"] [] [] [] ["symbols"] [] [] [] [] [] [] [].

Lemma loader_symbols_built :
  new_loader
    [("symbols", NDict [("@type", NStr "@id"); ("identity", NBool true)])]
  = Ok loader_symbols.
Proof. reflexivity. Qed.

(** The document [{symbols: [a, 3, b]}] and an index that has an entry for
    the second symbol. *)
Definition state_symbols : State :=
  mkState [OList [VStr "a"; VInt 3; VStr "b"]; ODict [("symbols", VRef 0)]]
    [("file:///d#E/b", VInt 7)] [] [].

Lemma resolve_identity_lists_witness :
  exists hf i',
    _resolve_identity (VRef 1) loader_symbols "file:///d#E" state_symbols
    = (Ok tt, with_store state_symbols hf i')
    /\ hf = [OList [VStr "file:///d#E/a"; VInt 3; VStr "file:///d#E/b"];
             ODict [("symbols", VRef 0)]]
    /\ entries_kept (idx state_symbols) i'.
Proof.
  destruct (resolve_identity_lists loader_symbols "file:///d#E" 1
              [("symbols", VRef 0)] state_symbols)
    as (hf & i' & Hrun & _ & _ & _ & Hkept).
  - reflexivity.
  - by apply (bool_decide_unpack _).
  - intros d v [->|[]%elem_of_nil]%elem_of_cons [= <-]. cbn.
    repeat constructor; by eexists _, _.
  - by intros d1 d2 b xs [->|[]%elem_of_nil]%elem_of_cons
                         [->|[]%elem_of_nil]%elem_of_cons.
  - exists hf, i'. split_and!; [done | | done].
    pose proof Hrun as Hhf. vm_compute in Hhf. by injection Hhf as <- _.
Defined.

Lemma dict_get_app {V} (k : string) (d e : list (string * V)) :
  dict_get k (d ++ e)
  = match dict_get k d with Some v => Some v | None => dict_get k e end.
Proof.
  induction d as [|[k' v'] d IH]; cbn; [done |].
  by destruct (String.eqb k k').
Qed.

Lemma dict_get_filter {V} (p : string -> bool) (k : string)
    (d : list (string * V)) :
  dict_get k (List.filter (fun kv => p (fst kv)) d)
  = if p k then dict_get k d else None.
Proof.
  induction d as [|[k' v'] d IH]; cbn [List.filter dict_get fst].
  - by destruct (p k).
  - destruct (p k') eqn:Hp; cbn [dict_get].
    + destruct (String.eqb_spec k k') as [->|]; [by rewrite Hp | exact IH].
    + rewrite IH. destruct (String.eqb_spec k k') as [->|]; [|done].
      by rewrite Hp.
Qed.

Lemma filter_keys {V} (p : string -> bool) (d : list (string * V)) :
  map fst (List.filter (fun kv => p (fst kv)) d)
  = List.filter p (map fst d).
Proof.
  induction d as [|[k v] d IH]; cbn; [done |].
  destruct (p k); cbn; by rewrite IH.
Qed.

Lemma dict_get_keys_None {V} (k : string) (d : list (string * V)) :
  k ∉ dict_keys d -> dict_get k d = None.
Proof.
  intros H%dict_has_false_keys. unfold dict_has in H.
  by destruct (dict_get k d).
Qed.

(** *** [merge_properties] (lines 49-61) *)

Section MergeProperties.

(** [aslist], of the module [aslist] that the resolver imports. *)
Variable aslist_of : Val -> M (list Val).

Definition merge_properties (a b : Val) : M Val :=
  c <- alloc (ODict []) ;;
  ka <- items a ;;
  for_each (dict_keys ka) (fun i =>
    inb <- contains b i ;;
    if negb inb then v <- getitem a i ;; setitem c i v else ret tt) ;;;
  kb <- items b ;;
  for_each (dict_keys kb) (fun i =>
    ina <- contains a i ;;
    if negb ina then v <- getitem b i ;; setitem c i v else ret tt) ;;;
  ka <- items a ;;
  for_each (dict_keys ka) (fun i =>
    inb <- contains b i ;;
    if (inb : bool) then
      va <- getitem a i ;;
      xa <- aslist_of va ;;
      vb <- getitem b i ;;
      xb <- aslist_of vb ;;
      l <- alloc (OList (xa ++ xb)) ;;
      setitem c i l
    else ret tt) ;;;
  ret c.

(** The loop that copies to [c] the items of [src] whose key is not in
    [other]. *)
Lemma copy_missing (st : State) (src other c : addr)
    (ks ko : list (string * Val)) (suf : list (string * Val)) :
  forall (acc : list (string * Val)) (h : list Obj),
    h !! src = Some (ODict ks) ->
    h !! other = Some (ODict ko) ->
    h !! c = Some (ODict acc) ->
    c <> src -> c <> other ->
    (forall k v, (k, v) ∈ suf -> dict_get k ks = Some v) ->
    NoDup (dict_keys suf) ->
    (forall k, k ∈ dict_keys suf -> dict_has k ko = false ->
               dict_has k acc = false) ->
    for_each (dict_keys suf) (fun i =>
      inb <- contains (VRef other) i ;;
      if negb inb then v <- getitem (VRef src) i ;; setitem (VRef c) i v
      else ret tt) (set_heap h st)
    = (Ok tt,
       set_heap
         (<[c := ODict (acc ++ List.filter
                                 (fun kv => negb (dict_has (fst kv) ko)) suf)]>
            h) st).
Proof.
  induction suf as [|[k v] suf IH];
    intros acc h Hs Ho Hc Hcs Hco Hin Hnd Hfresh.
  { cbn. rewrite app_nil_r, list_insert_id by done. done. }
  apply NoDup_cons in Hnd as [Hk Hnd].
  assert (forall x o, h !! x = Some o -> heap (set_heap h st) !! x = Some o)
    as Hheap by done.
  cbn [dict_keys map for_each fst List.filter].
  rewrite bind_eq.
  rewrite (bind_run _ _ _ _ _ (contains_run _ _ _ _ (Hheap _ _ Ho))).
  destruct (dict_has k ko) eqn:Hko; cbn [negb ret].
  - apply IH; try done.
    + intros k' v' Hin'. apply Hin. by right.
    + intros k' Hk'. apply Hfresh. by right.
  - rewrite (bind_run _ _ _ _ _
               (getitem_run _ _ _ _ _ (Hheap _ _ Hs)
                  (Hin k v (list_elem_of_here _ _)))).
    rewrite (setitem_run _ _ _ _ _ (Hheap _ _ Hc)).
    cbn [heap set_heap]. rewrite set_heap_set_heap.
    rewrite dict_set_fresh by (apply Hfresh; [by left | done]).
    rewrite (IH (acc ++ [(k, v)]));
      [ | by rewrite list_lookup_insert_ne
        | by rewrite list_lookup_insert_ne
        | apply list_lookup_insert_eq; by eapply lookup_lt_Some
        | done | done
        | intros k' v' Hin'; apply Hin; by right
        | done | ].
    + rewrite list_insert_insert_eq. by rewrite <- app_assoc.
    + intros k' Hk' Hko'.
      rewrite dict_has_app, Hfresh; [|by right | done].
      unfold dict_has. cbn.
      destruct (String.eqb_spec k' k) as [->|]; done.
Qed.

Variable elems : Val -> list Val.

(** The entry of [c] for an item of [a] whose key is in [b] as well. *)
Definition merged (kb : list (string * Val)) (hf : list Obj)
    (kv kv' : string * Val) : Prop :=
  fst kv' = fst kv
  /\ exists l vb,
       snd kv' = VRef l /\ dict_get (fst kv) kb = Some vb
       /\ hf !! l = Some (OList (elems (snd kv) ++ elems vb)).

Lemma merge_common (st : State) (a b c : addr)
    (ka kb : list (string * Val)) (suf : list (string * Val)) :
  (forall k va vb s,
     (forall x o, heap st !! x = Some o -> heap s !! x = Some o) ->
     dict_get k ka = Some va -> dict_get k kb = Some vb ->
     aslist_of va s = (Ok (elems va), s)
     /\ aslist_of vb s = (Ok (elems vb), s)) ->
  length (heap st) <= c ->
  forall (acc : list (string * Val)) (h : list Obj),
    (forall x o, heap st !! x = Some o -> h !! x = Some o) ->
    h !! a = Some (ODict ka) ->
    h !! b = Some (ODict kb) ->
    h !! c = Some (ODict acc) ->
    c <> a -> c <> b ->
    (forall k v, (k, v) ∈ suf -> dict_get k ka = Some v) ->
    NoDup (dict_keys suf) ->
    (forall k, k ∈ dict_keys suf -> dict_has k kb = true ->
               dict_has k acc = false) ->
    exists hf entries,
      for_each (dict_keys suf) (fun i =>
        inb <- contains (VRef b) i ;;
        if (inb : bool) then
          va <- getitem (VRef a) i ;;
          xa <- aslist_of va ;;
          vb <- getitem (VRef b) i ;;
          xb <- aslist_of vb ;;
          l <- alloc (OList (xa ++ xb)) ;;
          setitem (VRef c) i l
        else ret tt) (set_heap h st)
      = (Ok tt, set_heap hf st)
      /\ hf !! c = Some (ODict (acc ++ entries))
      /\ (forall x o, h !! x = Some o -> x <> c -> hf !! x = Some o)
      /\ Forall2 (merged kb hf)
           (List.filter (fun kv => dict_has (fst kv) kb) suf) entries.
Proof.
  intros Haslist Hcst.
  induction suf as [|[k v] suf IH];
    intros acc h Hst Ha Hb Hc Hca Hcb Hin Hnd Hfresh.
  { exists h, []. cbn. rewrite app_nil_r. by split_and!. }
  apply NoDup_cons in Hnd as [Hk Hnd].
  assert (forall x o, h !! x = Some o -> heap (set_heap h st) !! x = Some o)
    as Hheap by done.
  assert (c < length h) as Hclt by (by eapply lookup_lt_Some).
  cbn [dict_keys map for_each fst List.filter].
  rewrite bind_eq.
  rewrite (bind_run _ _ _ _ _ (contains_run _ _ _ _ (Hheap _ _ Hb))).
  unfold dict_has at 1 2.
  destruct (dict_get k kb) as [vb|] eqn:Hkb; cbn [ret].
  - pose proof (Hin k v (list_elem_of_here _ _)) as Hka.
    rewrite (bind_run _ _ _ _ _ (getitem_run _ _ _ _ _ (Hheap _ _ Ha) Hka)).
    destruct (Haslist k v vb (set_heap h st) Hst Hka Hkb) as [Hva Hvb].
    rewrite (bind_run _ _ _ _ _ Hva).
    rewrite (bind_run _ _ _ _ _ (getitem_run _ _ _ _ _ (Hheap _ _ Hb) Hkb)).
    rewrite (bind_run _ _ _ _ _ Hvb).
    rewrite (bind_run _ _ _ _ _ (alloc_run _ _)).
    cbn [heap set_heap]. rewrite set_heap_set_heap.
    erewrite setitem_run; cycle 1.
    { cbn. by rewrite lookup_app_l. }
    cbn [heap set_heap]. rewrite set_heap_set_heap.
    rewrite dict_set_fresh
      by (apply Hfresh; [by left | unfold dict_has; by rewrite Hkb]).
    set (l := length h).
    set (h1 := <[c := ODict (acc ++ [(k, VRef l)])]>
                 (h ++ [OList (elems v ++ elems vb)])).
    assert (forall x o, h !! x = Some o -> x <> c -> h1 !! x = Some o) as H1.
    { intros x o Hx Hxc. unfold h1. rewrite list_lookup_insert_ne by done.
      rewrite lookup_app_l; [done | by eapply lookup_lt_Some]. }
    assert (h1 !! l = Some (OList (elems v ++ elems vb))) as Hl.
    { unfold h1, l. rewrite list_lookup_insert_ne by lia.
      rewrite lookup_app_r by lia. by rewrite Nat.sub_diag. }
    destruct (IH (acc ++ [(k, VRef l)]) h1)
      as (hf & entries & Hrun & Hcf & Hframe & Hent).
    + intros x o Hx. apply H1; [by apply Hst |].
      apply lookup_lt_Some in Hx. lia.
    + by apply H1.
    + by apply H1.
    + unfold h1. apply list_lookup_insert_eq. rewrite length_app. lia.
    + done.
    + done.
    + intros k' v' Hin'. apply Hin. by right.
    + done.
    + intros k' Hk' Hkb'.
      rewrite dict_has_app, Hfresh; [|by right | done].
      unfold dict_has. cbn.
      destruct (String.eqb_spec k' k) as [->|]; done.
    + exists hf, ((k, VRef l) :: entries).
      change (map fst suf) with (dict_keys suf). rewrite Hrun.
      split_and!; [done | by rewrite <- app_assoc in Hcf | |].
      * intros x o Hx Hxc. apply Hframe; [by apply H1 | done].
      * constructor; [|done]. split; [done |].
        exists l, vb. split_and!; [done | done |].
        apply Hframe; [done | unfold l; lia].
  - apply IH; try done.
    + intros k' v' Hin'. apply Hin. by right.
    + intros k' Hk'. apply Hfresh. by right.
Qed.


Lemma merged_lookup (kb : list (string * Val)) (hf : list Obj)
    (src entries : list (string * Val)) :
  Forall2 (merged kb hf) src entries ->
  dict_keys entries = dict_keys src
  /\ forall i va,
       dict_get i src = Some va ->
       exists l vb,
         dict_get i entries = Some (VRef l) /\ dict_get i kb = Some vb
         /\ hf !! l = Some (OList (elems va ++ elems vb)).
Proof.
  induction 1 as [|[k v] [k' v'] src entries [Hk (l & vb & Hv & Hb & Hl)] _
                   [IHk IHg]]; [done |].
  cbn in Hk, Hv, Hb, Hl. subst k' v'.
  split; [unfold dict_keys in *; cbn; by rewrite IHk |].
  intros i va. cbn. destruct (String.eqb_spec i k) as [->|Hne].
  - intros [= <-]. by exists l, vb.
  - apply IHg.
Qed.

(** X22: [merge_properties] returns a new mapping and leaves its arguments
    as they are.  The new mapping has the items of [a] whose key is not in
    [b], then the items of [b] whose key is not in [a], then, for every key
    of [a] that is in [b] as well, a new list: [aslist] of the value in
    [a] followed by [aslist] of the value in [b]. *)
Theorem merge_properties_spec (a b : addr) (ka kb : list (string * Val))
    (st : State) :
  heap st !! a = Some (ODict ka) ->
  heap st !! b = Some (ODict kb) ->
  NoDup (dict_keys ka) ->
  NoDup (dict_keys kb) ->
  (forall k va vb s,
     (forall x o, heap st !! x = Some o -> heap s !! x = Some o) ->
     dict_get k ka = Some va -> dict_get k kb = Some vb ->
     aslist_of va s = (Ok (elems va), s)
     /\ aslist_of vb s = (Ok (elems vb), s)) ->
  exists hf kc,
    merge_properties (VRef a) (VRef b) st
    = (Ok (VRef (length (heap st))), set_heap hf st)
    /\ hf !! length (heap st) = Some (ODict kc)
    /\ (forall x o, heap st !! x = Some o -> hf !! x = Some o)
    /\ dict_keys kc
       = List.filter (fun k => negb (dict_has k kb)) (dict_keys ka)
         ++ List.filter (fun k => negb (dict_has k ka)) (dict_keys kb)
         ++ List.filter (fun k => dict_has k kb) (dict_keys ka)
    /\ (forall i v, dict_get i ka = Some v -> dict_get i kb = None ->
                    dict_get i kc = Some v)
    /\ (forall i v, dict_get i ka = None -> dict_get i kb = Some v ->
                    dict_get i kc = Some v)
    /\ (forall i va vb,
          dict_get i ka = Some va -> dict_get i kb = Some vb ->
          exists l, dict_get i kc = Some (VRef l)
                    /\ hf !! l = Some (OList (elems va ++ elems vb))).
Proof.
  intros Ha Hb Hnda Hndb Haslist.
  set (c := length (heap st)).
  set (only_a := List.filter (fun kv : string * Val =>
                                negb (dict_has (fst kv) kb)) ka).
  set (only_b := List.filter (fun kv : string * Val =>
                                negb (dict_has (fst kv) ka)) kb).
  set (h0 := heap st ++ [ODict []]).
  assert (a < c) as Hac by (by eapply lookup_lt_Some).
  assert (b < c) as Hbc by (by eapply lookup_lt_Some).
  assert (forall x o, heap st !! x = Some o -> h0 !! x = Some o) as H0.
  { intros x o Hx. unfold h0. rewrite lookup_app_l; [done |].
    by eapply lookup_lt_Some. }
  assert (h0 !! c = Some (ODict [])) as Hc0.
  { unfold h0, c. rewrite lookup_app_r by done. by rewrite Nat.sub_diag. }
  assert (c < length h0) as Hclt by (by eapply lookup_lt_Some).
  (* the first loop *)
  pose proof (copy_missing st a b c ka kb ka [] h0 (H0 _ _ Ha) (H0 _ _ Hb)
                Hc0 ltac:(lia) ltac:(lia)
                (fun k v Hin => dict_get_item k v ka Hnda Hin) Hnda
                (fun _ _ _ => eq_refl)) as Hloop1.
  cbn [app] in Hloop1. fold only_a in Hloop1.
  set (h1 := <[c := ODict only_a]> h0) in Hloop1.
  assert (forall x o, h0 !! x = Some o -> x <> c -> h1 !! x = Some o) as H1.
  { intros x o Hx Hxc. unfold h1. by rewrite list_lookup_insert_ne. }
  assert (h1 !! c = Some (ODict only_a)) as Hc1.
  { unfold h1. by apply list_lookup_insert_eq. }
  (* the second loop *)
  assert (h1 !! a = Some (ODict ka)) as Ha1 by (apply H1; [by apply H0 | lia]).
  assert (h1 !! b = Some (ODict kb)) as Hb1 by (apply H1; [by apply H0 | lia]).
  assert (forall k, dict_get k only_a
                    = if negb (dict_has k kb) then dict_get k ka else None)
    as Hget_a.
  { intros k. unfold only_a.
    apply (dict_get_filter (fun k => negb (dict_has k kb))). }
  assert (forall k, dict_get k only_b
                    = if negb (dict_has k ka) then dict_get k kb else None)
    as Hget_b.
  { intros k. unfold only_b.
    apply (dict_get_filter (fun k => negb (dict_has k ka))). }
  assert (forall k, k ∈ dict_keys kb -> dict_has k ka = false ->
                    dict_has k only_a = false) as Hfresh2.
  { intros k Hk%dict_has_keys _. unfold dict_has.
    by rewrite Hget_a, Hk. }
  pose proof (copy_missing st b a c kb ka kb only_a h1 Hb1 Ha1 Hc1
                ltac:(lia) ltac:(lia)
                (fun k v Hin => dict_get_item k v kb Hndb Hin) Hndb Hfresh2)
    as Hloop2.
  fold only_b in Hloop2.
  set (h2 := <[c := ODict (only_a ++ only_b)]> h1) in Hloop2.
  assert (forall x o, h1 !! x = Some o -> x <> c -> h2 !! x = Some o) as H2.
  { intros x o Hx Hxc. unfold h2. by rewrite list_lookup_insert_ne. }
  assert (h2 !! c = Some (ODict (only_a ++ only_b))) as Hc2.
  { unfold h2. apply list_lookup_insert_eq. unfold h1.
    by rewrite length_insert. }
  (* the third loop *)
  destruct (merge_common st a b c ka kb ka Haslist (le_n _)
              (only_a ++ only_b) h2) as (hf & entries & Hloop3 & Hcf & Hf
                                        & Hent).
  { intros x o Hx. apply lookup_lt_Some in Hx as Hlt.
    apply H2; [apply H1; [by apply H0 | unfold c; lia] | unfold c; lia]. }
  { apply H2; [done | lia]. }
  { apply H2; [done | lia]. }
  { done. }
  { lia. }
  { lia. }
  { intros k v Hin. by apply dict_get_item. }
  { done. }
  { intros k Hk Hkb. unfold dict_has.
    rewrite dict_get_app, Hget_a, Hget_b, Hkb. cbn.
    apply dict_has_keys in Hk. rewrite Hk. done. }
  destruct (merged_lookup kb hf _ _ Hent) as [Hkeys Hcommon].
  exists hf, ((only_a ++ only_b) ++ entries).
  split_and!.
  - unfold merge_properties.
    rewrite (bind_run _ _ _ _ _ (alloc_run _ _)). fold h0 c.
    erewrite bind_run; [|by eapply items_run, (H0 _ _ Ha)].
    rewrite (bind_run _ _ _ _ _ Hloop1).
    erewrite bind_run; [|by eapply items_run, Hb1].
    rewrite (bind_run _ _ _ _ _ Hloop2).
    erewrite bind_run; [|eapply items_run, H2; [exact Ha1 | lia]].
    by rewrite (bind_run _ _ _ _ _ Hloop3).
  - done.
  - intros x o Hx. apply lookup_lt_Some in Hx as Hlt.
    apply Hf; [|unfold c; lia].
    apply H2; [apply H1; [by apply H0 | unfold c; lia] | unfold c; lia].
  - unfold dict_keys in *. rewrite !map_app, Hkeys.
    unfold only_a, only_b. rewrite <- app_assoc.
    rewrite (filter_keys (fun k => negb (dict_has k kb)) ka).
    rewrite (filter_keys (fun k => negb (dict_has k ka)) kb).
    by rewrite (filter_keys (fun k => dict_has k kb) ka).
  - intros i v Hia Hib. rewrite !dict_get_app, Hget_a.
    unfold dict_has. by rewrite Hib, Hia.
  - intros i v Hia Hib. rewrite !dict_get_app, Hget_a, Hget_b.
    unfold dict_has. by rewrite Hib, Hia.
  - intros i va vb Hia Hib. rewrite !dict_get_app, Hget_a, Hget_b.
    unfold dict_has. rewrite Hib, Hia. cbn.
    destruct (Hcommon i va) as (l & vb' & Hl & Hb' & Hhf).
    { rewrite (dict_get_filter (fun k => dict_has k kb)).
      unfold dict_has. by rewrite Hib. }
    exists l. split; [done |]. congruence.
Qed.

End MergeProperties.

Lemma merge_properties_spec_witness :
  exists hf kc,
    merge_properties aslist (VRef 2) (VRef 3)
      (mkState [OList [VInt 1]; OList [VInt 3];
                ODict [("x", VRef 0); ("y", VInt 2)];
                ODict [("x", VRef 1); ("z", VInt 4)]] [] [] [])
    = (Ok (VRef 4),
       set_heap hf
         (mkState [OList [VInt 1]; OList [VInt 3];
                   ODict [("x", VRef 0); ("y", VInt 2)];
                   ODict [("x", VRef 1); ("z", VInt 4)]] [] [] []))
    /\ hf !! 4 = Some (ODict kc)
    /\ dict_keys kc = ["y"; "z"; "x"]
    /\ dict_get "y" kc = Some (VInt 2)
    /\ dict_get "z" kc = Some (VInt 4)
    /\ exists l, dict_get "x" kc = Some (VRef l)
                 /\ hf !! l = Some (OList [VInt 1; VInt 3]).
Proof.
  destruct (merge_properties_spec aslist
              (fun v => match v with
                        | VRef 0 => [VInt 1]
                        | VRef 1 => [VInt 3]
                        | _ => []
                        end)
              2 3 [("x", VRef 0); ("y", VInt 2)]
              [("x", VRef 1); ("z", VInt 4)]
              (mkState [OList [VInt 1]; OList [VInt 3];
                        ODict [("x", VRef 0); ("y", VInt 2)];
                        ODict [("x", VRef 1); ("z", VInt 4)]] [] [] []))
    as (hf & kc & Hrun & Hc & _ & Hkeys & Ha & Hb & Hab).
  - reflexivity.
  - reflexivity.
  - by apply (bool_decide_unpack _).
  - by apply (bool_decide_unpack _).
  - intros k va vb s Hs. cbn.
    destruct (String.eqb_spec k "x") as [->|];
      [|by destruct (String.eqb_spec k "y") as [->|]].
    intros [= <-] [= <-].
    split; unfold aslist; eapply elements_run; by apply Hs.
  - exists hf, kc. split_and!; [done | done | done | | |].
    + by apply Ha.
    + by apply Hb.
    + by apply (Hab "x" (VRef 0) (VRef 1)).
Defined.

Lemma fetch_registers_witness :
  match fetch world_tool loader_id "file:///dir/tool.yaml" false empty_state
  with
  | (Ok v, st') =>
      dict_get "file:///dir/tool.yaml" (idx st') = Some v
      /\ forall inject_ids',
           fetch world_tool loader_id "file:///dir/tool.yaml" inject_ids' st'
           = (Ok v, st')
  | (Raise _, st') => idx st' = idx empty_state
  end.
Proof.
  apply (fetch_registers world_tool loader_id "file:///dir/tool.yaml"
           "file:///dir/tool.yaml" false empty_state);
    [reflexivity | reflexivity | by left].
Defined.

(** An index with an entry for [http://x/a]. *)
Definition state_links : State :=
  mkState [OList [VStr "http://x/a"; VStr "http://x/b"; VStr "http://x/c"]]
    [("http://x/a", VInt 0)] [] [].

Lemma validate_link_string_witness :
  validate_link world_notes 1 loader_cwl "run" (VStr "http://x/a") ""
    state_links
  = (Ok (VStr "http://x/a"), state_links)
  /\ validate_link world_notes 1 loader_cwl "run" (VStr "http://x/b") ""
       state_links
     = (Raise (ValidationException (MUndefinedRef "run" "http://x/b")),
        state_links).
Proof.
  split.
  - apply (validate_link_string world_notes 0 loader_cwl "run" "http://x/a" ""
             "http://x/a" state_links); reflexivity.
  - apply (validate_link_string world_notes 0 loader_cwl "run" "http://x/b" ""
             "http://x/b" state_links); reflexivity.
Defined.

Lemma validate_link_list_witness :
  validate_link world_notes 2 loader_cwl "run" (VRef 0) "" state_links
  = (Raise (ValidationException
              (MJoin [MUndefinedRef "run" "http://x/b";
                      MUndefinedRef "run" "http://x/c"])),
     state_links).
Proof.
  apply (validate_link_list world_notes 0 loader_cwl "run" "" 0
           ["http://x/a"; "http://x/b"; "http://x/c"] state_links).
  - reflexivity.
  - reflexivity.
  - by repeat constructor.
Defined.

(** The store holds [{$include: notes.txt}]. *)
Definition state_include : State :=
  mkState [ODict [("$include", VStr "notes.txt")]] [] [] [].

Lemma include_returns_text_witness :
  resolve_ref world_notes 1 loader_cwl (VRef 0) "file:///wf.yaml" true
    state_include
  = (Ok (VStr "hello", VRef 1),
     set_heap (heap state_include ++ [ODict []])
       (logged state_include [FileOpen "/notes.txt"]))
  /\ idx (logged state_include [FileOpen "/notes.txt"]) = idx state_include.
Proof.
  apply (include_returns_text world_notes 0 loader_cwl 0 "notes.txt"
           "file:///notes.txt" "file:///notes.txt" "file:///wf.yaml" true
           state_include); reflexivity.
Defined.

(** An index that has the file [tool.yaml] and no entry for its fragment
    [frag]. *)
Definition state_loaded : State :=
  mkState [ODict []] [("file:///dir/tool.yaml", VRef 0)] [] [].

Lemma reference_not_found_witness :
  resolve_ref world_tool 1 loader_cwl (VStr "tool.yaml#frag")
    "file:///dir/wf.yaml" true state_loaded
  = (Raise (ValidationException
              (MReferenceNotFound "frag" "file:///dir/tool.yaml")),
     state_loaded).
Proof.
  apply (reference_not_found world_tool 0 loader_cwl "tool.yaml#frag"
           "file:///dir/tool.yaml#frag" "file:///dir/tool.yaml#frag"
           "file:///dir/tool.yaml" "frag" "file:///dir/tool.yaml");
    reflexivity.
Defined.

(** The document [{inputs: []}]. *)
Definition state_inputs_list : State :=
  mkState [OList []; ODict [("inputs", VRef 0)]] [] [] [].

Lemma resolve_idmap_skips_witness :
  _resolve_idmap (VRef 1) loader_inputs state_inputs_list
  = (Ok tt, state_inputs_list).
Proof.
  apply (resolve_idmap_skips loader_inputs 1 [("inputs", VRef 0)]
           state_inputs_list); [reflexivity |].
  intros f v _. cbn. by destruct (String.eqb f "inputs"); intros [= <-].
Defined.

(** The store holds the namespaces [{ex: http://ex/}]. *)
Definition state_namespaces : State :=
  mkState [ODict [("ex", VStr "http://ex/")]] [] [] [].

Lemma add_namespaces_vocab_witness :
  exists l,
    add_namespaces loader_cwl (VRef 0) state_namespaces
    = (Ok l, state_namespaces)
    /\ vocab l = [("cwl", "https://w3id.org/cwl/cwl#"); ("ex", "http://ex/")]
    /\ rvocab l = rvocab loader_cwl
    /\ expand_url l ("ex" +:+ ":" +:+ "thing") "file:///d" false false None
       = Ok ("http://ex/" +:+ "thing").
Proof.
  destruct (add_namespaces_vocab loader_cwl 0 [("ex", VStr "http://ex/")]
              [("ex", "http://ex/")] state_namespaces)
    as (l & Hrun & -> & _ & Hexp).
  - reflexivity.
  - by apply (bool_decide_unpack _).
  - reflexivity.
  - eexists. split; [exact Hrun |]. split; [reflexivity |].
    split; [reflexivity |].
    eapply (Hexp "ex" "http://ex/" "thing"); reflexivity.
Defined.

(** *** The type DSL, applied again *)

Lemma span_name_whole (s first : string) :
  span_name s = (first, EmptyString) -> s = first.
Proof.
  revert first. induction s as [|c s IH]; intros first; cbn [span_name].
  - by intros [= <-].
  - destruct (Ascii.eqb c "[" || Ascii.eqb c "?"); [done |].
    destruct (span_name s) as [x y]. intros [= <- ->]. by rewrite (IH x).
Qed.

Lemma typeDSLregex_match_plain (s first : string) :
  typeDSLregex_match s = Some (first, false, false) -> first = s.
Proof.
  unfold typeDSLregex_match.
  destruct (span_name s) as [x rest] eqn:Hspan.
  destruct (negb (PyStr.nonempty x)); [done |].
  destruct (String.eqb_spec rest "") as [->|]; cycle 1.
  { repeat (destruct (_ || _); [done |]). done. }
  intros [= <-]. symmetry. by apply span_name_whole.
Qed.

(** X23: [_type_dsl] applied to its own result returns it as it is and
    allocates nothing: the structures it builds are not strings, and the
    base name it returns for a plain string is that string. *)
Theorem type_dsl_idempotent (t : Val) (st : State) :
  exists t' st',
    _type_dsl t st = (Ok t', st') /\ _type_dsl t' st' = (Ok t', st').
Proof.
  destruct t as [| | |s|a]; try (by eexists _, _).
  unfold _type_dsl at 1.
  destruct (typeDSLregex_match s) as [[[first g2] g3]|] eqn:Hm; cycle 1.
  { exists (VStr s), st. split; [done |]. unfold _type_dsl. by rewrite Hm. }
  destruct g2, g3; rewrite ?bind_eq, ?alloc_run; cbn [ret];
    try (by eexists _, _).
  apply typeDSLregex_match_plain in Hm as Hs. subst first.
  exists (VStr s), st. split; [done |]. unfold _type_dsl. by rewrite Hm.
Qed.

(** *** What the tables of a compiled context say *)

(** The entry of the context makes its key a URL field, a vocabulary
    field, a vocabulary term. *)
Definition is_url_field (value : Node) : bool :=
  node_is_dict value
  && (node_is (node_get "@type" value) "@id"
      || node_is (node_get "@type" value) "@vocab").

Definition is_vocab_field (value : Node) : bool :=
  node_is_dict value && node_is (node_get "@type" value) "@vocab".

Definition vocab_entry (value : Node) : option string :=
  match value with
  | NDict d =>
      match dict_get "@id" d with
      | Some (NStr s) => Some s
      | _ => None
      end
  | NStr s => Some s
  | _ => None
  end.

(** A table is as it was. *)
Definition same {A} (proj : Loader -> A) (l l' : Loader) : Prop :=
  proj l' = proj l.

Lemma same_refl {A} (proj : Loader -> A) l : same proj l l.
Proof. done. Qed.

Lemma same_trans {A} (proj : Loader -> A) l1 l2 l3 :
  same proj l1 l2 -> same proj l2 l3 -> same proj l1 l3.
Proof. unfold same. congruence. Qed.

Ltac same_step :=
  lazymatch goal with
  | |- keeps _ (bind _ _) => apply keeps_bind; [apply same_trans | | intros ?]
  | |- keeps _ (ret _) => apply keeps_ret; apply same_refl
  | |- keeps _ (raise _) => apply keeps_raise; apply same_refl
  | |- keeps _ (modify _) => apply keeps_modify; by intros ?
  | |- keeps _ (if ?b then _ else _) => destruct b
  | |- keeps _ (match ?x with _ => _ end) => destruct x
  end.

(** The first part of the loop body (lines 218-233), by the kind of the
    entry. *)
Lemma set_tables_item (key : string) (value : Node) (l : Loader) :
  let l' := snd (add_context_item (key, value) l) in
  identifiers l'
  = (if node_is (Some value) "@id" then set_add key (identifiers l)
     else identifiers l)
  /\ url_fields l'
     = (if is_url_field value then set_add key (url_fields l)
        else url_fields l)
  /\ vocab_fields l'
     = (if is_vocab_field value then set_add key (vocab_fields l)
        else vocab_fields l).
Proof.
  intros l'. subst l'. unfold add_context_item, is_url_field, is_vocab_field.
  rewrite bind_eq.
  match goal with
  | |- context [let (r, st') := ?p l in _] =>
      assert (let l1 := snd (p l) in
              identifiers l1
              = (if node_is (Some value) "@id" then set_add key (identifiers l)
                 else identifiers l)
              /\ url_fields l1
                 = (if is_url_field value then set_add key (url_fields l)
                    else url_fields l)
              /\ vocab_fields l1
                 = (if is_vocab_field value then set_add key (vocab_fields l)
                    else vocab_fields l)) as H1;
      [|destruct (p l) as [[[]|e] l1]; [|exact H1]]
  end.
  { unfold is_url_field, is_vocab_field, note_refScope.
    destruct value as [| | |s|xs|d]; try done.
    - cbn [node_is node_is_dict andb orb].
      by destruct (String.eqb s "@id").
    - cbn [node_is node_is_dict andb orb].
      destruct (node_is (node_get "@type" (NDict d)) "@id") eqn:Hid.
      + assert (node_is (node_get "@type" (NDict d)) "@vocab" = false) as ->.
        { unfold node_is in *. destruct (node_get _ _) as [[| | |t| |]|];
            try done.
          apply String.eqb_eq in Hid as ->. done. }
        unfold bind, modify, ret, raise. cbn.
        destruct (dict_get "refScope" d) as [[]|];
          by destruct (node_get_truthy "identity" (NDict d)).
      + destruct (node_is (node_get "@type" (NDict d)) "@vocab"); [|done].
        unfold bind, modify, ret, raise. cbn.
        destruct (dict_get "refScope" d) as [[]|];
          by destruct (node_get_truthy "typeDSL" (NDict d)). }
  cbn [snd] in H1. destruct H1 as (Hi & Hu & Hv).
  match goal with
  | |- context [snd (?rest l1)] =>
      assert (keeps (same (fun l => (identifiers l, url_fields l,
                                     vocab_fields l))) rest) as Hrest
  end.
  { repeat same_step. }
  specialize (Hrest l1). unfold same in Hrest. cbn beta in Hrest.
  injection Hrest as -> -> ->. done.
Qed.

Lemma bind_keeps_ok {A} (proj : Loader -> A) (p : SR Loader unit)
    (k : unit -> SR Loader unit) (l l' : Loader) :
  keeps (same proj) p ->
  bind p k l = (Ok tt, l') ->
  exists l1, proj l1 = proj l /\ k tt l1 = (Ok tt, l').
Proof.
  intros Hp. rewrite bind_eq. specialize (Hp l).
  destruct (p l) as [[[]|e] l1]; [|done]. by exists l1.
Qed.

(** The last part of the loop body (lines 243-246). *)
Lemma vocab_item (key : string) (value : Node) (l l' : Loader) :
  add_context_item (key, value) l = (Ok tt, l') ->
  vocab l'
  = match vocab_entry value with
    | Some s => dict_set key s (vocab l)
    | None => vocab l
    end.
Proof.
  unfold add_context_item.
  intros (l1 & H1 & Hrun)%(bind_keeps_ok vocab);
    [|unfold note_refScope; repeat same_step].
  apply (bind_keeps_ok vocab) in Hrun as (l2 & H2 & Hrun);
    [|repeat same_step].
  apply (bind_keeps_ok vocab) in Hrun as (l3 & H3 & Hrun);
    [|repeat same_step].
  apply (bind_keeps_ok vocab) in Hrun as (l4 & H4 & Hrun);
    [|repeat same_step].
  rewrite <- H1, <- H2, <- H3, <- H4. unfold vocab_entry.
  destruct value as [| | |s|xs|d]; try (by injection Hrun as <-).
  destruct (dict_get "@id" d) as [[| | |s| |]|];
    try done; by injection Hrun as <-.
Qed.

Lemma first_loop_sets (items : list (string * Node)) :
  forall l l',
    for_each items add_context_item l = (Ok tt, l') ->
    (forall k, k ∈ identifiers l' <->
       k ∈ identifiers l
       \/ exists value, (k, value) ∈ items
                        /\ node_is (Some value) "@id" = true)
    /\ (forall k, k ∈ url_fields l' <->
          k ∈ url_fields l
          \/ exists value, (k, value) ∈ items /\ is_url_field value = true)
    /\ (forall k, k ∈ vocab_fields l' <->
          k ∈ vocab_fields l
          \/ exists value, (k, value) ∈ items /\ is_vocab_field value = true).
Proof.
  induction items as [|[key value] items IH]; intros l l'; cbn [for_each].
  { intros [= <-].
    split_and!; intros k; (split; [by left |]);
      by intros [|(? & ?%elem_of_nil & _)]. }
  rewrite bind_eq.
  destruct (set_tables_item key value l) as (Hi & Hu & Hv).
  destruct (add_context_item (key, value) l) as [[[]|e] l1]; [|done].
  cbn [snd] in Hi, Hu, Hv. intros Hrun.
  destruct (IH _ _ Hrun) as (IHi & IHu & IHv).
  assert (forall (P : Node -> bool) (s s1 : list string),
            s1 = (if P value then set_add key s else s) ->
            forall k,
              (k ∈ s1 \/ exists v, (k, v) ∈ items /\ P v = true) <->
              (k ∈ s \/ exists v, (k, v) ∈ (key, value) :: items
                                   /\ P v = true)) as Hstep.
  { intros P s s1 -> k. split.
    - intros [Hk|(v & Hin & Hp)].
      + destruct (P value) eqn:Hp; [|by left].
        apply elem_of_set_add in Hk as [->|Hk]; [|by left].
        right. exists value. split; [by left | done].
      + right. exists v. split; [by right | done].
    - intros [Hk|(v & [[= -> ->]|Hin]%elem_of_cons & Hp)].
      + left. destruct (P value); [|done].
        apply elem_of_set_add. by right.
      + left. rewrite Hp. apply elem_of_set_add. by left.
      + right. by exists v. }
  split_and!; intros k.
  - rewrite IHi. by apply (Hstep (fun v => node_is (Some v) "@id")).
  - rewrite IHu. by apply (Hstep is_url_field).
  - rewrite IHv. by apply (Hstep is_vocab_field).
Qed.

Lemma first_loop_vocab (items : list (string * Node)) :
  forall l l',
    NoDup (dict_keys items) ->
    for_each items add_context_item l = (Ok tt, l') ->
    forall k,
      dict_get k (vocab l')
      = match dict_get k items with
        | Some value =>
            match vocab_entry value with
            | Some s => Some s
            | None => dict_get k (vocab l)
            end
        | None => dict_get k (vocab l)
        end.
Proof.
  induction items as [|[key value] items IH]; intros l l' Hnd;
    cbn [for_each].
  { by intros [= <-]. }
  apply NoDup_cons in Hnd as [Hkey Hnd].
  rewrite bind_eq.
  destruct (add_context_item (key, value) l) as [[[]|e] l1] eqn:Hitem;
    [|done].
  apply vocab_item in Hitem. intros Hrun k.
  rewrite (IH _ _ Hnd Hrun), Hitem. cbn [dict_get].
  destruct (String.eqb_spec k key) as [->|Hne].
  - rewrite (dict_get_keys_None key items Hkey).
    destruct (vocab_entry value); [apply dict_get_set_eq | done].
  - destruct (vocab_entry value) as [s|]; [|done].
    by rewrite dict_get_set_ne.
Qed.

(** X24: the tables of a compiled loader say what the context says: the
    identifiers are the keys whose entry is ["@id"]; the URL fields are the
    keys whose entry is a mapping with [@type] [@id] or [@vocab], and the
    vocabulary fields those with [@vocab]; the vocabulary maps a key to its
    entry when that is a string, and to the [@id] of its entry when that
    is a mapping with a string [@id], and has no other key. *)
Theorem compiled_tables_meaning (c : list (string * Node)) (l : Loader) :
  new_loader c = Ok l ->
  (forall k, k ∈ identifiers l <->
     dict_get k (ctx l) = Some (NStr "@id"))
  /\ (forall k, k ∈ url_fields l <->
        exists value, dict_get k (ctx l) = Some value
                      /\ is_url_field value = true)
  /\ (forall k, k ∈ vocab_fields l <->
        exists value, dict_get k (ctx l) = Some value
                      /\ is_vocab_field value = true)
  /\ (forall k s, dict_get k (vocab l) = Some s <->
        exists value, dict_get k (ctx l) = Some value
                      /\ vocab_entry value = Some s).
Proof.
  intros (l1 & H1 & H2)%new_loader_loops.
  assert (ctx l1 = ctx (start c)) as Hc1.
  { eapply (first_loop_keeps (fun l => ctx l = ctx (start c)));
      [apply add_context_item_ctx | | exact H1]. done. }
  pose proof (second_loop_keeps (vocab l1) l1) as Hsame.
  rewrite H2 in Hsame. cbn in Hsame.
  assert (NoDup (dict_keys (ctx (start c)))) as Hnd.
  { apply dict_update_NoDup. constructor. }
  assert (forall k value,
            (k, value) ∈ ctx (start c) <->
            dict_get k (ctx (start c)) = Some value) as Hitem.
  { intros k value. split; [by apply dict_get_item | apply dict_get_elem]. }
  destruct (first_loop_sets _ _ _ H1) as (Hi & Hu & Hv).
  pose proof (first_loop_vocab _ _ _ Hnd H1) as Hvoc.
  rewrite Hsame. cbn [identifiers url_fields vocab_fields vocab ctx set_rvocab].
  rewrite Hc1.
  split_and!.
  - intros k. rewrite Hi. cbn [identifiers start].
    setoid_rewrite Hitem. split.
    + intros [?%elem_of_nil|(value & Hk & Hp)]; [done |].
      destruct value as [| | |s| |]; try done.
      cbn in Hp. by apply String.eqb_eq in Hp as ->.
    + intros Hk. right. by exists (NStr "@id").
  - intros k. rewrite Hu. cbn [url_fields start].
    setoid_rewrite Hitem. split; [|by right].
    by intros [?%elem_of_nil|?].
  - intros k. rewrite Hv. cbn [vocab_fields start].
    setoid_rewrite Hitem. split; [|by right].
    by intros [?%elem_of_nil|?].
  - intros k s. rewrite Hvoc. cbn [vocab start dict_get].
    destruct (dict_get k (ctx (start c))) as [value|]; cycle 1.
    { split; [done | by intros (? & ? & _)]. }
    split.
    + intros Hs. exists value. split; [done |].
      by destruct (vocab_entry value).
    + intros (value' & [= <-] & Hs). by rewrite Hs.
Qed.

Lemma compiled_tables_meaning_witness :
  (forall k, k ∈ identifiers loader_inputs <->
     dict_get k (ctx loader_inputs) = Some (NStr "@id"))
  /\ (forall k, k ∈ url_fields loader_inputs <->
        exists value, dict_get k (ctx loader_inputs) = Some value
                      /\ is_url_field value = true)
  /\ (forall k, k ∈ vocab_fields loader_inputs <->
        exists value, dict_get k (ctx loader_inputs) = Some value
                      /\ is_vocab_field value = true)
  /\ (forall k s, dict_get k (vocab loader_inputs) = Some s <->
        exists value, dict_get k (ctx loader_inputs) = Some value
                      /\ vocab_entry value = Some s).
Proof.
  apply (compiled_tables_meaning
           [("id", NStr "@id");
            ("inputs", NDict [("@id", NStr "http://ex/inputs");
                              ("mapSubject", NStr "id");
                              ("mapPredicate", NStr "type")])]
           loader_inputs).
  reflexivity.
Defined.

(** *** [fetch] with identifier injection *)

(** The mapping [kvs] with every identifier of [ids] set to [url]. *)
Definition inject_ids_into (ids : list string) (url : string)
    (kvs : list (string * Val)) : list (string * Val) :=
  fold_left (fun d identifier => dict_set identifier (VStr url) d) ids kvs.

Lemma inject_loop (self : Loader) (url k : string) (r : addr)
    (ids : list string) :
  expand_url self url url false false None = Ok url ->
  normalize url = Ok k ->
  forall (kc : list (string * Val)) (h : list Obj) (i : list (string * Val))
         (st : State),
    NoDup ids ->
    h !! r = Some (ODict kc) ->
    (forall identifier, identifier ∈ ids -> dict_has identifier kc = false) ->
    ids <> [] \/ dict_get k i = Some (VRef r) ->
    for_each ids (fun identifier =>
      present <- contains (VRef r) identifier ;;
      (if negb present then setitem (VRef r) identifier (VStr url)
       else ret tt) ;;;
      v <- getitem (VRef r) identifier ;;
      u <- lift (expand_url_val self v url false false None) ;;
      idx_setitem u (VRef r)) (set_idx i (set_heap h st))
    = (Ok tt,
       set_idx (dict_set k (VRef r) i)
         (set_heap (<[r := ODict (inject_ids_into ids url kc)]> h) st)).
Proof.
  intros Hexp Hk.
  induction ids as [|identifier ids IH]; intros kc h i st Hnd Hr Habs Hne.
  { destruct Hne as [|Hi]; [done |]. cbn.
    rewrite list_insert_id by done.
    assert (dict_set k (VRef r) i = i) as ->; [|done].
    clear -Hi. induction i as [|[k' v'] i IH]; cbn in *; [done |].
    destruct (String.eqb_spec k k') as [->|]; [by injection Hi as -> |].
    by rewrite IH. }
  apply NoDup_cons in Hnd as [Hid Hnd].
  assert (heap (set_idx i (set_heap h st)) !! r = Some (ODict kc)) as Hr'
    by done.
  assert (r < length h) as Hlt by (by eapply lookup_lt_Some).
  cbn [for_each]. rewrite bind_eq.
  rewrite (bind_run _ _ _ _ _ (contains_run _ _ _ _ Hr')).
  rewrite (Habs identifier) by (by left). cbn [negb].
  rewrite (bind_run _ _ _ _ _ (setitem_run _ _ _ _ _ Hr')).
  erewrite bind_run; cycle 1.
  { eapply getitem_run; [cbn; by apply list_lookup_insert_eq |].
    apply dict_get_set_eq. }
  cbn [expand_url_val]. rewrite Hexp. rewrite bind_eq. cbn [lift].
  rewrite (idx_setitem_run _ _ _ _ Hk).
  cbn [heap idx set_idx set_heap].
  change (set_idx (dict_set k (VRef r) i)
            (set_heap (<[r := ODict (dict_set identifier (VStr url) kc)]> h)
               (set_idx i (set_heap h st))))
    with (set_idx (dict_set k (VRef r) i)
            (set_heap (<[r := ODict (dict_set identifier (VStr url) kc)]> h)
               st)).
  rewrite (IH (dict_set identifier (VStr url) kc)
             (<[r := ODict (dict_set identifier (VStr url) kc)]> h)
             (dict_set k (VRef r) i) st);
    [|done | by apply list_lookup_insert_eq | |].
  - by rewrite list_insert_insert_eq, dict_set_set.
  - intros id' Hid'. rewrite dict_has_set, Habs by (by right).
    destruct (String.eqb_spec id' identifier) as [->|]; done.
  - right. apply dict_get_set_eq.
Qed.

(** X25: [fetch] with identifier injection, of a URL that is not in the
    index and that [expand_url] leaves as it is, gives a loaded mapping
    that has none of the identifier fields the URL in each of them and
    registers it under the URL; a second [fetch] of the URL then returns
    the same object and changes nothing. *)
Theorem fetch_injects_identifier (w : World) (self : Loader) (url k text : string)
    (n : Node) (r : addr) (kvs : list (string * Val)) (st st1 st2 : State) :
  normalize url = Ok k ->
  dict_has k (idx st) = false ->
  expand_url self url url false false None = Ok url ->
  identifiers self <> [] ->
  NoDup (identifiers self) ->
  fetch_text w url st = (Ok text, st1) ->
  yaml_load w text = YDoc n ->
  alloc_node n st1 = (Ok (VRef r), st2) ->
  heap st2 !! r = Some (ODict kvs) ->
  (forall identifier, identifier ∈ identifiers self ->
                      dict_has identifier kvs = false) ->
  let st' :=
    set_idx (dict_set k (VRef r) (idx st2))
      (set_heap
         (<[r := ODict (inject_ids_into (identifiers self) url kvs)]>
            (heap st2)) st2) in
  fetch w self url true st = (Ok (VRef r), st')
  /\ fetch w self url true st' = (Ok (VRef r), st').
Proof.
  intros Hk Hnew Hexp Hids Hnd Htext Hyaml Halloc Hr Habs st'.
  assert (fetch w self url true st' = (Ok (VRef r), st')) as Hagain.
  { unfold fetch. rewrite bind_eq, idx_contains_run, Hk.
    unfold dict_has, st'. cbn [idx set_idx]. rewrite dict_get_set_eq.
    eapply idx_getitem_run; [exact Hk |]. cbn. apply dict_get_set_eq. }
  split; [|exact Hagain].
  unfold fetch.
  rewrite bind_eq, idx_contains_run, Hk, Hnew. cbn match.
  rewrite (bind_run _ _ _ _ _ Htext), Hyaml.
  rewrite (bind_run _ _ _ _ _ Halloc).
  rewrite (bind_run _ _ _ _ _ (is_dict_dict _ _ _ Hr)).
  cbn [andb].
  destruct (identifiers self) as [|i0 ids] eqn:Hself; [done |].
  rewrite <- Hself in *.
  pose proof (inject_loop self url k r (identifiers self) Hexp Hk kvs
                (heap st2) (idx st2) st2 Hnd Hr Habs (or_introl Hids))
    as Hloop.
  assert (set_idx (idx st2) (set_heap (heap st2) st2) = st2) as Hst2
    by (by destruct st2).
  rewrite Hst2 in Hloop.
  rewrite (bind_run _ _ _ _ _ Hloop). cbn [ret].
  subst st'. by rewrite Hself.
Qed.

Lemma fetch_injects_identifier_witness :
  let st' :=
    set_idx [("file:///dir/tool.yaml", VRef 0)]
      (mkState [ODict [("label", VStr "x"); ("id", VStr "file:///dir/tool.yaml")]]
         [] [] [FileOpen "/dir/tool.yaml"]) in
  fetch world_tool loader_id "file:///dir/tool.yaml" true empty_state
  = (Ok (VRef 0), st')
  /\ fetch world_tool loader_id "file:///dir/tool.yaml" true st'
     = (Ok (VRef 0), st').
Proof.
  apply (fetch_injects_identifier world_tool loader_id
           "file:///dir/tool.yaml" "file:///dir/tool.yaml" "tool"
           (NDict [("label", NStr "x")]) 0 [("label", VStr "x")]
           empty_state
           (logged empty_state [FileOpen "/dir/tool.yaml"])
           (set_heap [ODict [("label", VStr "x")]]
              (logged empty_state [FileOpen "/dir/tool.yaml"])));
    try reflexivity.
  - done.
  - by apply (bool_decide_unpack _).
  - by intros identifier [->|[]%elem_of_nil]%elem_of_cons.
Defined.

(** *** Scoped identifiers *)

(** X26: with [scoped_id], a string without scheme and without fragment
    (that is not a reserved token or an expression, and has no vocabulary
    prefix) expands to the base URL with the path of the string appended to
    the fragment of the base after a [/], or as the fragment when the base
    has none; an empty base path becomes [/]. *)
Theorem expand_url_scoped_id (self : Loader) (url base_url : string)
    (scoped_ref : option Z) (split splitbase : Urllib.SplitResult) :
  String.eqb url "@id" || String.eqb url "@type" = false ->
  dict_has (List.hd EmptyString (PyStr.split ":" url)) (vocab self) = false ->
  Urllib.urlsplit url = Ok split ->
  PyStr.nonempty (Urllib.scheme split) = false ->
  PyStr.startswith "$(" url || PyStr.startswith "${" url = false ->
  PyStr.nonempty (Urllib.fragment split) = false ->
  Urllib.urlsplit base_url = Ok splitbase ->
  expand_url self url base_url true false scoped_ref
  = Ok (Urllib.urlunsplit (Urllib.scheme splitbase) (Urllib.netloc splitbase)
          (if PyStr.nonempty (Urllib.path splitbase)
           then Urllib.path splitbase else "/")
          (Urllib.query splitbase)
          (if PyStr.nonempty (Urllib.fragment splitbase)
           then Urllib.fragment splitbase +:+ "/" +:+ Urllib.path split
           else Urllib.path split)).
Proof.
  intros Hres Hprefix Hsplit Hscheme Hexpr Hfrag Hbase.
  unfold expand_url. rewrite Hres. cbn [andb].
  assert ((if nonempty_dict (vocab self) && PyStr.contains ":" url
           then match dict_get (List.hd EmptyString (PyStr.split ":" url))
                        (vocab self) with
                | Some v =>
                    v +:+ PyStr.drop
                            (String.length
                               (List.hd EmptyString (PyStr.split ":" url)) + 1)
                            url
                | None => url
                end
           else url) = url) as ->.
  { unfold dict_has in Hprefix.
    destruct (dict_get _ (vocab self)); [done |].
    by destruct (_ && _). }
  rewrite Hsplit. cbn [res_bind].
  apply orb_false_iff in Hexpr as [-> ->].
  rewrite Hscheme, Hfrag. cbn [orb andb negb].
  rewrite Hbase. cbn [res_bind]. done.
Qed.

Lemma expand_url_scoped_id_witness :
  expand_url loader_id "step1?x=1" "file:///d/wf.cwl#main" true false None
  = Ok "file:///d/wf.cwl#main/step1".
Proof.
  exact (expand_url_scoped_id loader_id "step1?x=1" "file:///d/wf.cwl#main"
           None (Urllib.mkSplit "" "" "step1" "x=1" "")
           (Urllib.mkSplit "file" "" "/d/wf.cwl" "" "main")
           eq_refl eq_refl eq_refl eq_refl eq_refl eq_refl eq_refl).
Defined.

(** *** Mappings without a usable identifier *)

(** The first identifier field, in the order of [ids], that the mapping
    has, with its value. *)
Fixpoint first_present (ids : list string) (kvs : list (string * Val))
  : option (string * Val) :=
  match ids with
  | [] => None
  | identifer :: r =>
      match dict_get identifer kvs with
      | Some v => Some (identifer, v)
      | None => first_present r kvs
      end
  end.

(** X27: [_resolve_identifier] returns the base URL it was given and
    changes nothing on a mapping that has no identifier field; on a mapping
    whose first identifier field holds something else than a string it
    raises the validation error for that field and changes nothing. *)
Theorem resolve_identifier_without_string (loader : Loader) (a : addr)
    (kvs : list (string * Val)) (base_url : string) (st : State) :
  heap st !! a = Some (ODict kvs) ->
  match first_present (identifiers loader) kvs with
  | None =>
      _resolve_identifier (VRef a) loader base_url st = (Ok base_url, st)
  | Some (identifer, VStr _) => True
  | Some (identifer, _) =>
      _resolve_identifier (VRef a) loader base_url st
      = (Raise (ValidationException (MIdentifierMustBeString identifer)), st)
  end.
Proof.
  intros Ha. unfold _resolve_identifier.
  induction (identifiers loader) as [|identifer ids IH];
    cbn [first_present fold_each]; [done |].
  destruct (dict_get identifer kvs) as [v|] eqn:Hv.
  - rewrite bind_eq. unfold _resolve_identifier_step.
    rewrite (bind_run _ _ _ _ _ (contains_run _ _ _ _ Ha)).
    unfold dict_has. rewrite Hv.
    rewrite (bind_run _ _ _ _ _ (getitem_run _ _ _ _ _ Ha Hv)).
    by destruct v.
  - rewrite bind_eq. unfold _resolve_identifier_step.
    rewrite (bind_run _ _ _ _ _ (contains_run _ _ _ _ Ha)).
    unfold dict_has. rewrite Hv. cbn [ret]. exact IH.
Qed.

Lemma resolve_identifier_without_string_witness :
  _resolve_identifier (VRef 0) loader_id "file:///d"
    (mkState [ODict [("id", VInt 3)]] [] [] [])
  = (Raise (ValidationException (MIdentifierMustBeString "id")),
     mkState [ODict [("id", VInt 3)]] [] [] []).
Proof.
  apply (resolve_identifier_without_string loader_id 0 [("id", VInt 3)]
           "file:///d" (mkState [ODict [("id", VInt 3)]] [] [] [])).
  reflexivity.
Defined.

(* ===================================================================== *)
(** ** The claims on rewriting, directives, the index and idempotence *)
(* ===================================================================== *)

(** *** C7: idmap desugaring, over the fields of the context *)

(** The document [{inputs: {x: &v {type: int}, y: *v}}]: the keys [x] and
    [y] of the inner mapping hold one object. *)
Definition state_alias : State :=
  mkState
    [ODict [("type", VStr "int")];
     ODict [("x", VRef 0); ("y", VRef 0)];
     ODict [("inputs", VRef 1)]]
    [] [] [].

(** C7, as stated, fails when two keys of the inner mapping hold the same
    object: the entry is the value itself ([v = val]), the subject
    attribute is written into it once per key, and both entries of the
    list carry the last key.  The key [x] is the subject of no entry. *)
Lemma C7_counterexample :
  let r := _resolve_idmap (VRef 2) loader_inputs state_alias in
  fst r = Ok tt
  /\ heap (snd r) !! 2 = Some (ODict [("inputs", VRef 3)])
  /\ heap (snd r) !! 3 = Some (OList [VRef 0; VRef 0])
  /\ heap (snd r) !! 0 = Some (ODict [("type", VStr "int"); ("id", VStr "y")])
  /\ reify 4 (heap (snd r)) (VRef 2)
     = Some (NDict [("inputs",
                     NList [NDict [("type", NStr "int"); ("id", NStr "y")];
                            NDict [("type", NStr "int"); ("id", NStr "y")]])]).
Proof. vm_compute. repeat split. Qed.

(** The value of the idmap field [f] in a mapping with the items [kvs],
    when the rewriter rewrites it: the address and the items of a mapping
    without [$import] and [$include]. *)
Definition idmap_inner (h : list Obj) (kvs : list (string * Val)) (f : string)
  : option (addr * list (string * Val)) :=
  match dict_get f kvs with
  | Some (VRef m) =>
      match h !! m with
      | Some (ODict inner) =>
          if negb (dict_has "$import" inner)
             && negb (dict_has "$include" inner)
          then Some (m, inner) else None
      | _ => None
      end
  | _ => None
  end.

Lemma idmap_inner_Some (h : list Obj) (kvs : list (string * Val)) (f : string)
    (m : addr) (inner : list (string * Val)) :
  idmap_inner h kvs f = Some (m, inner) ->
  dict_get f kvs = Some (VRef m) /\ h !! m = Some (ODict inner)
  /\ dict_has "$import" inner = false /\ dict_has "$include" inner = false.
Proof.
  unfold idmap_inner.
  destruct (dict_get f kvs) as [[| | | |m']|]; try done.
  destruct (h !! m') as [[inner'|]|] eqn:Hm'; try done.
  destruct (dict_has "$import" inner') eqn:E1,
    (dict_has "$include" inner') eqn:E2; try done.
  intros [= <- <-]. by repeat split.
Qed.

(** A field that is absent, or whose value is not such a mapping, is left
    alone. *)
Lemma resolve_idmap_field_skip (loader : Loader) (a : addr)
    (kvs : list (string * Val)) (f : string) (st : State) :
  heap st !! a = Some (ODict kvs) ->
  (forall m, dict_get f kvs = Some (VRef m) -> is_Some (heap st !! m)) ->
  idmap_inner (heap st) kvs f = None ->
  _resolve_idmap_field (VRef a) loader f st = (Ok tt, st).
Proof.
  intros Ha Hvalid Hnone. unfold _resolve_idmap_field.
  rewrite (bind_run _ _ _ _ _ (contains_run _ _ _ _ Ha)).
  unfold dict_has, idmap_inner in *.
  destruct (dict_get f kvs) as [v|] eqn:Hf; [|done].
  rewrite (bind_run _ _ _ _ _ (getitem_run _ _ _ _ _ Ha Hf)).
  destruct v as [| | | |m]; try done.
  destruct (Hvalid m eq_refl) as [[inner|xs] Hm]; rewrite Hm in Hnone.
  - rewrite (bind_run _ _ _ _ _ (is_dict_dict _ _ _ Hm)).
    rewrite (bind_run _ _ _ _ _ (contains_run _ _ _ _ Hm)).
    rewrite (bind_run _ _ _ _ _ (contains_run _ _ _ _ Hm)).
    unfold dict_has in *.
    destruct (dict_get "$import" inner), (dict_get "$include" inner); done.
  - by rewrite (bind_run _ _ _ _ _ (is_dict_list _ _ _ Hm)).
Qed.

(** One field that is rewritten. *)
Lemma resolve_idmap_field_run (loader : Loader) (a m : addr)
    (kvs inner : list (string * Val)) (f subject : string) (st : State) :
  heap st !! a = Some (ODict kvs) ->
  dict_get f kvs = Some (VRef m) ->
  heap st !! m = Some (ODict inner) ->
  dict_has "$import" inner = false ->
  dict_has "$include" inner = false ->
  dict_get f (idmap loader) = Some subject ->
  NoDup (dict_keys inner) ->
  (forall k b, dict_get k inner = Some (VRef b) -> is_Some (heap st !! b)) ->
  (forall k1 k2 b,
     dict_get k1 inner = Some (VRef b) -> dict_get k2 inner = Some (VRef b) ->
     is_dict_in (heap st) (VRef b) = true -> k1 = k2) ->
  (forall k, dict_get k inner = Some (VRef m) -> False) ->
  (forall k, dict_get k inner = Some (VRef a) -> False) ->
  let keys := sorted (dict_keys inner) in
  if forallb (entry_ok loader st inner f) keys then
    exists ls hf l,
      _resolve_idmap_field (VRef a) loader f st = (Ok tt, set_heap hf st)
      /\ length (heap st) <= l /\ length hf = S l
      /\ hf !! a = Some (ODict (dict_set f (VRef l) kvs))
      /\ hf !! l = Some (OList ls)
      /\ Forall2 (entry_post loader st inner f subject hf) keys ls
      /\ (forall x o,
            heap st !! x = Some o -> x <> a ->
            (forall k, dict_get k inner = Some (VRef x) ->
                       is_dict_in (heap st) (VRef x) = false) ->
            hf !! x = Some o)
  else
    exists k stf,
      In k (dict_keys inner)
      /\ _resolve_idmap_field (VRef a) loader f st
         = (Raise (ValidationException (MNoMapPredicate f k)), stf).
Proof.
  intros Ha Hf Hmi Himp Hinc Hsubj Hnd Hvalid Hinj Hm Hna keys.
  assert (_resolve_idmap_field (VRef a) loader f st
          = (ls <- fold_each keys []
                     (_resolve_idmap_entry loader f (VRef m)) ;;
             l <- alloc (OList ls) ;;
             setitem (VRef a) f l) st) as Hrun.
  { unfold _resolve_idmap_field.
    rewrite (bind_run _ _ _ _ _ (contains_run _ _ _ _ Ha)).
    unfold dict_has at 1. rewrite Hf.
    rewrite (bind_run _ _ _ _ _ (getitem_run _ _ _ _ _ Ha Hf)).
    rewrite (bind_run _ _ _ _ _ (is_dict_dict _ _ _ Hmi)).
    rewrite (bind_run _ _ _ _ _ (contains_run _ _ _ _ Hmi)).
    rewrite (bind_run _ _ _ _ _ (contains_run _ _ _ _ Hmi)).
    rewrite Himp, Hinc. cbn [negb andb].
    by rewrite (bind_run _ _ _ _ _ (items_run _ _ _ Hmi)). }
  rewrite Hrun.
  assert (NoDup keys) as Hndk.
  { unfold keys. by rewrite sorted_perm. }
  assert (forall k, In k keys -> In k (dict_keys inner)) as Hin.
  { intros k Hk. apply list_elem_of_In. apply list_elem_of_In in Hk.
    unfold keys in Hk. by rewrite sorted_perm in Hk. }
  pose proof (idmap_loop loader st m inner f subject Hsubj Hvalid Hinj) as Hloop.
  specialize (Hloop (fun k Hk => False_ind _ (Hm k Hk)) keys [] st Hndk).
  specialize (Hloop (fun k Hk => dict_get_in_keys k inner (Hin k Hk)) Hmi).
  specialize (Hloop (le_n _) (fun _ _ _ _ _ H => H)).
  destruct (forallb (entry_ok loader st inner f) keys).
  - destruct Hloop as (ls & hf & Hfold & Hpost & Hlen & Hframe).
    assert (hf !! a = Some (ODict kvs)) as Haf.
    { apply Hframe; [done |]. intros k _ Hk. destruct (Hna k Hk). }
    assert (a < length hf) as Halt by (by eapply lookup_lt_Some).
    exists ls, (<[a := ODict (dict_set f (VRef (length hf)) kvs)]>
                  (hf ++ [OList ls])), (length hf).
    rewrite (bind_run _ _ _ _ _ Hfold).
    rewrite (bind_run _ _ _ _ _ (alloc_run _ _)).
    erewrite setitem_run; cycle 1.
    { cbn. by rewrite lookup_app_l. }
    rewrite length_insert, length_app. cbn [length heap set_heap].
    split; [done |]. split; [done |]. split; [lia |].
    split; [apply list_lookup_insert_eq; rewrite length_app; lia |].
    split.
    { rewrite list_lookup_insert_ne by lia.
      rewrite lookup_app_r by lia. by rewrite Nat.sub_diag. }
    assert (forall x o, hf !! x = Some o -> x <> a ->
              <[a := ODict (dict_set f (VRef (length hf)) kvs)]>
                (hf ++ [OList ls]) !! x = Some o) as Hkeep.
    { intros x o Hx Hxa. rewrite list_lookup_insert_ne by done.
      rewrite lookup_app_l; [done | by eapply lookup_lt_Some]. }
    split.
    + eapply Forall2_impl; [exact Hpost |].
      intros k v (val & Hval & Hentry). exists val. split; [done |].
      unfold idmap_entry in *.
      destruct (is_dict_in (heap st) val) eqn:Hd.
      * destruct Hentry as (b & bk & -> & Hb & -> & Hb').
        exists b, bk. repeat split; try done.
        apply Hkeep; [done |]. intros ->. destruct (Hna k Hval).
      * destruct Hentry as (c & pn & Hp & -> & Hc & Hc').
        exists c, pn. repeat split; try done.
        apply Hkeep; [done |]. apply lookup_lt_Some in Ha. lia.
    + intros x o Hx Hxa Hnot. apply Hkeep; [|done].
      apply Hframe; [done |]. intros k _. apply Hnot.
  - destruct Hloop as (k & stf & Hk & Hfold).
    exists k, stf. split; [by apply Hin |].
    by rewrite (bind_raise _ _ _ _ _ Hfold).
Qed.

Section IdmapFields.

Variable loader : Loader.
Variable a : addr.

(** Every entry of the field [f] can be made: its value is a mapping, or
    the context declares a predicate for [f]. *)
Definition field_ok (st : State) (kvs : list (string * Val)) (f : string)
  : bool :=
  match idmap_inner (heap st) kvs f with
  | Some (_, inner) =>
      forallb (entry_ok loader st inner f) (sorted (dict_keys inner))
  | None => true
  end.

(** The object [x] is a mapping held by a key of one of the fields [fs]
    that are rewritten. *)
Definition idmap_value (st : State) (kvs : list (string * Val))
    (fs : list string) (x : addr) : Prop :=
  exists f m inner k,
    In f fs /\ idmap_inner (heap st) kvs f = Some (m, inner)
    /\ dict_get k inner = Some (VRef x)
    /\ is_dict_in (heap st) (VRef x) = true.

(** What is asked of the document for the fields [fs]: references are
    objects of the store; the mapping values of the fields that are
    rewritten are distinct objects, and none of them is the document or
    the value of one of the fields. *)
Record idmap_ready (st : State) (kvs : list (string * Val))
    (fs : list string) : Prop := {
  ready_doc : heap st !! a = Some (ODict kvs);
  ready_subject : forall f, In f fs -> is_Some (dict_get f (idmap loader));
  ready_fields :
    forall f m, In f fs -> dict_get f kvs = Some (VRef m) ->
                m <> a /\ is_Some (heap st !! m);
  ready_keys :
    forall f m inner, In f fs ->
      idmap_inner (heap st) kvs f = Some (m, inner) ->
      NoDup (dict_keys inner);
  ready_values :
    forall f m inner k b, In f fs ->
      idmap_inner (heap st) kvs f = Some (m, inner) ->
      dict_get k inner = Some (VRef b) -> is_Some (heap st !! b);
  ready_distinct :
    forall f1 m1 inner1 k1 f2 m2 inner2 k2 b, In f1 fs -> In f2 fs ->
      idmap_inner (heap st) kvs f1 = Some (m1, inner1) ->
      idmap_inner (heap st) kvs f2 = Some (m2, inner2) ->
      dict_get k1 inner1 = Some (VRef b) ->
      dict_get k2 inner2 = Some (VRef b) ->
      is_dict_in (heap st) (VRef b) = true -> f1 = f2 /\ k1 = k2;
  ready_apart :
    forall x, idmap_value st kvs fs x ->
      x <> a /\ forall g, In g fs -> dict_get g kvs <> Some (VRef x)
}.

(** The field [f] after the rewriting: a new list with one entry per key
    of the inner mapping, in sorted order; or the value it had. *)
Definition field_post (st : State) (kvs : list (string * Val))
    (hf : list Obj) (kvs' : list (string * Val)) (f : string) : Prop :=
  match idmap_inner (heap st) kvs f with
  | Some (_, inner) =>
      exists subject l ls,
        dict_get f (idmap loader) = Some subject
        /\ dict_get f kvs' = Some (VRef l) /\ length (heap st) <= l
        /\ hf !! l = Some (OList ls)
        /\ Forall2 (entry_post loader st inner f subject hf)
             (sorted (dict_keys inner)) ls
  | None => dict_get f kvs' = dict_get f kvs
  end.

Lemma idmap_ready_tail st kvs f fs :
  idmap_ready st kvs (f :: fs) -> idmap_ready st kvs fs.
Proof.
  intros [H1 H2 H3 H4 H5 H6 H7]. split; try done.
  - intros g Hg. apply H2. by right.
  - intros g m Hg. apply H3. by right.
  - intros g m inner Hg. apply H4. by right.
  - intros g m inner k b Hg. apply (H5 g). by right.
  - intros f1 m1 i1 k1 f2 m2 i2 k2 b Hf1 Hf2.
    apply H6; by right.
  - intros x (g & m & inner & k & Hg & Hx).
    destruct (H7 x) as [Hxa Hxg].
    { exists g, m, inner, k. split; [by right | done]. }
    split; [done |]. intros g' Hg'. apply Hxg. by right.
Qed.

Lemma is_dict_in_same (h h' : list Obj) (v : Val) :
  (forall x, v = VRef x -> h' !! x = h !! x) ->
  is_dict_in h' v = is_dict_in h v.
Proof. destruct v as [| | | |x]; try done. intros H. cbn. by rewrite H. Qed.

Lemma idmap_entry_same (h0 h1 hf : list Obj) subject p k val v :
  (forall x, val = VRef x -> h1 !! x = h0 !! x) ->
  length h0 <= length h1 ->
  idmap_entry h1 hf subject p k val v -> idmap_entry h0 hf subject p k val v.
Proof.
  intros Hsame Hlen. unfold idmap_entry.
  rewrite (is_dict_in_same h0 h1 val Hsame).
  destruct (is_dict_in h0 val).
  - intros (b & bk & -> & Hb & -> & Hb').
    exists b, bk. repeat split; try done. by rewrite <- Hsame.
  - intros (c & pn & Hp & -> & Hc & Hc').
    exists c, pn. repeat split; try done. lia.
Qed.

Lemma idmap_entry_later (h0 hf hf' : list Obj) subject p k val v :
  (forall x o, v = VRef x -> hf !! x = Some o -> hf' !! x = Some o) ->
  idmap_entry h0 hf subject p k val v -> idmap_entry h0 hf' subject p k val v.
Proof.
  intros Hkeep. unfold idmap_entry.
  destruct (is_dict_in h0 val).
  - intros (b & bk & -> & Hb & -> & Hb').
    exists b, bk. repeat split; try done. by eapply Hkeep.
  - intros (c & pn & Hp & -> & Hc & Hc').
    exists c, pn. repeat split; try done. by eapply Hkeep.
Qed.

Lemma forallb_same {A} (p q : A -> bool) (l : list A) :
  (forall x, In x l -> p x = q x) -> forallb p l = forallb q l.
Proof.
  induction l as [|x l IH]; [done |]. intros H. cbn.
  rewrite (H x) by (by left). f_equal. apply IH. intros y Hy. apply H. by right.
Qed.

Lemma idmap_value_more st kvs f fs x :
  idmap_value st kvs fs x -> idmap_value st kvs (f :: fs) x.
Proof.
  intros (g & m & inner & k & Hg & H). exists g, m, inner, k.
  split; [by right | done].
Qed.

Lemma idmap_fields_loop (fs : list string) :
  forall (st : State) (kvs : list (string * Val)),
    NoDup fs -> idmap_ready st kvs fs ->
    if forallb (field_ok st kvs) fs then
      exists hf kvs',
        for_each fs (_resolve_idmap_field (VRef a) loader) st
        = (Ok tt, set_heap hf st)
        /\ hf !! a = Some (ODict kvs')
        /\ dict_keys kvs' = dict_keys kvs
        /\ length (heap st) <= length hf
        /\ (forall f, In f fs -> field_post st kvs hf kvs' f)
        /\ (forall f, ~ In f fs -> dict_get f kvs' = dict_get f kvs)
        /\ (forall x o, heap st !! x = Some o -> x <> a ->
                        ~ idmap_value st kvs fs x -> hf !! x = Some o)
    else
      exists f m inner k stf,
        In f fs /\ idmap_inner (heap st) kvs f = Some (m, inner)
        /\ In k (dict_keys inner)
        /\ for_each fs (_resolve_idmap_field (VRef a) loader) st
           = (Raise (ValidationException (MNoMapPredicate f k)), stf).
Proof.
  induction fs as [|f fs IH]; intros st kvs Hnd Hready.
  { cbn. exists (heap st), kvs. rewrite set_heap_id.
    pose proof (ready_doc _ _ _ Hready). repeat split; try done.
    all: by intros. }
  apply NoDup_cons in Hnd as [Hf Hnd].
  assert (~ In f fs) as Hf' by (by rewrite <- list_elem_of_In).
  pose proof (ready_doc _ _ _ Hready) as Ha.
  pose proof (idmap_ready_tail _ _ _ _ Hready) as Hready'.
  cbn [forallb for_each]. unfold field_ok at 1.
  destruct (idmap_inner (heap st) kvs f) as [[m inner]|] eqn:Hin.
  - (* the field is rewritten *)
    destruct (idmap_inner_Some _ _ _ _ _ Hin) as (Hfm & Hmi & Himp & Hinc).
    destruct (ready_subject _ _ _ Hready f (or_introl eq_refl))
      as [subject Hsubj].
    pose proof (resolve_idmap_field_run loader a m kvs inner f subject st
                  Ha Hfm Hmi Himp Hinc Hsubj) as Hstep.
    specialize (Hstep (ready_keys _ _ _ Hready f m inner (or_introl eq_refl) Hin)).
    specialize (Hstep (fun k b =>
      ready_values _ _ _ Hready f m inner k b (or_introl eq_refl) Hin)).
    assert (forall k b, dict_get k inner = Some (VRef b) ->
              is_dict_in (heap st) (VRef b) = true ->
              idmap_value st kvs (f :: fs) b) as Hval.
    { intros k b Hk Hd. exists f, m, inner, k. repeat split; try done. by left. }
    specialize (Hstep (fun k1 k2 b H1 H2 Hd =>
      proj2 (ready_distinct _ _ _ Hready f m inner k1 f m inner k2 b
               (or_introl eq_refl) (or_introl eq_refl) Hin Hin H1 H2 Hd))).
    assert (is_dict_in (heap st) (VRef m) = true) as Hmd by (cbn; by rewrite Hmi).
    assert (is_dict_in (heap st) (VRef a) = true) as Had by (cbn; by rewrite Ha).
    specialize (Hstep (fun k Hk =>
      proj2 (ready_apart _ _ _ Hready m (Hval k m Hk Hmd)) f
        (or_introl eq_refl) Hfm)).
    specialize (Hstep (fun k Hk =>
      proj1 (ready_apart _ _ _ Hready a (Hval k a Hk Had)) eq_refl)).
    cbv zeta in Hstep.
    destruct (forallb (entry_ok loader st inner f) (sorted (dict_keys inner)));
      cbn [andb].
    + destruct Hstep as (ls & hf1 & l & Hrun & Hl & Hlen1 & Ha1 & Hl1 & Hpost
                         & Hframe).
      set (st1 := set_heap hf1 st).
      set (kvs1 := dict_set f (VRef l) kvs).
      assert (forall g, In g fs -> g <> f) as Hgf by (intros g Hg ->; done).
      assert (forall g, g <> f -> dict_get g kvs1 = dict_get g kvs) as F1.
      { intros g Hg. unfold kvs1. by apply dict_get_set_ne. }
      (* what the step left as it was *)
      assert (forall x o, heap st !! x = Some o -> x <> a ->
                (forall k, dict_get k inner = Some (VRef x) ->
                           is_dict_in (heap st) (VRef x) = true -> False) ->
                hf1 !! x = Some o) as Hkeep1.
      { intros x o Hx Hxa Hnot. apply Hframe; [done | done |]. intros k Hk.
        destruct (is_dict_in (heap st) (VRef x)) eqn:Hd; [|done].
        destruct (Hnot k Hk eq_refl). }
      assert (forall g mg, In g fs -> dict_get g kvs = Some (VRef mg) ->
                hf1 !! mg = heap st !! mg) as Hfield.
      { intros g mg Hg Hgm.
        destruct (ready_fields _ _ _ Hready g mg (or_intror Hg) Hgm)
          as [Hmga [o Ho]].
        rewrite Ho. apply Hkeep1; [done | done |].
        intros k Hk Hd.
        by apply (proj2 (ready_apart _ _ _ Hready mg (Hval k mg Hk Hd)) g
                    (or_intror Hg)). }
      assert (forall g, In g fs ->
                idmap_inner hf1 kvs1 g = idmap_inner (heap st) kvs g) as F3.
      { intros g Hg. unfold idmap_inner. rewrite (F1 g (Hgf g Hg)).
        destruct (dict_get g kvs) as [[| | | |mg]|] eqn:Hgm; try done.
        by rewrite (Hfield g mg Hg Hgm). }
      assert (forall g mg ig k b, In g fs ->
                idmap_inner (heap st) kvs g = Some (mg, ig) ->
                dict_get k ig = Some (VRef b) ->
                hf1 !! b = heap st !! b) as F4.
      { intros g mg ig k b Hg Hig Hk.
        destruct (ready_values _ _ _ Hready g mg ig k b (or_intror Hg) Hig Hk)
          as [o Ho].
        rewrite Ho. apply Hkeep1; [done | |].
        - intros ->.
          assert (idmap_value st kvs (f :: fs) a) as Hv.
          { exists g, mg, ig, k. repeat split; try done. by right. }
          by destruct (ready_apart _ _ _ Hready a Hv).
        - intros k' Hk' Hd.
          destruct (ready_distinct _ _ _ Hready f m inner k' g mg ig k b
                      (or_introl eq_refl) (or_intror Hg) Hin Hig Hk' Hk Hd)
            as [-> _].
          done. }
      assert (forall x, is_Some (heap st !! x) -> is_Some (hf1 !! x)) as Hgrow.
      { intros x [o Ho]. apply lookup_lt_is_Some.
        apply lookup_lt_Some in Ho. lia. }
      assert (forall x, idmap_value st1 kvs1 fs x -> idmap_value st kvs fs x)
        as Hvalue.
      { intros x (g & mg & ig & k & Hg & Hig & Hk & Hd).
        cbn in Hig. rewrite (F3 g Hg) in Hig.
        exists g, mg, ig, k. repeat split; try done.
        cbn in Hd. cbn. by rewrite <- (F4 g mg ig k x Hg Hig Hk). }
      assert (idmap_ready st1 kvs1 fs) as Hready1.
      { split.
        - exact Ha1.
        - apply Hready'.
        - intros g mg Hg Hgm. rewrite (F1 g (Hgf g Hg)) in Hgm.
          destruct (ready_fields _ _ _ Hready' g mg Hg Hgm) as [? ?].
          split; [done | by apply Hgrow].
        - intros g mg ig Hg Hig. cbn in Hig. rewrite (F3 g Hg) in Hig.
          by eapply (ready_keys _ _ _ Hready').
        - intros g mg ig k b Hg Hig Hk. cbn in Hig. rewrite (F3 g Hg) in Hig.
          apply Hgrow. by eapply (ready_values _ _ _ Hready').
        - intros f1 m1 i1 k1 f2 m2 i2 k2 b Hf1 Hf2 Hi1 Hi2 Hk1 Hk2 Hd.
          cbn in Hi1, Hi2. rewrite (F3 f1 Hf1) in Hi1. rewrite (F3 f2 Hf2) in Hi2.
          eapply (ready_distinct _ _ _ Hready'); try done.
          cbn in Hd. cbn. by rewrite <- (F4 f1 m1 i1 k1 b Hf1 Hi1 Hk1).
        - intros x Hx. apply Hvalue in Hx.
          destruct (ready_apart _ _ _ Hready x (idmap_value_more _ _ f _ _ Hx))
            as [Hxa Hxg].
          split; [done |]. intros g Hg. rewrite (F1 g (Hgf g Hg)).
          apply Hxg. by right. }
      assert (forallb (field_ok st1 kvs1) fs = forallb (field_ok st kvs) fs)
        as Hsame_ok.
      { apply forallb_same. intros g Hg. unfold field_ok. cbn [heap st1 set_heap].
        rewrite (F3 g Hg).
        destruct (idmap_inner (heap st) kvs g) as [[mg ig]|] eqn:Hig; [|done].
        apply forallb_same. intros k Hk. unfold entry_ok.
        destruct (dict_get k ig) as [val|] eqn:Hkv; [|done].
        f_equal. apply is_dict_in_same. intros x ->.
        by apply (F4 g mg ig k x Hg Hig Hkv). }
      specialize (IH st1 kvs1 Hnd Hready1). rewrite Hsame_ok in IH.
      rewrite (bind_run _ _ _ _ _ Hrun). fold st1.
      destruct (forallb (field_ok st kvs) fs).
      * destruct IH as (hf & kvs' & Hrun' & Haf & Hkeys & Hlenf & Hposts
                        & Hothers & Hframe').
        exists hf, kvs'.
        assert (forall x o, hf1 !! x = Some o -> x <> a ->
                  ~ idmap_value st kvs fs x -> hf !! x = Some o) as Hlater.
        { intros x o Hx Hxa Hnot. apply Hframe'; [done | done |].
          intros Hv. apply Hnot. by apply Hvalue. }
        assert (forall x, length (heap st) <= x -> ~ idmap_value st kvs fs x)
          as Hfresh.
        { intros x Hx (g & mg & ig & k & Hg & Hig & Hk & Hd).
          destruct (ready_values _ _ _ Hready' g mg ig k x Hg Hig Hk) as [o Ho].
          apply lookup_lt_Some in Ho. lia. }
        assert (a < length (heap st)) as Halt by (by eapply lookup_lt_Some).
        split. { rewrite Hrun'. unfold st1. by rewrite set_heap_set_heap. }
        split; [done |].
        split.
        { rewrite Hkeys. unfold kvs1. rewrite dict_keys_set.
          unfold dict_has. by rewrite Hfm. }
        split. { cbn in Hlenf. lia. }
        split; [|split].
        -- intros g [<- | Hg].
           ++ unfold field_post. rewrite Hin.
              exists subject, l, ls. split; [done |].
              split. { rewrite (Hothers f Hf'). unfold kvs1.
                       apply dict_get_set_eq. }
              split; [done |].
              split. { apply Hlater; [done | lia | apply Hfresh; lia]. }
              eapply Forall2_impl; [exact Hpost |].
              intros k v (val & Hkv & Hentry). exists val. split; [done |].
              unfold idmap_entry in *.
              destruct (is_dict_in (heap st) val) eqn:Hd.
              ** destruct Hentry as (b & bk & -> & Hb & -> & Hb').
                 exists b, bk. repeat split; try done.
                 apply Hlater; [done | |].
                 --- by apply (ready_apart _ _ _ Hready b (Hval k b Hkv Hd)).
                 --- intros (g & mg & ig & k' & Hg & Hig & Hk' & _).
                     destruct (ready_distinct _ _ _ Hready f m inner k g mg ig k' b
                                 (or_introl eq_refl) (or_intror Hg) Hin Hig
                                 Hkv Hk' Hd) as [-> _].
                     done.
              ** destruct Hentry as (c & pn & Hp & -> & Hc & Hc').
                 exists c, pn. repeat split; try done.
                 apply Hlater; [done | lia | by apply Hfresh].
           ++ specialize (Hposts g Hg). unfold field_post in *.
              cbn [heap st1 set_heap] in Hposts. rewrite (F3 g Hg) in Hposts.
              destruct (idmap_inner (heap st) kvs g) as [[mg ig]|] eqn:Hig.
              ** destruct Hposts as (sg & lg & lsg & Hsg & Hlg & Hlen & Hlsg & Hents).
                 exists sg, lg, lsg. repeat split; try done; [lia |].
                 eapply Forall2_impl; [exact Hents |].
                 intros k v (val & Hkv & Hentry). exists val. split; [done |].
                 eapply idmap_entry_same; [| |exact Hentry].
                 --- intros x ->. by apply (F4 g mg ig k x Hg Hig Hkv).
                 --- cbn. lia.
              ** by rewrite Hposts, (F1 g (Hgf g Hg)).
        -- intros g Hg. rewrite Hothers by (intros ?; apply Hg; by right).
           apply F1. intros ->. apply Hg. by left.
        -- intros x o Hx Hxa Hnot. apply Hlater; [|done|].
           ++ apply Hkeep1; [done | done |]. intros k Hk Hd.
              apply Hnot. by eapply Hval.
           ++ intros Hv. apply Hnot. by apply idmap_value_more.
      * destruct IH as (g & mg & ig & k & stf & Hg & Hig & Hk & Hrun').
        cbn in Hig. rewrite (F3 g Hg) in Hig.
        exists g, mg, ig, k, stf. split; [by right |]. by repeat split.
    + destruct Hstep as (k & stf & Hk & Hrun).
      exists f, m, inner, k, stf. split; [by left |]. repeat split; try done.
      by rewrite (bind_raise _ _ _ _ _ Hrun).
  - (* the field is left alone *)
    assert (_resolve_idmap_field (VRef a) loader f st = (Ok tt, st)) as Hrun.
    { apply (resolve_idmap_field_skip loader a kvs); [done | | done].
      intros m Hm.
      by apply (ready_fields _ _ _ Hready f m (or_introl eq_refl)). }
    rewrite (bind_run _ _ _ _ _ Hrun). cbn [andb].
    specialize (IH st kvs Hnd Hready').
    destruct (forallb (field_ok st kvs) fs).
    + destruct IH as (hf & kvs' & Hrun' & Haf & Hkeys & Hlenf & Hposts
                      & Hothers & Hframe').
      exists hf, kvs'. repeat split; try done.
      * intros g [<- | Hg]; [|by apply Hposts].
        unfold field_post. rewrite Hin. by apply Hothers.
      * intros g Hg. apply Hothers. intros ?. apply Hg. by right.
      * intros x o Hx Hxa Hnot. apply Hframe'; [done | done |].
        intros Hv. apply Hnot. by apply idmap_value_more.
    + destruct IH as (g & mg & ig & k & stf & Hg & Hig & Hk & Hrun').
      exists g, mg, ig, k, stf. split; [by right |]. by repeat split.
Qed.

End IdmapFields.

(** C7 (amended): [_resolve_idmap] on a mapping node, for all the idmap
    fields of the context at once.  A field whose value is a mapping
    without [$import] and [$include] is replaced by a new list with one
    entry per key of that mapping, in sorted (code point) order: a mapping
    value is the entry itself, with the subject attribute set to the key;
    any other value is lifted to [{mapPredicate[f]: value}] with the
    subject attribute set to the key when the context declares a predicate
    for the field, and the run raises a validation error otherwise.  Every
    other field keeps its value, the keys of the node stay as they are,
    and no other object is changed.  The mapping values of the rewritten
    fields are taken to be distinct objects, none of them the node or the
    value of an idmap field: a value held under two keys is one entry,
    listed twice, with the last key as its subject. *)
Theorem C7_idmap_desugaring (loader : Loader) (a : addr)
    (kvs : list (string * Val)) (st : State) :
  heap st !! a = Some (ODict kvs) ->
  NoDup (dict_keys (idmap loader)) ->
  (forall f m, In f (dict_keys (idmap loader)) ->
     dict_get f kvs = Some (VRef m) -> m <> a /\ is_Some (heap st !! m)) ->
  (forall f m inner, In f (dict_keys (idmap loader)) ->
     idmap_inner (heap st) kvs f = Some (m, inner) ->
     NoDup (dict_keys inner)
     /\ forall k b, dict_get k inner = Some (VRef b) ->
                    is_Some (heap st !! b)) ->
  (forall f1 m1 inner1 k1 f2 m2 inner2 k2 b,
     In f1 (dict_keys (idmap loader)) -> In f2 (dict_keys (idmap loader)) ->
     idmap_inner (heap st) kvs f1 = Some (m1, inner1) ->
     idmap_inner (heap st) kvs f2 = Some (m2, inner2) ->
     dict_get k1 inner1 = Some (VRef b) ->
     dict_get k2 inner2 = Some (VRef b) ->
     is_dict_in (heap st) (VRef b) = true -> f1 = f2 /\ k1 = k2) ->
  (forall x, idmap_value st kvs (dict_keys (idmap loader)) x ->
     x <> a
     /\ forall g, In g (dict_keys (idmap loader)) ->
                  dict_get g kvs <> Some (VRef x)) ->
  (forall l, Sorted (fun x y => String.leb x y = true) (sorted l)
             /\ Permutation (sorted l) l)
  /\ if forallb (field_ok loader st kvs) (dict_keys (idmap loader)) then
       exists hf kvs',
         _resolve_idmap (VRef a) loader st = (Ok tt, set_heap hf st)
         /\ hf !! a = Some (ODict kvs')
         /\ dict_keys kvs' = dict_keys kvs
         /\ (forall f, In f (dict_keys (idmap loader)) ->
               field_post loader st kvs hf kvs' f)
         /\ (forall f, ~ In f (dict_keys (idmap loader)) ->
               dict_get f kvs' = dict_get f kvs)
         /\ (forall x o, heap st !! x = Some o -> x <> a ->
               ~ idmap_value st kvs (dict_keys (idmap loader)) x ->
               hf !! x = Some o)
     else
       exists f m inner k stf,
         In f (dict_keys (idmap loader))
         /\ idmap_inner (heap st) kvs f = Some (m, inner)
         /\ In k (dict_keys inner)
         /\ _resolve_idmap (VRef a) loader st
            = (Raise (ValidationException (MNoMapPredicate f k)), stf).
Proof.
  intros Ha Hnd Hfields Hinner Hdistinct Hapart.
  split. { intros l. split; [apply sorted_Sorted | apply sorted_perm]. }
  assert (idmap_ready loader a st kvs (dict_keys (idmap loader))) as Hready.
  { split; try done.
    - intros f Hf. by apply dict_get_in_keys.
    - intros f m inner Hf Hin. by apply (Hinner f m inner Hf Hin).
    - intros f m inner k b Hf Hin. by apply (Hinner f m inner Hf Hin). }
  pose proof (idmap_fields_loop loader a (dict_keys (idmap loader)) st kvs
                Hnd Hready) as Hloop.
  unfold _resolve_idmap.
  destruct (forallb (field_ok loader st kvs) (dict_keys (idmap loader))).
  - destruct Hloop as (hf & kvs' & Hrun & Haf & Hkeys & _ & Hposts & Hothers
                       & Hframe).
    by exists hf, kvs'.
  - exact Hloop.
Qed.

Lemma C7_idmap_desugaring_witness :
  exists ls hf,
    _resolve_idmap (VRef 2) loader_inputs state_inputs
    = (Ok tt, set_heap hf state_inputs)
    /\ hf !! 2 = Some (ODict [("inputs", VRef (pred (length hf)))])
    /\ hf !! pred (length hf) = Some (OList ls)
    /\ ls = [VRef 3; VRef 0]
    /\ hf !! 3 = Some (ODict [("type", VStr "string"); ("id", VStr "x")])
    /\ hf !! 0 = Some (ODict [("type", VStr "int"); ("id", VStr "y")]).
Proof.
  pose proof (C7_idmap_desugaring loader_inputs 2 [("inputs", VRef 1)]
                state_inputs eq_refl) as H.
  assert (forall f m inner,
            In f (dict_keys (idmap loader_inputs)) ->
            idmap_inner (heap state_inputs) [("inputs", VRef 1)] f
            = Some (m, inner) ->
            f = "inputs" /\ m = 1
            /\ inner = [("x", VStr "string"); ("y", VRef 0)]) as Hin.
  { intros f m inner [<- | []]. cbn. by intros [= <- <-]. }
  assert (forall k b,
            dict_get k [("x", VStr "string"); ("y", VRef 0)] = Some (VRef b) ->
            k = "y" /\ b = 0) as Hy.
  { intros k b. cbn.
    destruct (String.eqb_spec k "x"); [done |].
    destruct (String.eqb_spec k "y"); [by intros [= <-] | done]. }
  assert (forall x,
            idmap_value state_inputs [("inputs", VRef 1)]
              (dict_keys (idmap loader_inputs)) x -> x = 0) as Hv.
  { intros x (f & m & inner & k & Hf & Hi & Hk & _).
    destruct (Hin f m inner Hf Hi) as (_ & _ & ->).
    by destruct (Hy k x Hk). }
  destruct H as (_ & H).
  - by apply (bool_decide_unpack _).
  - intros f m [<- | []]. cbn. intros [= <-]. split; [lia | by eexists].
  - intros f m inner Hf Hi. destruct (Hin f m inner Hf Hi) as (_ & _ & ->).
    split; [by apply (bool_decide_unpack _) |].
    intros k b Hk. destruct (Hy k b Hk) as [_ ->]. by eexists.
  - intros f1 m1 i1 k1 f2 m2 i2 k2 b Hf1 Hf2 Hi1 Hi2 Hk1 Hk2 _.
    destruct (Hin f1 m1 i1 Hf1 Hi1) as (-> & _ & ->).
    destruct (Hin f2 m2 i2 Hf2 Hi2) as (-> & _ & ->).
    destruct (Hy k1 b Hk1) as [-> _]. by destruct (Hy k2 b Hk2) as [-> _].
  - intros x Hx. rewrite (Hv x Hx). split; [lia |].
    intros g [<- | []]. cbn. congruence.
  - change (forallb (field_ok loader_inputs state_inputs [("inputs", VRef 1)])
              (dict_keys (idmap loader_inputs))) with true in H.
    destruct H as (hf & kvs' & Hrun & _).
    exists [VRef 3; VRef 0], hf.
    pose proof Hrun as Hhf. vm_compute in Hhf.
    injection Hhf as <-.
    split; [exact Hrun |]. by repeat split.
Defined.

(** *** C8: the deep copy and the overlay of a mixin *)

(** The copy that [memo] records for the object [a]. *)
Definition memo_get (memo : list (addr * addr)) (a : addr) : option addr :=
  snd <$> List.find (fun p => Nat.eqb (fst p) a) memo.

(** A value and an object with the references replaced by the copies. *)
Definition copy_val (memo : list (addr * addr)) (v : Val) : Val :=
  match v with
  | VRef a => match memo_get memo a with Some a' => VRef a' | None => v end
  | _ => v
  end.

Definition copy_items (memo : list (addr * addr)) (kvs : list (string * Val))
  : list (string * Val) :=
  dict_update [] (map (fun kv => (fst kv, copy_val memo (snd kv))) kvs).

Definition copy_obj (memo : list (addr * addr)) (o : Obj) : Obj :=
  match o with
  | OList xs => OList (map (copy_val memo) xs)
  | ODict kvs => ODict (copy_items memo kvs)
  end.

(** The values an object holds. *)
Definition held (o : Obj) : list Val :=
  match o with
  | OList xs => xs
  | ODict kvs => map snd kvs
  end.

Definition valid_val (n : nat) (v : Val) : bool :=
  match v with VRef a => a <? n | _ => true end.

(** Every reference held by an object of the store is an object of the
    store. *)
Definition closed (h : list Obj) : bool :=
  forallb (fun o => forallb (valid_val (length h)) (held o)) h.

Definition in_memo (memo : list (addr * addr)) (v : Val) : Prop :=
  match v with VRef a => is_Some (memo_get memo a) | _ => True end.

Definition memo_le (m m' : list (addr * addr)) : Prop :=
  forall b b', memo_get m b = Some b' -> memo_get m' b = Some b'.

Lemma memo_get_cons (a a' : addr) (m : list (addr * addr)) (b : addr) :
  memo_get ((a, a') :: m) b = if Nat.eqb a b then Some a' else memo_get m b.
Proof. unfold memo_get. cbn. by destruct (Nat.eqb a b). Qed.

Lemma memo_le_refl m : memo_le m m.
Proof. by intros ? ?. Qed.

Lemma memo_le_trans m1 m2 m3 : memo_le m1 m2 -> memo_le m2 m3 -> memo_le m1 m3.
Proof. intros H1 H2 b b' Hb. by apply H2, H1. Qed.

Lemma in_memo_le m m' v : memo_le m m' -> in_memo m v -> in_memo m' v.
Proof.
  intros Hle. destruct v as [| | | |a]; try done.
  intros [a' Ha]. exists a'. by apply Hle.
Qed.

Lemma copy_val_le m m' v :
  memo_le m m' -> in_memo m v -> copy_val m' v = copy_val m v.
Proof.
  intros Hle. destruct v as [| | | |a]; try done.
  intros [a' Ha]. cbn. by rewrite Ha, (Hle _ _ Ha).
Qed.

Lemma copy_vals_le m m' (xs : list Val) :
  memo_le m m' -> Forall (in_memo m) xs ->
  map (copy_val m') xs = map (copy_val m) xs.
Proof.
  intros Hle Hxs. induction Hxs as [|x xs Hx Hxs IH]; [done |].
  cbn. by rewrite IH, (copy_val_le m m' x).
Qed.

Lemma copy_items_le m m' (kvs : list (string * Val)) :
  memo_le m m' -> Forall (in_memo m) (map snd kvs) ->
  copy_items m' kvs = copy_items m kvs.
Proof.
  intros Hle Hxs. unfold copy_items. f_equal.
  induction kvs as [|[k v] kvs IH]; [done |].
  cbn in *. apply Forall_cons in Hxs as [Hv Hxs].
  by rewrite IH, (copy_val_le m m' v).
Qed.

Lemma copy_obj_le m m' o :
  memo_le m m' -> Forall (in_memo m) (held o) -> copy_obj m' o = copy_obj m o.
Proof.
  intros Hle Ho. destruct o as [kvs|xs]; cbn.
  - by rewrite (copy_items_le m m').
  - by rewrite (copy_vals_le m m').
Qed.

Lemma copy_items_snoc m (kvs : list (string * Val)) (k : string) (v : Val) :
  copy_items m (kvs ++ [(k, v)]) = dict_set k (copy_val m v) (copy_items m kvs).
Proof.
  unfold copy_items, dict_update. rewrite map_app, fold_left_app. done.
Qed.

Lemma closed_held (h : list Obj) (x : addr) (o : Obj) :
  closed h = true -> h !! x = Some o ->
  Forall (fun v => valid_val (length h) v = true) (held o).
Proof.
  unfold closed. rewrite forallb_forall. intros Hc Hx.
  apply Forall_forall. intros v Hv.
  assert (In o h) as Ho.
  { apply list_elem_of_In. by eapply list_elem_of_lookup_2. }
  specialize (Hc o Ho). rewrite forallb_forall in Hc.
  apply Hc. by apply list_elem_of_In.
Qed.

Lemma bounded_length (n : nat) (l : list nat) :
  NoDup l -> (forall x, In x l -> x < n) -> length l <= n.
Proof.
  intros Hnd Hlt.
  assert (l ⊆+ seq 0 n) as Hsub.
  { apply NoDup_submseteq; [done |]. intros x Hx.
    apply elem_of_seq. apply list_elem_of_In, Hlt in Hx. lia. }
  apply submseteq_length in Hsub. by rewrite length_seq in Hsub.
Qed.

(** The state of a deep copy of objects of the store [h0], in the store
    [h]: the objects of [h0] are as they were; [memo] sends objects of [h0]
    to new objects, distinct ones to distinct ones; the copy of an object
    that is not being copied right now ([P] lists those that are) holds
    the copies of what the object holds. *)
Record copying (h0 h : list Obj) (memo : list (addr * addr))
    (P : list addr) : Prop := {
  cp_old : forall x, x < length h0 -> h !! x = h0 !! x;
  cp_len : length h0 <= length h;
  cp_range : forall b b', memo_get memo b = Some b' ->
               b < length h0 /\ length h0 <= b' < length h;
  cp_inj : forall b1 b2 c, memo_get memo b1 = Some c ->
             memo_get memo b2 = Some c -> b1 = b2;
  cp_done : forall b b', memo_get memo b = Some b' -> ~ In b P ->
              exists o, h0 !! b = Some o
                        /\ h !! b' = Some (copy_obj memo o)
                        /\ Forall (in_memo memo) (held o);
  cp_pending : forall b, In b P -> is_Some (memo_get memo b);
  cp_nodup : NoDup P
}.

Lemma copying_bound h0 h memo P :
  copying h0 h memo P -> length P <= length h0.
Proof.
  intros H. apply bounded_length; [apply (cp_nodup _ _ _ _ H) |].
  intros x Hx. destruct (cp_pending _ _ _ _ H x Hx) as [x' Hx'].
  by apply (cp_range _ _ _ _ H x x').
Qed.

Lemma store_run (a : addr) (o : Obj) (st : State) :
  store a o st = (Ok tt, set_heap (<[a := o]> (heap st)) st).
Proof. reflexivity. Qed.

(** A new, empty copy [a'] is recorded for [a]. *)
Lemma copying_start h0 h memo P (a : addr) (o' : Obj) :
  copying h0 h memo P -> a < length h0 -> memo_get memo a = None ->
  copying h0 (h ++ [o']) ((a, length h) :: memo) (a :: P)
  /\ memo_le memo ((a, length h) :: memo).
Proof.
  intros H Ha Hnone.
  assert (memo_le memo ((a, length h) :: memo)) as Hle.
  { intros b b' Hb. rewrite memo_get_cons.
    destruct (Nat.eqb_spec a b) as [<-|]; [congruence | done]. }
  split; [|done]. split.
  - intros x Hx. rewrite lookup_app_l.
    + by apply (cp_old _ _ _ _ H).
    + pose proof (cp_len _ _ _ _ H). lia.
  - rewrite length_app. pose proof (cp_len _ _ _ _ H). lia.
  - intros b b'. rewrite memo_get_cons, length_app. cbn.
    destruct (Nat.eqb_spec a b) as [<-|Hne].
    + intros [= <-]. pose proof (cp_len _ _ _ _ H). lia.
    + intros Hb. destruct (cp_range _ _ _ _ H b b' Hb). lia.
  - intros b1 b2 c. rewrite !memo_get_cons.
    destruct (Nat.eqb_spec a b1) as [<-|Hne1],
             (Nat.eqb_spec a b2) as [<-|Hne2]; try done.
    + intros [= <-] Hb. destruct (cp_range _ _ _ _ H b2 _ Hb). lia.
    + intros Hb [= <-]. destruct (cp_range _ _ _ _ H b1 _ Hb). lia.
    + apply (cp_inj _ _ _ _ H).
  - intros b b'. rewrite memo_get_cons.
    destruct (Nat.eqb_spec a b) as [<-|Hne].
    { intros _ Hb. destruct Hb. by left. }
    intros Hb HbP.
    destruct (cp_done _ _ _ _ H b b' Hb) as (o & Ho & Hc & Hin).
    { intros ?. apply HbP. by right. }
    exists o. split; [done |]. split.
    + rewrite lookup_app_l by (destruct (cp_range _ _ _ _ H b b' Hb); lia).
      by rewrite (copy_obj_le memo).
    + eapply Forall_impl; [exact Hin |]. intros v. by apply in_memo_le.
  - intros b [<- | Hb].
    + rewrite memo_get_cons, Nat.eqb_refl. by eexists.
    + destruct (cp_pending _ _ _ _ H b Hb) as [b' Hb'].
      exists b'. by apply Hle.
  - apply NoDup_cons. split; [|apply (cp_nodup _ _ _ _ H)].
    intros Hin. apply list_elem_of_In in Hin.
    destruct (cp_pending _ _ _ _ H a Hin) as [? ?]. congruence.
Qed.

(** The copy [a'] of [a], which is being made, is updated. *)
Lemma copying_store h0 h memo P (a a' : addr) (o : Obj) :
  copying h0 h memo (a :: P) -> memo_get memo a = Some a' ->
  copying h0 (<[a' := o]> h) memo (a :: P).
Proof.
  intros H Ha.
  destruct (cp_range _ _ _ _ H a a' Ha) as [Ha0 Ha'].
  split.
  - intros x Hx. rewrite list_lookup_insert_ne by lia.
    by apply (cp_old _ _ _ _ H).
  - rewrite length_insert. apply (cp_len _ _ _ _ H).
  - intros b b' Hb. rewrite length_insert. by apply (cp_range _ _ _ _ H).
  - apply (cp_inj _ _ _ _ H).
  - intros b b' Hb HbP.
    destruct (cp_done _ _ _ _ H b b' Hb HbP) as (o1 & Ho & Hc & Hin).
    exists o1. split; [done |]. split; [|done].
    rewrite list_lookup_insert_ne; [done |].
    intros <-. apply HbP. left. by apply (cp_inj _ _ _ _ H a b a').
  - apply (cp_pending _ _ _ _ H).
  - apply (cp_nodup _ _ _ _ H).
Qed.

(** The copy of [a] is complete. *)
Lemma copying_finish h0 h memo P (a a' : addr) (o : Obj) :
  copying h0 h memo (a :: P) -> memo_get memo a = Some a' ->
  h0 !! a = Some o -> h !! a' = Some (copy_obj memo o) ->
  Forall (in_memo memo) (held o) ->
  copying h0 h memo P.
Proof.
  intros H Ha Ho Hc Hin. split.
  - apply (cp_old _ _ _ _ H).
  - apply (cp_len _ _ _ _ H).
  - apply (cp_range _ _ _ _ H).
  - apply (cp_inj _ _ _ _ H).
  - intros b b' Hb HbP. destruct (Nat.eq_dec b a) as [->|Hne].
    + exists o. assert (b' = a') as -> by congruence. done.
    + apply (cp_done _ _ _ _ H b b' Hb). by intros [<-|?].
  - intros b Hb. apply (cp_pending _ _ _ _ H). by right.
  - pose proof (cp_nodup _ _ _ _ H) as Hnd. by apply NoDup_cons in Hnd as [_ ?].
Qed.

(** [deepcopy] on a value of the closed store [h0], with enough fuel for
    the objects that are not being copied yet: it returns the copy of the
    value, extends the memo, and writes into new objects only. *)
Lemma deepcopy_spec (h0 : list Obj) (Hclosed : closed h0 = true) (fuel : nat) :
  forall (memo : list (addr * addr)) (P : list addr) (v : Val) (st : State),
    copying h0 (heap st) memo P ->
    valid_val (length h0) v = true ->
    length h0 < fuel + length P ->
    exists memo' h',
      deepcopy fuel memo v st = (Ok (copy_val memo' v, memo'), set_heap h' st)
      /\ copying h0 h' memo' P
      /\ memo_le memo memo'
      /\ in_memo memo' v
      /\ length (heap st) <= length h'
      /\ (forall x, x < length (heap st) -> h' !! x = heap st !! x).
Proof.
  induction fuel as [|f IH]; intros memo P v st Hcp Hv Hfuel.
  { pose proof (copying_bound _ _ _ _ Hcp). cbn in Hfuel. lia. }
  cbn [deepcopy].
  destruct v as [| | | |a];
    try (exists memo, (heap st); rewrite set_heap_id;
         split_and!; first [done | apply memo_le_refl | lia]).
  cbn in Hv. apply Nat.ltb_lt in Hv.
  destruct (List.find (fun p => Nat.eqb (fst p) a) memo) as [[b a']|] eqn:Hfind.
  { assert (memo_get memo a = Some a') as Hget.
    { unfold memo_get. by rewrite Hfind. }
    exists memo, (heap st). rewrite set_heap_id. cbn. rewrite Hget.
    split_and!; first [done | apply memo_le_refl | lia | by eexists]. }
  assert (memo_get memo a = None) as Hnone.
  { unfold memo_get. by rewrite Hfind. }
  assert (exists o, h0 !! a = Some o) as [o Ho].
  { by apply lookup_lt_is_Some. }
  assert (heap st !! a = Some o) as Ha.
  { by rewrite (cp_old _ _ _ _ Hcp). }
  rewrite (bind_run _ _ _ _ _ (load_run _ _ _ Ha)).
  pose proof (closed_held h0 a o Hclosed Ho) as Hheld.
  set (a' := length (heap st)).
  assert (length h0 < f + length (a :: P)) as Hfuel' by (cbn; lia).
  destruct o as [kvs|xs].
  - (* a mapping *)
    rewrite (bind_run _ _ _ _ _ (alloc_run _ _)). cbv beta iota.
    destruct (copying_start h0 (heap st) memo P a (ODict [])
                Hcp Hv Hnone) as [Hcp1 Hle1].
    fold a' in Hcp1, Hle1.
    match goal with |- context [fold_each _ _ ?b] => set (body := b) end.
    assert (forall (rest done : list (string * Val)) memoi sti,
              copying h0 (heap sti) memoi (a :: P) ->
              memo_get memoi a = Some a' ->
              heap sti !! a' = Some (ODict (copy_items memoi done)) ->
              Forall (in_memo memoi) (map snd done) ->
              Forall (fun v => valid_val (length h0) v = true)
                (map snd rest) ->
              exists memo' h',
                fold_each rest memoi body sti = (Ok memo', set_heap h' sti)
                /\ copying h0 h' memo' (a :: P)
                /\ memo_le memoi memo'
                /\ h' !! a' = Some (ODict (copy_items memo' (done ++ rest)))
                /\ Forall (in_memo memo') (map snd (done ++ rest))
                /\ length (heap sti) <= length h'
                /\ (forall x, x < length (heap sti) -> x <> a' ->
                              h' !! x = heap sti !! x)) as Hloop.
    { induction rest as [|[k x] rest IHr];
        intros done memoi sti Hcpi Hai Hci Hdone Hrest.
      { cbn. exists memoi, (heap sti). rewrite set_heap_id, app_nil_r.
        split_and!; first [done | apply memo_le_refl | lia]. }
      cbn [fold_each]. unfold body at 1. cbn [fst snd].
      cbn in Hrest. apply Forall_cons in Hrest as [Hx Hrest].
      destruct (IH memoi (a :: P) x sti Hcpi Hx Hfuel')
        as (memo2 & h2 & Hrun & Hcp2 & Hle2 & Hin2 & Hlen2 & Hframe2).
      rewrite bind_eq, bind_eq, Hrun. cbv beta iota.
      destruct (cp_range _ _ _ _ Hcpi a a' Hai) as [_ Ha'i].
      assert (h2 !! a' = Some (ODict (copy_items memoi done))) as Hc2.
      { rewrite Hframe2 by lia. done. }
      erewrite bind_run; cycle 1.
      { apply (setitem_run (set_heap h2 sti) a'). exact Hc2. }
      cbn [ret]. rewrite set_heap_set_heap. cbn [heap set_heap].
      match goal with
      | |- context [fold_each _ _ _ (set_heap ?h sti)] => set (h3 := h)
      end.
      assert (memo_get memo2 a = Some a') as Ha2 by (by apply Hle2).
      assert (copying h0 h3 memo2 (a :: P)) as Hcp3.
      { by apply copying_store. }
      assert (h3 !! a'
              = Some (ODict (copy_items memo2 (done ++ [(k, x)])))) as Hc3.
      { unfold h3. rewrite list_lookup_insert_eq by lia.
        by rewrite copy_items_snoc, (copy_items_le memoi memo2). }
      assert (Forall (in_memo memo2) (map snd (done ++ [(k, x)]))) as Hdone3.
      { rewrite map_app. apply Forall_app. split.
        - eapply Forall_impl; [exact Hdone |]. intros v. by apply in_memo_le.
        - by repeat constructor. }
      destruct (IHr (done ++ [(k, x)]) memo2 (set_heap h3 sti) Hcp3 Ha2 Hc3
                  Hdone3 Hrest)
        as (memo' & h' & Hrun' & Hcp' & Hle' & Hc' & Hin' & Hlen' & Hframe').
      exists memo', h'. rewrite Hrun', set_heap_set_heap.
      rewrite <- app_assoc in Hc', Hin'. cbn in Hc', Hin'.
      cbn [heap set_heap] in Hlen', Hframe'.
      assert (length h3 = length h2) as Hl3 by (by apply length_insert).
      split_and!; try done.
      - by eapply memo_le_trans.
      - lia.
      - intros y Hy Hya. rewrite Hframe' by lia.
        unfold h3. rewrite list_lookup_insert_ne by done. by apply Hframe2. }
    destruct (Hloop kvs [] ((a, a') :: memo)
                (set_heap (heap st ++ [ODict []]) st) Hcp1)
      as (memo' & h' & Hrun & Hcp' & Hle' & Hc' & Hin' & Hlen' & Hframe').
    { by rewrite memo_get_cons, Nat.eqb_refl. }
    { cbn. rewrite lookup_app_r by lia. by rewrite Nat.sub_diag. }
    { constructor. }
    { exact Hheld. }
    rewrite (bind_run _ _ _ _ _ Hrun). cbn [ret]. rewrite set_heap_set_heap.
    cbn [app] in Hc', Hin'. cbn [heap set_heap] in Hlen', Hframe'.
    rewrite length_app in Hlen', Hframe'. cbn in Hlen', Hframe'.
    assert (memo_get memo' a = Some a') as Hget'.
    { apply Hle'. by rewrite memo_get_cons, Nat.eqb_refl. }
    exists memo', h'. cbn [copy_val]. rewrite Hget'.
    split_and!; try done.
    + by apply (copying_finish h0 h' memo' P a a' (ODict kvs)).
    + by eapply memo_le_trans.
    + by eexists.
    + lia.
    + intros y Hy. rewrite Hframe' by (unfold a'; lia).
      apply lookup_app_l. done.
  - (* a sequence *)
    rewrite (bind_run _ _ _ _ _ (alloc_run _ _)). cbv beta iota.
    destruct (copying_start h0 (heap st) memo P a (OList [])
                Hcp Hv Hnone) as [Hcp1 Hle1].
    fold a' in Hcp1, Hle1.
    match goal with |- context [fold_each _ _ ?b] => set (body := b) end.
    assert (forall (rest done : list Val) memoi sti,
              copying h0 (heap sti) memoi (a :: P) ->
              memo_get memoi a = Some a' ->
              heap sti !! a' = Some (OList (map (copy_val memoi) done)) ->
              Forall (in_memo memoi) done ->
              Forall (fun v => valid_val (length h0) v = true) rest ->
              exists memo' h',
                fold_each rest memoi body sti = (Ok memo', set_heap h' sti)
                /\ copying h0 h' memo' (a :: P)
                /\ memo_le memoi memo'
                /\ h' !! a' = Some (OList (map (copy_val memo') (done ++ rest)))
                /\ Forall (in_memo memo') (done ++ rest)
                /\ length (heap sti) <= length h'
                /\ (forall x, x < length (heap sti) -> x <> a' ->
                              h' !! x = heap sti !! x)) as Hloop.
    { induction rest as [|x rest IHr];
        intros done memoi sti Hcpi Hai Hci Hdone Hrest.
      { cbn. exists memoi, (heap sti). rewrite set_heap_id, app_nil_r.
        split_and!; first [done | apply memo_le_refl | lia]. }
      cbn [fold_each]. unfold body at 1.
      apply Forall_cons in Hrest as [Hx Hrest].
      destruct (IH memoi (a :: P) x sti Hcpi Hx Hfuel')
        as (memo2 & h2 & Hrun & Hcp2 & Hle2 & Hin2 & Hlen2 & Hframe2).
      rewrite bind_eq, bind_eq, Hrun. cbv beta iota.
      destruct (cp_range _ _ _ _ Hcpi a a' Hai) as [_ Ha'i].
      assert (h2 !! a' = Some (OList (map (copy_val memoi) done))) as Hc2.
      { rewrite Hframe2 by lia. done. }
      erewrite bind_run; cycle 1.
      { apply (elements_run (set_heap h2 sti) a'). exact Hc2. }
      rewrite (bind_run _ _ _ _ _ (store_run _ _ _)).
      cbn [ret]. rewrite set_heap_set_heap. cbn [heap set_heap].
      match goal with
      | |- context [fold_each _ _ _ (set_heap ?h sti)] => set (h3 := h)
      end.
      assert (memo_get memo2 a = Some a') as Ha2 by (by apply Hle2).
      assert (copying h0 h3 memo2 (a :: P)) as Hcp3.
      { by apply copying_store. }
      assert (h3 !! a'
              = Some (OList (map (copy_val memo2) (done ++ [x])))) as Hc3.
      { unfold h3. rewrite list_lookup_insert_eq by lia.
        by rewrite map_app, (copy_vals_le memoi memo2). }
      assert (Forall (in_memo memo2) (done ++ [x])) as Hdone3.
      { apply Forall_app. split.
        - eapply Forall_impl; [exact Hdone |]. intros v. by apply in_memo_le.
        - by repeat constructor. }
      destruct (IHr (done ++ [x]) memo2 (set_heap h3 sti) Hcp3 Ha2 Hc3
                  Hdone3 Hrest)
        as (memo' & h' & Hrun' & Hcp' & Hle' & Hc' & Hin' & Hlen' & Hframe').
      exists memo', h'. rewrite Hrun', set_heap_set_heap.
      rewrite <- app_assoc in Hc', Hin'. cbn in Hc', Hin'.
      cbn [heap set_heap] in Hlen', Hframe'.
      assert (length h3 = length h2) as Hl3 by (by apply length_insert).
      split_and!; try done.
      - by eapply memo_le_trans.
      - lia.
      - intros y Hy Hya. rewrite Hframe' by lia.
        unfold h3. rewrite list_lookup_insert_ne by done. by apply Hframe2. }
    destruct (Hloop xs [] ((a, a') :: memo)
                (set_heap (heap st ++ [OList []]) st) Hcp1)
      as (memo' & h' & Hrun & Hcp' & Hle' & Hc' & Hin' & Hlen' & Hframe').
    { by rewrite memo_get_cons, Nat.eqb_refl. }
    { cbn. rewrite lookup_app_r by lia. by rewrite Nat.sub_diag. }
    { constructor. }
    { exact Hheld. }
    rewrite (bind_run _ _ _ _ _ Hrun). cbn [ret]. rewrite set_heap_set_heap.
    cbn [app] in Hc', Hin'. cbn [heap set_heap] in Hlen', Hframe'.
    rewrite length_app in Hlen', Hframe'. cbn in Hlen', Hframe'.
    assert (memo_get memo' a = Some a') as Hget'.
    { apply Hle'. by rewrite memo_get_cons, Nat.eqb_refl. }
    exists memo', h'. cbn [copy_val]. rewrite Hget'.
    split_and!; try done.
    + by apply (copying_finish h0 h' memo' P a a' (OList xs)).
    + by eapply memo_le_trans.
    + by eexists.
    + lia.
    + intros y Hy. rewrite Hframe' by (unfold a'; lia).
      apply lookup_app_l. done.
Qed.

(** [st'] has the objects of [st], as they were, and possibly more. *)
Definition extends (st st' : State) : Prop :=
  exists ext, heap st' = heap st ++ ext.

Lemma extends_refl st : extends st st.
Proof. exists []. by rewrite app_nil_r. Qed.

Lemma extends_trans s1 s2 s3 : extends s1 s2 -> extends s2 s3 -> extends s1 s3.
Proof.
  intros [e1 H1] [e2 H2]. exists (e1 ++ e2). by rewrite H2, H1, app_assoc.
Qed.

Lemma extends_alloc o : keeps extends (alloc o).
Proof. intros st. by exists [o]. Qed.

Lemma extends_load a : keeps extends (load a).
Proof. intros st. unfold load. destruct (heap st !! a); apply extends_refl. Qed.

Lemma extends_modify (f : State -> State) :
  (forall st, heap (f st) = heap st) -> keeps extends (modify f).
Proof. intros Hf st. cbn. exists []. by rewrite Hf, app_nil_r. Qed.

Lemma extends_alloc_node n : keeps extends (alloc_node n).
Proof.
  pose proof extends_refl as Hrefl. pose proof extends_trans as Htrans.
  pose proof extends_alloc as Halloc.
  induction n as [| | | |l IH|kvs IH] using Node_nested_ind;
    cbn [alloc_node]; keeps_auto.
  - induction IH as [|x l Hx _ IHl]; keeps_auto.
  - generalize (@nil (string * Val)).
    induction IH as [|[k x] kvs Hx _ IHk]; intros acc; keeps_auto.
Qed.

(** [fetch] without identifier injection adds objects to the store and
    changes none. *)
Lemma extends_fetch (w : World) (self : Loader) (url : string) :
  keeps extends (fetch w self url false).
Proof.
  pose proof extends_refl as Hrefl. pose proof extends_trans as Htrans.
  pose proof extends_load as Hload. pose proof extends_alloc_node as Hnode.
  assert (forall f : State -> State, (forall st, heap (f st) = heap st) ->
            keeps extends (modify f)) as Hmod by apply extends_modify.
  unfold fetch.
  unfold idx_contains, idx_getitem, idx_setitem, fetch_text, log_io, is_dict.
  repeat (first [ done | rewrite !andb_false_r; cbn [andb] | keeps_step ]).
Qed.

(** *** Items of an updated mapping *)

Lemma dict_get_copy_items memo (k : string) (kvs : list (string * Val)) :
  NoDup (dict_keys kvs) ->
  dict_get k (copy_items memo kvs) = copy_val memo <$> dict_get k kvs.
Proof.
  intros Hnd. unfold copy_items. rewrite dict_get_update.
  - induction kvs as [|[k' v'] kvs IH]; [done |].
    cbn in Hnd. apply NoDup_cons in Hnd as [_ Hnd]. cbn.
    destruct (String.eqb k k'); [done |]. by apply IH.
  - unfold dict_keys. rewrite map_map. exact Hnd.
Qed.

Lemma dict_get_del_eq {V} (k : string) (d : list (string * V)) :
  NoDup (dict_keys d) -> dict_get k (dict_del k d) = None.
Proof.
  induction d as [|[k' v'] d IH]; [done |]. cbn.
  intros Hnd. apply NoDup_cons in Hnd as [Hk' Hnd].
  destruct (String.eqb_spec k k') as [->|Hne].
  - apply dict_has_false_keys in Hk'. unfold dict_has in Hk'.
    by destruct (dict_get k' d).
  - cbn. apply String.eqb_neq in Hne as ->. by apply IH.
Qed.

(** The items of the overlay of a mixin [kvs] on a copy with the items
    [ckvs]: [$mixin] is gone, a key of the mixin mapping holds what it
    holds there, any other key what the copy holds. *)
Lemma overlay_items (kvs ckvs : list (string * Val)) (key : string) :
  NoDup (dict_keys kvs) -> NoDup (dict_keys ckvs) ->
  dict_get key (dict_del "$mixin" (dict_update ckvs kvs))
  = if String.eqb key "$mixin" then None
    else match dict_get key kvs with
         | Some v => Some v
         | None => dict_get key ckvs
         end.
Proof.
  intros Hk Hc. destruct (String.eqb_spec key "$mixin") as [->|Hne].
  - apply dict_get_del_eq. by apply dict_update_NoDup.
  - rewrite dict_get_del_ne by done. by apply dict_get_update.
Qed.

(** [copy.deepcopy(doc)], as [mixin_overlay] calls it, on a closed store:
    the result is the copy of [doc] under a memo that sends every object
    it lists to a new object holding the copies of what that object
    holds; the objects of the store are as they were. *)
Lemma deepcopy_run (doc : Val) (st : State) :
  closed (heap st) = true ->
  valid_val (length (heap st)) doc = true ->
  exists memo h',
    deepcopy (S (length (heap st))) [] doc st
    = (Ok (copy_val memo doc, memo), set_heap h' st)
    /\ copying (heap st) h' memo []
    /\ in_memo memo doc.
Proof.
  intros Hclosed Hdoc.
  assert (copying (heap st) (heap st) [] []) as Hcp.
  { split; try done. constructor. }
  destruct (deepcopy_spec (heap st) Hclosed (S (length (heap st))) [] [] doc st
              Hcp Hdoc) as (memo & h' & Hrun & Hcp' & _ & Hin & _ & _).
  { cbn. lia. }
  by exists memo, h'.
Qed.

(** C8: [resolve_ref] raises [ValueError] on every mapping in which
    [$import] or [$include] comes with another key, whatever that key is,
    and leaves the state as it is.  A mapping with [$mixin] (and neither of
    the two) is accepted with its sibling keys.  When the fetch of the
    target, made without identifier injection, returns the mapping [d0] in
    a closed store, the mapping is overlaid on a deep copy of [d0]: the
    memo sends each object below [d0] to a new object that holds the
    copies of what the object holds, and no object that was there is
    changed; the copy of [d0] is then updated with the items of the mixin
    mapping and loses [$mixin], so that a sibling key holds the sibling's
    value (the same object, not a copy) and every other key the copy of
    the value in [d0]; this overlay is what [resolve_all] resolves, with
    the base URL of the mixin mapping and the fetched URL as the file. *)
Theorem C8_directive_exclusivity (w : World) (fuel : nat) (self : Loader)
    (a : addr) (kvs : list (string * Val)) (base : string)
    (checklinks : bool) (st : State) :
  heap st !! a = Some (ODict kvs) ->
  ((dict_has "$import" kvs = true \/ dict_has "$include" kvs = true) ->
   length kvs <> 1 ->
   resolve_ref w (S fuel) self (VRef a) base checklinks st
   = (Raise ValueError, st))
  /\ (dict_has "$import" kvs = false ->
      dict_has "$include" kvs = false ->
      forall (r url k doc_url frg k' : string) (d0 : addr)
             (dkvs : list (string * Val)) (st1 : State),
        dict_get "$mixin" kvs = Some (VStr r) ->
        expand_url self r (default_base w base) false false None = Ok url ->
        normalize url = Ok k ->
        Urllib.urldefrag url = Ok (doc_url, frg) ->
        normalize doc_url = Ok k' ->
        fetch w self doc_url false st = (Ok (VRef d0), st1) ->
        heap st1 !! d0 = Some (ODict dkvs) ->
        closed (heap st1) = true ->
        exists (memo : list (addr * addr)) (d : addr) (h2 : list Obj),
          let overlay :=
            dict_del "$mixin" (dict_update (copy_items memo dkvs) kvs) in
          let st2 := set_heap (<[d := ODict overlay]> h2) st1 in
          memo_get memo d0 = Some d
          /\ copying (heap st1) h2 memo []
          /\ heap st1 !! a = Some (ODict kvs)
          /\ mixin_overlay (VRef d0) (VRef a) st1 = (Ok (VRef d), st2)
          /\ (forall x, x < length (heap st1) -> heap st2 !! x = heap st1 !! x)
          /\ (NoDup (dict_keys kvs) -> NoDup (dict_keys dkvs) ->
              forall key,
                dict_get key overlay
                = if String.eqb key "$mixin" then None
                  else match dict_get key kvs with
                       | Some v => Some v
                       | None => copy_val memo <$> dict_get key dkvs
                       end)
          /\ resolve_ref w (S fuel) self (VRef a) base checklinks st
             = (res <- resolve_all w fuel self (VRef d) (default_base w base)
                         (Some doc_url) checklinks ;;
                split_graph (fst res) (snd res)) st2).
Proof.
  intros Ha.
  destruct (resolve_ref_directive_cases w fuel self a kvs base checklinks st Ha)
    as [Hexcl Hmixin].
  split; [exact Hexcl |].
  intros Himp Hinc r url k doc_url frg k' d0 dkvs st1 Hmix Hurl Hk Hdefrag Hk'
    Hfetch Hd0 Hclosed.
  pose proof (extends_fetch w self doc_url st) as [ext Hext].
  rewrite Hfetch in Hext. cbn [snd] in Hext.
  assert (heap st1 !! a = Some (ODict kvs)) as Ha1.
  { rewrite Hext. rewrite lookup_app_l; [done | by eapply lookup_lt_Some]. }
  assert (valid_val (length (heap st1)) (VRef d0) = true) as Hvalid.
  { cbn. apply Nat.ltb_lt. by eapply lookup_lt_Some. }
  destruct (deepcopy_run (VRef d0) st1 Hclosed Hvalid)
    as (memo & h2 & Hcopy & Hcp & [d Hd]).
  cbn [copy_val] in Hcopy. rewrite Hd in Hcopy.
  destruct (cp_range _ _ _ _ Hcp d0 d Hd) as [_ Hdrange].
  destruct (cp_done _ _ _ _ Hcp d0 d Hd) as (o & Ho & Hcd & _); [by intros [] |].
  rewrite Hd0 in Ho. injection Ho as <-. cbn [copy_obj] in Hcd.
  assert (a < length (heap st1)) as Halt by (by eapply lookup_lt_Some).
  assert (h2 !! a = Some (ODict kvs)) as Ha2.
  { etrans; [apply (cp_old _ _ _ _ Hcp a Halt) | exact Ha1]. }
  assert (dict_has "$mixin" kvs = true) as Hhas.
  { unfold dict_has. by rewrite Hmix. }
  pose proof (mixin_overlay_spec (VRef d0) a d kvs (copy_items memo dkvs) memo
                st1 (set_heap h2 st1) Hcopy Hcd Ha2) as Hover.
  rewrite set_heap_set_heap in Hover. cbn [heap set_heap] in Hover.
  specialize (Hover ltac:(lia) Hhas).
  exists memo, d, h2. cbv zeta.
  split; [done |]. split; [done |]. split; [done |]. split; [exact Hover |].
  split.
  { intros x Hx. cbn. rewrite list_lookup_insert_ne by lia.
    apply (cp_old _ _ _ _ Hcp x Hx). }
  split.
  { intros Hndk Hndd key. rewrite overlay_items; [| done |].
    - by rewrite dict_get_copy_items.
    - unfold copy_items. apply dict_update_NoDup. constructor. }
  rewrite (Hmixin Himp Hinc r url k doc_url frg k' Hmix Hurl Hk Hdefrag Hk').
  rewrite (bind_run _ _ _ _ _ Hfetch).
  rewrite (bind_run _ _ _ _ _ Hover).
  reflexivity.
Qed.

(** The store of [state_mixin] once [base.yaml] has been fetched. *)
Definition state_mixin_fetched : State :=
  snd (fetch world_mixin loader_id "file:///dir/base.yaml" false state_mixin).

Lemma C8_directive_exclusivity_witness :
  resolve_ref world_mixin 10 loader_id (VRef 0) "file:///dir/doc.yaml" true
    state_import
  = (Raise ValueError, state_import)
  /\ (exists (memo : list (addr * addr)) (d : addr) (h2 : list Obj),
        let overlay :=
          dict_del "$mixin"
            (dict_update
               (copy_items memo
                  [("id", VStr "base"); ("label", VStr "x"); ("run", VStr "r")])
               [("$mixin", VStr "base.yaml"); ("label", VStr "override")]) in
        let st2 := set_heap (<[d := ODict overlay]> h2) state_mixin_fetched in
        memo_get memo 1 = Some d
        /\ copying (heap state_mixin_fetched) h2 memo []
        /\ mixin_overlay (VRef 1) (VRef 0) state_mixin_fetched
           = (Ok (VRef d), st2)
        /\ overlay = [("id", VStr "base"); ("label", VStr "override");
                      ("run", VStr "r")]
        /\ resolve_ref world_mixin 10 loader_id (VRef 0)
             "file:///dir/doc.yaml" true state_mixin
           = (res <- resolve_all world_mixin 9 loader_id (VRef d)
                       "file:///dir/doc.yaml" (Some "file:///dir/base.yaml")
                       true ;;
              split_graph (fst res) (snd res)) st2)
  /\ let r := resolve_ref world_mixin 10 loader_id (VRef 0)
                "file:///dir/doc.yaml" true state_mixin in
     fst r = Ok (VRef 2, VRef 3)
     /\ reify 3 (heap (snd r)) (VRef 2)
        = Some (NDict [("id", NStr "file:///dir/doc.yaml#base");
                       ("label", NStr "override"); ("run", NStr "r")])
     /\ reify 3 (heap (snd r)) (VRef 1)
        = Some (NDict [("id", NStr "base"); ("label", NStr "x");
                       ("run", NStr "r")])
     /\ reify 3 (heap (snd r)) (VRef 0)
        = Some (NDict [("$mixin", NStr "base.yaml");
                       ("label", NStr "override")]).
Proof.
  split; [|split].
  - apply (C8_directive_exclusivity world_mixin 9 loader_id 0
             [("$import", VStr "base.yaml"); ("label", VStr "override")]);
      [reflexivity | left; reflexivity | discriminate].
  - destruct (proj2 (C8_directive_exclusivity world_mixin 9 loader_id 0
                       [("$mixin", VStr "base.yaml");
                        ("label", VStr "override")]
                       "file:///dir/doc.yaml" true state_mixin eq_refl)
                eq_refl eq_refl "base.yaml" "file:///dir/base.yaml"
                "file:///dir/base.yaml" "file:///dir/base.yaml" ""
                "file:///dir/base.yaml" 1
                [("id", VStr "base"); ("label", VStr "x"); ("run", VStr "r")]
                state_mixin_fetched
                eq_refl eq_refl eq_refl eq_refl eq_refl eq_refl eq_refl
                eq_refl)
      as (memo & d & h2 & Hd & Hcp & _ & Hover & _ & _ & Hrun).
    exists memo, d, h2. cbv zeta. split; [exact Hd |]. split; [exact Hcp |].
    split; [exact Hover |]. split; [reflexivity | exact Hrun].
  - vm_compute. repeat split.
Defined.




